(** * The registry engine of the server (server/registry.c)

    A shallow embedding of the key tree, its value store, the dirty and
    notification walks, symbolic-link resolution, the save protocol and the
    request handlers, followed by the properties of the specification that
    were checked against them.

    Keys live in an arena: the address of a [struct key] is its index in
    [heap], [parent] is a non-owning address and [subkeys] is the sorted
    array of the children's addresses.  A key that was deleted stays in the
    arena (handles may still refer to it) with [KEY_DELETED] set and no
    parent.  Loops that follow pointers take fuel; [None] is the result of a
    run that dereferences a dangling address or runs out of fuel, and the
    lemmas of the second part show that neither happens on a well-formed
    tree. *)

From Stdlib Require Import ZArith List Lia Bool String Ascii.
From stdpp Require Import base option list.

Local Open Scope Z_scope.

Ltac Zify.zify_post_hook ::= Z.to_euclidean_division_equations.

(** ** Constants *)

(** Key flags. *)
Definition KEY_VOLATILE : Z := 0x0001.
Definition KEY_DELETED  : Z := 0x0002.
Definition KEY_DIRTY    : Z := 0x0004.
Definition KEY_SYMLINK  : Z := 0x0008.
Definition KEY_WOW64    : Z := 0x0010.
Definition KEY_WOWSHARE : Z := 0x0020.

Definition MIN_SUBKEYS : Z := 8.
Definition MIN_VALUES  : Z := 8.
Definition MAX_NAME_LEN  : Z := 256.
Definition MAX_VALUE_LEN : Z := 16383.
Definition sizeof_WCHAR : Z := 2.

(** Internal attribute flag. *)
Definition WINE_OBJ_WOW64 : Z := 0x80000000.

(** Constants of the Windows headers (winnt.h, winternl.h), which are not
    among the sources; the values are the ones those headers fix. *)
Definition OBJ_OPENIF   : Z := 0x00000080.
Definition OBJ_OPENLINK : Z := 0x00000100.
Definition REG_NONE : Z := 0.
Definition REG_LINK : Z := 6.
Definition REG_OPTION_VOLATILE    : Z := 1.
Definition REG_OPTION_CREATE_LINK : Z := 2.
Definition REG_NOTIFY_CHANGE_NAME       : Z := 1.
Definition REG_NOTIFY_CHANGE_ATTRIBUTES : Z := 2.
Definition REG_NOTIFY_CHANGE_LAST_SET   : Z := 4.
Definition REG_NOTIFY_CHANGE_SECURITY   : Z := 8.
Definition KEY_QUERY_VALUE        : Z := 0x0001.
Definition KEY_SET_VALUE          : Z := 0x0002.
Definition KEY_ENUMERATE_SUB_KEYS : Z := 0x0008.
Definition KEY_WOW64_64KEY        : Z := 0x0100.
Definition KEY_WOW64_32KEY        : Z := 0x0200.
Definition KeyBasicInformation  : Z := 0.
Definition KeyNodeInformation   : Z := 1.
Definition KeyFullInformation   : Z := 2.
Definition KeyNameInformation   : Z := 3.
Definition KeyCachedInformation : Z := 4.

(** The status codes the engine raises; a collaborator may report any
    other code. *)
Inductive status : Type :=
  | STATUS_SUCCESS
  | STATUS_PENDING
  | STATUS_OBJECT_NAME_EXISTS
  | STATUS_OBJECT_NAME_NOT_FOUND
  | STATUS_OBJECT_NAME_INVALID
  | STATUS_OBJECT_NAME_COLLISION
  | STATUS_OBJECT_PATH_INVALID
  | STATUS_OBJECT_PATH_SYNTAX_BAD
  | STATUS_INVALID_PARAMETER
  | STATUS_NAME_TOO_LONG
  | STATUS_CHILD_MUST_BE_VOLATILE
  | STATUS_ACCESS_DENIED
  | STATUS_KEY_DELETED
  | STATUS_NO_MORE_ENTRIES
  | STATUS_NO_MEMORY
  | STATUS_OTHER (code : Z).

Global Instance status_eq_dec : EqDecision status.
Proof. solve_decision. Defined.

(** ** Data *)

(** A [WCHAR] is a 16-bit unit, a byte an 8-bit one; both are integers.  A
    [unicode_str] is the list of its units, so that its byte length [len]
    is twice the length of the list. *)
Definition unicode_len (str : list Z) : Z := sizeof_WCHAR * Z.of_nat (length str).

(** The address of a key: its index in the arena. *)
Abbreviation ptr := nat (only parsing).

(** [struct key_value].  [kv_data = None] is the null pointer. *)
Record key_value : Type := mk_value {
  kv_name : list Z;
  kv_type : Z;
  kv_len  : Z;
  kv_data : option (list Z)
}.

(** [struct notify].  [n_event = None] is the null pointer: the one-shot
    event was already set. *)
Record notify : Type := mk_notify {
  n_event   : option nat;
  n_subtree : Z;
  n_filter  : Z;
  n_hkey    : Z;
  n_process : nat
}.

(** [struct key]; [k_name] is [obj.name].  [last_subkey] and [last_value]
    are the lengths of the two arrays minus one, [nb_subkeys] and
    [nb_values] their allocated capacities. *)
Record key : Type := mk_key {
  k_name        : list Z;
  k_class       : option (list Z);
  k_parent      : option ptr;
  k_subkeys     : list ptr;
  k_nb_subkeys  : Z;
  k_values      : list key_value;
  k_nb_values   : Z;
  k_flags       : Z;
  k_modif       : Z;
  k_notify_list : list notify
}.

Definition last_subkey (k : key) : Z := Z.of_nat (length (k_subkeys k)) - 1.
Definition last_value (k : key) : Z := Z.of_nat (length (k_values k)) - 1.
Definition classlen (k : key) : Z :=
  match k_class k with Some c => unicode_len c | None => 0 end.

(** The engine: the arena of keys, [root_key], the thread's error slot
    ([set_error] and [get_error]), [current_time], and the events handed to
    [set_event] so far, oldest first. *)
Record state : Type := mk_state {
  heap         : list key;
  root_key     : ptr;
  last_error   : status;
  current_time : Z;
  signaled     : list nat
}.

Definition with_flags (k : key) (f : Z) : key :=
  mk_key (k_name k) (k_class k) (k_parent k) (k_subkeys k) (k_nb_subkeys k)
         (k_values k) (k_nb_values k) f (k_modif k) (k_notify_list k).
Definition with_modif (k : key) (t : Z) : key :=
  mk_key (k_name k) (k_class k) (k_parent k) (k_subkeys k) (k_nb_subkeys k)
         (k_values k) (k_nb_values k) (k_flags k) t (k_notify_list k).
Definition with_notify_list (k : key) (l : list notify) : key :=
  mk_key (k_name k) (k_class k) (k_parent k) (k_subkeys k) (k_nb_subkeys k)
         (k_values k) (k_nb_values k) (k_flags k) (k_modif k) l.
Definition with_values (k : key) (vs : list key_value) (nb : Z) : key :=
  mk_key (k_name k) (k_class k) (k_parent k) (k_subkeys k) (k_nb_subkeys k)
         vs nb (k_flags k) (k_modif k) (k_notify_list k).
Definition with_subkeys (k : key) (l : list ptr) (nb : Z) : key :=
  mk_key (k_name k) (k_class k) (k_parent k) l nb
         (k_values k) (k_nb_values k) (k_flags k) (k_modif k) (k_notify_list k).
Definition with_parent (k : key) (p : option ptr) : key :=
  mk_key (k_name k) (k_class k) p (k_subkeys k) (k_nb_subkeys k)
         (k_values k) (k_nb_values k) (k_flags k) (k_modif k) (k_notify_list k).

Definition with_heap (s : state) (h : list key) : state :=
  mk_state h (root_key s) (last_error s) (current_time s) (signaled s).
Definition set_error (s : state) (e : status) : state :=
  mk_state (heap s) (root_key s) e (current_time s) (signaled s).
Definition set_events (s : state) (evs : list nat) : state :=
  mk_state (heap s) (root_key s) (last_error s) (current_time s) (signaled s ++ evs).

(** [f & mask] is not zero. *)
Definition has_flag (f mask : Z) : bool := negb (Z.land f mask =? 0).

(** Reading [a[i]] for a C [int] index; [None] outside the array. *)
Definition array_get {A : Type} (a : list A) (i : Z) : option A :=
  if i <? 0 then None else a !! Z.to_nat i.

(** Conversion of an [int] to [unsigned int]. *)
Definition to_uint (x : Z) : Z := x mod 2 ^ 32.

(** [symlink_value], the name [SymbolicLinkValue], [wow6432node],
    [root_name], and [registryW], the name under which [key_link_name]
    links the root key. *)
Definition wstr (s : string) : list Z :=
  map (fun c => Z.of_N (N_of_ascii c)) (list_ascii_of_string s).
Definition symlink_value : list Z := Eval cbv in wstr "SymbolicLinkValue".
Definition wow6432node : list Z := Eval cbv in wstr "Wow6432Node".
Definition root_name : list Z := Eval cbv in (92 :: wstr "REGISTRY").
Definition registryW : list Z := Eval cbv in wstr "REGISTRY".
Definition backslash : Z := 92.

(** ** Names *)

(** Case folding of one [WCHAR].  The casemap table behind [tolowerW]
    (wine/unicode.h) is not among the sources: it is a parameter of the
    model, and every property below holds for any table. *)
Class Casemap : Type := tolowerW : Z -> Z.

Section Model.
Context `{cm : Casemap}.

(** [memicmpW]: the difference of the first pair of units that differ
    after case folding, among the first [n]. *)
Fixpoint memicmpW (str1 str2 : list Z) (n : nat) : Z :=
  match n, str1, str2 with
  | S n', c1 :: r1, c2 :: r2 =>
      let ret := tolowerW c1 - tolowerW c2 in
      if ret =? 0 then memicmpW r1 r2 n' else ret
  | _, _, _ => 0
  end.

(** [memcmp] on bytes. *)
Fixpoint memcmp (s1 s2 : list Z) (n : nat) : Z :=
  match n, s1, s2 with
  | S n', c1 :: r1, c2 :: r2 =>
      if c1 - c2 =? 0 then memcmp r1 r2 n' else c1 - c2
  | _, _, _ => 0
  end.

(** The comparison of [find_subkey] and [find_value]: case-insensitive on
    the shorter length, then the difference of the byte lengths. *)
Definition compare_name (entry name : list Z) : Z :=
  let len := Z.min (unicode_len entry) (unicode_len name) in
  let res := memicmpW entry name (Z.to_nat (Z.quot len sizeof_WCHAR)) in
  if res =? 0 then unicode_len entry - unicode_len name else res.

(** [is_wow6432node]. *)
Definition is_wow6432node (name : list Z) : bool :=
  (unicode_len name =? unicode_len wow6432node)
  && (memicmpW name wow6432node (Z.to_nat (Z.quot (unicode_len wow6432node) sizeof_WCHAR)) =? 0).

(** ** Binary search *)

(** What [find_value] and [find_subkey] return: the index of the entry, or
    the index at which it would be inserted. *)
Inductive search_result : Type :=
  | Found (i : Z)
  | NotFound (index : Z).

(** The loop the two functions share, over the names of the array:
    [while (min <= max) { i = (min + max) / 2; ... }]. *)
Fixpoint name_search (fuel : nat) (names : list (list Z)) (name : list Z)
    (min max : Z) : option search_result :=
  if max <? min then Some (NotFound min)
  else match fuel with
       | O => None
       | S fuel' =>
           let i := Z.quot (min + max) 2 in
           entry ← array_get names i;
           let res := compare_name entry name in
           if res =? 0 then Some (Found i)
           else if 0 <? res then name_search fuel' names name min (i - 1)
           else name_search fuel' names name (i + 1) max
       end.

(** [find_value]. *)
Definition find_value (k : key) (name : list Z) : option search_result :=
  name_search (length (k_values k)) (map kv_name (k_values k)) name 0 (last_value k).

(** [find_subkey]: the names are read through the children's addresses. *)
Definition subkey_names (h : list key) (k : key) : option (list (list Z)) :=
  mapM (fun c => k_name <$> h !! c) (k_subkeys k).

Definition find_subkey_index (h : list key) (k : key) (name : list Z) : option search_result :=
  names ← subkey_names h k;
  name_search (length names) names name 0 (last_subkey k).

Definition find_subkey (h : list key) (k : key) (name : list Z) : option (option ptr) :=
  r ← find_subkey_index h k name;
  match r with
  | Found i => c ← array_get (k_subkeys k) i; Some (Some c)
  | NotFound _ => Some None
  end.

(** ** Dirty marking *)

(** Running [f] over the elements of an array in order, threading the
    state; the body of a [for] loop over [subkeys] or [notify_list]. *)
Fixpoint for_each {A S : Type} (f : S -> A -> option S) (s : S) (l : list A) : option S :=
  match l with
  | [] => Some s
  | x :: l' => s' ← f s x; for_each f s' l'
  end.

(** [make_dirty]: mark a key and all its parents as dirty, stopping at the
    first key that is dirty or volatile. *)
Fixpoint make_dirty (fuel : nat) (h : list key) (p : option ptr) : option (list key) :=
  match p with
  | None => Some h
  | Some a =>
      match fuel with
      | O => None
      | S fuel' =>
          k ← h !! a;
          if has_flag (k_flags k) (Z.lor KEY_DIRTY KEY_VOLATILE) then Some h
          else make_dirty fuel'
                 (<[a := with_flags k (Z.lor (k_flags k) KEY_DIRTY)]> h) (k_parent k)
      end
  end.

(** [make_clean]: mark a key and all its subkeys as clean. *)
Fixpoint make_clean (fuel : nat) (h : list key) (a : ptr) : option (list key) :=
  match fuel with
  | O => None
  | S fuel' =>
      k ← h !! a;
      if has_flag (k_flags k) KEY_VOLATILE then Some h
      else if negb (has_flag (k_flags k) KEY_DIRTY) then Some h
      else for_each (make_clean fuel')
             (<[a := with_flags k (Z.land (k_flags k) (Z.lnot KEY_DIRTY))]> h)
             (k_subkeys k)
  end.

(** ** Notifications *)

(** [do_notification] with [del = 0]: set the event if there is one and
    forget it; the second component is the event that was set. *)
Definition do_notification (n : notify) : notify * list nat :=
  match n_event n with
  | Some e => (mk_notify None (n_subtree n) (n_filter n) (n_hkey n) (n_process n), [e])
  | None => (n, [])
  end.

(** The test of [check_notify]:
    [(not_subtree || n->subtree) && (change & n->filter)]. *)
Definition notify_matches (change not_subtree : Z) (n : notify) : bool :=
  (negb (not_subtree =? 0) || negb (n_subtree n =? 0))
  && negb (Z.land change (n_filter n) =? 0).

(** The walk of [check_notify] over one notification list. *)
Fixpoint check_notify_list (change not_subtree : Z) (l : list notify)
    : list notify * list nat :=
  match l with
  | [] => ([], [])
  | n :: l' =>
      let '(n', e) := if notify_matches change not_subtree n
                      then do_notification n else (n, []) in
      let '(l'', es) := check_notify_list change not_subtree l' in
      (n' :: l'', e ++ es)
  end.

(** [check_notify]. *)
Definition check_notify (s : state) (a : ptr) (change not_subtree : Z) : option state :=
  k ← heap s !! a;
  let '(l, es) := check_notify_list change not_subtree (k_notify_list k) in
  Some (set_events (with_heap s (<[a := with_notify_list k l]> (heap s))) es).

(** The loop of [touch_key] over the parents:
    [for (k = key->parent; k; k = k->parent) check_notify( k, change, 0 )]. *)
Fixpoint notify_parents (fuel : nat) (s : state) (k : option ptr) (change : Z)
    : option state :=
  match k with
  | None => Some s
  | Some a =>
      match fuel with
      | O => None
      | S fuel' =>
          kr ← heap s !! a;
          s' ← check_notify s a change 0;
          notify_parents fuel' s' (k_parent kr) change
      end
  end.

(** [touch_key]: update the modification time, mark dirty, notify.  The
    fuel of the two walks is the size of the arena. *)
Definition touch_key (s : state) (a : ptr) (change : Z) : option state :=
  k ← heap s !! a;
  let h1 := <[a := with_modif k (current_time s)]> (heap s) in
  h2 ← make_dirty (length h1) h1 (Some a);
  s1 ← check_notify (with_heap s h2) a change 1;
  notify_parents (length h1) s1 (k_parent k)
    (Z.land change (Z.lnot REG_NOTIFY_CHANGE_LAST_SET)).

(** ** Values *)

(** [grow_values]: the new capacity.  Allocation is taken to succeed. *)
Definition grow_values (nb_values : Z) : Z :=
  if nb_values =? 0 then MIN_VALUES else nb_values + Z.quot nb_values 2.

(** [insert_value]: a new value with the given name at [index], the tail
    shifted up.  The type of the new entry is not initialised by the
    source; its caller sets it. *)
Definition insert_value (k : key) (name : list Z) (index : Z) : status + key :=
  if MAX_VALUE_LEN * sizeof_WCHAR <? unicode_len name then inl STATUS_NAME_TOO_LONG
  else
    let nb := if last_value k + 1 =? k_nb_values k
              then grow_values (k_nb_values k) else k_nb_values k in
    let i := Z.to_nat index in
    inr (with_values k
           (take i (k_values k) ++ mk_value name REG_NONE 0 None :: drop i (k_values k))
           nb).

(** The test of [set_value] for a value identical to the stored one:
    [value->type == type && value->len == len && value->data
     && !memcmp( value->data, data, len )]. *)
Definition same_value (v : key_value) (type : Z) (data : list Z) : bool :=
  let len := Z.of_nat (length data) in
  (kv_type v =? to_uint type) && (kv_len v =? len) &&
  match kv_data v with
  | Some d => memcmp d data (Z.to_nat len) =? 0
  | None => false
  end.

(** The test of [set_value] on a symbolic-link key:
    [type != REG_LINK || name->len != symlink_str.len
     || memicmpW( name->str, symlink_str.str, name->len / sizeof(WCHAR) )]. *)
Definition not_link_value (name : list Z) (type : Z) : bool :=
  negb (type =? REG_LINK)
  || negb (unicode_len name =? unicode_len symlink_value)
  || negb (memicmpW name symlink_value
             (Z.to_nat (Z.quot (unicode_len name) sizeof_WCHAR)) =? 0).

(** The stores [value->type = type; value->len = len; value->data = ptr]. *)
Definition store_value (v : key_value) (type len : Z) (p : option (list Z)) : key_value :=
  mk_value (kv_name v) (to_uint type) len p.

(** [set_value].  [data] holds the [len] bytes of the request. *)
Definition set_value (s : state) (a : ptr) (name : list Z) (type : Z) (data : list Z)
    : option state :=
  k ← heap s !! a;
  let len := Z.of_nat (length data) in
  r ← find_value k name;
  value ← match r with
          | Found i => v ← array_get (k_values k) i; Some (Some v)
          | NotFound _ => Some None
          end;
  if match value with Some v => same_value v type data | None => false end
  then Some s
  else if has_flag (k_flags k) KEY_SYMLINK && not_link_value name type
  then Some (set_error s STATUS_ACCESS_DENIED)
  else
    let p := if len =? 0 then None else Some data in
    match r with
    | NotFound index =>
        match insert_value k name index with
        | inl e => Some (set_error s e)
        | inr k' =>
            let vs := alter (fun v => store_value v type len p) (Z.to_nat index) (k_values k') in
            touch_key (with_heap s (<[a := with_values k' vs (k_nb_values k')]> (heap s)))
                      a REG_NOTIFY_CHANGE_LAST_SET
        end
    | Found i =>
        let vs := alter (fun v => store_value v type len p) (Z.to_nat i) (k_values k) in
        touch_key (with_heap s (<[a := with_values k vs (k_nb_values k)]> (heap s)))
                  a REG_NOTIFY_CHANGE_LAST_SET
    end.

(** The capacity after a removal, as [delete_value] and [free_subkey]
    shrink it: by a third when less than half is in use, never below
    [lowest]. *)
Definition shrink (nb last lowest : Z) : Z :=
  if (lowest <? nb) && (last <? Z.quot nb 2)
  then let nb' := nb - Z.quot nb 3 in if nb' <? lowest then lowest else nb'
  else nb.

(** [delete_value]. *)
Definition delete_value (s : state) (a : ptr) (name : list Z) : option state :=
  k ← heap s !! a;
  r ← find_value k name;
  match r with
  | NotFound _ => Some (set_error s STATUS_OBJECT_NAME_NOT_FOUND)
  | Found index =>
      let vs := delete (Z.to_nat index) (k_values k) in
      s1 ← touch_key (with_heap s (<[a := with_values k vs (k_nb_values k)]> (heap s)))
                     a REG_NOTIFY_CHANGE_LAST_SET;
      k1 ← heap s1 !! a;
      Some (with_heap s1
              (<[a := with_values k1 (k_values k1)
                        (shrink (k_nb_values k1) (last_value k1) MIN_VALUES)]> (heap s1)))
  end.

(** ** Paths *)

(** The element a path starts with: the units before the first backslash
    ([memchrW( name->str, '\\', ... )]). *)
Fixpoint first_element (name : list Z) : list Z :=
  match name with
  | [] => []
  | c :: r => if c =? backslash then [] else c :: first_element r
  end.

(** [while (... && *p == '\\') p++]. *)
Fixpoint skip_backslashes (name : list Z) : list Z :=
  match name with
  | [] => []
  | c :: r => if c =? backslash then skip_backslashes r else name
  end.

(** [get_path_token].  A token is a window of the path: [Some (i, n)]
    starts at unit [i] and has [n] units, [None] has a null [str]. *)
Definition get_path_token (path : list Z) (token : option (nat * nat))
    : status + (nat * nat) :=
  match token with
  | None =>
      match path with
      | c :: _ =>
          if c =? backslash then inl STATUS_OBJECT_PATH_INVALID
          else inr (O, length (first_element path))
      | [] => inr (O, O)
      end
  | Some (i, n) =>
      let rest := drop (i + n) path in
      let i' := (length path - length (skip_backslashes rest))%nat in
      inr (i', length (first_element (skip_backslashes rest)))
  end.

(** The units of a token. *)
Definition token_str (path : list Z) (token : nat * nat) : list Z :=
  take (snd token) (drop (fst token) path).

(** The first token of a path as the handlers take it, ignoring the
    result of [get_path_token]: empty when the call fails. *)
Definition first_token (path : list Z) : list Z :=
  match get_path_token path None with
  | inr t => token_str path t
  | inl _ => []
  end.

(** A found key that must exist ([assert( key )]). *)
Definition must {A : Type} (x : option (option A)) : option A := x ≫= id.

(** [find_wow64_subkey]: the WoW64 variant of the key, or the key itself. *)
Definition find_wow64_subkey (h : list key) (a : ptr) (name : list Z) : option ptr :=
  k ← h !! a;
  if negb (has_flag (k_flags k) KEY_WOW64) then Some a
  else
    p ← k_parent k;
    kp ← h !! p;
    if has_flag (k_flags kp) KEY_WOWSHARE then
      w ← must (find_subkey h kp wow6432node);
      kw ← h !! w;
      must (find_subkey h kw (k_name k))
    else if negb (is_wow6432node name) then must (find_subkey h k wow6432node)
    else Some a.

(** ** Symbolic links and lookup *)

(** [open_named_object] is defined in object.c, which is not among the
    sources.  The lookup takes it as a parameter: given the engine, the
    root to start from (none for an absolute path), the path and the
    attributes, it returns the key it found, if any, and the engine with
    the error it left. *)
Definition resolver : Type :=
  state -> option ptr -> list Z -> Z -> option (option ptr * state).

(** The [WCHAR]s held by a byte payload (little endian). *)
Fixpoint wchars_of_bytes (d : list Z) : list Z :=
  match d with
  | lo :: hi :: r => (lo + 256 * hi) :: wchars_of_bytes r
  | _ => []
  end.

(** [follow_symlink]. *)
Definition follow_symlink (open : resolver) (s : state) (a : ptr) (attr : Z)
    : option (option ptr * state) :=
  k ← heap s !! a;
  r ← find_value k symlink_value;
  match r with
  | NotFound _ => Some (None, s)
  | Found i =>
      value ← array_get (k_values k) i;
      let path := take (Z.to_nat (Z.quot (kv_len value) sizeof_WCHAR))
                       (wchars_of_bytes (default [] (kv_data value))) in
      let attr' := Z.land (Z.lor attr OBJ_OPENLINK) (Z.lnot WINE_OBJ_WOW64) in
      match path with
      | c :: _ =>
          if c =? backslash then open s None path attr'
          else open s (k_parent k) path attr'
      | [] => open s (k_parent k) path attr'
      end
  end.

(** The loop of [key_lookup_name] that resolves symbolic links:
    [while (found->flags & KEY_SYMLINK) { ... iteration++; }].  The result
    is the key the loop ends on (none after [STATUS_NAME_TOO_LONG]), the
    engine, and the final value of [iteration], the number of links that
    were followed. *)
Fixpoint resolve_symlinks (open : resolver) (fuel : nat) (s : state) (found : ptr)
    (attr : Z) (iteration : Z) : option (option ptr * state * Z) :=
  match fuel with
  | O => None
  | S fuel' =>
      k ← heap s !! found;
      if has_flag (k_flags k) KEY_SYMLINK then
        '(target, s1) ← follow_symlink open s found attr;
        match target with
        | None => Some (Some found, s1, iteration)
        | Some t =>
            if 16 <? iteration then Some (None, set_error s1 STATUS_NAME_TOO_LONG, iteration)
            else resolve_symlinks open fuel' s1 t attr (iteration + 1)
        end
      else Some (Some found, s, iteration)
  end.

(** [key_lookup_name]: one step of a lookup.  The result is the key that
    was found (none for a null return), what is left of the name, and the
    engine.  [fuel] bounds the loop over symbolic links. *)
Definition key_lookup_name (open : resolver) (fuel : nat) (s : state) (a : ptr)
    (name : option (list Z)) (attr : Z) : option (option ptr * list Z * state) :=
  match name with
  | None => Some (None, [], s)
  | Some name =>
      k ← heap s !! a;
      let tmp := first_element name in
      if unicode_len tmp =? 0 then Some (None, name, s)
      else if MAX_NAME_LEN * sizeof_WCHAR <? unicode_len tmp
      then Some (None, name, set_error s STATUS_INVALID_PARAMETER)
      else
        found ← (if is_wow6432node (k_name k) then
                   p ← k_parent k;
                   kp ← heap s !! p;
                   if has_flag (k_flags kp) KEY_WOWSHARE && has_flag attr WINE_OBJ_WOW64
                   then find_subkey (heap s) kp tmp
                   else find_subkey (heap s) k tmp
                 else find_subkey (heap s) k tmp);
        match found with
        | None =>
            if unicode_len tmp <? unicode_len name
            then Some (None, name, set_error s STATUS_OBJECT_NAME_NOT_FOUND)
            else Some (None, name, s)
        | Some f =>
            '(r, s1, _) ← (if negb (has_flag attr OBJ_OPENLINK)
                           then resolve_symlinks open fuel s f attr 0
                           else Some (Some f, s, 0));
            match r with
            | None => Some (None, name, s1)
            | Some f1 =>
                let rest := skip_backslashes (drop (length tmp) name) in
                if has_flag attr WINE_OBJ_WOW64 then
                  f2 ← find_wow64_subkey (heap s1) f1 (first_token rest);
                  k2 ← heap s1 !! f2;
                  if is_wow6432node (k_name k2) then
                    p2 ← k_parent k2;
                    kp2 ← heap s1 !! p2;
                    if has_flag (k_flags kp2) KEY_WOWSHARE && (unicode_len rest =? 0)
                    then Some (Some p2, rest, s1)
                    else Some (Some f2, rest, s1)
                  else Some (Some f2, rest, s1)
                else Some (Some f1, rest, s1)
            end
        end
  end.

(** ** Opening and creating named objects *)

(** The fuel the lookups give the loop over symbolic links; the loop
    never needs more (lemma [resolve_symlinks_total]). *)
Definition link_fuel : nat := 18.

(** Modelled from the spec: the lookup of a path (section 4.1: "if path is
    empty, return start", then one segment after the other), which the
    source runs in lookup_named_object of object.c, not among the sources.
    It calls [key_lookup_name] until that returns null, and returns the
    last key reached together with what is left of the name. *)
Fixpoint lookup_named_object (open : resolver) (fuel : nat) (s : state) (a : ptr)
    (name : list Z) (attr : Z) : option (ptr * list Z * state) :=
  match fuel with
  | O => None
  | S fuel' =>
      '(found, rest, s1) ← key_lookup_name open link_fuel s a (Some name) attr;
      match found with
      | Some c => lookup_named_object open fuel' s1 c rest attr
      | None => Some (a, rest, s1)
      end
  end.

(** Modelled from the spec: where a lookup starts (section 4.1: "absolute
    path => start from root; relative => start from the symlink's parent";
    section 6.2: the root is named [\REGISTRY]).  The result is the start
    key and the path below it. *)
Definition lookup_start (s : state) (root : option ptr) (name : list Z)
    : status + (ptr * list Z) :=
  match root with
  | Some r =>
      match name with
      | c :: _ => if c =? backslash then inl STATUS_OBJECT_PATH_SYNTAX_BAD else inr (r, name)
      | [] => inr (r, name)
      end
  | None =>
      match name with
      | c :: name' =>
          if negb (c =? backslash) then inl STATUS_OBJECT_PATH_SYNTAX_BAD
          else if compare_name (first_element name') registryW =? 0
          then inr (root_key s, skip_backslashes (drop (length (first_element name')) name'))
          else inl STATUS_OBJECT_NAME_NOT_FOUND
      | [] => inl STATUS_OBJECT_PATH_SYNTAX_BAD
      end
  end.

(** Modelled from the spec: [open_named_object] (section 4.4: "Open. Same
    as create but without mutation; fails with OBJECT_NAME_NOT_FOUND on
    miss"), built on the lookup above with [open] resolving the symbolic
    links met on the way. *)
Definition open_named_object_with (open : resolver) : resolver :=
  fun s root name attr =>
    match lookup_start s root name with
    | inl e => Some (None, set_error s e)
    | inr (start, path) =>
        '(obj, name_left, s1) ← lookup_named_object open (S (length path))
                             (set_error s STATUS_SUCCESS) start path attr;
        if decide (last_error s1 = STATUS_SUCCESS) then
          match name_left with
          | [] => Some (Some obj, s1)
          | _ :: _ => Some (None, set_error s1 STATUS_OBJECT_NAME_NOT_FOUND)
          end
        else Some (None, s1)
    end.

(** A symbolic link is opened with [OBJ_OPENLINK], under which no link is
    followed: the resolver below that level is never called. *)
Definition no_resolver : resolver := fun s _ _ _ => Some (None, s).
Definition open_link_target : resolver := open_named_object_with no_resolver.
Definition open_named_object : resolver := open_named_object_with open_link_target.

(** [grow_subkeys]: the new capacity.  Allocation is taken to succeed. *)
Definition grow_subkeys (nb_subkeys : Z) : Z :=
  if nb_subkeys =? 0 then MIN_SUBKEYS else nb_subkeys + Z.quot nb_subkeys 2.

(** [key_link_name] for a parent that is a key: insert the new key at its
    sorted index ([assert( !find_subkey( ... ) )]), touch the parent, set
    the back reference. *)
Definition key_link_name (s : state) (c : ptr) (name : list Z) (parent : ptr)
    : option state :=
  kp ← heap s !! parent;
  r ← find_subkey_index (heap s) kp name;
  match r with
  | Found _ => None
  | NotFound index =>
      let nb := if last_subkey kp + 1 =? k_nb_subkeys kp
                then grow_subkeys (k_nb_subkeys kp) else k_nb_subkeys kp in
      let i := Z.to_nat index in
      let subs := take i (k_subkeys kp) ++ c :: drop i (k_subkeys kp) in
      s1 ← touch_key (with_heap s (<[parent := with_subkeys kp subs nb]> (heap s)))
                     parent REG_NOTIFY_CHANGE_NAME;
      kc ← heap s1 !! c;
      Some (with_heap s1 (<[c := with_parent kc (Some parent)]> (heap s1)))
  end.

(** A key as the allocator hands it out, before [create_key] fills it in:
    only the name is set. *)
Definition blank_key (name : list Z) : key :=
  mk_key name None None [] 0 [] 0 0 0 [].

(** Modelled from the spec: [create_named_object] (section 4.4 and the
    error table of section 7: a key that is already present is returned
    with [STATUS_OBJECT_NAME_EXISTS], or refused with
    [STATUS_OBJECT_NAME_COLLISION] when the caller did not ask to open
    it).  The function is defined in object.c, not among the sources.  A
    new key is allocated at the end of the arena and linked under the key
    the lookup stopped at. *)
Definition create_named_object (s : state) (parent : option ptr) (name : list Z)
    (attributes : Z) : option (option ptr * state) :=
  match lookup_start s parent name with
  | inl e => Some (None, set_error s e)
  | inr (start, path) =>
      '(obj, name_left, s1) ← lookup_named_object open_link_target (S (length path))
                           (set_error s STATUS_SUCCESS) start path attributes;
      if decide (last_error s1 = STATUS_SUCCESS) then
        match name_left with
        | [] =>
            if has_flag attributes OBJ_OPENIF
            then Some (Some obj, set_error s1 STATUS_OBJECT_NAME_EXISTS)
            else Some (None, set_error s1 STATUS_OBJECT_NAME_COLLISION)
        | _ :: _ =>
            let c := length (heap s1) in
            s2 ← key_link_name (with_heap s1 (heap s1 ++ [blank_key name_left])) c name_left obj;
            Some (Some c, s2)
        end
      else Some (None, s1)
  end.

(** The index of the first entry equal to [c]:
    [for (i = 0; i <= parent->last_subkey; i++) if (parent->subkeys[i] == key) break;]. *)
Fixpoint index_of (c : ptr) (l : list ptr) : option nat :=
  match l with
  | [] => None
  | x :: l' => if decide (x = c) then Some O else S <$> index_of c l'
  end.

(** [free_subkey]: unlink a key from its parent ([assert] that it is
    listed there) and mark it deleted. *)
Definition free_subkey (h : list key) (c : ptr) : option (list key) :=
  kc ← h !! c;
  match k_parent kc with
  | None => Some h
  | Some p =>
      kp ← h !! p;
      i ← index_of c (k_subkeys kp);
      let subs := delete i (k_subkeys kp) in
      let last := Z.of_nat (length subs) - 1 in
      let h1 := <[p := with_subkeys kp subs (shrink (k_nb_subkeys kp) last MIN_SUBKEYS)]> h in
      Some (<[c := with_parent (with_flags kc (Z.lor (k_flags kc) KEY_DELETED)) None]> h1)
  end.

(** [create_key].  [key->classlen] is an [unsigned short]: the length of
    the class in bytes is stored modulo 65536, and that many bytes of the
    class are copied. *)
Definition create_key (s : state) (parent : option ptr) (name : list Z)
    (class : list Z) (options access attributes : Z) : option (option ptr * state) :=
  let attributes := if negb (has_flag options REG_OPTION_CREATE_LINK)
                    then Z.lor attributes OBJ_OPENIF else attributes in
  if unicode_len name =? 0 then
    match parent with
    | None => Some (None, set_error s STATUS_OBJECT_PATH_SYNTAX_BAD)
    | Some p => Some (Some p, s)
    end
  else
    '(key, s1) ← create_named_object s parent name attributes;
    match key with
    | None => Some (None, s1)
    | Some c =>
        if decide (last_error s1 = STATUS_OBJECT_NAME_EXISTS) then Some (Some c, s1)
        else
          kc ← heap s1 !! c;
          let flags := Z.lor (if has_flag options REG_OPTION_VOLATILE
                              then KEY_VOLATILE else KEY_DIRTY)
                             (if has_flag options REG_OPTION_CREATE_LINK
                              then KEY_SYMLINK else 0) in
          let classlen := unicode_len class mod 65536 in   (* unsigned short *)
          let kc' := mk_key (k_name kc)
                            (if unicode_len class =? 0 then None
                             else Some (take (Z.to_nat (Z.quot classlen sizeof_WCHAR)) class))
                            (k_parent kc) [] 0 [] 0 flags (current_time s1) [] in
          let s2 := with_heap s1 (<[c := kc']> (heap s1)) in
          volatile_parent ← match k_parent kc with
                            | None => Some false
                            | Some p => kp ← heap s2 !! p;
                                        Some (has_flag (k_flags kp) KEY_VOLATILE)
                            end;
          if volatile_parent && negb (has_flag options REG_OPTION_VOLATILE) then
            h ← free_subkey (heap s2) c;
            Some (None, with_heap (set_error s2 STATUS_CHILD_MUST_BE_VOLATILE) h)
          else Some (Some c, s2)
    end.

(** [delete_key].  One unit of fuel pays for one entry into the function
    or one turn of its [while] loop. *)
Fixpoint delete_key (fuel : nat) (s : state) (a : ptr) (recurse : bool)
    : option (Z * state) :=
  match fuel with
  | O => None
  | S fuel' =>
      k ← heap s !! a;
      if recurse && (0 <=? last_subkey k) then
        c ← array_get (k_subkeys k) (last_subkey k);
        '(r, s1) ← delete_key fuel' s c true;
        if r <? 0 then Some (-1, s1) else delete_key fuel' s1 a recurse
      else if 0 <=? last_subkey k then Some (-1, set_error s STATUS_ACCESS_DENIED)
      else
        h ← free_subkey (heap s) a;
        match k_parent k with
        | Some p =>
            s1 ← touch_key (with_heap s h) p REG_NOTIFY_CHANGE_NAME;
            Some (0, s1)
        | None => Some (0, with_heap s h)
        end
  end.

End Model.

(** ** Saving a branch *)

(** What [save_branch] sees of the operating system.  [st_mode] keeps the
    file type of [lstat], which does not follow a symbolic link. *)
Inductive file_type : Type := S_IFREG | S_IFDIR | S_IFLNK | S_IFOTHER.

Record stat : Type := mk_stat {
  st_mode  : file_type;
  st_nlink : Z
}.

Definition S_ISREG (st : stat) : bool :=
  match st_mode st with S_IFREG => true | _ => false end.

(** The outcome of [open( tmp, O_CREAT | O_EXCL | O_WRONLY, 0666 )]: a
    descriptor, [EEXIST], or another error. *)
Inductive open_result : Type := Opened | Eexist | Efailed.

Record os : Type := mk_os {
  os_getpid    : Z;
  os_open      : bool;                  (* open( path, O_WRONLY ) != -1 *)
  os_lstat     : option stat;           (* the result when lstat( path ) is 0 *)
  os_open_excl : string -> open_result;
  os_fdopen    : bool;                  (* fdopen returns a stream *)
  os_fclose    : bool;                  (* fclose returns 0 *)
  os_rename    : bool                   (* rename returns 0 *)
}.

(** The calls [save_branch] makes, in order. *)
Inductive syscall : Type :=
  | sys_open (path : string)
  | sys_lstat (path : string)
  | sys_ftruncate
  | sys_close
  | sys_open_excl (path : string)
  | sys_fdopen
  | sys_save_all_subkeys
  | sys_fclose
  | sys_rename (old new : string)
  | sys_unlink (path : string).

(** Hexadecimal digits, as [%x] prints them. *)
Definition hex_digit (d : Z) : ascii :=
  ascii_of_nat (Z.to_nat (if d <? 10 then 48 + d else 87 + d)).

Fixpoint hex_digits (fuel : nat) (n : Z) : list ascii :=
  match fuel with
  | O => []
  | S fuel' =>
      if n <? 16 then [hex_digit n]
      else hex_digits fuel' (n / 16) ++ [hex_digit (n mod 16)]
  end.

Definition hex (n : Z) : list ascii := hex_digits 64 n.

(** [%04x]: at least four digits. *)
Definition hex04 (n : Z) : list ascii :=
  let d := hex n in replicate (4 - length d) "0"%char ++ d.

(** The directory part of a path: up to the last slash
    ([strrchr( tmp, '/' )]). *)
Fixpoint dir_part (path : list ascii) : list ascii :=
  match path with
  | [] => []
  | c :: r =>
      if existsb (Ascii.eqb "/"%char) r then c :: dir_part r
      else if Ascii.eqb c "/"%char then [c] else []
  end.

(** [sprintf( p, "reg%lx%04x.tmp", (long) getpid(), count++ )] behind the
    directory of [path]. *)
Definition tmp_name (pid : Z) (path : string) (count : Z) : string :=
  string_of_list_ascii
    (dir_part (list_ascii_of_string path)
     ++ list_ascii_of_string "reg" ++ hex pid ++ hex04 count
     ++ list_ascii_of_string ".tmp").

(** The loop that creates the temp file: the name that was opened, if
    any, and the calls. *)
Fixpoint create_temp (w : os) (fuel : nat) (path : string) (count : Z)
    : option (option string * list syscall) :=
  match fuel with
  | O => None
  | S fuel' =>
      let tmp := tmp_name (os_getpid w) path count in
      match os_open_excl w tmp with
      | Opened => Some (Some tmp, [sys_open_excl tmp])
      | Efailed => Some (None, [sys_open_excl tmp])
      | Eexist =>
          '(r, t) ← create_temp w fuel' path (count + 1);
          Some (r, sys_open_excl tmp :: sys_close :: t)
      end
  end.

(** From the label [save] on: write the branch to the descriptor, then
    rename or unlink the temp file when there is one. *)
Definition write_branch (w : os) (path : string) (tmp : option string) : Z * list syscall :=
  if negb (os_fdopen w) then
    (0, sys_fdopen :: match tmp with Some t => [sys_unlink t] | None => [] end ++ [sys_close])
  else
    let ret := os_fclose w in
    match tmp with
    | None => (Z.b2z ret, [sys_fdopen; sys_save_all_subkeys; sys_fclose])
    | Some t =>
        let ret' := if ret then os_rename w else false in
        (Z.b2z ret',
         [sys_fdopen; sys_save_all_subkeys; sys_fclose]
         ++ (if ret then [sys_rename t path] else [])
         ++ (if ret' then [] else [sys_unlink t]))
    end.

(** The test of the file type: write directly into a file that could be
    opened and is not a regular file or has several links. *)
Definition write_in_place (w : os) : bool :=
  os_open w &&
  match os_lstat w with
  | Some st => negb (S_ISREG st) || (1 <? st_nlink st)
  | None => false
  end.

(** [save_branch]: the value returned, the arena, and the calls made.
    [fuel] bounds the number of temp names tried. *)
Definition save_branch (w : os) (fuel : nat) (h : list key) (a : ptr) (path : string)
    : option (Z * list key * list syscall) :=
  k ← h !! a;
  if negb (has_flag (k_flags k) KEY_DIRTY) then Some (1, h, [])
  else
    let probe :=
      if os_open w then
        [sys_open path; sys_lstat path]
        ++ (if write_in_place w then [sys_ftruncate] else [sys_close])
      else [sys_open path] in
    '(tmp, t1) ← (if write_in_place w then Some (None, [])
                  else '(r, t) ← create_temp w fuel path 0;
                       match r with
                       | Some tmp => Some (Some tmp, t)
                       | None => Some (None, t)
                       end);
    let opened := write_in_place w || bool_decide (is_Some tmp) in
    let '(ret, t2) := if opened then write_branch w path tmp else (0, []) in
    h' ← (if ret =? 0 then Some h else make_clean (length h) h a);
    Some (ret, h', probe ++ t1 ++ t2).

(** ** Querying a key *)

(** [struct enum_key_reply], with the variable part [data] of the reply. *)
Record enum_key_reply : Type := mk_enum_key_reply {
  r_subkeys    : Z;
  r_values     : Z;
  r_modif      : Z;
  r_total      : Z;
  r_namelen    : Z;
  r_max_subkey : Z;
  r_max_class  : Z;
  r_max_value  : Z;
  r_max_data   : Z;
  r_data       : list Z
}.

Definition empty_enum_key_reply : enum_key_reply :=
  mk_enum_key_reply 0 0 0 0 0 0 0 0 0 [].

(** The bytes of a string of [WCHAR]s (little endian). *)
Definition bytes_of_wchars (str : list Z) : list Z :=
  flat_map (fun c => [c mod 256; (c / 256) mod 256]) str.

(** [memcpy( data + pos, src, n )]. *)
Definition memcpy_at (data : list Z) (pos : Z) (src : list Z) (n : Z) : list Z :=
  take (Z.to_nat pos) data ++ take (Z.to_nat n) src ++ drop (Z.to_nat (pos + n)) data.

Definition list_max (l : list Z) : Z := fold_right Z.max 0 l.

(** The first loop of [KeyNameInformation]:
    [for (k = key; k != root_key; k = k->parent)
         namelen += k->obj.name->len + sizeof(backslash);]. *)
Fixpoint path_namelen (fuel : nat) (h : list key) (root : ptr) (k : option ptr) : option Z :=
  match fuel with
  | O => None
  | S fuel' =>
      a ← k;
      if decide (a = root) then Some 0
      else kr ← h !! a;
           n ← path_namelen fuel' h root (k_parent kr);
           Some (unicode_len (k_name kr) + sizeof_WCHAR + n)
  end.

(** The second loop of [KeyNameInformation], which copies the elements
    of the path from the last to the first. *)
Fixpoint copy_path (fuel : nat) (h : list key) (root : ptr) (k : option ptr)
    (pos len : Z) (data : list Z) : option (list Z) :=
  match fuel with
  | O => None
  | S fuel' =>
      a ← k;
      if decide (a = root) then Some data
      else
        kr ← h !! a;
        let pos1 := pos - unicode_len (k_name kr) in
        let data1 := if pos1 <? len
                     then memcpy_at data pos1 (bytes_of_wchars (k_name kr))
                            (Z.min (unicode_len (k_name kr)) (len - pos1))
                     else data in
        let pos2 := pos1 - sizeof_WCHAR in
        let data2 := if pos2 <? len
                     then memcpy_at data1 pos2 (bytes_of_wchars [backslash])
                            (Z.min sizeof_WCHAR (len - pos2))
                     else data1 in
        copy_path fuel' h root (k_parent kr) pos2 len data2
  end.

(** What the [switch] of [enum_key] decides: to return at once, or the
    lengths of the name and class to report. *)
Inductive info_choice : Type :=
  | info_return (reply : enum_key_reply) (s : state)
  | info_lengths (namelen classlen : Z) (reply : enum_key_reply).

Definition with_maxima (r : enum_key_reply) (ms mc mv md : Z) : enum_key_reply :=
  mk_enum_key_reply (r_subkeys r) (r_values r) (r_modif r) (r_total r) (r_namelen r)
                    ms mc mv md (r_data r).
Definition with_namelen (r : enum_key_reply) (n : Z) : enum_key_reply :=
  mk_enum_key_reply (r_subkeys r) (r_values r) (r_modif r) (r_total r) n
                    (r_max_subkey r) (r_max_class r) (r_max_value r) (r_max_data r) (r_data r).
Definition with_data (r : enum_key_reply) (d : list Z) : enum_key_reply :=
  mk_enum_key_reply (r_subkeys r) (r_values r) (r_modif r) (r_total r) (r_namelen r)
                    (r_max_subkey r) (r_max_class r) (r_max_value r) (r_max_data r) d.
Definition with_counts (r : enum_key_reply) (k : key) (total : Z) : enum_key_reply :=
  mk_enum_key_reply (last_subkey k + 1) (last_value k + 1) (k_modif k) total (r_namelen r)
                    (r_max_subkey r) (r_max_class r) (r_max_value r) (r_max_data r) (r_data r).

(** The part of [enum_key] after the key was chosen: the information
    about key [a].  [max_size] is [get_reply_max_size()]; the reply buffer
    is taken to be allocated. *)
Definition key_information (s : state) (a : ptr) (info_class max_size : Z)
    (reply : enum_key_reply) : option (enum_key_reply * state) :=
  k ← heap s !! a;
  choice ←
    (if info_class =? KeyNameInformation then
       n ← path_namelen (S (length (heap s))) (heap s) (root_key s) (Some a);
       if n =? 0 then Some (info_return reply s)
       else Some (info_lengths (n + unicode_len root_name) 0 (with_maxima reply 0 0 0 0))
     else if info_class =? KeyBasicInformation then
       Some (info_lengths (unicode_len (k_name k)) 0 (with_maxima reply 0 0 0 0))
     else if info_class =? KeyNodeInformation then
       Some (info_lengths (unicode_len (k_name k)) (classlen k) (with_maxima reply 0 0 0 0))
     else if (info_class =? KeyFullInformation) || (info_class =? KeyCachedInformation) then
       children ← mapM (fun c => heap s !! c) (k_subkeys k);
       let reply' :=
         with_namelen
           (with_maxima reply
              (list_max (map (fun c => unicode_len (k_name c)) children))
              (list_max (map classlen children))
              (list_max (map (fun v => unicode_len (kv_name v)) (k_values k)))
              (list_max (map kv_len (k_values k))))
           (unicode_len (k_name k)) in
       Some (info_lengths 0 (if info_class =? KeyCachedInformation then 0 else classlen k)
               reply')
     else Some (info_return reply (set_error s STATUS_INVALID_PARAMETER)));
  match choice with
  | info_return r s' => Some (r, s')
  | info_lengths namelen classlen reply =>
      let reply := with_counts reply k (namelen + classlen) in
      let len := Z.min (namelen + classlen) max_size in
      if len =? 0 then Some (reply, s)
      else if namelen <? len then
        Some (with_data (with_namelen reply namelen)
                (take (Z.to_nat namelen) (bytes_of_wchars (k_name k))
                 ++ take (Z.to_nat (len - namelen))
                      (bytes_of_wchars (default [] (k_class k)))), s)
      else if info_class =? KeyNameInformation then
        data ← copy_path (S (length (heap s))) (heap s) (root_key s) (Some a)
                 namelen len (replicate (Z.to_nat len) 0);
        Some (with_data (with_namelen reply namelen)
                (memcpy_at data 0 (bytes_of_wchars root_name)
                   (Z.min (unicode_len root_name) len)), s)
      else
        Some (with_data (with_namelen reply len)
                (take (Z.to_nat len) (bytes_of_wchars (k_name k))), s)
  end.

(** [enum_key]: query information about a key or a subkey. *)
Definition enum_key (s : state) (a : ptr) (index info_class max_size : Z)
    (reply : enum_key_reply) : option (enum_key_reply * state) :=
  if negb (index =? -1) then
    k ← heap s !! a;
    if (index <? 0) || (last_subkey k <? index)
    then Some (reply, set_error s STATUS_NO_MORE_ENTRIES)
    else c ← array_get (k_subkeys k) index;
         key_information s c info_class max_size reply
  else key_information s a info_class max_size reply.

(** ** Request handlers *)

(** The calls a handler makes to the handle table and to the object
    manager, in order. *)
Inductive call : Type :=
  | call_get_handle_obj (handle access : Z)
  | call_open_named_object (root : option ptr) (name : list Z) (attributes : Z)
  | call_alloc_handle (obj : ptr) (access attributes : Z).

(** The client a request comes from, for [is_wow64_thread]. *)
Record thread : Type := mk_thread {
  prefix_64bit : bool;      (* prefix_type == PREFIX_64BIT *)
  cpu_64bit    : bool       (* CPU_FLAG(thread->process->cpu) & CPU_64BIT_MASK *)
}.

Definition is_wow64_thread (t : thread) : bool := prefix_64bit t && negb (cpu_64bit t).

Record open_key_request : Type := mk_open_key_request {
  ok_parent     : Z;
  ok_attributes : Z;
  ok_access     : Z;
  ok_name       : list Z      (* get_req_unicode_str() *)
}.

Record create_key_request : Type := mk_create_key_request {
  ck_rootdir    : Z;          (* objattr->rootdir *)
  ck_attributes : Z;          (* objattr->attributes *)
  ck_name       : list Z;
  ck_class      : list Z;
  ck_options    : Z;
  ck_access     : Z
}.

Record create_key_reply : Type := mk_create_key_reply {
  ckr_hkey    : Z;
  ckr_created : Z
}.

Record enum_key_request : Type := mk_enum_key_request {
  ek_hkey       : Z;
  ek_index      : Z;
  ek_info_class : Z
}.

Section Handlers.
Context `{cm : Casemap}.

(** The collaborators of the handlers, which the sources do not contain:
    the handle table ([get_handle_obj] resolves a handle for an access
    mask, [alloc_handle] returns a new handle, or 0 and an error), the
    object manager ([open]), the requesting thread and the size of its
    reply buffer. *)
Variable get_handle_obj : state -> Z -> Z -> status + ptr.
Variable alloc_handle : state -> ptr -> Z -> Z -> Z * state.
Variable open : resolver.
Variable current : thread.
Variable reply_max_size : Z.

(** [get_hkey_obj]: the key behind a handle, unless it was deleted. *)
Definition get_hkey_obj (s : state) (hkey access : Z) : option (option ptr * state) :=
  match get_handle_obj s hkey access with
  | inl e => Some (None, set_error s e)
  | inr a =>
      k ← heap s !! a;
      if has_flag (k_flags k) KEY_DELETED
      then Some (None, set_error s STATUS_KEY_DELETED)
      else Some (Some a, s)
  end.

(** The steps the handlers of [create_key] and [open_key] share: resolve
    the parent handle, derive the attributes from the bitness of the
    client, redirect the parent for [KEY_WOW64_32KEY].  The result is
    [inl] when the handler returns early. *)
Definition resolve_parent (s : state) (parent access attributes : Z) (name : list Z)
    : option ((state * list call) + (option ptr * Z * state * list call)) :=
  '(p, s1, calls) ← (if negb (parent =? 0) then
                       '(p, s1) ← get_hkey_obj s parent 0;
                       Some (p, s1, [call_get_handle_obj parent 0])
                     else Some (None, s, []));
  if negb (parent =? 0) && negb (bool_decide (is_Some p)) then Some (inl (s1, calls))
  else
    let attributes := if is_wow64_thread current && negb (has_flag access KEY_WOW64_64KEY)
                      then Z.lor attributes WINE_OBJ_WOW64 else attributes in
    p' ← match p with
         | Some a =>
             if has_flag access KEY_WOW64_32KEY
             then a' ← find_wow64_subkey (heap s1) a (first_token name); Some (Some a')
             else Some (Some a)
         | None => Some None
         end;
    Some (inr (p', attributes, s1, calls)).

(** [DECL_HANDLER(open_key)]: the handle of the reply, the engine and
    the calls made. *)
Definition open_key_handler (s : state) (req : open_key_request)
    : option (Z * state * list call) :=
  if 65534 <=? unicode_len (ok_name req)
  then Some (0, set_error s STATUS_OBJECT_NAME_INVALID, [])
  else
    r ← resolve_parent s (ok_parent req) (ok_access req) (ok_attributes req) (ok_name req);
    match r with
    | inl (s1, calls) => Some (0, s1, calls)
    | inr (parent, attributes, s1, calls) =>
        '(key, s2) ← open s1 parent (ok_name req) attributes;
        let calls := calls ++ [call_open_named_object parent (ok_name req) attributes] in
        match key with
        | Some a =>
            let '(hkey, s3) := alloc_handle s2 a (ok_access req) (ok_attributes req) in
            Some (hkey, s3, calls ++ [call_alloc_handle a (ok_access req) (ok_attributes req)])
        | None => Some (0, s2, calls)
        end
    end.

(** [DECL_HANDLER(create_key)]. *)
Definition create_key_handler (s : state) (req : create_key_request)
    : option (create_key_reply * state * list call) :=
  r ← resolve_parent s (ck_rootdir req) (ck_access req) (ck_attributes req) (ck_name req);
  match r with
  | inl (s1, calls) => Some (mk_create_key_reply 0 0, s1, calls)
  | inr (parent, attributes, s1, calls) =>
      '(key, s2) ← create_key s1 parent (ck_name req) (ck_class req) (ck_options req)
                     (ck_access req) attributes;
      match key with
      | Some a =>
          let '(created, s3) :=
            if decide (last_error s2 = STATUS_SUCCESS) then (1, s2)
            else if decide (last_error s2 = STATUS_OBJECT_NAME_EXISTS)
                 then (0, set_error s2 STATUS_SUCCESS)
                 else (0, s2) in
          let '(hkey, s4) := alloc_handle s3 a (ck_access req) (ck_attributes req) in
          Some (mk_create_key_reply hkey created, s4,
                calls ++ [call_alloc_handle a (ck_access req) (ck_attributes req)])
      | None => Some (mk_create_key_reply 0 0, s2, calls)
      end
  end.

(** The access [DECL_HANDLER(enum_key)] asks of the handle. *)
Definition enum_key_access (index : Z) : Z :=
  if index =? -1 then KEY_QUERY_VALUE else KEY_ENUMERATE_SUB_KEYS.

(** [DECL_HANDLER(enum_key)]. *)
Definition enum_key_handler (s : state) (req : enum_key_request)
    : option (enum_key_reply * state * list call) :=
  let access := enum_key_access (ek_index req) in
  '(key, s1) ← get_hkey_obj s (ek_hkey req) access;
  let calls := [call_get_handle_obj (ek_hkey req) access] in
  match key with
  | Some a =>
      '(reply, s2) ← enum_key s1 a (ek_index req) (ek_info_class req) reply_max_size
                       empty_enum_key_reply;
      Some (reply, s2, calls)
  | None => Some (empty_enum_key_reply, s1, calls)
  end.

End Handlers.

(** ** The properties that are stated about the engine *)

(** Lexicographic comparison of two lists of integers. *)
Fixpoint lex (a b : list Z) : comparison :=
  match a, b with
  | [], [] => Eq
  | [], _ :: _ => Lt
  | _ :: _, [] => Gt
  | x :: a', y :: b' => match x ?= y with Eq => lex a' b' | c => c end
  end.

(** A name after case folding: two names are the same name when their
    foldings are equal. *)
Definition fold_name `{cm : Casemap} (a : list Z) : list Z := map tolowerW a.

(** The names of an array are strictly increasing for [compare_name]. *)
Definition names_sorted `{cm : Casemap} (names : list (list Z)) : Prop :=
  forall (i j : nat) x y, (i < j)%nat -> names !! i = Some x -> names !! j = Some y ->
    compare_name x y < 0.

Definition values_sorted `{cm : Casemap} (k : key) : Prop :=
  names_sorted (map kv_name (k_values k)).

(** The payload a value holds: its first [len] bytes, nothing behind a
    null pointer. *)
Definition value_bytes (v : key_value) : list Z :=
  match kv_data v with
  | Some d => take (Z.to_nat (kv_len v)) d
  | None => []
  end.

Definition dirty (k : key) : Prop := has_flag (k_flags k) KEY_DIRTY = true.
Definition volatile (k : key) : Prop := has_flag (k_flags k) KEY_VOLATILE = true.

(** [a] is a proper ancestor of [c]: it is on the chain of parents of [c]. *)
Inductive ancestor (h : list key) : ptr -> ptr -> Prop :=
  | ancestor_parent c kc p :
      h !! c = Some kc -> k_parent kc = Some p -> ancestor h p c
  | ancestor_further c kc p a :
      h !! c = Some kc -> k_parent kc = Some p -> ancestor h a p -> ancestor h a c.

(** The way up: a parent was allocated before its children, and the
    children of a volatile key are volatile. *)
Record upward_ok (h : list key) : Prop := {
  up_below : forall c kc p, h !! c = Some kc -> k_parent kc = Some p -> (p < c)%nat;
  up_volatile : forall c kc p kp,
    h !! c = Some kc -> k_parent kc = Some p -> h !! p = Some kp -> volatile kp -> volatile kc
}.

(** The way down: the subkeys of a key are exactly the keys whose parent
    it is, each listed once. *)
Record links_ok (h : list key) : Prop := {
  ln_listed : forall c kc p kp,
    h !! c = Some kc -> k_parent kc = Some p -> h !! p = Some kp -> c ∈ k_subkeys kp;
  ln_child : forall p kp c,
    h !! p = Some kp -> c ∈ k_subkeys kp -> exists kc, h !! c = Some kc /\ k_parent kc = Some p;
  ln_nodup : forall p kp, h !! p = Some kp -> NoDup (k_subkeys kp)
}.

(** A well-formed tree. *)
Definition tree_ok (h : list key) : Prop := upward_ok h /\ links_ok h.

(** The dirty-propagation invariant: above a dirty key that is not
    volatile, every key is dirty. *)
Definition dirty_invariant (h : list key) : Prop :=
  forall c kc a ka, h !! c = Some kc -> ~ volatile kc -> dirty kc ->
    ancestor h a c -> h !! a = Some ka -> dirty ka.

(** The same for one step up. *)
Definition dirty_step (h : list key) : Prop :=
  forall c kc p kp, h !! c = Some kc -> k_parent kc = Some p -> h !! p = Some kp ->
    ~ volatile kc -> dirty kc -> dirty kp.

(** Relations between a key before and after a walk. *)
Definition same_links (k k' : key) : Prop :=
  k_parent k' = k_parent k /\ k_subkeys k' = k_subkeys k /\ (volatile k' <-> volatile k).

Definition same_marks (k k' : key) : Prop :=
  k_parent k' = k_parent k /\ k_subkeys k' = k_subkeys k /\ k_flags k' = k_flags k.

Definition same_notify (k k' : key) : Prop :=
  k_parent k' = k_parent k /\ k_notify_list k' = k_notify_list k.

(** What a walk that only marks, stamps and notifies may change in a key:
    the modification time, the notification list, and [KEY_DIRTY]. *)
Definition touched (k k' : key) : Prop :=
  k_name k' = k_name k /\ k_class k' = k_class k /\ k_parent k' = k_parent k /\
  k_subkeys k' = k_subkeys k /\ k_nb_subkeys k' = k_nb_subkeys k /\
  k_values k' = k_values k /\ k_nb_values k' = k_nb_values k /\
  (k_flags k' = k_flags k \/ k_flags k' = Z.lor (k_flags k) KEY_DIRTY).

(** What [make_clean] does to one key: nothing, or clear [KEY_DIRTY]. *)
Definition cleaned (k k' : key) : Prop :=
  k' = k \/ k' = with_flags k (Z.land (k_flags k) (Z.lnot KEY_DIRTY)).

(** The keys whose flag was cleared have no dirty, non-volatile child
    left. *)
Definition clean_below (h h' : list key) : Prop :=
  forall x kx kx' c kc', h !! x = Some kx -> h' !! x = Some kx' -> dirty kx -> ~ dirty kx' ->
    c ∈ k_subkeys kx -> h' !! c = Some kc' -> ~ volatile kc' -> ~ dirty kc'.

Definition clean_at (h' : list key) (a : ptr) : Prop :=
  forall ka', h' !! a = Some ka' -> ~ volatile ka' -> ~ dirty ka'.

Definition clean_post (h : list key) (a : ptr) (h' : list key) : Prop :=
  Forall2 cleaned h h' /\ clean_at h' a /\ clean_below h h'.

(** The keys a walk that starts at [p] and follows the parents meets. *)
Definition on_chain (h : list key) (p : option ptr) (x : ptr) : Prop :=
  exists a, p = Some a /\ (x = a \/ ancestor h x a).

(** What [check_notify] does to one notification. *)
Definition fire (change not_subtree : Z) (n : notify) : notify :=
  if notify_matches change not_subtree n then fst (do_notification n) else n.

(** Key [x] holds a notification that the walk matches and whose event
    [e] is armed. *)
Definition fired_at (h : list key) (change not_subtree : Z) (x : ptr) (e : nat) : Prop :=
  exists kx n, h !! x = Some kx /\ n ∈ k_notify_list kx /\
    notify_matches change not_subtree n = true /\ n_event n = Some e.

(** An armed notification of key [x] that satisfies [P] holds event [e]. *)
Definition armed_on (h : list key) (x : ptr) (P : notify -> Prop) (e : nat) : Prop :=
  exists kx n, h !! x = Some kx /\ n ∈ k_notify_list kx /\ n_event n = Some e /\ P n.

(** ** The engine as a transition system *)

(** [find_notify]: the index of the notification of a process and handle. *)
Fixpoint find_notify (l : list notify) (process : nat) (hkey : Z) : option nat :=
  match l with
  | [] => None
  | n :: l' =>
      if bool_decide (n_process n = process) && (n_hkey n =? hkey) then Some O
      else S <$> find_notify l' process hkey
  end.

(** The body of [DECL_HANDLER(set_registry_notification)] once the key
    and the event are resolved: replace the event of the notification of
    this process and handle, or add a notification at the head. *)
Definition set_registry_notification (s : state) (a : ptr) (event : nat)
    (subtree filter hkey : Z) (process : nat) : option state :=
  k ← heap s !! a;
  let l := match find_notify (k_notify_list k) process hkey with
           | Some i =>
               alter (fun n => mk_notify (Some event) (n_subtree n) (n_filter n)
                                 (n_hkey n) (n_process n)) i (k_notify_list k)
           | None => mk_notify (Some event) subtree filter hkey process :: k_notify_list k
           end in
  Some (set_error (with_heap s (<[a := with_notify_list k l]> (heap s))) STATUS_PENDING).

(** The engine after [init_registry] created the root key: it is named
    [REGISTRY], has no parent ([key_link_name]), and is dirty
    ([create_key]). *)
Definition init_state (now : Z) : state :=
  mk_state [mk_key registryW None None [] 0 [] 0 KEY_DIRTY now []] O STATUS_SUCCESS now [].

(** One operation of the engine: a request that mutates the tree, a save
    of a branch, a flag set on a key while a file is loaded or the WoW64
    keys are created ([load_key_option], [create_wow_key]), or the server
    moving on to the next request (the error slot is cleared and the clock
    advances). *)
Inductive step `{cm : Casemap} : state -> state -> Prop :=
  | step_create_key s parent name class options access attributes r s' :
      create_key s parent name class options access attributes = Some (r, s') ->
      step s s'
  | step_delete_key fuel s a recurse r s' :
      delete_key fuel s a recurse = Some (r, s') -> step s s'
  | step_set_value s a name type data s' :
      set_value s a name type data = Some s' -> step s s'
  | step_delete_value s a name s' :
      delete_value s a name = Some s' -> step s s'
  | step_notification s a event subtree filter hkey process s' :
      set_registry_notification s a event subtree filter hkey process = Some s' ->
      step s s'
  | step_save_branch w fuel s a path ret h' calls :
      save_branch w fuel (heap s) a path = Some (ret, h', calls) ->
      step s (with_heap s h')
  | step_key_option s a k f :
      heap s !! a = Some k -> f = KEY_SYMLINK \/ f = KEY_WOW64 \/ f = KEY_WOWSHARE ->
      step s (with_heap s (<[a := with_flags k (Z.lor (k_flags k) f)]> (heap s)))
  | step_next_request s e now :
      step s (mk_state (heap s) (root_key s) e now (signaled s)).

(** The states the engine reaches. *)
Inductive reachable `{cm : Casemap} : state -> Prop :=
  | reachable_init now : reachable (init_state now)
  | reachable_step s s' : reachable s -> step s s' -> reachable s'.

(** ** What the proofs are stated with *)

Section Runs.
Context `{cm : Casemap}.

(** The five ways a call of [set_value] on key [k] ends: the value is
    there already, the key is a link and refuses it, the name is too long,
    a stored value is replaced, a new value is inserted. *)
Inductive set_value_run (s : state) (a : ptr) (name : list Z) (type : Z) (data : list Z)
    (k : key) : state -> Prop :=
  | run_skip i v :
      find_value k name = Some (Found i) -> array_get (k_values k) i = Some v ->
      same_value v type data = true ->
      set_value_run s a name type data k s
  | run_denied r :
      find_value k name = Some r ->
      (forall i v, r = Found i -> array_get (k_values k) i = Some v ->
         same_value v type data = false) ->
      has_flag (k_flags k) KEY_SYMLINK = true -> not_link_value name type = true ->
      set_value_run s a name type data k (set_error s STATUS_ACCESS_DENIED)
  | run_too_long index e :
      find_value k name = Some (NotFound index) ->
      has_flag (k_flags k) KEY_SYMLINK && not_link_value name type = false ->
      insert_value k name index = inl e ->
      set_value_run s a name type data k (set_error s e)
  | run_update i v s' :
      find_value k name = Some (Found i) -> array_get (k_values k) i = Some v ->
      same_value v type data = false ->
      has_flag (k_flags k) KEY_SYMLINK && not_link_value name type = false ->
      touch_key (with_heap s (<[a := with_values k
                   (alter (fun v => store_value v type (Z.of_nat (length data))
                                      (if Z.of_nat (length data) =? 0 then None else Some data))
                          (Z.to_nat i) (k_values k))
                   (k_nb_values k)]> (heap s))) a REG_NOTIFY_CHANGE_LAST_SET = Some s' ->
      set_value_run s a name type data k s'
  | run_insert index k' s' :
      find_value k name = Some (NotFound index) ->
      has_flag (k_flags k) KEY_SYMLINK && not_link_value name type = false ->
      insert_value k name index = inr k' ->
      touch_key (with_heap s (<[a := with_values k'
                   (alter (fun v => store_value v type (Z.of_nat (length data))
                                      (if Z.of_nat (length data) =? 0 then None else Some data))
                          (Z.to_nat index) (k_values k'))
                   (k_nb_values k')]> (heap s))) a REG_NOTIFY_CHANGE_LAST_SET = Some s' ->
      set_value_run s a name type data k s'.

End Runs.

(** What a step may change in a key without harm to the way up: it may
    cut the key from its parent, and must keep the two flags. *)
Definition same_up (k k' : key) : Prop :=
  (k_parent k' = None \/ k_parent k' = k_parent k) /\
  (volatile k' <-> volatile k) /\ (dirty k' <-> dirty k).

(** The links of the arena: the parent and the subkeys of every key. *)
Definition shape (h : list key) : list (option ptr * list ptr) :=
  (fun k => (k_parent k, k_subkeys k)) <$> h.

(** What every operation keeps: a well-formed tree in which the parent of
    a dirty key that is not volatile is dirty. *)
Definition heap_ok (h : list key) : Prop := tree_ok h /\ dirty_step h.

(** A resolver that leaves the arena alone. *)
Definition heap_stable (open : resolver) : Prop :=
  forall s root name attr r s', open s root name attr = Some (r, s') -> heap s' = heap s.

(** The calls of a save that writes into the file itself. *)
Definition in_place_calls (w : os) (path : string) : list syscall :=
  [sys_open path; sys_lstat path; sys_ftruncate; sys_fdopen]
  ++ (if os_fdopen w then [sys_save_all_subkeys; sys_fclose] else [sys_close]).

(** The temp names that were taken, from [from] on: opened, found to
    exist, closed. *)
Definition temp_retries (w : os) (path : string) (from : Z) (count : nat) : list syscall :=
  flat_map (fun c => [sys_open_excl (tmp_name (os_getpid w) path (from + Z.of_nat c)); sys_close])
           (seq 0 count).

(** The calls of a save through the temp file number [count]. *)
Definition temp_file_calls (w : os) (path : string) (count : nat) : list syscall :=
  let tmp := tmp_name (os_getpid w) path (Z.of_nat count) in
  (if os_open w then [sys_open path; sys_lstat path; sys_close] else [sys_open path])
  ++ temp_retries w path 0 count
  ++ [sys_open_excl tmp; sys_fdopen]
  ++ (if os_fdopen w then
        [sys_save_all_subkeys; sys_fclose]
        ++ (if os_fclose w then [sys_rename tmp path] else [])
        ++ (if os_fclose w && os_rename w then [] else [sys_unlink tmp])
      else [sys_unlink tmp; sys_close]).

(** What [save_branch] leaves of the arena: the branch is cleaned when the
    save succeeded. *)
Definition saved (ret : Z) (h : list key) (a : ptr) (h' : list key) : Prop :=
  if ret =? 0 then h' = h else make_clean (length h) h a = Some h'.

(** The test the specification describes for writing in place: a regular
    file with one link (section 4.8). *)
Definition spec_in_place (w : os) : bool :=
  os_open w &&
  match os_lstat w with
  | Some st => S_ISREG st && (st_nlink st =? 1)
  | None => false
  end.

(** The values of every key are sorted by name. *)
Definition values_ok `{cm : Casemap} (h : list key) : Prop :=
  forall a k, h !! a = Some k -> values_sorted k.

(** ** Scripts

    The operations of the engine as data, and the run of a list of them:
    one [step] for each. *)
Inductive request : Type :=
  | req_create_key (parent : option ptr) (name class : list Z) (options access attributes : Z)
  | req_delete_key (fuel : nat) (a : ptr) (recurse : bool)
  | req_set_value (a : ptr) (name : list Z) (type : Z) (data : list Z)
  | req_delete_value (a : ptr) (name : list Z)
  | req_notification (a : ptr) (event : nat) (subtree filter hkey : Z) (process : nat)
  | req_save_branch (w : os) (fuel : nat) (a : ptr) (path : string)
  | req_key_option (a : ptr) (f : Z)
  | req_next (e : status) (now : Z).

(** One request: the operation it names, on the engine [s]. *)
Definition run_request `{cm : Casemap} (s : state) (r : request) : option state :=
  match r with
  | req_create_key parent name class options access attributes =>
      snd <$> create_key s parent name class options access attributes
  | req_delete_key fuel a recurse => snd <$> delete_key fuel s a recurse
  | req_set_value a name type data => set_value s a name type data
  | req_delete_value a name => delete_value s a name
  | req_notification a event subtree filter hkey process =>
      set_registry_notification s a event subtree filter hkey process
  | req_save_branch w fuel a path =>
      '(_, h', _) ← save_branch w fuel (heap s) a path; Some (with_heap s h')
  | req_key_option a f =>
      k ← heap s !! a;
      if (f =? KEY_SYMLINK) || (f =? KEY_WOW64) || (f =? KEY_WOWSHARE)
      then Some (with_heap s (<[a := with_flags k (Z.lor (k_flags k) f)]> (heap s)))
      else None
  | req_next e now => Some (mk_state (heap s) (root_key s) e now (signaled s))
  end.

(** A script: its requests in order; [None] when one of them does not
    run. *)
Fixpoint run `{cm : Casemap} (s : state) (l : list request) : option state :=
  match l with
  | [] => Some s
  | r :: l' => s' ← run_request s r; run s' l'
  end.

(** ** Example data *)

(** Case folding for ASCII, the part of the table the examples use. *)
Definition ascii_casemap : Casemap :=
  fun c => if (65 <=? c) && (c <=? 90) then c + 32 else c.

(** A regular file with one link, and one with two links. *)
Definition regular_file_os : os :=
  mk_os 42 true (Some (mk_stat S_IFREG 1)) (fun _ => Opened) true true true.
Definition linked_file_os : os :=
  mk_os 42 true (Some (mk_stat S_IFREG 2)) (fun _ => Opened) true true true.

(** The save of the root that the scripts end with. *)
Definition save_root : request := req_save_branch regular_file_os 1 O "/w/system.reg".

(** A link key under the root that names [target], and a key with
    neither values nor flags. *)
Definition link_key (name target : list Z) : key :=
  mk_key name None (Some O) [] 0
    [mk_value symlink_value REG_LINK (unicode_len target) (Some (bytes_of_wchars target))] 8
    KEY_SYMLINK 0 [].
Definition plain_key (name : list Z) (parent : option ptr) (subkeys : list ptr) (nb : Z) : key :=
  mk_key name None parent subkeys nb [] 0 0 0 [].

(** The script that makes [n] links [a], [b], ... under the root, each
    naming the next one and the last naming the key [z], then [z], and
    saves the root. *)
Definition link_script (n : nat) : list request :=
  flat_map (fun i =>
     [req_create_key (Some O) [97 + Z.of_nat i] [] REG_OPTION_CREATE_LINK 0 0;
      req_set_value (S i) symlink_value REG_LINK
        (bytes_of_wchars [if (S i =? n)%nat then 122 else 98 + Z.of_nat i])]) (seq 0 n)
  ++ [req_create_key (Some O) [122] [] 0 0 0; save_root].

(** What that script leaves for 17 links: the root at 0, the links at 1
    to 17, the key [z] at 18. *)
Definition chain_state : state :=
  mk_state
    (plain_key registryW None (seq 1 18) 18
     :: map (fun i => link_key [97 + Z.of_nat i]
                        [if (S i =? 17)%nat then 122 else 98 + Z.of_nat i]) (seq 0 17)
     ++ [plain_key [122] (Some O) [] 0])
    O STATUS_SUCCESS 0 [].

(** A link [a] under the root that names itself, and the script that
    makes it. *)
Definition cycle_script : list request :=
  [req_create_key (Some O) [97] [] REG_OPTION_CREATE_LINK 0 0;
   req_set_value 1 symlink_value REG_LINK (bytes_of_wchars [97]); save_root].
Definition cycle_state : state :=
  mk_state [plain_key registryW None [1%nat] 8; link_key [97] [97]] O STATUS_SUCCESS 0 [].

(** A link [a] under the root that names itself by its full path,
    [\REGISTRY\a], and the script that makes it. *)
Definition root_link : list Z := backslash :: registryW ++ [backslash; 97].
Definition loop_script : list request :=
  [req_create_key (Some O) [97] [] REG_OPTION_CREATE_LINK 0 0;
   req_set_value 1 symlink_value REG_LINK (bytes_of_wchars root_link); save_root].
Definition loop_state : state :=
  mk_state [plain_key registryW None [1%nat] 8; link_key [97] root_link] O STATUS_SUCCESS 0 [].

(** The root holding one value, with the given flags and notifications. *)
Definition value_key (flags : Z) (v : key_value) (l : list notify) : key :=
  mk_key registryW None None [] 0 [v] 8 flags 0 l.
Definition value_state (flags : Z) (v : key_value) (l : list notify) : state :=
  mk_state [value_key flags v l] O STATUS_SUCCESS 0 [].

(** The value [n] with two bytes, and the value [n] with none. *)
Definition two_bytes : key_value := mk_value [110] 1 2 (Some [1; 2]).
Definition no_bytes : key_value := mk_value [110] 1 0 None.

(** A notification of process 0 for changes of values, armed with event 7. *)
Definition value_watch : notify := mk_notify (Some 7%nat) 0 REG_NOTIFY_CHANGE_LAST_SET 16 O.

(** The scripts that set the value [n] on the root and save, arm the
    notification, and make the root a link. *)
Definition value_script (data : list Z) : list request :=
  [req_set_value O [110] 1 data; save_root].
Definition watch_script : list request :=
  [req_notification O 7 0 REG_NOTIFY_CHANGE_LAST_SET 16 O; req_next STATUS_SUCCESS 0].
Definition link_option : list request := [req_key_option O KEY_SYMLINK].

(** The root with a subtree watch (event 1) and a plain watch (event 2)
    for changes of names, and a subkey with a watch (event 3). *)
Definition watched_script : list request :=
  [req_create_key (Some O) [97] [] 0 0 0;
   req_notification O 2 0 REG_NOTIFY_CHANGE_NAME 20 O;
   req_notification O 1 1 REG_NOTIFY_CHANGE_NAME 16 O;
   req_notification 1 3 0 (Z.lor REG_NOTIFY_CHANGE_NAME REG_NOTIFY_CHANGE_LAST_SET) 24 O;
   save_root; req_next STATUS_SUCCESS 0].
Definition watched_state : state :=
  mk_state
    [mk_key registryW None None [1%nat] 8 [] 0 0 0
       [mk_notify (Some 1%nat) 1 REG_NOTIFY_CHANGE_NAME 16 O;
        mk_notify (Some 2%nat) 0 REG_NOTIFY_CHANGE_NAME 20 O];
     mk_key [97] None (Some O) [] 0 [] 0 0 0
       [mk_notify (Some 3%nat) 0 (Z.lor REG_NOTIFY_CHANGE_NAME REG_NOTIFY_CHANGE_LAST_SET) 24 O]]
    O STATUS_SUCCESS 0 [].

(** The engine after the key [a] was created under the root, the root
    was saved, and a value was set on [a]. *)
Definition written_script : list request :=
  [req_create_key (Some O) [97] [] 0 0 0; save_root; req_set_value 1 [110] 1 [1; 2]].
Definition written_state : state :=
  mk_state
    [mk_key registryW None None [1%nat] 8 [] 0 KEY_DIRTY 0 [];
     mk_key [97] None (Some O) [] 0 [two_bytes] 8 KEY_DIRTY 0 []]
    O STATUS_SUCCESS 0 [].

(** A handle table with the one handle 4, for the root key. *)
Definition one_handle : state -> Z -> Z -> status + ptr :=
  fun _ h _ => if h =? 4 then inr O else inl STATUS_ACCESS_DENIED.
Definition next_handle : state -> ptr -> Z -> Z -> Z * state := fun s _ _ _ => (8, s).

(** ** Reading values *)

(** Further constants of the Windows headers (winnt.h, winternl.h). *)
Definition KeyValueBasicInformation   : Z := 0.
Definition KeyValueFullInformation    : Z := 1.
Definition KeyValuePartialInformation : Z := 2.
Definition DELETE          : Z := 0x00010000.
Definition KEY_READ        : Z := 0x00020019.
Definition KEY_WRITE       : Z := 0x00020006.
Definition KEY_EXECUTE     : Z := 0x00020019.
Definition KEY_ALL_ACCESS  : Z := 0x000f003f.
Definition GENERIC_READ    : Z := 0x80000000.
Definition GENERIC_WRITE   : Z := 0x40000000.
Definition GENERIC_EXECUTE : Z := 0x20000000.
Definition GENERIC_ALL     : Z := 0x10000000.

(** Conversion of an [unsigned int] to [int]. *)
Definition to_int (x : Z) : Z := (x + 2 ^ 31) mod 2 ^ 32 - 2 ^ 31.

(** [struct get_key_value_reply] and [struct enum_key_value_reply], each
    with the variable part [data] of the reply. *)
Record get_key_value_reply : Type := mk_get_key_value_reply {
  gv_type  : Z;
  gv_total : Z;
  gv_data  : list Z
}.

Record enum_key_value_reply : Type := mk_enum_key_value_reply {
  ev_total   : Z;
  ev_namelen : Z;
  ev_type    : Z;
  ev_data    : list Z
}.

Definition empty_get_key_value_reply : get_key_value_reply :=
  mk_get_key_value_reply 0 0 [].
Definition empty_enum_key_value_reply : enum_key_value_reply :=
  mk_enum_key_value_reply 0 0 0 [].

Section Reading.
Context `{cm : Casemap}.

(** [get_value]: the type and length go to the reply, the data is cut to
    [max_size], which is [get_reply_max_size()]. *)
Definition get_value (s : state) (a : ptr) (name : list Z) (max_size : Z)
    (reply : get_key_value_reply) : option (get_key_value_reply * state) :=
  k ← heap s !! a;
  r ← find_value k name;
  match r with
  | Found i =>
      value ← array_get (k_values k) i;
      Some (mk_get_key_value_reply (to_int (kv_type value)) (kv_len value)
              match kv_data value with
              | Some d => take (Z.to_nat (Z.min (kv_len value) max_size)) d
              | None => gv_data reply
              end, s)
  | NotFound _ =>
      Some (mk_get_key_value_reply (-1) (gv_total reply) (gv_data reply),
            set_error s STATUS_OBJECT_NAME_NOT_FOUND)
  end.

(** What the [switch] of [enum_value] decides: [reply->total] and the
    length of the name to copy, or nothing for an unknown class. *)
Definition value_lengths (value : key_value) (info_class : Z) : option (Z * Z) :=
  let namelen := unicode_len (kv_name value) in
  if info_class =? KeyValueBasicInformation then Some (namelen, namelen)
  else if info_class =? KeyValueFullInformation then Some (namelen + kv_len value, namelen)
  else if info_class =? KeyValuePartialInformation then Some (kv_len value, 0)
  else None.

(** [enum_value].  The reply buffer is taken to be allocated. *)
Definition enum_value (s : state) (a : ptr) (i info_class max_size : Z)
    (reply : enum_key_value_reply) : option (enum_key_value_reply * state) :=
  k ← heap s !! a;
  if (i <? 0) || (last_value k <? i) then Some (reply, set_error s STATUS_NO_MORE_ENTRIES)
  else
    value ← array_get (k_values k) i;
    let type := to_int (kv_type value) in
    match value_lengths value info_class with
    | None =>
        Some (mk_enum_key_value_reply (ev_total reply) (ev_namelen reply) type (ev_data reply),
              set_error s STATUS_INVALID_PARAMETER)
    | Some (total, namelen) =>
        let maxlen := Z.min total max_size in
        if maxlen =? 0
        then Some (mk_enum_key_value_reply total (ev_namelen reply) type (ev_data reply), s)
        else if namelen <? maxlen then
          Some (mk_enum_key_value_reply total namelen type
                  (take (Z.to_nat namelen) (bytes_of_wchars (kv_name value))
                   ++ take (Z.to_nat (maxlen - namelen)) (default [] (kv_data value))), s)
        else
          Some (mk_enum_key_value_reply total maxlen type
                  (take (Z.to_nat maxlen) (bytes_of_wchars (kv_name value))), s)
    end.

End Reading.

(** [key_map_access]; the access mask is an [unsigned int]. *)
Definition key_map_access (access : Z) : Z :=
  let access := if has_flag access GENERIC_READ then Z.lor access KEY_READ else access in
  let access := if has_flag access GENERIC_WRITE then Z.lor access KEY_WRITE else access in
  let access := if has_flag access GENERIC_EXECUTE then Z.lor access KEY_EXECUTE else access in
  let access := if has_flag access GENERIC_ALL then Z.lor access KEY_ALL_ACCESS else access in
  Z.land access
    (to_uint (Z.lnot (Z.lor GENERIC_READ (Z.lor GENERIC_WRITE (Z.lor GENERIC_EXECUTE
       (Z.lor GENERIC_ALL (Z.lor KEY_WOW64_64KEY KEY_WOW64_32KEY))))))).

(** [key_close_handle]: the notification of the handle that is closed, if
    the key has one, is signalled and removed ([do_notification] with
    [del = 1]). *)
Definition key_close_handle (s : state) (a : ptr) (process : nat) (handle : Z)
    : option (Z * state) :=
  k ← heap s !! a;
  match find_notify (k_notify_list k) process handle with
  | Some i =>
      n ← k_notify_list k !! i;
      Some (1, set_events
                 (with_heap s (<[a := with_notify_list k (delete i (k_notify_list k))]> (heap s)))
                 (snd (do_notification n)))
  | None => Some (1, s)
  end.

(** ** The handler of [set_key_value] *)

Record set_key_value_request : Type := mk_set_key_value_request {
  sv_hkey    : Z;
  sv_type    : Z;
  sv_namelen : Z;
  sv_data    : list Z       (* get_req_data(): the name, then the data *)
}.

Section ValueHandlers.
Context `{cm : Casemap}.

Variable get_handle_obj : state -> Z -> Z -> status + ptr.

(** [DECL_HANDLER(set_key_value)]: the name is the first [namelen] bytes
    of the request data, rounded down to whole [WCHAR]s, the value is what
    follows the [namelen] bytes. *)
Definition set_key_value_handler (s : state) (req : set_key_value_request)
    : option (state * list call) :=
  if Z.of_nat (length (sv_data req)) <? sv_namelen req
  then Some (set_error s STATUS_INVALID_PARAMETER, [])
  else
    let name := wchars_of_bytes
                  (take (Z.to_nat (Z.quot (sv_namelen req) sizeof_WCHAR * sizeof_WCHAR))
                        (sv_data req)) in
    '(key, s1) ← get_hkey_obj get_handle_obj s (sv_hkey req) KEY_SET_VALUE;
    let calls := [call_get_handle_obj (sv_hkey req) KEY_SET_VALUE] in
    match key with
    | Some a =>
        s2 ← set_value s1 a name (sv_type req) (drop (Z.to_nat (sv_namelen req)) (sv_data req));
        Some (s2, calls)
    | None => Some (s1, calls)
    end.

End ValueHandlers.

(** ** What the further properties are stated with *)

(** A well-formed value: the name fits [MAX_VALUE_LEN], the type is an
    [unsigned int], and the data is a null pointer exactly when the length
    is 0, else a buffer of [len] bytes ([memdup( data, len )]). *)
Definition value_ok (v : key_value) : Prop :=
  unicode_len (kv_name v) <= MAX_VALUE_LEN * sizeof_WCHAR /\
  0 <= kv_type v < 2 ^ 32 /\
  match kv_data v with
  | Some d => Z.of_nat (length d) = kv_len v /\ 0 < kv_len v
  | None => kv_len v = 0
  end.

(** The value a linear search finds under a name. *)
Definition value_named `{cm : Casemap} (k : key) (name : list Z) : option key_value :=
  find (fun v => compare_name (kv_name v) name =? 0) (k_values k).

(** What [get_value] replies for a value. *)
Definition value_reply (v : key_value) (max_size : Z) (reply : get_key_value_reply)
    : get_key_value_reply :=
  mk_get_key_value_reply (to_int (kv_type v)) (kv_len v)
    match kv_data v with
    | Some d => take (Z.to_nat (Z.min (kv_len v) max_size)) d
    | None => gv_data reply
    end.

(** The two arrays of a key fit their allocations, which are empty or of
    at least the minimal size. *)
Definition capacity_ok (k : key) : Prop :=
  last_value k + 1 <= k_nb_values k /\
  (k_nb_values k = 0 \/ MIN_VALUES <= k_nb_values k) /\
  last_subkey k + 1 <= k_nb_subkeys k /\
  (k_nb_subkeys k = 0 \/ MIN_SUBKEYS <= k_nb_subkeys k).

(** The bytes [enum_value] has to reply for a value: the name, the name
    and the data, or the data, by the class of the information. *)
Definition value_payload (v : key_value) (info_class : Z) : list Z :=
  (if info_class =? KeyValuePartialInformation then [] else bytes_of_wchars (kv_name v))
  ++ (if info_class =? KeyValueBasicInformation then [] else default [] (kv_data v)).

(** A property of every key of the arena. *)
Definition keys_inv (P : key -> Prop) (h : list key) : Prop :=
  forall a k, h !! a = Some k -> P k.

(** The arena [h'] extends [h]: it holds every key of [h], under the same
    address and name. *)
Definition arena_ext (h h' : list key) : Prop :=
  forall a k, h !! a = Some k -> exists k', h' !! a = Some k' /\ k_name k' = k_name k.

(** Two states of the engine that differ in the error slot at most. *)
Definition only_error (s s' : state) : Prop :=
  heap s' = heap s /\ root_key s' = root_key s /\
  current_time s' = current_time s /\ signaled s' = signaled s.

(** A resolver that changes the error slot at most. *)
Definition error_only (open : resolver) : Prop :=
  forall s root name attr r s', open s root name attr = Some (r, s') -> only_error s s'.

(** What a walk may do to a notification: nothing, or set its event and
    forget it. *)
Definition disarmed (n n' : notify) : Prop :=
  n' = n \/ n' = mk_notify None (n_subtree n) (n_filter n) (n_hkey n) (n_process n).

(** What the walks of [touch_key] keep of a key besides what [touched]
    lists: the modification time, and the notifications up to their
    events. *)
Definition kept (k k' : key) : Prop :=
  k_modif k' = k_modif k /\ Forall2 disarmed (k_notify_list k) (k_notify_list k').

(** What identifies a notification: the process and its handle. *)
Definition notify_id (n : notify) : nat * Z := (n_process n, n_hkey n).

(** A key holds at most one notification for a handle of a process. *)
Definition watch_ok (k : key) : Prop := NoDup (map notify_id (k_notify_list k)).

(** The names of the subkeys of a key, read through their addresses. *)
Definition child_names (h : list key) (k : key) : list (list Z) :=
  map (fun c => default [] (k_name <$> h !! c)) (k_subkeys k).

(** The subkeys of every key are keys of the arena, sorted by name. *)
Definition subkeys_ok `{cm : Casemap} (h : list key) : Prop :=
  forall a k, h !! a = Some k ->
    (forall c, c ∈ k_subkeys k -> (c < length h)%nat) /\ names_sorted (child_names h k).

(** Two keys with the same name and subkeys. *)
Definition named (k k' : key) : Prop :=
  k_name k' = k_name k /\ k_subkeys k' = k_subkeys k.

(** The path of a key below the root: for each key on the way down from
    the root, a backslash and the name of the key. *)
Inductive key_path (h : list key) (root : ptr) : ptr -> list Z -> Prop :=
  | key_path_root : key_path h root root []
  | key_path_child a k p path :
      a <> root -> h !! a = Some k -> k_parent k = Some p -> key_path h root p path ->
      key_path h root a (path ++ backslash :: k_name k).


(** The subtree of [a]: [a] and the keys below it. *)
Definition within (h : list key) (a x : ptr) : Prop := x = a \/ ancestor h a x.

(** What the deletion of the subtree of [a] leaves of the arena [h]: the
    keys of the subtree are marked deleted and cut from their parents,
    the other keys keep their parent, their values and their subkeys
    apart from [a]. *)
Definition subtree_deleted (h : list key) (a : ptr) (h' : list key) : Prop :=
  length h' = length h /\
  forall x kx, h !! x = Some kx ->
    exists kx', h' !! x = Some kx' /\ k_name kx' = k_name kx /\
      (k_parent kx' = k_parent kx \/ k_parent kx' = None) /\
      (within h a x ->
         has_flag (k_flags kx') KEY_DELETED = true /\ k_parent kx' = None) /\
      (~ within h a x ->
         k_parent kx' = k_parent kx /\ k_values kx' = k_values kx /\
         has_flag (k_flags kx') KEY_DELETED = has_flag (k_flags kx) KEY_DELETED /\
         forall c, c ∈ k_subkeys kx' <-> c ∈ k_subkeys kx /\ c <> a).

(** The keys of a list that have a parent, counted; over the keys
    allocated after a key, the measure of the recursion of [delete_key]. *)
Fixpoint count_linked (l : list key) : nat :=
  match l with
  | [] => O
  | k :: l' => (match k_parent k with Some _ => 1 | None => 0 end + count_linked l')%nat
  end.


(** ** Further example data *)

(** The keys [a] and [c] under the root and the key [b] under [a], and
    the script that makes them. *)
Definition nested_script : list request :=
  [req_create_key (Some O) [97] [] 0 0 0; req_create_key (Some 1%nat) [98] [] 0 0 0;
   req_create_key (Some O) [99] [] 0 0 0].
Definition nested_state : state :=
  mk_state
    [mk_key registryW None None [1%nat; 3%nat] 8 [] 0 KEY_DIRTY 0 [];
     mk_key [97] None (Some O) [2%nat] 8 [] 0 KEY_DIRTY 0 [];
     mk_key [98] None (Some 1%nat) [] 0 [] 0 KEY_DIRTY 0 [];
     mk_key [99] None (Some O) [] 0 [] 0 KEY_DIRTY 0 []]
    O STATUS_SUCCESS 0 [].

(** ** Chains of symbolic links *)

(** The key reached after [n] symbolic links were followed from key [a],
    each by [follow_symlink], and the engine then; none when a key on the
    way is no link or its target does not resolve. *)
Fixpoint follow_links `{cm : Casemap} (open : resolver) (attr : Z) (n : nat)
    (s : state) (a : ptr) : option (ptr * state) :=
  match n with
  | O => Some (a, s)
  | S n' =>
      k ← heap s !! a;
      if has_flag (k_flags k) KEY_SYMLINK then
        '(target, s1) ← follow_symlink open s a attr;
        t ← target;
        follow_links open attr n' s1 t
      else None
  end.

(** Key [t] ends a chain of links: it is no link, or it is a link whose
    target does not resolve; [s'] is the engine then. *)
Definition link_ends `{cm : Casemap} (open : resolver) (attr : Z) (s : state) (t : ptr)
    (s' : state) : Prop :=
  exists k, heap s !! t = Some k /\
    if has_flag (k_flags k) KEY_SYMLINK then follow_symlink open s t attr = Some (None, s')
    else s' = s.

(** Every key named [Wow6432Node] has a parent: [key_lookup_name] reads
    [key->parent->flags] of such a key. *)
Definition wow_ok `{cm : Casemap} (h : list key) : Prop :=
  forall (a : ptr) k, h !! a = Some k -> is_wow6432node (k_name k) = true -> is_Some (k_parent k).

(** An engine on which a lookup dereferences no dangling address: a
    well-formed tree with sorted subkeys, the root in the arena, and a
    parent for every key named [Wow6432Node]. *)
Definition lookup_ok `{cm : Casemap} (s : state) : Prop :=
  upward_ok (heap s) /\ subkeys_ok (heap s) /\ (root_key s < length (heap s))%nat /\
  wow_ok (heap s).

(** What a part of a lookup does when it returns on a well-formed
    engine: it changes the error slot at most. *)
Definition loop_returns (s : state) (x : option (option ptr * state * Z)) : Prop :=
  exists r s' n, x = Some (r, s', n) /\ only_error s s' /\
    forall t, r = Some t -> (t < length (heap s))%nat.
Definition step_returns (s : state) (name : list Z)
    (x : option (option ptr * list Z * state)) : Prop :=
  exists found rest s', x = Some (found, rest, s') /\ only_error s s' /\
    forall c, found = Some c -> (c < length (heap s))%nat /\ (length rest < length name)%nat.
Definition open_returns (s : state) (x : option (option ptr * state)) : Prop :=
  exists r s', x = Some (r, s') /\ only_error s s' /\
    forall t, r = Some t -> (t < length (heap s))%nat.

(** * Lemmas *)

(** ** Names and the binary search *)

Section Names.
Context `{cm : Casemap}.

Lemma lex_refl a : lex a a = Eq.
Proof. induction a as [|x a IH]; simpl; [done|]. by rewrite Z.compare_refl. Qed.

Lemma lex_eq a b : lex a b = Eq -> a = b.
Proof.
  revert b; induction a as [|x a IH]; intros [|y b]; simpl; try done.
  destruct (Z.compare_spec x y) as [->| |]; try done. intros E. f_equal. by apply IH.
Qed.

Lemma lex_antisym a b : lex b a = CompOpp (lex a b).
Proof.
  revert b; induction a as [|x a IH]; intros [|y b]; simpl; try done.
  rewrite (Z.compare_antisym x y). destruct (x ?= y); simpl; auto.
Qed.

Lemma lex_trans a b c : lex a b = Lt -> lex b c = Lt -> lex a c = Lt.
Proof.
  revert b c; induction a as [|x a IH]; intros [|y b] [|z c]; simpl; try done.
  destruct (x ?= y) eqn:Exy, (y ?= z) eqn:Eyz; try done; intros H1 H2.
  - apply Z.compare_eq_iff in Exy. apply Z.compare_eq_iff in Eyz. subst. rewrite Z.compare_refl. eauto.
  - apply Z.compare_eq_iff in Exy. subst. by rewrite Eyz.
  - apply Z.compare_eq_iff in Eyz. subst. by rewrite Exy.
  - assert (x < z) as Hxz by (change (x < y) in Exy; change (y < z) in Eyz; lia).
    change ((x ?= z) = Lt) in Hxz. by rewrite Hxz.
Qed.

Lemma chars_of_min (n m : nat) :
  Z.to_nat (Z.quot (Z.min (sizeof_WCHAR * Z.of_nat n) (sizeof_WCHAR * Z.of_nat m)) sizeof_WCHAR)
  = Nat.min n m.
Proof.
  unfold sizeof_WCHAR. rewrite Z.quot_div_nonneg by lia.
  assert (Z.min (2 * Z.of_nat n) (2 * Z.of_nat m) / 2 = Z.of_nat (Nat.min n m)) as -> by lia.
  lia.
Qed.

Lemma compare_name_cons x a y b :
  compare_name (x :: a) (y :: b) =
  if tolowerW x - tolowerW y =? 0 then compare_name a b else tolowerW x - tolowerW y.
Proof.
  unfold compare_name, unicode_len. rewrite !chars_of_min. simpl length.
  simpl Nat.min. simpl memicmpW.
  destruct (tolowerW x - tolowerW y =? 0) eqn:E.
  - replace (sizeof_WCHAR * Z.of_nat (S (length a)) - sizeof_WCHAR * Z.of_nat (S (length b)))
      with (sizeof_WCHAR * Z.of_nat (length a) - sizeof_WCHAR * Z.of_nat (length b)) by lia. done.
  - rewrite E. done.
Qed.

Lemma compare_name_lex a b : (compare_name a b ?= 0) = lex (fold_name a) (fold_name b).
Proof.
  revert b; induction a as [|x a IH]; intros [|y b].
  - done.
  - unfold compare_name, unicode_len. rewrite chars_of_min. simpl. done.
  - unfold compare_name, unicode_len. rewrite chars_of_min. simpl. done.
  - rewrite compare_name_cons. simpl.
    destruct (Z.eqb_spec (tolowerW x - tolowerW y) 0) as [E|E].
    + replace (tolowerW x ?= tolowerW y) with Eq by (symmetry; apply Z.compare_eq_iff; lia). apply IH.
    + destruct (Z.compare_spec (tolowerW x) (tolowerW y)), (Z.compare_spec (tolowerW x - tolowerW y) 0); try lia; done.
Qed.


Lemma compare_name_lt_iff a b : compare_name a b < 0 <-> lex (fold_name a) (fold_name b) = Lt.
Proof. rewrite <- compare_name_lex. symmetry. apply Z.compare_lt_iff. Qed.

Lemma compare_name_eq_iff a b : compare_name a b = 0 <-> fold_name a = fold_name b.
Proof.
  split.
  - intros E. apply lex_eq. rewrite <- compare_name_lex. by apply Z.compare_eq_iff.
  - intros E. apply Z.compare_eq_iff. rewrite compare_name_lex, E. apply lex_refl.
Qed.

Lemma compare_name_gt_iff a b : 0 < compare_name a b <-> lex (fold_name b) (fold_name a) = Lt.
Proof.
  rewrite lex_antisym, <- compare_name_lex.
  destruct (Z.compare_spec (compare_name a b) 0); simpl; split; intros; try done; lia.
Qed.

Lemma array_get_Some {A} (l : list A) i x :
  array_get l i = Some x <-> 0 <= i /\ l !! Z.to_nat i = Some x.
Proof.
  unfold array_get. destruct (Z.ltb_spec i 0); split.
  - done.
  - intros [? _]; lia.
  - intros ?; split; [lia|done].
  - intros [_ ?]; done.
Qed.

Lemma array_get_lt {A} (l : list A) i x :
  array_get l i = Some x -> 0 <= i < Z.of_nat (length l).
Proof. intros [? H]%array_get_Some. apply lookup_lt_Some in H. lia. Qed.

Lemma array_get_is_Some {A} (l : list A) i :
  0 <= i < Z.of_nat (length l) -> exists x, array_get l i = Some x.
Proof.
  intros H. destruct (lookup_lt_is_Some_2 l (Z.to_nat i)) as [x Hx]; [lia|].
  exists x. apply array_get_Some. split; [lia|done].
Qed.

(** The search returns: it never runs out of fuel nor reads outside. *)
Lemma name_search_total fuel names name min max :
  0 <= min -> max < Z.of_nat (length names) -> max - min + 1 <= Z.of_nat fuel ->
  exists r, name_search fuel names name min max = Some r.
Proof.
  revert min max; induction fuel as [|fuel IH]; intros min max Hmin Hmax Hfuel; simpl.
  - destruct (Z.ltb_spec max min); [eauto|lia].
  - destruct (Z.ltb_spec max min); [eauto|].
    destruct (array_get_is_Some names (Z.quot (min + max) 2)) as [e ->]; [lia|]. simpl.
    destruct (_ =? 0); [eauto|]. destruct (0 <? _); apply IH; lia.
Qed.

(** What a hit means. *)
Lemma name_search_found fuel names name min max i :
  name_search fuel names name min max = Some (Found i) ->
  min <= i <= max /\ exists e, array_get names i = Some e /\ compare_name e name = 0.
Proof.
  revert min max; induction fuel as [|fuel IH]; intros min max; simpl.
  - destruct (max <? min); done.
  - destruct (Z.ltb_spec max min); [done|].
    destruct (array_get names (Z.quot (min + max) 2)) as [e|] eqn:He; [simpl|done].
    destruct (Z.eqb_spec (compare_name e name) 0) as [E|E].
    + intros [= <-]. split; [lia|eauto].
    + destruct (0 <? _); intros H'%IH; split; try tauto; lia.
Qed.

(** What a miss means on a sorted array: the entries below the returned
    index are smaller than the name, the others larger. *)
Lemma name_search_not_found fuel names name min max index :
  names_sorted names -> 0 <= min -> min <= max + 1 ->
  (forall j e, j < min -> array_get names j = Some e -> compare_name e name < 0) ->
  (forall j e, max < j -> array_get names j = Some e -> 0 < compare_name e name) ->
  name_search fuel names name min max = Some (NotFound index) ->
  min <= index <= max + 1 /\
  (forall j e, j < index -> array_get names j = Some e -> compare_name e name < 0) /\
  (forall j e, index <= j -> array_get names j = Some e -> 0 < compare_name e name).
Proof.
  intros Hs. revert min max; induction fuel as [|fuel IH]; intros min max Hmin Hmm Hlo Hhi; simpl.
  - destruct (Z.ltb_spec max min); [|done]. intros [= <-].
    split; [lia|]. split; [done|]. intros j e ?. apply Hhi. lia.
  - destruct (Z.ltb_spec max min).
    { intros [= <-]. split; [lia|]. split; [done|]. intros j e ?. apply Hhi. lia. }
    set (i := Z.quot (min + max) 2). assert (min <= i <= max) by (subst i; lia).
    destruct (array_get names i) as [e|] eqn:He; [simpl|done].
    destruct (Z.eqb_spec (compare_name e name) 0) as [E|E]; [done|].
    apply array_get_Some in He as [Hi0 He].
    destruct (Z.ltb_spec 0 (compare_name e name)) as [Hpos|Hneg]; intros Hr.
    + apply IH in Hr; [intuition lia|lia|lia|done|].
      intros j e' Hj [Hj0 He']%array_get_Some.
      destruct (decide (j = i)) as [->|Hne]; [congruence|].
      assert (compare_name e e' < 0) as Hlt by (apply (Hs (Z.to_nat i) (Z.to_nat j)); [lia|done..]).
      apply compare_name_gt_iff. apply compare_name_gt_iff in Hpos.
      apply compare_name_lt_iff in Hlt. eapply lex_trans; eauto.
    + apply IH in Hr; [intuition lia|lia|lia| |done].
      intros j e' Hj [Hj0 He']%array_get_Some.
      destruct (decide (j = i)) as [->|Hne]; [replace e' with e by congruence; lia|].
      assert (compare_name e' e < 0) as Hlt by (apply (Hs (Z.to_nat j) (Z.to_nat i)); [lia|done..]).
      assert (compare_name e name < 0) as Hlt' by lia.
      apply compare_name_lt_iff. apply compare_name_lt_iff in Hlt, Hlt'. eapply lex_trans; eauto.
Qed.

(** On a sorted array the search finds the entry that carries the name. *)
Lemma name_search_complete fuel names name min max (j : nat) e :
  names_sorted names -> names !! j = Some e -> compare_name e name = 0 ->
  0 <= min -> min <= Z.of_nat j <= max -> max < Z.of_nat (length names) ->
  max - min + 1 <= Z.of_nat fuel ->
  name_search fuel names name min max = Some (Found (Z.of_nat j)).
Proof.
  intros Hs Hj He. apply compare_name_eq_iff in He.
  revert min max; induction fuel as [|fuel IH]; intros min max Hmin Hjm Hmax Hfuel; simpl.
  - lia.
  - destruct (Z.ltb_spec max min); [lia|].
    set (i := Z.quot (min + max) 2). assert (min <= i <= max) by (subst i; lia).
    destruct (array_get_is_Some names i) as [e' He']; [lia|]. rewrite He'. simpl.
    apply array_get_Some in He' as [_ He'].
    destruct (Z.eqb_spec (compare_name e' name) 0) as [E|E].
    + apply compare_name_eq_iff in E.
      destruct (Z.lt_trichotomy i (Z.of_nat j)) as [Hlt|[Heq|Hgt]].
      * assert (compare_name e' e < 0) as Hc by (apply (Hs (Z.to_nat i) j); [lia|done..]).
        apply compare_name_lt_iff in Hc. rewrite E, He, lex_refl in Hc. done.
      * by rewrite Heq.
      * assert (compare_name e e' < 0) as Hc by (apply (Hs j (Z.to_nat i)); [lia|done..]).
        apply compare_name_lt_iff in Hc. rewrite E, He, lex_refl in Hc. done.
    + destruct (Z.ltb_spec 0 (compare_name e' name)) as [Hpos|Hneg].
      * apply IH; [lia| |lia|lia]. split; [lia|].
        destruct (Z.lt_trichotomy i (Z.of_nat j)) as [Hlt|[Heq|Hgt]]; [|  |lia].
        -- assert (compare_name e' e < 0) as Hc by (apply (Hs (Z.to_nat i) j); [lia|done..]).
           apply compare_name_gt_iff in Hpos. apply compare_name_lt_iff in Hc.
           rewrite <- He in Hpos. pose proof (lex_trans _ _ _ Hpos Hc) as Hx.
           by rewrite lex_refl in Hx.
        -- assert (e' = e) as -> by (rewrite Heq, Nat2Z.id in He'; congruence).
           apply compare_name_eq_iff in He. lia.
      * apply IH; [lia| |lia|lia]. split; [|lia].
        destruct (Z.lt_trichotomy i (Z.of_nat j)) as [Hlt|[Heq|Hgt]]; [lia| |].
        -- assert (e' = e) as -> by (rewrite Heq, Nat2Z.id in He'; congruence).
           apply compare_name_eq_iff in He. lia.
        -- assert (compare_name e e' < 0) as Hc by (apply (Hs j (Z.to_nat i)); [lia|done..]).
           assert (compare_name e' name < 0) as Hc' by lia.
           apply compare_name_lt_iff in Hc, Hc'. rewrite <- He in Hc'.
           pose proof (lex_trans _ _ _ Hc Hc') as Hx. by rewrite lex_refl in Hx.
Qed.

End Names.

(** ** Stored values *)

Section Values.
Context `{cm : Casemap}.

Lemma memcmp_take d data n :
  take n d = take n data -> (n <= length data)%nat -> memcmp d data n = 0.
Proof.
  revert d data; induction n as [|n IH]; intros [|x d] [|y data]; simpl; try done; try lia.
  intros [= -> H] Hn. rewrite Z.sub_diag. simpl. apply IH; [done|lia].
Qed.

Lemma find_value_total k name : exists r, find_value k name = Some r.
Proof.
  unfold find_value, last_value. apply name_search_total; rewrite ?length_map; lia.
Qed.

Lemma find_value_present k name (j : nat) v :
  values_sorted k -> k_values k !! j = Some v -> compare_name (kv_name v) name = 0 ->
  find_value k name = Some (Found (Z.of_nat j)).
Proof.
  intros Hs Hj Hc. unfold find_value, last_value.
  assert (j < length (k_values k))%nat by (by apply lookup_lt_Some in Hj).
  eapply name_search_complete; eauto; rewrite ?length_map; try lia.
  by rewrite list_lookup_fmap, Hj.
Qed.

Lemma array_get_of_nat {A} (l : list A) (j : nat) : array_get l (Z.of_nat j) = l !! j.
Proof. unfold array_get. destruct (Z.ltb_spec (Z.of_nat j) 0); [lia|]. by rewrite Nat2Z.id. Qed.

(** A value that is stored with the requested type, length and bytes, the
    bytes not empty, passes the test of [set_value]. *)
Lemma same_value_intro v type data :
  kv_type v = to_uint type -> kv_len v = Z.of_nat (length data) ->
  value_bytes v = data -> data <> [] -> same_value v type data = true.
Proof.
  intros Ht Hl Hb Hne. unfold same_value, value_bytes in *.
  rewrite Ht, Hl, !Z.eqb_refl in *. simpl.
  destruct (kv_data v) as [d|]; [|congruence].
  rewrite Nat2Z.id in *. apply Z.eqb_eq, memcmp_take; [|done].
  rewrite Hb. by rewrite firstn_all.
Qed.

(** The shared step: when the search hits a value that passes the test,
    [set_value] returns at once. *)
Lemma set_value_skip s a k name type data i v :
  heap s !! a = Some k -> find_value k name = Some (Found i) ->
  array_get (k_values k) i = Some v -> same_value v type data = true ->
  set_value s a name type data = Some s.
Proof.
  intros Hk Hf Hv Hsame. unfold set_value. rewrite Hk. simpl. rewrite Hf. simpl.
  rewrite Hv. simpl. by rewrite Hsame.
Qed.

End Values.

(** ** Flags *)

Lemma land_bit f n : 0 <= n -> Z.land f (2 ^ n) = if Z.testbit f n then 2 ^ n else 0.
Proof.
  intros Hn. apply Z.bits_inj'. intros m Hm. rewrite Z.land_spec, Z.pow2_bits_eqb by done.
  destruct (Z.eqb_spec n m) as [->|Hne].
  - destruct (Z.testbit f m) eqn:E; rewrite ?Z.pow2_bits_eqb, ?Z.eqb_refl, ?Z.bits_0 by done; done.
  - rewrite andb_false_r. destruct (Z.testbit f n); rewrite ?Z.bits_0; [|done].
    rewrite Z.pow2_bits_eqb by done. symmetry. by apply Z.eqb_neq.
Qed.

Lemma has_flag_bit f n : 0 <= n -> has_flag f (2 ^ n) = Z.testbit f n.
Proof.
  intros Hn. unfold has_flag. rewrite land_bit by done.
  destruct (Z.testbit f n); [|done]. assert (0 < 2 ^ n) by (apply Z.pow_pos_nonneg; lia).
  destruct (Z.eqb_spec (2 ^ n) 0); [lia|done].
Qed.

Lemma has_dirty f : has_flag f KEY_DIRTY = Z.testbit f 2.
Proof. apply (has_flag_bit f 2). lia. Qed.
Lemma has_volatile f : has_flag f KEY_VOLATILE = Z.testbit f 0.
Proof. apply (has_flag_bit f 0). lia. Qed.

Lemma has_dirty_or_volatile f :
  has_flag f (Z.lor KEY_DIRTY KEY_VOLATILE) = has_flag f KEY_DIRTY || has_flag f KEY_VOLATILE.
Proof.
  rewrite has_dirty, has_volatile. unfold has_flag.
  change (Z.lor KEY_DIRTY KEY_VOLATILE) with (Z.lor (2 ^ 2) (2 ^ 0)).
  rewrite Z.land_lor_distr_r, !land_bit by lia.
  destruct (Z.testbit f 2), (Z.testbit f 0); done.
Qed.

Lemma dirty_set f : has_flag (Z.lor f KEY_DIRTY) KEY_DIRTY = true.
Proof. rewrite has_dirty, Z.lor_spec. change (Z.testbit KEY_DIRTY 2) with true. apply orb_true_r. Qed.
Lemma dirty_set_volatile f : has_flag (Z.lor f KEY_DIRTY) KEY_VOLATILE = has_flag f KEY_VOLATILE.
Proof. rewrite !has_volatile, Z.lor_spec. change (Z.testbit KEY_DIRTY 0) with false. apply orb_false_r. Qed.
Lemma dirty_clear f : has_flag (Z.land f (Z.lnot KEY_DIRTY)) KEY_DIRTY = false.
Proof. rewrite has_dirty, Z.land_spec. change (Z.testbit (Z.lnot KEY_DIRTY) 2) with false. apply andb_false_r. Qed.
Lemma dirty_clear_volatile f :
  has_flag (Z.land f (Z.lnot KEY_DIRTY)) KEY_VOLATILE = has_flag f KEY_VOLATILE.
Proof. rewrite !has_volatile, Z.land_spec. change (Z.testbit (Z.lnot KEY_DIRTY) 0) with true. apply andb_true_r. Qed.
Lemma deleted_set_dirty f : has_flag (Z.lor f KEY_DELETED) KEY_DIRTY = has_flag f KEY_DIRTY.
Proof. rewrite !has_dirty, Z.lor_spec. change (Z.testbit KEY_DELETED 2) with false. apply orb_false_r. Qed.
Lemma deleted_set_volatile f : has_flag (Z.lor f KEY_DELETED) KEY_VOLATILE = has_flag f KEY_VOLATILE.
Proof. rewrite !has_volatile, Z.lor_spec. change (Z.testbit KEY_DELETED 0) with false. apply orb_false_r. Qed.


(** ** The frame of a walk over the tree *)

Global Instance same_links_refl : Reflexive same_links.
Proof. by intros k. Qed.
Global Instance same_links_trans : Transitive same_links.
Proof. intros k1 k2 k3 (?&?&?) (?&?&?). repeat split; try congruence; tauto. Qed.

(** Rewriting one key of the arena relates the arena to its update. *)
Lemma Forall2_update {R : key -> key -> Prop} `{!Reflexive R} (h : list key) a k k' :
  h !! a = Some k -> R k k' -> Forall2 R h (<[a := k']> h).
Proof.
  intros Ha HR. apply Forall2_same_length_lookup_2; [by rewrite length_insert|].
  intros i x y Hx Hy. destruct (decide (i = a)) as [->|Hne].
  - rewrite list_lookup_insert_eq in Hy by (by apply lookup_lt_Some in Ha). congruence.
  - rewrite list_lookup_insert_ne in Hy by done. by replace y with x by congruence.
Qed.

Lemma Forall2_refl_list {R : key -> key -> Prop} `{!Reflexive R} (h : list key) : Forall2 R h h.
Proof. by apply Forall_Forall2_diag, Forall_forall. Qed.

Lemma Forall2_trans_list {R : key -> key -> Prop} `{!Transitive R} (h1 h2 h3 : list key) :
  Forall2 R h1 h2 -> Forall2 R h2 h3 -> Forall2 R h1 h3.
Proof. intros H1 H2. eapply Forall2_trans; [|exact H1|exact H2]. intros x y z ??. by transitivity y. Qed.

Lemma same_links_back h h' i k' :
  Forall2 same_links h h' -> h' !! i = Some k' -> exists k, h !! i = Some k /\ same_links k k'.
Proof. intros F Hi. destruct (Forall2_lookup_r _ _ _ _ _ F Hi) as (k&?&?). eauto. Qed.

Lemma same_links_forth h h' i k :
  Forall2 same_links h h' -> h !! i = Some k -> exists k', h' !! i = Some k' /\ same_links k k'.
Proof. intros F Hi. destruct (Forall2_lookup_l _ _ _ _ _ F Hi) as (k'&?&?). eauto. Qed.

Lemma upward_ok_same_links h h' : Forall2 same_links h h' -> upward_ok h -> upward_ok h'.
Proof.
  intros F [H1 H5]. split.
  - intros c kc p Hc Hp. destruct (same_links_back _ _ _ _ F Hc) as (k&?&(Ep&?&?)).
    eapply H1; eauto. congruence.
  - intros c kc p kp Hc Hp Hkp Hv.
    destruct (same_links_back _ _ _ _ F Hc) as (k&?&(Ep&?&Hvc)).
    destruct (same_links_back _ _ _ _ F Hkp) as (k0&?&(?&?&Hvp)).
    apply Hvc. eapply H5; eauto; [congruence|tauto].
Qed.

Lemma links_ok_same_links h h' : Forall2 same_links h h' -> links_ok h -> links_ok h'.
Proof.
  intros F [H2 H3 H4]. split.
  - intros c kc p kp Hc Hp Hkp.
    destruct (same_links_back _ _ _ _ F Hc) as (k&?&(Ep&?&?)).
    destruct (same_links_back _ _ _ _ F Hkp) as (k0&?&(?&Es&?)).
    rewrite Es. eapply H2; eauto. congruence.
  - intros p kp c Hp Hc. destruct (same_links_back _ _ _ _ F Hp) as (k&Hk&(?&Es&?)).
    rewrite Es in Hc. destruct (H3 _ _ _ Hk Hc) as (kc&Hkc&Hpar).
    destruct (same_links_forth _ _ _ _ F Hkc) as (kc'&?&(Ep&?&?)).
    exists kc'. split; [done|congruence].
  - intros p kp Hp. destruct (same_links_back _ _ _ _ F Hp) as (k&?&(?&Es&?)).
    rewrite Es. eauto.
Qed.

Lemma tree_ok_same_links h h' : Forall2 same_links h h' -> tree_ok h -> tree_ok h'.
Proof.
  intros F [??]. split; [by eapply upward_ok_same_links|by eapply links_ok_same_links].
Qed.

Lemma same_links_flags k f :
  has_flag f KEY_VOLATILE = has_flag (k_flags k) KEY_VOLATILE -> same_links k (with_flags k f).
Proof. intros E. unfold same_links, volatile. simpl. rewrite E. tauto. Qed.

Lemma make_dirty_links fuel h p h' : make_dirty fuel h p = Some h' -> Forall2 same_links h h'.
Proof.
  revert h p; induction fuel as [|fuel IH]; intros h [a|]; simpl; try done.
  - intros [= <-]. apply Forall2_refl_list.
  - destruct (h !! a) as [k|] eqn:Ha; [simpl|done].
    destruct (has_flag _ _).
    + intros [= <-]. apply Forall2_refl_list.
    + intros H'%IH. eapply Forall2_trans_list; [|exact H'].
      eapply Forall2_update; [done|]. apply same_links_flags, dirty_set_volatile.
  - intros [= <-]. apply Forall2_refl_list.
Qed.

(** [make_dirty] returns when the fuel covers the chain of parents. *)
Lemma make_dirty_total fuel h a :
  upward_ok h -> (a < length h)%nat -> (a < fuel)%nat -> is_Some (make_dirty fuel h (Some a)).
Proof.
  revert h a; induction fuel as [|fuel IH]; intros h a Hok Ha Hfuel; [lia|]. simpl.
  destruct (lookup_lt_is_Some_2 h a Ha) as [k Hk]. rewrite Hk. simpl.
  destruct (has_flag _ _); [done|].
  destruct (k_parent k) as [p|] eqn:Hp.
  - pose proof (up_below _ Hok _ _ _ Hk Hp).
    apply IH; [|rewrite length_insert; lia|lia].
    eapply upward_ok_same_links; [|done].
    eapply Forall2_update; [done|]. apply same_links_flags, dirty_set_volatile.
  - destruct fuel; done.
Qed.

(** Every edge of the tree satisfies the dirty step, except perhaps the
    edges into the key [make_dirty] is about to visit; after the walk all
    of them do. *)
Lemma make_dirty_restores fuel h p h' :
  upward_ok h ->
  (forall c kc q kq, h !! c = Some kc -> k_parent kc = Some q -> h !! q = Some kq ->
     ~ volatile kc -> dirty kc -> dirty kq \/ Some q = p) ->
  make_dirty fuel h p = Some h' -> dirty_step h'.
Proof.
  revert h p; induction fuel as [|fuel IH]; intros h [a|] Hok Hedges; simpl; try done.
  - intros [= <-] c kc q kq ?????. by destruct (Hedges c kc q kq) as [?|?].
  - destruct (h !! a) as [k|] eqn:Ha; [simpl|done].
    rewrite has_dirty_or_volatile.
    destruct (has_flag (k_flags k) KEY_DIRTY) eqn:Hd; simpl.
    { intros [= <-] c kc q kq Hc Hq Hkq Hv Hdc.
      destruct (Hedges c kc q kq) as [?|[= ->]]; try done. by replace kq with k by congruence. }
    destruct (has_flag (k_flags k) KEY_VOLATILE) eqn:Hv; simpl.
    { intros [= <-] c kc q kq Hc Hq Hkq Hvc Hdc.
      destruct (Hedges c kc q kq) as [?|[= ->]]; try done.
      replace kq with k in * by congruence. destruct Hvc. eapply up_volatile; eauto. }
    assert (a < length h)%nat as Hlt by (by apply lookup_lt_Some in Ha).
    apply IH.
    + eapply upward_ok_same_links; [|done].
      eapply Forall2_update; [done|]. apply same_links_flags, dirty_set_volatile.
    + intros c kc q kq Hc Hq Hkq Hvc Hdc.
      destruct (decide (c = a)) as [->|Hca].
      { rewrite list_lookup_insert_eq in Hc by done. injection Hc as <-. right. done. }
      rewrite list_lookup_insert_ne in Hc by done. left.
      destruct (decide (q = a)) as [->|Hqa].
      { rewrite list_lookup_insert_eq in Hkq by done. injection Hkq as <-. apply dirty_set. }
      rewrite list_lookup_insert_ne in Hkq by done.
      destruct (Hedges c kc q kq) as [?|[= ?]]; done.
  - intros [= <-] c kc q kq ?????. by destruct (Hedges c kc q kq) as [?|?].
Qed.

Lemma make_dirty_preserves fuel h p h' :
  upward_ok h -> dirty_step h -> make_dirty fuel h p = Some h' -> dirty_step h'.
Proof.
  intros Hok Hd. apply make_dirty_restores; [done|].
  intros c kc q kq ?????. left. by eapply (Hd c kc q kq).
Qed.


(** ** [make_clean] *)

Global Instance cleaned_refl : Reflexive cleaned.
Proof. by left. Qed.

Lemma with_flags_twice k f g : with_flags (with_flags k f) g = with_flags k g.
Proof. done. Qed.

Lemma clear_twice f :
  Z.land (Z.land f (Z.lnot KEY_DIRTY)) (Z.lnot KEY_DIRTY) = Z.land f (Z.lnot KEY_DIRTY).
Proof. by rewrite <- Z.land_assoc, Z.land_diag. Qed.

Global Instance cleaned_trans : Transitive cleaned.
Proof.
  intros k1 k2 k3 [->| ->] [->| ->]; unfold cleaned; auto.
  right. simpl. by rewrite with_flags_twice, clear_twice.
Qed.

Lemma cleaned_links k k' : cleaned k k' -> same_links k k'.
Proof. intros [->| ->]; [done|]. apply same_links_flags, dirty_clear_volatile. Qed.

Lemma cleaned_dirty k k' : cleaned k k' -> dirty k' -> dirty k.
Proof. intros [->| ->]; [done|]. unfold dirty. simpl. by rewrite dirty_clear. Qed.

Lemma cleaned_subkeys k k' : cleaned k k' -> k_subkeys k' = k_subkeys k.
Proof. by intros [->| ->]. Qed.

Lemma cleaned_volatile k k' : cleaned k k' -> volatile k' <-> volatile k.
Proof. intros H. by destruct (cleaned_links _ _ H) as (_&_&?). Qed.

Lemma clean_below_refl h : clean_below h h.
Proof. intros x kx kx' c kc' Hx Hx' Hd Hnd. destruct Hnd. congruence. Qed.

Lemma clean_below_trans h1 h2 h3 :
  Forall2 cleaned h1 h2 -> Forall2 cleaned h2 h3 ->
  clean_below h1 h2 -> clean_below h2 h3 -> clean_below h1 h3.
Proof.
  intros F12 F23 C12 C23 x kx kx' c kc' Hx Hx' Hd Hnd Hc Hc' Hv.
  destruct (Forall2_lookup_l _ _ _ _ _ F12 Hx) as (kx2&Hx2&Hcl).
  destruct (Forall2_lookup_r _ _ _ _ _ F23 Hc') as (kc2&Hc2&Hclc).
  destruct (has_flag (k_flags kx2) KEY_DIRTY) eqn:E.
  - eapply (C23 x kx2 kx' c kc'); eauto. by rewrite (cleaned_subkeys _ _ Hcl).
  - intros Hdc. apply (C12 x kx kx2 c kc2); eauto.
    + unfold dirty. by rewrite E.
    + rewrite <- (cleaned_volatile _ _ Hclc). done.
    + by apply (cleaned_dirty _ _ Hclc).
Qed.

Lemma clean_at_mono h h' a : Forall2 cleaned h h' -> clean_at h a -> clean_at h' a.
Proof.
  intros F Ha ka' Hk Hv Hd. destruct (Forall2_lookup_r _ _ _ _ _ F Hk) as (ka&Hka&Hcl).
  apply (Ha ka); eauto using cleaned_dirty. by rewrite <- (cleaned_volatile _ _ Hcl).
Qed.

Lemma for_each_clean_spec (f : list key -> ptr -> option (list key)) :
  (forall h a h', f h a = Some h' -> clean_post h a h') ->
  forall l h h', for_each f h l = Some h' ->
    Forall2 cleaned h h' /\ (forall c, c ∈ l -> clean_at h' c) /\ clean_below h h'.
Proof.
  intros Hf. induction l as [|c l IHl]; intros h h'; simpl.
  - intros [= <-]. split; [apply Forall2_refl_list|]. split; [by intros c ?%elem_of_nil|].
    apply clean_below_refl.
  - destruct (f h c) as [h1|] eqn:Hc; [simpl|done].
    intros Hl. apply Hf in Hc as (F1&Hc1&Hb1). apply IHl in Hl as (F2&Hcs&Hb2).
    split; [by eapply Forall2_trans_list|]. split; [|by eapply clean_below_trans].
    intros c' [->|Hin]%elem_of_cons; [by eapply clean_at_mono|by apply Hcs].
Qed.

Lemma make_clean_spec fuel h a h' : make_clean fuel h a = Some h' -> clean_post h a h'.
Proof.
  revert h a h'; induction fuel as [|fuel IH]; intros h a h'; [done|].
  simpl. destruct (h !! a) as [k|] eqn:Ha; [simpl|done].
  destruct (has_flag (k_flags k) KEY_VOLATILE) eqn:Hv.
  { intros [= <-]. split; [apply Forall2_refl_list|]. split; [|apply clean_below_refl].
    intros ka' Hka' Hnv. destruct Hnv. replace ka' with k by congruence. done. }
  destruct (has_flag (k_flags k) KEY_DIRTY) eqn:Hd; simpl.
  2:{ intros [= <-]. split; [apply Forall2_refl_list|]. split; [|apply clean_below_refl].
      intros ka' Hka' _. replace ka' with k by congruence. unfold dirty. by rewrite Hd. }
  intros Hl. apply (for_each_clean_spec _ IH) in Hl as (F&Hcs&Hb).
  assert (a < length h)%nat as Hlt by (by apply lookup_lt_Some in Ha).
  assert (Forall2 cleaned h (<[a:=with_flags k (Z.land (k_flags k) (Z.lnot KEY_DIRTY))]> h)) as F0.
  { eapply Forall2_update; [done|]. by right. }
  split; [by eapply Forall2_trans_list|].
  split.
  - apply (clean_at_mono _ _ _ F). intros ka'. rewrite list_lookup_insert_eq by done.
    intros [= <-] _. unfold dirty. simpl. by rewrite dirty_clear.
  - intros x kx kx' c kc' Hx Hx' Hdx Hndx Hc Hc' Hvc.
    destruct (decide (x = a)) as [->|Hne].
    + replace kx with k in * by congruence. by apply (Hcs c Hc kc').
    + apply (Hb x kx kx' c kc'); try done. by rewrite list_lookup_insert_ne.
Qed.

Lemma make_clean_links fuel h a h' : make_clean fuel h a = Some h' -> Forall2 same_links h h'.
Proof.
  intros (F&_&_)%make_clean_spec. eapply Forall2_impl; [exact F|]. apply cleaned_links.
Qed.

(** [make_clean] keeps the dirty step. *)
Lemma make_clean_preserves fuel h a h' :
  links_ok h -> dirty_step h -> make_clean fuel h a = Some h' -> dirty_step h'.
Proof.
  intros Hok Hd (F&_&Hb)%make_clean_spec c kc' p kp' Hc Hp Hkp Hv Hdc.
  destruct (Forall2_lookup_r _ _ _ _ _ F Hc) as (kc&Hkc&Hclc).
  destruct (Forall2_lookup_r _ _ _ _ _ F Hkp) as (kp&Hkp0&Hclp).
  assert (k_parent kc = Some p) as Hp0.
  { destruct (cleaned_links _ _ Hclc) as (E&_&_). congruence. }
  assert (dirty kp) as Hdp.
  { apply (Hd c kc p kp); try done.
    - by rewrite <- (cleaned_volatile _ _ Hclc).
    - by eapply cleaned_dirty. }
  destruct (has_flag (k_flags kp') KEY_DIRTY) eqn:E; [done|].
  destruct (Hb p kp kp' c kc'); try done.
  - unfold dirty. by rewrite E.
  - eapply ln_listed; eauto.
Qed.

(** [make_clean] returns when the fuel covers the depth below the key. *)
Lemma make_clean_total fuel h a :
  tree_ok h -> (a < length h)%nat -> (length h - a <= fuel)%nat ->
  is_Some (make_clean fuel h a).
Proof.
  revert h a; induction fuel as [|fuel IH]; intros h a Hok Ha Hfuel; [lia|].
  pose proof Hok as [Hup Hln].
  simpl. destruct (lookup_lt_is_Some_2 h a Ha) as [k Hk]. rewrite Hk. simpl.
  destruct (has_flag _ KEY_VOLATILE); [done|]. destruct (has_flag _ KEY_DIRTY); [simpl|done].
  set (h0 := <[a:=_]> h).
  assert (Forall2 same_links h h0) as F0.
  { eapply Forall2_update; [done|]. apply same_links_flags, dirty_clear_volatile. }
  assert (forall l h1, Forall2 same_links h h1 ->
            (forall c, c ∈ l -> (a < c < length h)%nat) ->
            is_Some (for_each (make_clean fuel) h1 l)) as Hloop.
  { induction l as [|c l IHl]; intros h1 F1 Hl; [done|]. simpl.
    assert (a < c < length h)%nat by (apply Hl; by left).
    destruct (IH h1 c) as [h2 Hh2].
    - by eapply tree_ok_same_links.
    - rewrite <- (Forall2_length _ _ _ F1). lia.
    - rewrite <- (Forall2_length _ _ _ F1). lia.
    - rewrite Hh2. simpl. apply IHl.
      + eapply Forall2_trans_list; [exact F1|]. by eapply make_clean_links.
      + intros c' ?. apply Hl. by right. }
  apply Hloop; [done|]. intros c Hc.
  destruct (ln_child _ Hln _ _ _ Hk Hc) as (kc&Hkc&Hpar).
  split; [by eapply up_below|by apply lookup_lt_Some in Hkc].
Qed.


(** ** What a walk touches *)

Global Instance touched_refl : Reflexive touched.
Proof. intros k. unfold touched. tauto. Qed.

Lemma lor_dirty_twice f : Z.lor (Z.lor f KEY_DIRTY) KEY_DIRTY = Z.lor f KEY_DIRTY.
Proof. by rewrite <- Z.lor_assoc, Z.lor_diag. Qed.

Global Instance touched_trans : Transitive touched.
Proof.
  intros k1 k2 k3 (?&?&?&?&?&?&?&F1) (?&?&?&?&?&?&?&F2).
  repeat split; try congruence.
  destruct F1 as [F1|F1], F2 as [F2|F2]; rewrite F2, F1, ?lor_dirty_twice; auto.
Qed.

Lemma touched_links k k' : touched k k' -> same_links k k'.
Proof.
  intros (?&?&?&?&?&?&?&F). repeat split; try done; unfold volatile;
    destruct F as [-> | ->]; rewrite ?dirty_set_volatile; done.
Qed.

Lemma make_dirty_touched fuel h p h' : make_dirty fuel h p = Some h' -> Forall2 touched h h'.
Proof.
  revert h p; induction fuel as [|fuel IH]; intros h [a|]; simpl; try done.
  - intros [= <-]. apply Forall2_refl_list.
  - destruct (h !! a) as [k|] eqn:Ha; [simpl|done].
    destruct (has_flag _ _).
    + intros [= <-]. apply Forall2_refl_list.
    + intros H'%IH. eapply Forall2_trans_list; [|exact H'].
      eapply Forall2_update; [done|]. unfold touched. simpl. tauto.
  - intros [= <-]. apply Forall2_refl_list.
Qed.

(** ** Notification lists *)

Lemma check_notify_list_fst change ns l :
  fst (check_notify_list change ns l) = map (fire change ns) l.
Proof.
  induction l as [|n l IH]; [done|]. simpl. unfold fire at 1.
  destruct (notify_matches change ns n), (do_notification n), (check_notify_list change ns l);
    simpl in *; by rewrite IH.
Qed.

Lemma check_notify_list_snd change ns l e :
  e ∈ snd (check_notify_list change ns l) <->
  exists n, n ∈ l /\ notify_matches change ns n = true /\ n_event n = Some e.
Proof.
  induction l as [|n l IH]; simpl.
  - split; [by intros ?%elem_of_nil|]. by intros (n&?%elem_of_nil&_).
  - unfold do_notification.
    destruct (notify_matches change ns n) eqn:Hm, (check_notify_list change ns l) as [l' es];
      simpl in *.
    + destruct (n_event n) as [e0|] eqn:He; simpl; rewrite ?elem_of_cons, IH.
      * split.
        -- intros [->|(n'&?&?&?)]; [exists n|exists n']; rewrite elem_of_cons; auto.
        -- intros (n'&[->|?]%elem_of_cons&?&?); [left; congruence|right; eauto].
      * split.
        -- intros (n'&?&?&?). exists n'. rewrite elem_of_cons; auto.
        -- intros (n'&[->|?]%elem_of_cons&?&?); [congruence|eauto].
    + rewrite IH. split.
      * intros (n'&?&?&?). exists n'. rewrite elem_of_cons; auto.
      * intros (n'&[->|?]%elem_of_cons&?&?); [congruence|eauto].
Qed.

Lemma check_notify_inv s a change ns s' :
  check_notify s a change ns = Some s' ->
  exists k, heap s !! a = Some k /\
    s' = set_events
           (with_heap s (<[a := with_notify_list k (map (fire change ns) (k_notify_list k))]> (heap s)))
           (snd (check_notify_list change ns (k_notify_list k))).
Proof.
  unfold check_notify. destruct (heap s !! a) as [k|] eqn:Ha; simpl; [|done].
  pose proof (check_notify_list_fst change ns (k_notify_list k)) as Hf.
  destruct (check_notify_list change ns (k_notify_list k)) as [l es] eqn:E. simpl in Hf.
  intros [= <-]. exists k. split; [done|]. by rewrite E, Hf.
Qed.

(** ** Ancestors *)

Lemma ancestor_same_links h h' x c :
  Forall2 same_links h h' -> ancestor h x c -> ancestor h' x c.
Proof.
  intros F. induction 1 as [c kc p Hc Hp|c kc p a Hc Hp _ IH];
    destruct (Forall2_lookup_l _ _ _ _ _ F Hc) as (kc'&Hc'&(Ep&_&_)).
  - apply (ancestor_parent h' c kc' p); [done|congruence].
  - apply (ancestor_further h' c kc' p a); [done|congruence|done].
Qed.

Lemma same_links_sym_list h h' : Forall2 same_links h h' -> Forall2 same_links h' h.
Proof.
  intros F. apply Forall2_flip. eapply Forall2_impl; [exact F|].
  intros k k' (?&?&?). unfold flip, same_links. repeat split; try done; tauto.
Qed.

Lemma ancestor_below h x c : upward_ok h -> ancestor h x c -> (x < c)%nat.
Proof.
  intros Hok. induction 1 as [c kc p Hc Hp|c kc p a Hc Hp _ IH].
  - by eapply up_below.
  - pose proof (up_below _ Hok _ _ _ Hc Hp). lia.
Qed.

Lemma on_chain_step h a k x :
  h !! a = Some k -> on_chain h (Some a) x <-> x = a \/ on_chain h (k_parent k) x.
Proof.
  intros Ha. split.
  - intros (a'&[= <-]&[->|Hanc]); [by left|right].
    inversion Hanc; simplify_eq; eexists; (split; [eassumption|]); auto.
  - intros [->|(p&Hp&[->|Hanc])]; exists a; split; try done; auto.
    + right. by eapply ancestor_parent.
    + right. by eapply ancestor_further.
Qed.

Lemma on_chain_same_links h h' p x :
  Forall2 same_links h h' -> on_chain h p x <-> on_chain h' p x.
Proof.
  intros F. split; intros (a&?&[->|?]); exists a; split; try done; auto; right.
  - by eapply ancestor_same_links.
  - eapply ancestor_same_links; [|done]. by apply same_links_sym_list.
Qed.

Lemma not_on_own_chain h a k : upward_ok h -> h !! a = Some k -> ~ on_chain h (k_parent k) a.
Proof.
  intros Hok Ha (p&Hp&Hanc). pose proof (up_below _ Hok _ _ _ Ha Hp).
  destruct Hanc as [->|?%ancestor_below]; [lia|lia|done].
Qed.

(** ** The walk over the parents *)

Lemma notify_parents_spec fuel s p change s' :
  upward_ok (heap s) -> notify_parents fuel s p change = Some s' ->
  root_key s' = root_key s /\ last_error s' = last_error s /\
  current_time s' = current_time s /\
  (forall x kx, heap s !! x = Some kx ->
     (on_chain (heap s) p x ->
        heap s' !! x = Some (with_notify_list kx (map (fire change 0) (k_notify_list kx)))) /\
     (~ on_chain (heap s) p x -> heap s' !! x = Some kx)) /\
  length (heap s') = length (heap s) /\
  exists evs, signaled s' = signaled s ++ evs /\
    forall e, e ∈ evs <-> exists x, on_chain (heap s) p x /\ fired_at (heap s) change 0 x e.
Proof.
  assert (forall s s', Some s = Some s' ->
    root_key s' = root_key s /\ last_error s' = last_error s /\
    current_time s' = current_time s /\
    (forall x kx, heap s !! x = Some kx ->
       (on_chain (heap s) None x ->
          heap s' !! x = Some (with_notify_list kx (map (fire change 0) (k_notify_list kx)))) /\
       (~ on_chain (heap s) None x -> heap s' !! x = Some kx)) /\
    length (heap s') = length (heap s) /\
    exists evs, signaled s' = signaled s ++ evs /\
      forall e, e ∈ evs <-> exists x, on_chain (heap s) None x /\ fired_at (heap s) change 0 x e)
    as Hnone.
  { intros s0 s0' [= <-]. repeat split; try done.
    - by intros (?&?&_).
    - exists []. rewrite app_nil_r. split; [done|]. intros e. split; [by intros ?%elem_of_nil|].
      by intros (?&(?&?&_)&_). }
  revert s p; induction fuel as [|fuel IH]; intros s [a|] Hok; simpl; try done; try apply Hnone.
  destruct (heap s !! a) as [k|] eqn:Ha; simpl; [|done].
  destruct (check_notify s a change 0) as [s1|] eqn:Hcn; simpl; [|done].
  apply check_notify_inv in Hcn as (k0&Hk0&->). replace k0 with k in * by congruence.
  set (k1 := with_notify_list k _). set (s1 := set_events _ _).
  assert (a < length (heap s))%nat as Hlt by (by apply lookup_lt_Some in Ha).
  assert (Forall2 same_links (heap s) (heap s1)) as F.
  { simpl. eapply Forall2_update; [done|]. done. }
  intros Hrec. apply IH in Hrec as (Hr&He&Ht&Hkeys&Hlen&evs&Hsig&Hevs);
    [|by eapply upward_ok_same_links].
  split; [done|]. split; [done|]. split; [done|]. split; [|split].
  - intros x kx Hx. rewrite (on_chain_step _ _ _ _ Ha).
    destruct (decide (x = a)) as [->|Hne].
    + replace kx with k in * by congruence. split; [|tauto]. intros _.
      destruct (Hkeys a k1) as [_ Hout]. { simpl. by apply list_lookup_insert_eq. }
      apply Hout. rewrite <- (on_chain_same_links _ _ _ _ F). by apply not_on_own_chain.
    + destruct (Hkeys x kx) as [Hin Hout]. { simpl. by rewrite list_lookup_insert_ne. }
      rewrite <- (on_chain_same_links _ _ _ _ F) in Hin, Hout. split; [|tauto].
      intros [?|?]; [done|auto].
  - rewrite Hlen. simpl. by rewrite length_insert.
  - exists (snd (check_notify_list change 0 (k_notify_list k)) ++ evs). split.
    + rewrite Hsig. simpl. by rewrite <- app_assoc.
    + intros e. rewrite elem_of_app, Hevs, check_notify_list_snd. split.
      * intros [(n&?&?&?)|(x&Hx&(kx&n&Hkx&?&?&?))].
        -- exists a. split; [exists a; auto|]. exists k, n. done.
        -- rewrite <- (on_chain_same_links _ _ _ _ F) in Hx.
           assert (x <> a) as Hne.
           { intros ->. by apply (not_on_own_chain _ _ _ Hok Ha). }
           exists x. split; [apply (on_chain_step _ _ _ _ Ha); auto|].
           simpl in Hkx. rewrite list_lookup_insert_ne in Hkx by done. exists kx, n. done.
      * intros (x&Hx&(kx&n&Hkx&?&?&?)). apply (on_chain_step _ _ _ _ Ha) in Hx as [->|Hx].
        -- left. replace kx with k in * by congruence. eauto.
        -- right. exists x. rewrite <- (on_chain_same_links _ _ _ _ F). split; [done|].
           assert (x <> a) as Hne.
           { intros ->. by apply (not_on_own_chain _ _ _ Hok Ha). }
           exists kx, n. simpl. rewrite list_lookup_insert_ne by done. done.
Qed.


(** ** [touch_key] *)

Global Instance same_marks_refl : Reflexive same_marks.
Proof. by intros k. Qed.

Lemma same_marks_links k k' : same_marks k k' -> same_links k k'.
Proof. intros (?&?&E). unfold same_links, volatile. by rewrite E. Qed.

Lemma dirty_step_same_marks h h' : Forall2 same_marks h h' -> dirty_step h -> dirty_step h'.
Proof.
  intros F Hd c kc' p kp' Hc Hp Hkp Hv Hdc.
  destruct (Forall2_lookup_r _ _ _ _ _ F Hc) as (kc&Hkc&(Ep&_&Ef)).
  destruct (Forall2_lookup_r _ _ _ _ _ F Hkp) as (kp&Hkp0&(_&_&Efp)).
  unfold dirty, volatile in *. rewrite Efp. rewrite Ef in Hv, Hdc.
  apply (Hd c kc p kp); try done. congruence.
Qed.

Lemma touch_key_inv s a change s' :
  touch_key s a change = Some s' ->
  exists k h2 s1,
    heap s !! a = Some k /\
    make_dirty (length (heap s)) (<[a := with_modif k (current_time s)]> (heap s)) (Some a)
      = Some h2 /\
    check_notify (with_heap s h2) a change 1 = Some s1 /\
    notify_parents (length (heap s)) s1 (k_parent k)
      (Z.land change (Z.lnot REG_NOTIFY_CHANGE_LAST_SET)) = Some s'.
Proof.
  unfold touch_key. destruct (heap s !! a) as [k|] eqn:Ha; simpl; [|done].
  rewrite length_insert.
  destruct (make_dirty _ _ _) as [h2|] eqn:Hmd; simpl; [|done].
  destruct (check_notify _ _ _ _) as [s1|] eqn:Hcn; simpl; [|done].
  intros Hnp. by exists k, h2, s1.
Qed.

Lemma check_notify_touched s a change ns s' :
  check_notify s a change ns = Some s' ->
  Forall2 touched (heap s) (heap s') /\ Forall2 same_marks (heap s) (heap s') /\
  root_key s' = root_key s /\ last_error s' = last_error s /\ current_time s' = current_time s.
Proof.
  intros (k&Hk&->)%check_notify_inv. simpl. repeat split; try done.
  - eapply Forall2_update; [done|]. unfold touched. simpl. tauto.
  - eapply Forall2_update; [done|]. done.
Qed.

Global Instance same_marks_trans : Transitive same_marks.
Proof. intros k1 k2 k3 (?&?&?) (?&?&?). repeat split; congruence. Qed.

Lemma notify_parents_touched fuel s p change s' :
  notify_parents fuel s p change = Some s' ->
  Forall2 touched (heap s) (heap s') /\ Forall2 same_marks (heap s) (heap s') /\
  root_key s' = root_key s /\ last_error s' = last_error s /\ current_time s' = current_time s.
Proof.
  revert s p; induction fuel as [|fuel IH]; intros s [a|]; simpl; try done.
  1,3: intros [= <-]; repeat split; try done; apply Forall2_refl_list.
  destruct (heap s !! a) as [k|] eqn:Ha; simpl; [|done].
  destruct (check_notify s a change 0) as [s1|] eqn:Hcn; simpl; [|done].
  apply check_notify_touched in Hcn as (F1&M1&?&?&?).
  intros (F2&M2&?&?&?)%IH. repeat split; try congruence; by eapply Forall2_trans_list.
Qed.

Lemma notify_parents_total fuel s p change :
  upward_ok (heap s) ->
  (forall a, p = Some a -> (a < fuel)%nat /\ (a < length (heap s))%nat) ->
  is_Some (notify_parents fuel s p change).
Proof.
  revert s p; induction fuel as [|fuel IH]; intros s [a|] Hok Hp; simpl; try done.
  - destruct (Hp a); [done|lia].
  - destruct (Hp a) as [Hf Hl]; [done|].
    destruct (lookup_lt_is_Some_2 _ _ Hl) as [k Hk]. rewrite Hk. simpl.
    destruct (check_notify s a change 0) as [s1|] eqn:Hcn; simpl.
    2:{ unfold check_notify in Hcn. rewrite Hk in Hcn. simpl in Hcn.
        by destruct (check_notify_list _ _ _). }
    apply check_notify_touched in Hcn as (F1&M1&_).
    apply IH.
    + eapply upward_ok_same_links; [|done]. eapply Forall2_impl; [exact F1|]. apply touched_links.
    + intros p Hp'. pose proof (up_below _ Hok _ _ _ Hk Hp').
      rewrite <- (Forall2_length _ _ _ F1). lia.
Qed.

(** [touch_key] returns on a well-formed tree. *)
Lemma touch_key_total s a change :
  upward_ok (heap s) -> (a < length (heap s))%nat -> is_Some (touch_key s a change).
Proof.
  intros Hok Ha. unfold touch_key.
  destruct (lookup_lt_is_Some_2 _ _ Ha) as [k Hk]. rewrite Hk. simpl.
  set (h1 := <[a:=_]> (heap s)).
  assert (Forall2 same_marks (heap s) h1) as M1 by (eapply Forall2_update; done).
  assert (upward_ok h1) as Hok1.
  { eapply upward_ok_same_links; [|done]. eapply Forall2_impl; [exact M1|]. apply same_marks_links. }
  assert (length h1 = length (heap s)) as Hlen by (subst h1; by rewrite length_insert).
  destruct (make_dirty_total (length h1) h1 a) as [h2 Hh2]; [done|lia|lia|].
  rewrite Hh2. simpl.
  pose proof (make_dirty_touched _ _ _ _ Hh2) as F2.
  assert (upward_ok h2) as Hok2.
  { eapply upward_ok_same_links; [|exact Hok1]. eapply Forall2_impl; [exact F2|]. apply touched_links. }
  destruct (lookup_lt_is_Some_2 h2 a) as [k2 Hk2].
  { rewrite <- (Forall2_length _ _ _ F2). lia. }
  destruct (check_notify (with_heap s h2) a change 1) as [s1|] eqn:Hcn; simpl.
  2:{ unfold check_notify in Hcn. simpl in Hcn. rewrite Hk2 in Hcn. simpl in Hcn.
      by destruct (check_notify_list _ _ _). }
  apply check_notify_touched in Hcn as (F3&_). simpl in F3.
  apply notify_parents_total.
  - eapply upward_ok_same_links; [|exact Hok2]. eapply Forall2_impl; [exact F3|]. apply touched_links.
  - intros p Hp. pose proof (up_below _ Hok _ _ _ Hk Hp).
    rewrite <- (Forall2_length _ _ _ F3), <- (Forall2_length _ _ _ F2). lia.
Qed.

(** The frame of [touch_key]. *)
Lemma touch_key_touched s a change s' :
  touch_key s a change = Some s' ->
  Forall2 touched (heap s) (heap s') /\
  root_key s' = root_key s /\ last_error s' = last_error s /\ current_time s' = current_time s.
Proof.
  intros (k&h2&s1&Hk&Hmd&Hcn&Hnp)%touch_key_inv.
  apply make_dirty_touched in Hmd. apply check_notify_touched in Hcn as (F3&_&?&?&?).
  apply notify_parents_touched in Hnp as (F4&_&?&?&?). simpl in *.
  split; [|repeat split; congruence].
  eapply Forall2_trans_list; [|exact F4]. eapply Forall2_trans_list; [|exact F3].
  eapply Forall2_trans_list; [|exact Hmd].
  eapply Forall2_update; [done|]. unfold touched. simpl. tauto.
Qed.

Lemma touch_key_upward_ok s a change s' :
  upward_ok (heap s) -> touch_key s a change = Some s' -> upward_ok (heap s').
Proof.
  intros Hok (F&_)%touch_key_touched. eapply upward_ok_same_links; [|done].
  eapply Forall2_impl; [exact F|]. apply touched_links.
Qed.

(** [touch_key] keeps the dirty step. *)
Lemma touch_key_preserves s a change s' :
  upward_ok (heap s) -> dirty_step (heap s) -> touch_key s a change = Some s' ->
  dirty_step (heap s').
Proof.
  intros Hok Hd (k&h2&s1&Hk&Hmd&Hcn&Hnp)%touch_key_inv.
  set (h1 := <[a:=_]> (heap s)) in Hmd.
  assert (Forall2 same_marks (heap s) h1) as M1 by (eapply Forall2_update; done).
  assert (upward_ok h1) as Hok1.
  { eapply upward_ok_same_links; [|done]. eapply Forall2_impl; [exact M1|]. apply same_marks_links. }
  apply make_dirty_preserves in Hmd; [|done|by eapply dirty_step_same_marks].
  apply check_notify_touched in Hcn as (_&M3&_).
  apply notify_parents_touched in Hnp as (_&M4&_). simpl in *.
  eapply dirty_step_same_marks; [exact M4|]. by eapply dirty_step_same_marks.
Qed.


(** ** The events of a walk *)

Global Instance same_notify_refl : Reflexive same_notify.
Proof. by intros k. Qed.
Global Instance same_notify_trans : Transitive same_notify.
Proof. intros k1 k2 k3 (?&?) (?&?). split; congruence. Qed.

Lemma make_dirty_notify fuel h p h' : make_dirty fuel h p = Some h' -> Forall2 same_notify h h'.
Proof.
  revert h p; induction fuel as [|fuel IH]; intros h [a|]; simpl; try done.
  - intros [= <-]. apply Forall2_refl_list.
  - destruct (h !! a) as [k|] eqn:Ha; [simpl|done].
    destruct (has_flag _ _).
    + intros [= <-]. apply Forall2_refl_list.
    + intros H'%IH. eapply Forall2_trans_list; [|exact H'].
      eapply Forall2_update; [done|]. done.
  - intros [= <-]. apply Forall2_refl_list.
Qed.

Lemma ancestor_on_chain h m km x :
  h !! m = Some km -> ancestor h x m <-> on_chain h (k_parent km) x.
Proof.
  intros Hm. split.
  - intros Hanc. inversion Hanc; simplify_eq; eexists; (split; [eassumption|]); auto.
  - intros (p&Hp&[->|Hanc]).
    + by eapply ancestor_parent.
    + by eapply ancestor_further.
Qed.

Lemma matches_here change n :
  notify_matches change 1 n = true <-> Z.land change (n_filter n) <> 0.
Proof.
  unfold notify_matches. simpl. destruct (Z.eqb_spec (Z.land change (n_filter n)) 0); simpl;
    split; try done.
Qed.

Lemma matches_above change n :
  notify_matches change 0 n = true <-> n_subtree n <> 0 /\ Z.land change (n_filter n) <> 0.
Proof.
  unfold notify_matches. simpl.
  destruct (Z.eqb_spec (n_subtree n) 0), (Z.eqb_spec (Z.land change (n_filter n)) 0); simpl;
    split; try done; try tauto.
Qed.

Lemma fired_at_here h change x e :
  fired_at h change 1 x e <-> armed_on h x (fun n => Z.land change (n_filter n) <> 0) e.
Proof.
  split; intros (kx&n&?&?&H1&H2); exists kx, n.
  - apply matches_here in H1. done.
  - apply matches_here in H2. done.
Qed.

Lemma fired_at_above h change x e :
  fired_at h change 0 x e <->
  armed_on h x (fun n => n_subtree n <> 0 /\ Z.land change (n_filter n) <> 0) e.
Proof.
  split; intros (kx&n&?&?&H1&H2); exists kx, n.
  - apply matches_above in H1. done.
  - apply matches_above in H2. done.
Qed.

(** The notifications [touch_key] sends. *)
Lemma touch_key_events s m change s' :
  upward_ok (heap s) -> touch_key s m change = Some s' ->
  let above := Z.land change (Z.lnot REG_NOTIFY_CHANGE_LAST_SET) in
  (forall x kx, heap s !! x = Some kx ->
     exists kx', heap s' !! x = Some kx' /\
       (x = m -> k_notify_list kx' = map (fire change 1) (k_notify_list kx)) /\
       (ancestor (heap s) x m ->
          k_notify_list kx' = map (fire above 0) (k_notify_list kx)) /\
       (x <> m -> ~ ancestor (heap s) x m -> k_notify_list kx' = k_notify_list kx)) /\
  exists evs, signaled s' = signaled s ++ evs /\
    forall e, e ∈ evs <->
      fired_at (heap s) change 1 m e \/
      exists x, ancestor (heap s) x m /\ fired_at (heap s) above 0 x e.
Proof.
  intros Hok (km&h2&s1&Hm&Hmd&Hcn&Hnp)%touch_key_inv above.
  set (h1 := <[m:=_]> (heap s)) in Hmd.
  assert (m < length (heap s))%nat as Hlt by (by apply lookup_lt_Some in Hm).
  assert (Forall2 same_notify (heap s) h2) as N2.
  { eapply Forall2_trans_list; [|by eapply make_dirty_notify].
    eapply Forall2_update; [done|]. by split. }
  assert (Forall2 same_links (heap s) h2) as L2.
  { eapply Forall2_trans_list; [|by eapply make_dirty_links].
    eapply Forall2_update; [done|]. done. }
  destruct (Forall2_lookup_l _ _ _ _ _ N2 Hm) as (km2&Hm2&(Ep2&En2)).
  apply check_notify_inv in Hcn as (k0&Hk0&->). simpl in Hk0.
  replace k0 with km2 in * by congruence. clear Hk0.
  set (km3 := with_notify_list km2 _) in Hnp. set (s1 := set_events _ _) in Hnp.
  assert (Forall2 same_links h2 (heap s1)) as L3.
  { simpl. eapply Forall2_update; [done|]. done. }
  assert (Forall2 same_links (heap s) (heap s1)) as L13 by (by eapply Forall2_trans_list).
  assert (upward_ok (heap s1)) as Hok1 by (by eapply upward_ok_same_links).
  assert (m < length h2)%nat as Hlt2 by (by apply lookup_lt_Some in Hm2).
  apply notify_parents_spec in Hnp as (_&_&_&Hkeys&Hlen&evs&Hsig&Hevs); [|done].
  assert (forall x, on_chain (heap s1) (k_parent km) x <-> ancestor (heap s) x m) as Hchain.
  { intros x. rewrite <- (on_chain_same_links _ _ _ _ L13). symmetry. by apply ancestor_on_chain. }
  assert (forall x kx, x <> m -> heap s !! x = Some kx ->
            exists kx1, heap s1 !! x = Some kx1 /\ k_notify_list kx1 = k_notify_list kx) as Hother.
  { intros x kx Hne Hx. destruct (Forall2_lookup_l _ _ _ _ _ N2 Hx) as (kx2&Hx2&(_&En)).
    exists kx2. simpl. by rewrite list_lookup_insert_ne. }
  split.
  - intros x kx Hx. destruct (decide (x = m)) as [->|Hne].
    + replace kx with km in * by congruence.
      destruct (Hkeys m km3) as [_ Hout]. { simpl. by apply list_lookup_insert_eq. }
      exists km3. split; [|split; [|split]].
      * apply Hout. rewrite Hchain. intros ?%ancestor_below; [lia|done].
      * intros _. simpl. by rewrite En2.
      * intros ?%ancestor_below; [lia|done].
      * done.
    + destruct (Hother x kx Hne Hx) as (kx1&Hx1&En1).
      destruct (Hkeys x kx1 Hx1) as [Hin Hout]. rewrite Hchain in Hin, Hout.
      destruct (lookup_lt_is_Some_2 (heap s') x) as [kx' Hx'].
      { rewrite Hlen. by apply lookup_lt_Some in Hx1. }
      exists kx'. split; [done|]. split; [done|]. split.
      * intros Hanc. rewrite (Hin Hanc) in Hx'. injection Hx' as <-. simpl. by rewrite En1.
      * intros _ Hanc. rewrite (Hout Hanc) in Hx'. by injection Hx' as <-.
  - exists (snd (check_notify_list change 1 (k_notify_list km2)) ++ evs). split.
    + rewrite Hsig. simpl. by rewrite <- app_assoc.
    + intros e. rewrite elem_of_app, Hevs, check_notify_list_snd. split.
      * intros [(n&?&?&?)|(x&Hx&(kx1&n&Hkx1&?&?&?))].
        -- left. exists km, n. rewrite <- En2. done.
        -- right. exists x. apply Hchain in Hx. split; [done|].
           assert (x <> m) as Hne by (intros ->; apply ancestor_below in Hx; [lia|done]).
           destruct (lookup_lt_is_Some_2 (heap s) x) as [kx Hkx].
           { rewrite (Forall2_length _ _ _ L13). by apply lookup_lt_Some in Hkx1. }
           destruct (Hother x kx Hne Hkx) as (kx1'&?&En1).
           replace kx1' with kx1 in * by congruence. exists kx, n. by rewrite <- En1.
      * intros [(kx&n&Hkx&?&?&?)|(x&Hx&(kx&n&Hkx&?&?&?))].
        -- left. replace kx with km in * by congruence. exists n. by rewrite En2.
        -- right. exists x. split; [by apply Hchain|].
           assert (x <> m) as Hne by (intros ->; apply ancestor_below in Hx; [lia|done]).
           destruct (Hother x kx Hne Hkx) as (kx1&?&En1). exists kx1, n. by rewrite En1.
Qed.


(** ** [set_value] *)

Section SetValue.
Context `{cm : Casemap}.

Lemma compare_name_refl name : compare_name name name = 0.
Proof. by apply compare_name_eq_iff. Qed.

Lemma find_value_names k k' name :
  map kv_name (k_values k') = map kv_name (k_values k) -> find_value k' name = find_value k name.
Proof.
  intros E. unfold find_value, last_value. rewrite E.
  assert (length (k_values k') = length (k_values k)) as ->; [|done].
  by rewrite <- (length_map kv_name (k_values k')), E, length_map.
Qed.

(** A miss of [find_value] on a sorted array returns the index at which
    the name keeps the array sorted. *)
Lemma find_value_miss k name index :
  values_sorted k -> find_value k name = Some (NotFound index) ->
  0 <= index <= Z.of_nat (length (k_values k)) /\
  (forall (j : nat) v, Z.of_nat j < index -> k_values k !! j = Some v ->
     compare_name (kv_name v) name < 0) /\
  (forall (j : nat) v, index <= Z.of_nat j -> k_values k !! j = Some v ->
     0 < compare_name (kv_name v) name).
Proof.
  intros Hs Hf. unfold find_value, last_value in Hf.
  apply name_search_not_found in Hf as (Hi&Hlo&Hhi); try done; try lia.
  - split; [lia|]. split.
    + intros j v Hj Hv. apply (Hlo (Z.of_nat j)); [done|].
      rewrite array_get_of_nat, list_lookup_fmap, Hv. done.
    + intros j v Hj Hv. apply (Hhi (Z.of_nat j)); [done|].
      rewrite array_get_of_nat, list_lookup_fmap, Hv. done.
  - intros j e Hj [? _]%array_get_Some. lia.
  - intros j e Hj [? He]%array_get_lt. rewrite length_map in *. lia.
Qed.

(** Inserting a name where the search missed it keeps the names sorted. *)
Lemma names_sorted_insert names name (i : nat) :
  names_sorted names -> (i <= length names)%nat ->
  (forall j e, (j < i)%nat -> names !! j = Some e -> compare_name e name < 0) ->
  (forall j e, (i <= j)%nat -> names !! j = Some e -> 0 < compare_name e name) ->
  names_sorted (take i names ++ name :: drop i names).
Proof.
  intros Hs Hi Hlo Hhi.
  assert (forall j e, (take i names ++ name :: drop i names) !! j = Some e ->
            ((j < i)%nat /\ names !! j = Some e) \/ (j = i /\ e = name) \/
            ((i < j)%nat /\ names !! (j - 1)%nat = Some e)) as Hcase.
  { intros j e Hj. destruct (decide (j < i)%nat) as [Hlt|Hge].
    - left. split; [done|]. rewrite lookup_app_l in Hj by (rewrite length_take; lia).
      by rewrite lookup_take_lt in Hj.
    - rewrite lookup_app_r in Hj by (rewrite length_take; lia).
      rewrite length_take, Nat.min_l in Hj by done.
      destruct (j - i)%nat as [|d] eqn:Ed.
      + right; left. split; [lia|]. simpl in Hj. congruence.
      + right; right. split; [lia|]. simpl in Hj. rewrite lookup_drop in Hj.
        by replace (j - 1)%nat with (i + d)%nat by lia. }
  intros j1 j2 x y Hlt Hx Hy.
  destruct (Hcase _ _ Hx) as [[? Hx']|[[-> ->]|[? Hx']]],
           (Hcase _ _ Hy) as [[? Hy']|[[-> ->]|[? Hy']]]; try lia.
  - by apply (Hs j1 j2).
  - by apply (Hlo j1).
  - apply (Hs j1 (j2 - 1)%nat); [lia|done..].
  - assert (0 < compare_name y name) as Hc by (apply (Hhi (j2 - 1)%nat); [lia|done]).
    apply compare_name_lt_iff. apply compare_name_gt_iff in Hc. done.
  - apply (Hs (j1 - 1)%nat (j2 - 1)%nat); [lia|done..].
Qed.

Lemma map_name_alter (vs : list key_value) i type len p :
  map kv_name (alter (fun v => store_value v type len p) i vs) = map kv_name vs.
Proof.
  apply list_eq. intros j. rewrite !list_lookup_fmap.
  destruct (decide (i = j)) as [->|Hne].
  - rewrite list_lookup_alter_eq. by destruct (vs !! j).
  - by rewrite list_lookup_alter_ne.
Qed.

Lemma same_value_stored v type data :
  data <> [] ->
  same_value (store_value v type (Z.of_nat (length data))
                (if Z.of_nat (length data) =? 0 then None else Some data)) type data = true.
Proof.
  intros Hne. unfold same_value, store_value. simpl. rewrite !Z.eqb_refl. simpl.
  destruct (Z.eqb_spec (Z.of_nat (length data)) 0) as [E|E].
  - destruct data; [done|simpl in E; lia].
  - apply Z.eqb_eq, memcmp_take; [done|lia].
Qed.


Lemma set_value_inv s a name type data s' :
  set_value s a name type data = Some s' ->
  exists k, heap s !! a = Some k /\ set_value_run s a name type data k s'.
Proof.
  unfold set_value. destruct (heap s !! a) as [k|] eqn:Ha; simpl; [|done].
  destruct (find_value k name) as [r|] eqn:Hf; simpl; [|done].
  intros H. exists k. split; [done|]. destruct r as [i|index].
  - destruct (array_get (k_values k) i) as [v|] eqn:Hv; simpl in H; [|done].
    destruct (same_value v type data) eqn:Hsame.
    { injection H as <-. by eapply run_skip. }
    destruct (has_flag (k_flags k) KEY_SYMLINK && not_link_value name type) eqn:Hsl.
    { injection H as <-. apply andb_true_iff in Hsl as [??]. eapply run_denied; eauto.
      intros i' v' [= <-] Hv'. congruence. }
    by eapply run_update.
  - simpl in H.
    destruct (has_flag (k_flags k) KEY_SYMLINK && not_link_value name type) eqn:Hsl.
    { injection H as <-. apply andb_true_iff in Hsl as [??]. eapply run_denied; eauto. done. }
    destruct (insert_value k name index) as [e|k'] eqn:Hins.
    { injection H as <-. by eapply run_too_long. }
    by eapply run_insert.
Qed.

(** [set_value] returns on a well-formed tree. *)
Lemma set_value_total s a name type data :
  upward_ok (heap s) -> (a < length (heap s))%nat -> is_Some (set_value s a name type data).
Proof.
  intros Hok Ha. unfold set_value.
  destruct (lookup_lt_is_Some_2 _ _ Ha) as [k Hk]. rewrite Hk. simpl.
  destruct (find_value_total k name) as [r Hr]. rewrite Hr. simpl.
  assert (forall k', same_marks k k' -> is_Some (touch_key
            (with_heap s (<[a:=k']> (heap s))) a REG_NOTIFY_CHANGE_LAST_SET)) as Htouch.
  { intros k' Hm. apply touch_key_total; simpl; [|by rewrite length_insert].
    eapply upward_ok_same_links; [|done]. eapply Forall2_update; [done|].
    by apply same_marks_links. }
  destruct r as [i|index].
  - unfold find_value in Hr. apply name_search_found in Hr as (Hi&e&He&_).
    apply array_get_lt in He. rewrite length_map in He.
    destruct (array_get_is_Some (k_values k) i) as [v Hv]; [lia|]. rewrite Hv. simpl.
    destruct (same_value v type data); [done|]. destruct (_ && _); [done|].
    by apply Htouch.
  - simpl. destruct (_ && _); [done|]. unfold insert_value.
    destruct (_ <? _); [done|]. by apply Htouch.
Qed.

End SetValue.


(** ** A value that is set twice *)

Section SetValueTwice.
Context `{cm : Casemap}.

Lemma set_value_present s a k name type data (j : nat) v :
  heap s !! a = Some k -> values_sorted k -> k_values k !! j = Some v ->
  compare_name (kv_name v) name = 0 ->
  kv_type v = to_uint type -> kv_len v = Z.of_nat (length data) -> value_bytes v = data ->
  data <> [] ->
  set_value s a name type data = Some s.
Proof.
  intros Hk Hs Hj Hc Ht Hl Hb Hne.
  eapply set_value_skip; [done|by eapply find_value_present| |by apply same_value_intro].
  by rewrite array_get_of_nat.
Qed.

(** After a store the value is found again and passes the test. *)
Lemma stored_value_found k1 (i : nat) v0 vs name type data :
  k_values k1 = alter (fun v => store_value v type (Z.of_nat (length data))
                         (if Z.of_nat (length data) =? 0 then None else Some data)) i vs ->
  vs !! i = Some v0 -> compare_name (kv_name v0) name = 0 ->
  names_sorted (map kv_name vs) -> data <> [] ->
  exists v, find_value k1 name = Some (Found (Z.of_nat i)) /\
            array_get (k_values k1) (Z.of_nat i) = Some v /\ same_value v type data = true.
Proof.
  intros Hvs Hi Hc Hs Hne.
  exists (store_value v0 type (Z.of_nat (length data))
            (if Z.of_nat (length data) =? 0 then None else Some data)).
  assert (k_values k1 !! i = Some (store_value v0 type (Z.of_nat (length data))
            (if Z.of_nat (length data) =? 0 then None else Some data))) as Hi1.
  { by rewrite Hvs, list_lookup_alter_eq, Hi. }
  split; [|split].
  - eapply find_value_present; [|exact Hi1|done].
    unfold values_sorted. by rewrite Hvs, map_name_alter.
  - by rewrite array_get_of_nat.
  - by apply same_value_stored.
Qed.

Lemma set_value_denied s a k name type data r :
  heap s !! a = Some k -> find_value k name = Some r ->
  (forall i v, r = Found i -> array_get (k_values k) i = Some v ->
     same_value v type data = false) ->
  has_flag (k_flags k) KEY_SYMLINK = true -> not_link_value name type = true ->
  (forall i, r = Found i -> is_Some (array_get (k_values k) i)) ->
  set_value s a name type data = Some (set_error s STATUS_ACCESS_DENIED).
Proof.
  intros Hk Hf Hno Hsl Hnl Hin. unfold set_value. rewrite Hk. simpl. rewrite Hf. simpl.
  destruct r as [i|index]; simpl.
  - destruct (Hin i) as [v Hv]; [done|]. rewrite Hv. simpl.
    rewrite (Hno i v) by done. by rewrite Hsl, Hnl.
  - by rewrite Hsl, Hnl.
Qed.

Lemma find_value_found k name i :
  find_value k name = Some (Found i) ->
  0 <= i /\ exists v, k_values k !! Z.to_nat i = Some v /\ compare_name (kv_name v) name = 0.
Proof.
  unfold find_value. intros (Hi&e&[? He]%array_get_Some&Hc)%name_search_found.
  split; [done|]. rewrite list_lookup_fmap in He.
  destruct (k_values k !! Z.to_nat i) as [v|]; [|done]. injection He as <-. eauto.
Qed.

Lemma second_set_value s a k name type data s1 s1' :
  heap s !! a = Some k -> values_sorted k -> data <> [] ->
  set_value s a name type data = Some s1 -> heap s1' = heap s1 ->
  exists s2, set_value s1' a name type data = Some s2 /\
             heap s2 = heap s1' /\ signaled s2 = signaled s1'.
Proof.
  intros Hk Hs Hne (k0&Hk0&Hrun)%set_value_inv Hheap.
  replace k0 with k in * by congruence. clear Hk0.
  assert (forall k1 v i, heap s1' !! a = Some k1 ->
            find_value k1 name = Some (Found i) -> array_get (k_values k1) i = Some v ->
            same_value v type data = true ->
            exists s2, set_value s1' a name type data = Some s2 /\
                       heap s2 = heap s1' /\ signaled s2 = signaled s1') as Hskip.
  { intros k1 v i ? ? ? ?. exists s1'. split; [by eapply set_value_skip|done]. }
  assert (forall kk vs (i : nat) v0 s0,
            heap s0 !! a = Some k ->
            touch_key (with_heap s0 (<[a := with_values kk
              (alter (fun v => store_value v type (Z.of_nat (length data))
                        (if Z.of_nat (length data) =? 0 then None else Some data)) i vs)
              (k_nb_values kk)]> (heap s0))) a REG_NOTIFY_CHANGE_LAST_SET = Some s1 ->
            vs !! i = Some v0 -> compare_name (kv_name v0) name = 0 ->
            names_sorted (map kv_name vs) ->
            exists s2, set_value s1' a name type data = Some s2 /\
                       heap s2 = heap s1' /\ signaled s2 = signaled s1') as Hstored.
  { intros kk vs i v0 s0 Hk0 Htouch Hi Hc Hsorted.
    apply touch_key_touched in Htouch as (F&_). simpl in F.
    assert (a < length (heap s0))%nat by (by apply lookup_lt_Some in Hk0).
    match type of F with Forall2 _ (<[_:=?x]> _) _ =>
      pose proof (list_lookup_insert_eq (heap s0) a x H) as Hl end.
    destruct (Forall2_lookup_l _ _ _ _ _ F Hl) as (k1&Hk1&(_&_&_&_&_&Hv1&_&_)).
    simpl in Hv1. rewrite <- Hheap in Hk1.
    destruct (stored_value_found k1 i v0 vs name type data) as (v&?&?&?); try done.
    by eapply Hskip. }
  inversion Hrun as [i v Hf Hv Hsame|r Hf Hno Hsl Hnl|index e Hf Hsl Hins
                    |i v s' Hf Hv Hsame Hsl Htouch|index k' s' Hf Hsl Hins Htouch]; subst.
  - by eapply Hskip; [rewrite Hheap|..].
  - exists (set_error s1' STATUS_ACCESS_DENIED). split; [|done].
    eapply set_value_denied; eauto.
    + by rewrite Hheap.
    + intros i ->. apply find_value_found in Hf as (?&v&Hv&_).
      exists v. apply array_get_Some. done.
  - exists (set_error s1' e). split; [|done].
    unfold set_value. rewrite Hheap. simpl. rewrite Hk. simpl. rewrite Hf. simpl.
    by rewrite Hsl, Hins.
  - apply find_value_found in Hf as (?&v0&Hv0&Hc).
    eapply (Hstored k (k_values k) (Z.to_nat i) v0 s); eauto.
  - unfold insert_value in Hins. destruct (_ <? _); [done|]. injection Hins as <-.
    destruct (find_value_miss _ _ _ Hs Hf) as (Hidx&Hlo&Hhi).
    eapply (Hstored _ _ (Z.to_nat index) (mk_value name REG_NONE 0 None) s Hk Htouch).
    + simpl. rewrite lookup_app_r by (rewrite length_take; lia).
      rewrite length_take, Nat.min_l by lia. by rewrite Nat.sub_diag.
    + apply compare_name_refl.
    + simpl. rewrite fmap_app, fmap_cons, fmap_take, fmap_drop. simpl.
      apply names_sorted_insert.
      * done.
      * rewrite length_map. lia.
      * intros j e Hj He. rewrite list_lookup_fmap in He.
        destruct (k_values k !! j) as [v|] eqn:Hv; [|done]. injection He as <-.
        apply (Hlo j v); [lia|done].
      * intros j e Hj He. rewrite list_lookup_fmap in He.
        destruct (k_values k !! j) as [v|] eqn:Hv; [|done]. injection He as <-.
        apply (Hhi j v); [lia|done].
Qed.
End SetValueTwice.


(** ** The value of a link *)

Section LinkValue.
Context `{cm : Casemap}.

Lemma memicmpW_zero a b :
  length a = length b -> memicmpW a b (length a) = 0 <-> fold_name a = fold_name b.
Proof.
  revert b; induction a as [|x a IH]; intros [|y b]; simpl; try done.
  intros [= Hl]. destruct (Z.eqb_spec (tolowerW x - tolowerW y) 0) as [E|E].
  - rewrite (IH b Hl). split.
    + intros ->. f_equal. unfold tolowerW in *. lia.
    + by intros [= _ ?].
  - split; [done|]. intros [= ? _]. unfold tolowerW in *. lia.
Qed.

Lemma chars_of_len (n : nat) :
  Z.to_nat (Z.quot (sizeof_WCHAR * Z.of_nat n) sizeof_WCHAR) = n.
Proof. unfold sizeof_WCHAR. rewrite Z.quot_div_nonneg by lia. lia. Qed.

(** The test of [set_value] on a link key fails exactly for a value of
    type [REG_LINK] whose name is [SymbolicLinkValue] up to case. *)
Lemma not_link_value_false name type :
  not_link_value name type = false <->
  type = REG_LINK /\ fold_name name = fold_name symlink_value.
Proof.
  unfold not_link_value, unicode_len. rewrite chars_of_len.
  rewrite !orb_false_iff, !negb_false_iff, !Z.eqb_eq. split.
  - intros [[Ht Hl] Hm]. split; [done|].
    apply memicmpW_zero; [unfold sizeof_WCHAR in Hl; lia|done].
  - intros [Ht Hf].
    assert (length name = length symlink_value) as Hl.
    { unfold fold_name in Hf. by rewrite <- (length_map tolowerW name), Hf, length_map. }
    repeat split; [done|by rewrite Hl|by apply memicmpW_zero].
Qed.

End LinkValue.

(** ** The dirty invariant, one step and the whole chain *)

Lemma ancestor_child_lookup h a c : ancestor h a c -> exists kc, h !! c = Some kc.
Proof. intros H. inversion H; eauto. Qed.

Lemma dirty_invariant_step h : dirty_invariant h -> dirty_step h.
Proof.
  intros Hd c kc p kp Hc Hp Hkp Hv Hdc. apply (Hd c kc p kp); try done.
  by eapply ancestor_parent.
Qed.

Lemma dirty_step_invariant h : upward_ok h -> dirty_step h -> dirty_invariant h.
Proof.
  intros Hup Hd c kc a ka Hc Hv Hdc Hanc. revert kc ka Hc Hv Hdc.
  induction Hanc as [c kc0 p Hc0 Hp|c kc0 p a Hc0 Hp Hanc IH]; intros kc ka Hc Hv Hdc Ha;
    replace kc0 with kc in * by congruence.
  - by apply (Hd c kc p ka).
  - destruct (ancestor_child_lookup _ _ _ Hanc) as [kp Hkp].
    apply (IH kp ka); try done.
    + intros Hvp. apply Hv. eapply up_volatile; eauto.
    + by apply (Hd c kc p kp).
Qed.

(** [make_clean] leaves no dirty key in the branch it is called on. *)
Lemma make_clean_subtree fuel h a h' :
  tree_ok h -> dirty_step h -> make_clean fuel h a = Some h' ->
  forall d kd', d = a \/ ancestor h a d -> h' !! d = Some kd' -> ~ volatile kd' -> ~ dirty kd'.
Proof.
  intros [Hup Hln] Hd Hmc.
  pose proof (make_clean_preserves _ _ _ _ Hln Hd Hmc) as Hd'.
  pose proof (make_clean_links _ _ _ _ Hmc) as F.
  pose proof (upward_ok_same_links _ _ F Hup) as Hup'.
  apply make_clean_spec in Hmc as (_&Hat&_).
  assert (forall d, ancestor h a d -> forall kd', h' !! d = Some kd' -> ~ volatile kd' -> ~ dirty kd')
    as Hbelow.
  { intros d Hanc. apply (ancestor_same_links _ _ _ _ F) in Hanc.
    induction Hanc as [c kc p Hc Hp|c kc p a Hc Hp Hanc IH]; intros kd' Hkd' Hv Hdd;
      replace kd' with kc in * by congruence.
    - edestruct (lookup_lt_is_Some_2 h' p) as [kp Hkp].
      { pose proof (up_below _ Hup' _ _ _ Hc Hp). apply lookup_lt_Some in Hc. lia. }
      apply (Hat kp); try done.
      + intros Hvp. apply Hv. eapply up_volatile; eauto.
      + by apply (Hd' c kc p kp).
    - destruct (ancestor_child_lookup _ _ _ Hanc) as [kp Hkp].
      apply (IH Hat kp); try done.
      + intros Hvp. apply Hv. eapply up_volatile; eauto.
      + by apply (Hd' c kc p kp). }
  intros d kd' [->|Hanc]; [apply Hat|by apply Hbelow].
Qed.

(** ** Arrays of subkeys *)

Lemma elem_of_insert_at (l : list nat) i c x :
  x ∈ take i l ++ c :: drop i l <-> x = c \/ x ∈ l.
Proof.
  rewrite elem_of_app, elem_of_cons.
  assert (x ∈ l <-> x ∈ take i l \/ x ∈ drop i l) as ->; [|tauto].
  by rewrite <- elem_of_app, take_drop.
Qed.

Lemma NoDup_insert_at (l : list nat) i c :
  NoDup l -> c ∉ l -> NoDup (take i l ++ c :: drop i l).
Proof.
  intros Hnd Hc. rewrite <- (take_drop i l) in Hnd, Hc.
  apply NoDup_app in Hnd as (H1&H2&H3). apply NoDup_app. split; [done|]. split.
  - intros x Hx [->|Hd]%elem_of_cons.
    + apply Hc, elem_of_app. by left.
    + by apply (H2 x).
  - apply NoDup_cons. split; [|done]. intros Hd. apply Hc, elem_of_app. by right.
Qed.

Lemma index_of_lookup c l i : index_of c l = Some i -> l !! i = Some c.
Proof.
  revert i; induction l as [|x l IH]; intros i; simpl; [done|].
  destruct (decide (x = c)) as [->|Hne].
  - by intros [= <-].
  - destruct (index_of c l) as [j|]; simpl; [|done]. intros [= <-]. simpl. by apply IH.
Qed.

Lemma index_of_elem c l : c ∈ l -> is_Some (index_of c l).
Proof.
  induction l as [|x l IH]; [by intros ?%elem_of_nil|]. simpl.
  destruct (decide (x = c)); [done|]. intros [->|Hin]%elem_of_cons; [done|].
  destruct (IH Hin) as [j ->]. done.
Qed.

Lemma elem_of_delete_nodup (l : list nat) i c x :
  NoDup l -> l !! i = Some c -> x ∈ delete i l <-> x ∈ l /\ x <> c.
Proof.
  intros Hnd Hi. rewrite delete_take_drop.
  rewrite <- (take_drop_middle l i c Hi) in Hnd.
  assert (x ∈ l <-> x ∈ take i l \/ x = c \/ x ∈ drop (S i) l) as ->.
  { by rewrite <- elem_of_cons, <- elem_of_app, take_drop_middle. }
  apply NoDup_app in Hnd as (H1&H2&H3). apply NoDup_cons in H3 as [H3 H4].
  rewrite !elem_of_app. split.
  - intros [Hx|Hx]; (split; [tauto|]); intros ->.
    + apply (H2 c Hx). by left.
    + done.
  - intros [[Hx|[->|Hx]] Hne]; tauto.
Qed.

Lemma NoDup_delete (l : list nat) i : NoDup l -> NoDup (delete i l).
Proof.
  intros Hnd. rewrite delete_take_drop. rewrite <- (take_drop i l) in Hnd.
  apply NoDup_app in Hnd as (H1&H2&H3). apply NoDup_app. split; [done|]. split.
  - intros x Hx Hd. apply (H2 x Hx). rewrite <- (take_drop 1 (drop i l)).
    rewrite drop_drop. apply elem_of_app. right. by rewrite Nat.add_1_r.
  - rewrite <- (take_drop 1 (drop i l)) in H3. apply NoDup_app in H3 as (_&_&H3).
    by rewrite drop_drop, Nat.add_1_r in H3.
Qed.

(** ** Frames for the way up and for the way down *)

Global Instance same_up_refl : Reflexive same_up.
Proof. intros k. unfold same_up. tauto. Qed.

Global Instance same_up_trans : Transitive same_up.
Proof.
  intros k1 k2 k3 (P1&V1&D1) (P2&V2&D2). unfold same_up. split; [|tauto].
  destruct P2 as [?|E]; [by left|]. rewrite E. done.
Qed.

Lemma same_marks_up k k' : same_marks k k' -> same_up k k'.
Proof. intros (?&?&E). unfold same_up, volatile, dirty. rewrite E. tauto. Qed.

Lemma upward_ok_same_up h h' : Forall2 same_up h h' -> upward_ok h -> upward_ok h'.
Proof.
  intros F [H1 H2]. split.
  - intros c kc' p Hc Hp. destruct (Forall2_lookup_r _ _ _ _ _ F Hc) as (kc&Hkc&([E|E]&_)).
    + congruence.
    + eapply H1; eauto. congruence.
  - intros c kc' p kp' Hc Hp Hkp Hv.
    destruct (Forall2_lookup_r _ _ _ _ _ F Hc) as (kc&Hkc&([E|E]&Vc&_)); [congruence|].
    destruct (Forall2_lookup_r _ _ _ _ _ F Hkp) as (kp&Hkp0&(_&Vp&_)).
    apply Vc. eapply H2; eauto; [congruence|tauto].
Qed.

Lemma dirty_step_same_up h h' : Forall2 same_up h h' -> dirty_step h -> dirty_step h'.
Proof.
  intros F Hd c kc' p kp' Hc Hp Hkp Hv Hdc.
  destruct (Forall2_lookup_r _ _ _ _ _ F Hc) as (kc&Hkc&([E|E]&Vc&Dc)); [congruence|].
  destruct (Forall2_lookup_r _ _ _ _ _ F Hkp) as (kp&Hkp0&(_&_&Dp)).
  apply Dp. apply (Hd c kc p kp); try tauto. congruence.
Qed.

Lemma shape_lookup h x k : h !! x = Some k -> shape h !! x = Some (k_parent k, k_subkeys k).
Proof. intros H. unfold shape. by rewrite list_lookup_fmap, H. Qed.

Lemma shape_lookup_inv h x par subs :
  shape h !! x = Some (par, subs) ->
  exists k, h !! x = Some k /\ k_parent k = par /\ k_subkeys k = subs.
Proof.
  unfold shape. rewrite list_lookup_fmap. destruct (h !! x) as [k|]; simpl; [|done].
  intros [= <- <-]. eauto.
Qed.

Lemma shape_length h : length (shape h) = length h.
Proof. unfold shape. by rewrite length_fmap. Qed.

Lemma shape_same_links h h' : Forall2 same_links h h' -> shape h' = shape h.
Proof.
  intros F. induction F as [|k k' h h' (Ep&Es&_) F IH]; [done|].
  unfold shape. rewrite !fmap_cons. fold (shape h) (shape h'). by rewrite Ep, Es, IH.
Qed.

Lemma shape_insert h x k : shape (<[x := k]> h) = <[x := (k_parent k, k_subkeys k)]> (shape h).
Proof. unfold shape. by rewrite list_fmap_insert. Qed.

Lemma links_ok_shape h h' : shape h' = shape h -> links_ok h -> links_ok h'.
Proof.
  intros E [H2 H3 H4].
  assert (forall x k', h' !! x = Some k' ->
            exists k, h !! x = Some k /\ k_parent k = k_parent k' /\ k_subkeys k = k_subkeys k')
    as Hback.
  { intros x k' Hx. apply shape_lookup in Hx. rewrite E in Hx. by apply shape_lookup_inv. }
  assert (forall x k, h !! x = Some k ->
            exists k', h' !! x = Some k' /\ k_parent k' = k_parent k /\ k_subkeys k' = k_subkeys k)
    as Hforth.
  { intros x k Hx. apply shape_lookup in Hx. rewrite <- E in Hx. by apply shape_lookup_inv. }
  split.
  - intros c kc p kp Hc Hp Hkp.
    destruct (Hback _ _ Hc) as (kc0&?&Ep&_). destruct (Hback _ _ Hkp) as (kp0&?&_&Es).
    rewrite <- Es. eapply H2; eauto. congruence.
  - intros p kp c Hp Hc. destruct (Hback _ _ Hp) as (kp0&Hkp0&_&Es). rewrite <- Es in Hc.
    destruct (H3 _ _ _ Hkp0 Hc) as (kc0&Hkc0&Hpar).
    destruct (Hforth _ _ Hkc0) as (kc'&?&Ep&_). exists kc'. split; [done|congruence].
  - intros p kp Hp. destruct (Hback _ _ Hp) as (kp0&?&_&Es). rewrite <- Es. eauto.
Qed.

(** Linking a new key, allocated at the end of the arena, under [p]. *)
Lemma links_ok_attach h h' p kp i :
  (forall c kc q, h !! c = Some kc -> k_parent kc = Some q -> (q < c)%nat) ->
  links_ok h -> h !! p = Some kp ->
  shape h' = <[length h := (Some p, [])]>
               (<[p := (k_parent kp, take i (k_subkeys kp) ++ length h :: drop i (k_subkeys kp))]>
                  (shape h ++ [(None, [])])) ->
  links_ok h'.
Proof.
  intros U1 [H2 H3 H4] Hp E. set (c := length h) in *.
  set (subs' := take i (k_subkeys kp) ++ c :: drop i (k_subkeys kp)) in *.
  assert (p < c)%nat as Hpc by (by apply lookup_lt_Some in Hp).
  assert (length (shape h ++ [(@None ptr, @nil ptr)]) = S c) as Hlen.
  { rewrite length_app, shape_length. simpl. lia. }
  assert (forall x k', h' !! x = Some k' ->
     (x = c /\ k_parent k' = Some p /\ k_subkeys k' = []) \/
     (x = p /\ k_parent k' = k_parent kp /\ k_subkeys k' = subs') \/
     (x <> c /\ x <> p /\ exists k, h !! x = Some k /\ k_parent k' = k_parent k /\
        k_subkeys k' = k_subkeys k)) as Hback.
  { intros x k' Hx. apply shape_lookup in Hx. rewrite E in Hx.
    destruct (decide (x = c)) as [->|Hxc].
    { rewrite list_lookup_insert_eq in Hx by (rewrite length_insert; lia).
      injection Hx as <- <-. by left. }
    rewrite list_lookup_insert_ne in Hx by done. right.
    destruct (decide (x = p)) as [->|Hxp].
    { rewrite list_lookup_insert_eq in Hx by lia. injection Hx as <- <-. by left. }
    rewrite list_lookup_insert_ne in Hx by done. right.
    assert (x < c)%nat.
    { apply lookup_lt_Some in Hx. lia. }
    rewrite lookup_app_l in Hx by (rewrite shape_length; done).
    apply shape_lookup_inv in Hx as (k&?&?&?). repeat split; try done. exists k. done. }
  assert (forall x, (x <= c)%nat -> exists k', h' !! x = Some k') as Hsome.
  { intros x Hx. apply lookup_lt_is_Some_2.
    rewrite <- shape_length, E, !length_insert. lia. }
  assert (forall x k, h !! x = Some k ->
            exists k', h' !! x = Some k' /\ k_parent k' = k_parent k) as Hforth.
  { intros x k Hx. assert (x < c)%nat as Hlt by (by apply lookup_lt_Some in Hx).
    destruct (Hsome x) as [k' Hk']; [lia|]. exists k'. split; [done|].
    destruct (Hback _ _ Hk') as [(->&_)|[(->&?&_)|(_&_&k0&?&?&_)]]; [lia|congruence|congruence]. }
  assert (c ∉ k_subkeys kp) as Hfresh.
  { intros Hin. destruct (H3 _ _ _ Hp Hin) as (kc&Hkc&_). apply lookup_lt_Some in Hkc. lia. }
  split.
  - intros x kx q kq Hx Hq Hkq.
    destruct (Hback _ _ Hx) as [(->&Ep&_)|[(->&Ep&_)|(Hxc&Hxp&k&Hk&Ep&_)]].
    + assert (q = p) as -> by congruence.
      destruct (Hback _ _ Hkq) as [(->&_)|[(_&_&->)|(_&?&_)]]; [lia| |done].
      apply elem_of_insert_at. by left.
    + rewrite Ep in Hq. pose proof (U1 _ _ _ Hp Hq).
      destruct (Hback _ _ Hkq) as [(->&_)|[(->&_)|(_&_&k&Hk&_&Es)]]; [lia|lia|].
      rewrite Es. eapply H2; eauto.
    + rewrite Ep in Hq. pose proof (U1 _ _ _ Hk Hq). pose proof (lookup_lt_Some _ _ _ Hk).
      destruct (Hback _ _ Hkq) as [(->&_)|[(->&_&->)|(_&_&k0&Hk0&_&Es)]]; [lia| |].
      * apply elem_of_insert_at. right. eapply H2; eauto.
      * rewrite Es. eapply H2; eauto.
  - intros q kq x Hkq Hin.
    destruct (Hback _ _ Hkq) as [(->&_&Es)|[(->&_&Es)|(_&_&k0&Hk0&_&Es)]]; rewrite Es in Hin.
    + by apply elem_of_nil in Hin.
    + apply elem_of_insert_at in Hin as [->|Hin].
      * destruct (Hsome c) as [kc Hkc]; [lia|]. exists kc. split; [done|].
        destruct (Hback _ _ Hkc) as [(_&?&_)|[(?&_)|(?&_)]]; [done|lia|done].
      * destruct (H3 _ _ _ Hp Hin) as (kx&Hkx&Hpar).
        destruct (Hforth _ _ Hkx) as (kx'&?&?). exists kx'. split; [done|congruence].
    + destruct (H3 _ _ _ Hk0 Hin) as (kx&Hkx&Hpar).
      destruct (Hforth _ _ Hkx) as (kx'&?&?). exists kx'. split; [done|congruence].
  - intros q kq Hkq.
    destruct (Hback _ _ Hkq) as [(->&_&Es)|[(->&_&Es)|(_&_&k0&Hk0&_&Es)]]; rewrite Es.
    + apply NoDup_nil_2.
    + apply NoDup_insert_at; [by eapply H4|done].
    + by eapply H4.
Qed.

(** Unlinking a key that has no subkeys from its parent [p]. *)
Lemma links_ok_detach h h' c kc p kp i :
  (forall c kc q, h !! c = Some kc -> k_parent kc = Some q -> (q < c)%nat) ->
  links_ok h -> h !! c = Some kc -> k_parent kc = Some p -> k_subkeys kc = [] ->
  h !! p = Some kp -> index_of c (k_subkeys kp) = Some i ->
  shape h' = <[c := (None, [])]> (<[p := (k_parent kp, delete i (k_subkeys kp))]> (shape h)) ->
  links_ok h'.
Proof.
  intros U1 [H2 H3 H4] Hc Hpar Hsubs Hp Hi E.
  pose proof (U1 _ _ _ Hc Hpar) as Hpc.
  assert (c < length h)%nat as Hclen by (by apply lookup_lt_Some in Hc).
  apply index_of_lookup in Hi.
  assert (forall x k', h' !! x = Some k' ->
     (x = c /\ k_parent k' = None /\ k_subkeys k' = []) \/
     (x = p /\ k_parent k' = k_parent kp /\ k_subkeys k' = delete i (k_subkeys kp)) \/
     (x <> c /\ x <> p /\ exists k, h !! x = Some k /\ k_parent k' = k_parent k /\
        k_subkeys k' = k_subkeys k)) as Hback.
  { intros x k' Hx. apply shape_lookup in Hx. rewrite E in Hx.
    destruct (decide (x = c)) as [->|Hxc].
    { rewrite list_lookup_insert_eq in Hx by (rewrite length_insert, shape_length; lia).
      injection Hx as <- <-. by left. }
    rewrite list_lookup_insert_ne in Hx by done. right.
    destruct (decide (x = p)) as [->|Hxp].
    { rewrite list_lookup_insert_eq in Hx by (rewrite shape_length; lia).
      injection Hx as <- <-. by left. }
    rewrite list_lookup_insert_ne in Hx by done. right.
    apply shape_lookup_inv in Hx as (k&?&?&?). repeat split; try done. exists k. done. }
  assert (forall x k, h !! x = Some k -> x <> c ->
            exists k', h' !! x = Some k' /\ k_parent k' = k_parent k) as Hforth.
  { intros x k Hx Hxc. destruct (lookup_lt_is_Some_2 h' x) as [k' Hk'].
    { rewrite <- shape_length, E, !length_insert, shape_length. by apply lookup_lt_Some in Hx. }
    exists k'. split; [done|].
    destruct (Hback _ _ Hk') as [(->&_)|[(->&?&_)|(_&_&k0&?&?&_)]]; [done|congruence|congruence]. }
  split.
  - intros x kx q kq Hx Hq Hkq.
    destruct (Hback _ _ Hx) as [(->&Ep&_)|[(->&Ep&_)|(Hxc&Hxp&k&Hk&Ep&_)]]; [congruence| |].
    + rewrite Ep in Hq. pose proof (U1 _ _ _ Hp Hq).
      destruct (Hback _ _ Hkq) as [(->&_)|[(->&_)|(_&_&k&Hk&_&Es)]]; [lia|lia|].
      rewrite Es. eapply H2; eauto.
    + rewrite Ep in Hq. pose proof (U1 _ _ _ Hk Hq).
      destruct (Hback _ _ Hkq) as [(->&_)|[(->&_&->)|(_&_&k0&Hk0&_&Es)]].
      * pose proof (H2 _ _ _ _ Hk Hq Hc) as Hin. rewrite Hsubs in Hin.
        by apply elem_of_nil in Hin.
      * apply elem_of_delete_nodup with (c := c); [by eapply H4|done|].
        split; [|done]. eapply H2; eauto.
      * rewrite Es. eapply H2; eauto.
  - intros q kq x Hkq Hin.
    destruct (Hback _ _ Hkq) as [(->&_&Es)|[(->&_&Es)|(_&Hqp&k0&Hk0&_&Es)]]; rewrite Es in Hin.
    + by apply elem_of_nil in Hin.
    + apply elem_of_delete_nodup with (c := c) in Hin as [Hin Hne]; [|by eapply H4|done].
      destruct (H3 _ _ _ Hp Hin) as (kx&Hkx&Hpar').
      destruct (Hforth _ _ Hkx Hne) as (kx'&?&?). exists kx'. split; [done|congruence].
    + destruct (H3 _ _ _ Hk0 Hin) as (kx&Hkx&Hpar').
      destruct (decide (x = c)) as [->|Hne]; [congruence|].
      destruct (Hforth _ _ Hkx Hne) as (kx'&?&?). exists kx'. split; [done|congruence].
  - intros q kq Hkq.
    destruct (Hback _ _ Hkq) as [(->&_&Es)|[(->&_&Es)|(_&_&k0&Hk0&_&Es)]]; rewrite Es.
    + apply NoDup_nil_2.
    + apply NoDup_delete. by eapply H4.
    + by eapply H4.
Qed.

(** ** The operations keep the tree well formed and the dirty step *)

Lemma heap_ok_update h a k k' :
  h !! a = Some k -> same_marks k k' -> heap_ok h -> heap_ok (<[a := k']> h).
Proof.
  intros Ha Hm [Ht Hd].
  assert (Forall2 same_marks h (<[a := k']> h)) as F by (by eapply Forall2_update).
  split; [|by eapply dirty_step_same_marks].
  eapply tree_ok_same_links; [|done]. eapply Forall2_impl; [exact F|]. apply same_marks_links.
Qed.

Lemma make_dirty_marks fuel h a h' :
  make_dirty fuel h (Some a) = Some h' ->
  exists k', h' !! a = Some k' /\ (dirty k' \/ volatile k').
Proof.
  destruct fuel as [|fuel]; simpl; [done|].
  destruct (h !! a) as [k|] eqn:Ha; simpl; [|done].
  destruct (has_flag (k_flags k) (Z.lor KEY_DIRTY KEY_VOLATILE)) eqn:Hf.
  - intros [= <-]. exists k. split; [done|]. rewrite has_dirty_or_volatile in Hf.
    apply orb_true_iff in Hf. done.
  - intros Hmd. apply make_dirty_touched in Hmd.
    pose proof (lookup_lt_Some _ _ _ Ha) as Hlt.
    destruct (Forall2_lookup_l _ _ _ a _ Hmd (list_lookup_insert_eq _ _ _ Hlt))
      as (k'&Hk'&(_&_&_&_&_&_&_&Hfl)).
    exists k'. split; [done|]. left. unfold dirty. simpl in Hfl.
    destruct Hfl as [-> | ->]; rewrite ?lor_dirty_twice; apply dirty_set.
Qed.

(** After [touch_key] the key is dirty, unless it is volatile. *)
Lemma touch_key_marks s a change s' :
  touch_key s a change = Some s' ->
  exists k', heap s' !! a = Some k' /\ (dirty k' \/ volatile k').
Proof.
  intros (k&h2&s1&Hk&Hmd&Hcn&Hnp)%touch_key_inv.
  apply make_dirty_marks in Hmd as (k2&Hk2&Hm).
  apply check_notify_touched in Hcn as (_&M3&_).
  apply notify_parents_touched in Hnp as (_&M4&_). simpl in *.
  destruct (Forall2_lookup_l _ _ _ _ _ M3 Hk2) as (k3&Hk3&(_&_&E3)).
  destruct (Forall2_lookup_l _ _ _ _ _ M4 Hk3) as (k4&Hk4&(_&_&E4)).
  exists k4. split; [done|]. unfold dirty, volatile in *. by rewrite E4, E3.
Qed.

Lemma touch_key_ok s a change s' :
  heap_ok (heap s) -> touch_key s a change = Some s' -> heap_ok (heap s').
Proof.
  intros [[Hu Hl] Hd] Ht. split; [split|].
  - by eapply touch_key_upward_ok.
  - apply touch_key_touched in Ht as (F&_). eapply links_ok_same_links; [|done].
    eapply Forall2_impl; [exact F|]. apply touched_links.
  - by eapply touch_key_preserves.
Qed.

Lemma free_subkey_ok h c h' :
  heap_ok h -> (forall kc, h !! c = Some kc -> k_subkeys kc = []) ->
  free_subkey h c = Some h' -> heap_ok h'.
Proof.
  intros [[Hu Hl] Hd] Hleaf. unfold free_subkey.
  destruct (h !! c) as [kc|] eqn:Hc; simpl; [|done].
  destruct (k_parent kc) as [p|] eqn:Hpar; [|by intros [= <-]].
  destruct (h !! p) as [kp|] eqn:Hp; simpl; [|done].
  destruct (index_of c (k_subkeys kp)) as [i|] eqn:Hi; simpl; [|done].
  intros [= <-].
  pose proof (up_below _ Hu _ _ _ Hc Hpar) as Hpc.
  set (kp' := with_subkeys kp _ _). set (kc' := with_parent _ None).
  assert (Forall2 same_up h (<[c := kc']> (<[p := kp']> h))) as F.
  { eapply Forall2_trans_list.
    { eapply (Forall2_update h p kp kp'); [done|]. unfold same_up, dirty, volatile. simpl. tauto. }
    eapply Forall2_update.
    - rewrite list_lookup_insert_ne by lia. done.
    - unfold same_up, dirty, volatile. simpl.
      rewrite deleted_set_dirty, deleted_set_volatile. tauto. }
  split; [split|].
  - by eapply upward_ok_same_up.
  - eapply (links_ok_detach h _ c kc p kp i); try done; [apply Hu|by apply Hleaf|].
    rewrite !shape_insert. subst kp' kc'. simpl. by rewrite (Hleaf kc).
  - by eapply dirty_step_same_up.
Qed.

Section Steps.
Context `{cm : Casemap}.

Lemma set_value_ok s a name type data s' :
  heap_ok (heap s) -> set_value s a name type data = Some s' -> heap_ok (heap s').
Proof.
  intros Hok (k&Hk&Hrun)%set_value_inv.
  destruct Hrun as [| | |i v s' _ _ _ _ Ht|index k' s' _ _ Hins Ht]; try done.
  - eapply touch_key_ok; [|exact Ht]. simpl. by eapply heap_ok_update.
  - eapply touch_key_ok; [|exact Ht]. simpl. eapply heap_ok_update; [done| |done].
    unfold insert_value in Hins. destruct (_ <? _); [done|]. by injection Hins as <-.
Qed.

Lemma delete_value_ok s a name s' :
  heap_ok (heap s) -> delete_value s a name = Some s' -> heap_ok (heap s').
Proof.
  intros Hok. unfold delete_value.
  destruct (heap s !! a) as [k|] eqn:Hk; simpl; [|done].
  destruct (find_value k name) as [[i|index]|]; simpl; [| |done].
  2:{ by intros [= <-]. }
  destruct (touch_key _ _ _) as [s1|] eqn:Ht; simpl; [|done].
  destruct (heap s1 !! a) as [k1|] eqn:Hk1; simpl; [|done].
  intros [= <-]. simpl. eapply heap_ok_update; [done|done|].
  eapply touch_key_ok; [|exact Ht]. simpl. by eapply heap_ok_update.
Qed.

Lemma set_registry_notification_ok s a event subtree filter hkey process s' :
  heap_ok (heap s) ->
  set_registry_notification s a event subtree filter hkey process = Some s' ->
  heap_ok (heap s').
Proof.
  intros Hok. unfold set_registry_notification.
  destruct (heap s !! a) as [k|] eqn:Hk; simpl; [|done].
  intros [= <-]. simpl. by eapply heap_ok_update.
Qed.

Lemma make_clean_ok fuel h a h' : heap_ok h -> make_clean fuel h a = Some h' -> heap_ok h'.
Proof.
  intros [Ht Hd] Hmc. split.
  - eapply tree_ok_same_links; [|done]. by eapply make_clean_links.
  - eapply make_clean_preserves; [|done|done]. apply Ht.
Qed.

Lemma save_branch_ok w fuel h a path ret h' calls :
  heap_ok h -> save_branch w fuel h a path = Some (ret, h', calls) -> heap_ok h'.
Proof.
  intros Hok. unfold save_branch.
  destruct (h !! a) as [k|] eqn:Hk; simpl; [|done].
  destruct (negb _); [by intros [= _ <- _]|].
  match goal with |- (?m ≫= _) = _ -> _ => destruct m as [[tmp t1]|]; simpl; [|done] end.
  destruct (if _ || _ then _ else _) as [r t2].
  destruct (r =? 0); simpl.
  - by intros [= _ <- _].
  - destruct (make_clean _ _ _) as [h1|] eqn:Hmc; simpl; [|done].
    intros [= _ <- _]. by eapply make_clean_ok.
Qed.

Lemma delete_key_ok fuel s a recurse r s' :
  heap_ok (heap s) -> delete_key fuel s a recurse = Some (r, s') -> heap_ok (heap s').
Proof.
  revert s a recurse r s'. induction fuel as [|fuel IH]; intros s a recurse r s' Hok; [done|].
  simpl. destruct (heap s !! a) as [k|] eqn:Hk; simpl; [|done].
  destruct (recurse && (0 <=? last_subkey k)).
  - destruct (array_get _ _) as [c|]; simpl; [|done].
    destruct (delete_key fuel s c true) as [[r1 s1]|] eqn:H1; simpl; [|done].
    apply IH in H1; [|done]. destruct (r1 <? 0).
    + by intros [= _ <-].
    + by apply IH.
  - destruct (0 <=? last_subkey k) eqn:Hlast; [by intros [= _ <-]|].
    destruct (free_subkey (heap s) a) as [h|] eqn:Hfree; simpl; [|done].
    apply free_subkey_ok in Hfree; [|done|].
    2:{ intros kc Hkc. replace kc with k by congruence. unfold last_subkey in Hlast.
        apply Z.leb_gt in Hlast. destruct (k_subkeys k); [done|]. simpl length in Hlast. lia. }
    destruct (k_parent k) as [p|].
    + destruct (touch_key _ _ _) as [s1|] eqn:Ht; simpl; [|done].
      intros [= _ <-]. by eapply touch_key_ok; [|exact Ht].
    + by intros [= _ <-].
Qed.

End Steps.

(** ** Lookups leave the arena alone *)

Section Lookup.
Context `{cm : Casemap}.

Lemma follow_symlink_heap open s a attr r s' :
  heap_stable open -> follow_symlink open s a attr = Some (r, s') -> heap s' = heap s.
Proof.
  intros Hst. unfold follow_symlink.
  destruct (heap s !! a) as [k|]; simpl; [|done].
  destruct (find_value k symlink_value) as [[i|index]|]; simpl; [| |done].
  2:{ by intros [= _ <-]. }
  destruct (array_get _ _) as [v|]; simpl; [|done].
  destruct (take _ _) as [|c path]; [by apply Hst|].
  destruct (c =? backslash); by apply Hst.
Qed.

Lemma resolve_symlinks_heap open fuel s found attr n r s' n' :
  heap_stable open ->
  resolve_symlinks open fuel s found attr n = Some (r, s', n') -> heap s' = heap s.
Proof.
  intros Hst. revert s found n. induction fuel as [|fuel IH]; intros s found n; [done|].
  simpl. destruct (heap s !! found) as [k|]; simpl; [|done].
  destruct (has_flag _ _); [|by intros [= _ <- _]].
  destruct (follow_symlink open s found attr) as [[t s1]|] eqn:Hf; simpl; [|done].
  apply follow_symlink_heap in Hf; [|done].
  destruct t as [t|]; [|intros [= _ <- _]; done].
  destruct (16 <? n); [intros [= _ <- _]; done|].
  intros H%IH. congruence.
Qed.

Lemma key_lookup_name_heap open fuel s a name attr found rest s' :
  heap_stable open ->
  key_lookup_name open fuel s a (Some name) attr = Some (found, rest, s') ->
  heap s' = heap s /\ (a < length (heap s))%nat.
Proof.
  intros Hst. unfold key_lookup_name.
  destruct (heap s !! a) as [k|] eqn:Hk; simpl; [|done].
  apply lookup_lt_Some in Hk.
  destruct (_ =? 0); [by intros [= <- _ <-]|].
  destruct (_ <? _); [by intros [= <- _ <-]|].
  match goal with |- (?m ≫= _) = _ -> _ => destruct m as [[f|]|]; simpl; [| |done] end.
  2:{ destruct (_ <? _); by intros [= <- _ <-]. }
  match goal with |- (?m ≫= _) = _ -> _ => destruct m as [[[r s1] n]|] eqn:Hr; simpl; [|done] end.
  assert (heap s1 = heap s) as Hs1.
  { destruct (negb _); [by eapply resolve_symlinks_heap|by injection Hr as _ <- _]. }
  destruct r as [f1|]; [|by intros [= <- _ <-]].
  destruct (has_flag attr WINE_OBJ_WOW64); [|by intros [= <- _ <-]].
  destruct (find_wow64_subkey _ _ _) as [f2|]; simpl; [|done].
  destruct (heap s1 !! f2) as [k2|]; simpl; [|done].
  destruct (is_wow6432node _); [|by intros [= <- _ <-]].
  destruct (k_parent k2) as [p2|]; simpl; [|done].
  destruct (heap s1 !! p2) as [kp2|]; simpl; [|done].
  destruct (_ && _); by intros [= <- _ <-].
Qed.

Lemma lookup_named_object_heap open fuel s a name attr obj rest s' :
  heap_stable open ->
  lookup_named_object open fuel s a name attr = Some (obj, rest, s') ->
  heap s' = heap s /\ (obj < length (heap s))%nat.
Proof.
  intros Hst. revert s a name. induction fuel as [|fuel IH]; intros s a name; [done|].
  cbn -[key_lookup_name].
  destruct (key_lookup_name _ _ _ _ _ _) as [[[found rest1] s1]|] eqn:Hk; cbn -[key_lookup_name]; [|done].
  apply key_lookup_name_heap in Hk as [E Ha]; [|done].
  destruct found as [c|].
  - intros [E' Hc]%IH. rewrite <- E. split; [congruence|done].
  - by intros [= <- _ <-].
Qed.

Lemma open_named_object_with_stable open :
  heap_stable open -> heap_stable (open_named_object_with open).
Proof.
  intros Hst s root name attr r s'. unfold open_named_object_with.
  destruct (lookup_start s root name) as [e|[start path]]; [by intros [= _ <-]|].
  destruct (lookup_named_object _ _ _ _ _ _) as [[[obj left] s1]|] eqn:Hl; simpl; [|done].
  apply lookup_named_object_heap in Hl as [E _]; [|done]. simpl in E.
  destruct (decide _); [|by intros [= _ <-]].
  destruct left; by intros [= _ <-].
Qed.

Lemma no_resolver_stable : heap_stable no_resolver.
Proof. by intros s root name attr r s' [= _ <-]. Qed.

Lemma open_link_target_stable : heap_stable open_link_target.
Proof. apply open_named_object_with_stable, no_resolver_stable. Qed.

Lemma open_named_object_stable : heap_stable open_named_object.
Proof. apply open_named_object_with_stable, open_link_target_stable. Qed.


(** ** Creation *)

Lemma key_link_name_inv s c name parent s' :
  key_link_name s c name parent = Some s' ->
  exists kp i nb s1 kc,
    heap s !! parent = Some kp /\
    touch_key (with_heap s (<[parent := with_subkeys kp
                 (take i (k_subkeys kp) ++ c :: drop i (k_subkeys kp)) nb]> (heap s)))
              parent REG_NOTIFY_CHANGE_NAME = Some s1 /\
    heap s1 !! c = Some kc /\
    s' = with_heap s1 (<[c := with_parent kc (Some parent)]> (heap s1)).
Proof.
  unfold key_link_name. destruct (heap s !! parent) as [kp|]; simpl; [|done].
  destruct (find_subkey_index _ _ _) as [[i|index]|]; simpl; [done| |done].
  destruct (touch_key _ _ _) as [s1|] eqn:Ht; simpl; [|done].
  destruct (heap s1 !! c) as [kc|] eqn:Hc; simpl; [|done].
  intros [= <-]. by eexists kp, _, _, s1, kc.
Qed.

Lemma create_named_object_inv s parent name attributes r s1 :
  create_named_object s parent name attributes = Some (r, s1) ->
  (heap s1 = heap s /\ (r = None \/ last_error s1 = STATUS_OBJECT_NAME_EXISTS)) \/
  (exists s0 obj name_left,
     heap s0 = heap s /\ last_error s0 = STATUS_SUCCESS /\ (obj < length (heap s))%nat /\
     r = Some (length (heap s)) /\
     key_link_name (with_heap s0 (heap s0 ++ [blank_key name_left]))
       (length (heap s0)) name_left obj = Some s1).
Proof.
  unfold create_named_object.
  destruct (lookup_start s parent name) as [e|[start path]]; [intros [= <- <-]; left; auto|].
  destruct (lookup_named_object _ _ _ _ _ _) as [[[obj left] s0]|] eqn:Hl; simpl; [|done].
  apply lookup_named_object_heap in Hl as [E Hobj]; [|apply open_link_target_stable].
  simpl in E, Hobj.
  destruct (decide _) as [He|He]; [|intros [= <- <-]; left; auto].
  destruct left as [|x left].
  - destruct (has_flag _ _); intros [= <- <-]; left; auto.
  - destruct (key_link_name _ _ _ _) as [s2|] eqn:Hk; simpl; [|done].
    intros [= <- <-]. right. exists s0, obj, (x :: left). rewrite E in *. done.
Qed.

Lemma lookup_snoc (h : list key) k x kx :
  (h ++ [k]) !! x = Some kx -> h !! x = Some kx \/ (x = length h /\ kx = k).
Proof. intros [[??]|[??]]%lookup_snoc_Some; auto. Qed.

(** A key allocated at the end of the arena, not linked yet. *)
Lemma alloc_ok h k :
  k_parent k = None -> k_subkeys k = [] -> heap_ok h -> heap_ok (h ++ [k]).
Proof.
  intros Hp Hs [[[U1 U2] [L1 L2 L3]] Hd].
  assert (forall c kc p, (h ++ [k]) !! c = Some kc -> k_parent kc = Some p ->
            h !! c = Some kc /\ (p < c)%nat /\ (c < length h)%nat) as Hold.
  { intros c kc p [Hc|[-> ->]]%lookup_snoc Hpar; [|congruence].
    split; [done|]. split; [by eapply U1|by eapply lookup_lt_Some]. }
  assert (forall p kp, (p < length h)%nat -> (h ++ [k]) !! p = Some kp -> h !! p = Some kp)
    as Hlow.
  { intros p kp Hlt [?|[-> _]]%lookup_snoc; [done|lia]. }
  split; [split; split|].
  - intros c kc p Hc Hpar. by destruct (Hold _ _ _ Hc Hpar) as (_&?&_).
  - intros c kc p kp Hc Hpar Hkp. destruct (Hold _ _ _ Hc Hpar) as (?&?&?).
    apply Hlow in Hkp; [|lia]. by eapply U2.
  - intros c kc p kp Hc Hpar Hkp. destruct (Hold _ _ _ Hc Hpar) as (?&?&?).
    apply Hlow in Hkp; [|lia]. by eapply L1.
  - intros p kp c [Hkp|[-> ->]]%lookup_snoc Hin.
    + destruct (L2 _ _ _ Hkp Hin) as (kc&Hkc&?). exists kc. split; [|done].
      rewrite lookup_app_l; [done|by eapply lookup_lt_Some].
    + rewrite Hs in Hin. by apply elem_of_nil in Hin.
  - intros p kp [Hkp|[-> ->]]%lookup_snoc; [by eapply L3|]. rewrite Hs. apply NoDup_nil_2.
  - intros c kc p kp Hc Hpar Hkp. destruct (Hold _ _ _ Hc Hpar) as (?&?&?).
    apply Hlow in Hkp; [|lia]. by eapply Hd.
Qed.

(** Rewriting the key at the end of the arena. *)
Lemma last_key_ok h c k' :
  upward_ok h -> dirty_step h -> S c = length h ->
  (forall p, k_parent k' = Some p ->
     (p < c)%nat /\ forall kp, h !! p = Some kp ->
       (volatile kp -> volatile k') /\ (~ volatile k' -> dirty k' -> dirty kp)) ->
  upward_ok (<[c := k']> h) /\ dirty_step (<[c := k']> h).
Proof.
  intros [U1 U2] Hd Hlen Hnew.
  assert (forall x kx, <[c := k']> h !! x = Some kx ->
            (x = c /\ kx = k') \/ (x < c /\ h !! x = Some kx)%nat) as Hcase.
  { intros x kx Hx. destruct (decide (x = c)) as [->|Hne].
    - rewrite list_lookup_insert_eq in Hx by lia. left. split; congruence.
    - rewrite list_lookup_insert_ne in Hx by done. right. split; [|done].
      apply lookup_lt_Some in Hx. lia. }
  split; [split|].
  - intros x kx p [[-> ->]|[Hlt Hx]]%Hcase Hpar; [by apply Hnew|by eapply U1].
  - intros x kx p kp [[-> ->]|[Hlt Hx]]%Hcase Hpar Hkp.
    + destruct (Hnew p Hpar) as [Hpc Hrest].
      apply Hcase in Hkp as [[-> _]|[_ Hkp]]; [lia|]. by apply (Hrest kp).
    + pose proof (U1 _ _ _ Hx Hpar). apply Hcase in Hkp as [[-> _]|[_ Hkp]]; [lia|].
      by eapply U2.
  - intros x kx p kp [[-> ->]|[Hlt Hx]]%Hcase Hpar Hkp.
    + destruct (Hnew p Hpar) as [Hpc Hrest].
      apply Hcase in Hkp as [[-> _]|[_ Hkp]]; [lia|]. by apply (Hrest kp).
    + pose proof (U1 _ _ _ Hx Hpar). apply Hcase in Hkp as [[-> _]|[_ Hkp]]; [lia|].
      by eapply (Hd x kx p kp).
Qed.
End Lookup.

(** ** Creation, and every step *)

Section Create.
Context `{cm : Casemap}.

Lemma create_key_ok s parent name class options access attributes r s' :
  heap_ok (heap s) ->
  create_key s parent name class options access attributes = Some (r, s') ->
  heap_ok (heap s').
Proof.
  intros Hok. unfold create_key.
  destruct (unicode_len name =? 0).
  { destruct parent; by intros [= _ <-]. }
  destruct (create_named_object _ _ _ _) as [[key s1]|] eqn:Hc; simpl; [|done].
  apply create_named_object_inv in Hc
    as [[E Hr]|(s0&p&nm&E0&Herr&Hp&->&Hlink)].
  { rewrite <- E in Hok. destruct Hr as [-> | Hr]; [by intros [= _ <-]|].
    destruct key as [c|]; [|by intros [= _ <-]].
    destruct (decide _); [by intros [= _ <-]|done]. }
  apply key_link_name_inv in Hlink as (kp&i&nb&s2&kc&Hkp&Ht&Hkc&->).
  simpl in Hkp, Ht, Hkc. rewrite E0 in Hkp, Ht, Hkc. rewrite E0.
  set (h := heap s) in *. set (c := length h) in *.
  set (subs' := take i (k_subkeys kp) ++ c :: drop i (k_subkeys kp)) in *.
  assert (h !! p = Some kp) as Hkp0.
  { apply lookup_snoc in Hkp as [?|[-> _]]; [done|lia]. }
  assert (heap_ok (h ++ [blank_key nm])) as Hok0 by (by apply alloc_ok).
  set (h1 := <[p := _]> (h ++ [blank_key nm])) in Ht.
  assert (Forall2 same_up (h ++ [blank_key nm]) h1) as F1.
  { eapply Forall2_update; [done|]. unfold same_up, dirty, volatile. simpl. tauto. }
  assert (upward_ok h1) as Hu1 by (eapply upward_ok_same_up; [done|apply Hok0]).
  assert (dirty_step h1) as Hd1 by (eapply dirty_step_same_up; [done|apply Hok0]).
  assert (upward_ok (heap s2)) as Hu2 by (by eapply touch_key_upward_ok; [|exact Ht]).
  assert (dirty_step (heap s2)) as Hd2 by (by eapply touch_key_preserves; [| |exact Ht]).
  destruct (touch_key_marks _ _ _ _ Ht) as (kp2&Hkp2&Hmark).
  apply touch_key_touched in Ht as (F2&_&Herr2&_). simpl in F2, Herr2.
  set (h2 := heap s2) in *.
  assert (length h2 = S c) as Hlen2.
  { rewrite <- (Forall2_length _ _ _ F2). subst h1. rewrite length_insert, length_app.
    simpl. lia. }
  assert (shape h2 = <[p := (k_parent kp, subs')]> (shape h ++ [(None, [])])) as Hshape.
  { rewrite (shape_same_links h1 h2).
    - subst h1. rewrite shape_insert. unfold shape at 1. by rewrite fmap_app.
    - eapply Forall2_impl; [exact F2|]. apply touched_links. }
  simpl. destruct (decide _) as [Hex|_]; [congruence|].
  rewrite list_lookup_insert_eq by lia. simpl.
  rewrite list_insert_insert_eq.
  set (kc' := mk_key _ _ _ _ _ _ _ _ _ _).
  rewrite list_lookup_insert_ne by lia. rewrite Hkp2. simpl.
  assert (forall q cc kcc, h2 !! cc = Some kcc -> k_parent kcc = Some q -> (q < cc)%nat) as Hb2.
  { intros q cc kcc. apply Hu2. }
  assert (forall cc kcc q, <[c := kc']> h2 !! cc = Some kcc -> k_parent kcc = Some q ->
            (q < cc)%nat) as Hb4.
  { intros cc kcc q Hcc Hq. destruct (decide (cc = c)) as [->|Hne].
    - rewrite list_lookup_insert_eq in Hcc by lia. injection Hcc as <-.
      simpl in Hq. injection Hq as <-. done.
    - rewrite list_lookup_insert_ne in Hcc by done. by eapply Hu2. }
  assert (links_ok (<[c := kc']> h2)) as Hl4.
  { eapply (links_ok_attach h _ p kp i); [apply Hok|apply Hok|done|].
    rewrite shape_insert, Hshape. done. }
  destruct (has_flag (k_flags kp2) KEY_VOLATILE && negb (has_flag options REG_OPTION_VOLATILE))
    eqn:Hbranch.
  - (* the new key is unlinked again *)
    unfold free_subkey. rewrite list_lookup_insert_eq by lia. simpl.
    rewrite list_lookup_insert_ne by lia. rewrite Hkp2. simpl.
    destruct (index_of c (k_subkeys kp2)) as [j|] eqn:Hj; simpl; [|done].
    intros [= _ <-]. simpl.
    set (kp5 := with_subkeys kp2 _ _). set (kc5 := with_parent _ None).
    split; [split|].
    + rewrite (list_insert_insert_ne _ p c) by lia. rewrite list_insert_insert_eq.
      eapply (last_key_ok (<[p := kp5]> h2) c kc5); try done.
      * eapply upward_ok_same_up; [|exact Hu2]. eapply Forall2_update; [done|].
        unfold same_up, dirty, volatile. simpl. tauto.
      * eapply dirty_step_same_up; [|exact Hd2]. eapply Forall2_update; [done|].
        unfold same_up, dirty, volatile. simpl. tauto.
      * rewrite length_insert. lia.
    + eapply (links_ok_detach (<[c := kc']> h2) _ c kc' p kp2 j); try done.
      * rewrite list_lookup_insert_eq by lia. done.
      * rewrite list_lookup_insert_ne by lia. done.
      * by rewrite !shape_insert.
    + rewrite (list_insert_insert_ne _ p c) by lia. rewrite list_insert_insert_eq.
      eapply (last_key_ok (<[p := kp5]> h2) c kc5); try done.
      * eapply upward_ok_same_up; [|exact Hu2]. eapply Forall2_update; [done|].
        unfold same_up, dirty, volatile. simpl. tauto.
      * eapply dirty_step_same_up; [|exact Hd2]. eapply Forall2_update; [done|].
        unfold same_up, dirty, volatile. simpl. tauto.
      * rewrite length_insert. lia.
  - intros [= _ <-]. simpl.
    assert (upward_ok (<[c := kc']> h2) /\ dirty_step (<[c := kc']> h2)) as [??].
    { apply last_key_ok; try done; try lia. simpl. intros q [= <-]. split; [done|].
      intros kq Hkq. replace kq with kp2 by congruence.
      assert (volatile kp2 -> volatile kc') as Hvol.
      { unfold volatile. intros Hv. rewrite Hv in Hbranch. simpl in Hbranch.
        apply negb_false_iff in Hbranch. subst kc'. simpl. rewrite Hbranch.
        by destruct (has_flag options REG_OPTION_CREATE_LINK). }
      split; [done|]. intros Hnv _. destruct Hmark as [?|?]; [done|]. destruct Hnv. auto. }
    done.
Qed.


Lemma key_option_ok h a k f :
  heap_ok h -> h !! a = Some k -> f = KEY_SYMLINK \/ f = KEY_WOW64 \/ f = KEY_WOWSHARE ->
  heap_ok (<[a := with_flags k (Z.lor (k_flags k) f)]> h).
Proof.
  intros [[Hu Hl] Hd] Ha Hf.
  assert (Forall2 same_up h (<[a := with_flags k (Z.lor (k_flags k) f)]> h)) as F.
  { eapply Forall2_update; [done|]. unfold same_up, dirty, volatile. simpl.
    rewrite !has_dirty, !has_volatile, !Z.lor_spec.
    destruct Hf as [->|[->| ->]]; simpl; rewrite !orb_false_r; tauto. }
  split; [split|].
  - by eapply upward_ok_same_up.
  - eapply links_ok_shape; [|done]. rewrite shape_insert. simpl.
    unfold shape. apply list_insert_id. by rewrite list_lookup_fmap, Ha.
  - by eapply dirty_step_same_up.
Qed.

Lemma init_state_ok now : heap_ok (heap (init_state now)).
Proof.
  split; [split; split|]; simpl.
  - intros [|c] kc p; [|done]. by intros [= <-].
  - intros [|c] kc p kp; [|done]. by intros [= <-].
  - intros [|c] kc p kp; [|done]. by intros [= <-].
  - intros [|p] kp c; [|done]. intros [= <-]. simpl. by intros ?%elem_of_nil.
  - intros [|p] kp; [|done]. intros [= <-]. apply NoDup_nil_2.
  - intros [|c] kc p kp; [|done]. by intros [= <-].
Qed.

Lemma step_ok s s' : heap_ok (heap s) -> step s s' -> heap_ok (heap s').
Proof.
  intros Hok Hstep. destruct Hstep; simpl.
  - by eapply create_key_ok.
  - by eapply delete_key_ok.
  - by eapply set_value_ok.
  - by eapply delete_value_ok.
  - by eapply set_registry_notification_ok.
  - by eapply save_branch_ok.
  - by eapply key_option_ok.
  - done.
Qed.

Lemma reachable_ok s : reachable s -> heap_ok (heap s).
Proof.
  induction 1 as [now|s s' _ IH Hstep]; [apply init_state_ok|by eapply step_ok].
Qed.

End Create.

(** ** Saving a branch *)

Lemma flat_map_seq_shift {A} (f : nat -> list A) a n :
  flat_map f (seq (S a) n) = flat_map (fun c => f (S c)) (seq a n).
Proof. revert a; induction n as [|n IH]; intros a; simpl; [done|]. by rewrite IH. Qed.

Lemma temp_retries_S w path from count :
  temp_retries w path from (S count)
  = sys_open_excl (tmp_name (os_getpid w) path from) :: sys_close
    :: temp_retries w path (from + 1) count.
Proof.
  unfold temp_retries. simpl. rewrite Z.add_0_r. do 2 f_equal.
  rewrite flat_map_seq_shift. apply flat_map_ext. intros c. do 3 f_equal. lia.
Qed.

Lemma create_temp_first w path (count : nat) : forall fuel from,
  (count < fuel)%nat ->
  (forall c, (c < count)%nat ->
     os_open_excl w (tmp_name (os_getpid w) path (from + Z.of_nat c)) = Eexist) ->
  os_open_excl w (tmp_name (os_getpid w) path (from + Z.of_nat count)) = Opened ->
  create_temp w fuel path from =
    Some (Some (tmp_name (os_getpid w) path (from + Z.of_nat count)),
          temp_retries w path from count
          ++ [sys_open_excl (tmp_name (os_getpid w) path (from + Z.of_nat count))]).
Proof.
  induction count as [|count IH]; intros fuel from Hfuel Hbusy Hfree;
    (destruct fuel as [|fuel]; [lia|]).
  - simpl. rewrite Z.add_0_r in Hfree. rewrite Hfree. by rewrite Z.add_0_r.
  - pose proof (Hbusy O ltac:(lia)) as H0. simpl in H0. rewrite Z.add_0_r in H0.
    replace (from + Z.of_nat (S count)) with (from + 1 + Z.of_nat count) in * by lia.
    rewrite temp_retries_S. cbn [create_temp]. rewrite H0.
    rewrite (IH fuel (from + 1)); [done|lia| |done].
    intros c Hc. replace (from + 1 + Z.of_nat c) with (from + Z.of_nat (S c)) by lia.
    apply Hbusy. lia.
Qed.

Lemma make_clean_arena h a k : tree_ok h -> h !! a = Some k -> is_Some (make_clean (length h) h a).
Proof. intros Hok Ha. apply make_clean_total; [done|by eapply lookup_lt_Some|lia]. Qed.

Lemma saved_exists ret h a k : tree_ok h -> h !! a = Some k ->
  exists h', (if ret =? 0 then Some h else make_clean (length h) h a) = Some h' /\ saved ret h a h'.
Proof.
  intros Hok Ha. unfold saved. destruct (ret =? 0); [by exists h|].
  destruct (make_clean_arena h a k Hok Ha) as [h' Hh']. by exists h'.
Qed.

(** The file is written in place. *)
Lemma save_branch_in_place w fuel h a k path :
  tree_ok h -> h !! a = Some k -> dirty k -> write_in_place w = true ->
  exists h', save_branch w fuel h a path
             = Some (Z.b2z (os_fdopen w && os_fclose w), h', in_place_calls w path) /\
             saved (Z.b2z (os_fdopen w && os_fclose w)) h a h'.
Proof.
  intros Hok Ha Hd Hw. unfold save_branch. rewrite Ha. simpl.
  unfold dirty in Hd. rewrite Hd, Hw. simpl.
  assert (os_open w = true) as Ho.
  { unfold write_in_place in Hw. by apply andb_true_iff in Hw as [? _]. }
  rewrite Ho. unfold write_branch, in_place_calls.
  destruct (os_fdopen w); simpl.
  - destruct (saved_exists (Z.b2z (os_fclose w)) h a k Hok Ha) as (h'&E&Hs).
    rewrite E. simpl. by exists h'.
  - by exists h.
Qed.

(** The file is written through a temp file. *)
Lemma save_branch_temp_file w fuel h a k path (count : nat) :
  tree_ok h -> h !! a = Some k -> dirty k -> write_in_place w = false ->
  (count < fuel)%nat ->
  (forall c, (c < count)%nat ->
     os_open_excl w (tmp_name (os_getpid w) path (Z.of_nat c)) = Eexist) ->
  os_open_excl w (tmp_name (os_getpid w) path (Z.of_nat count)) = Opened ->
  exists h', save_branch w fuel h a path
             = Some (Z.b2z (os_fdopen w && os_fclose w && os_rename w), h',
                     temp_file_calls w path count) /\
             saved (Z.b2z (os_fdopen w && os_fclose w && os_rename w)) h a h'.
Proof.
  intros Hok Ha Hd Hw Hfuel Hbusy Hfree. unfold save_branch. rewrite Ha. simpl.
  unfold dirty in Hd. rewrite Hd, Hw. simpl.
  rewrite (create_temp_first w path count fuel 0); simpl; try done.
  unfold write_branch, temp_file_calls.
  destruct (os_fdopen w); simpl.
  - destruct (saved_exists (Z.b2z (if os_fclose w then os_rename w else false)) h a k Hok Ha)
      as (h'&E&Hs).
    rewrite E. simpl. exists h'.
    replace (os_fclose w && os_rename w) with (if os_fclose w then os_rename w else false)
      by (by destruct (os_fclose w)).
    split; [|done]. do 3 f_equal. destruct (os_open w); simpl; rewrite <- ?app_assoc; done.
  - exists h. split; [|done]. do 3 f_equal.
    destruct (os_open w); simpl; rewrite <- ?app_assoc; done.
Qed.

(** The test of the file type, spelled out. *)
Lemma write_in_place_iff w :
  write_in_place w = true <->
  os_open w = true /\ exists st, os_lstat w = Some st /\ (S_ISREG st = false \/ 1 < st_nlink st).
Proof.
  unfold write_in_place. rewrite andb_true_iff. split.
  - intros [Ho Hl]. split; [done|]. destruct (os_lstat w) as [st|]; [|done]. exists st.
    split; [done|]. apply orb_true_iff in Hl as [Hl|Hl]; [left|right].
    + by apply negb_true_iff.
    + by apply Z.ltb_lt.
  - intros [Ho (st&->&Hl)]. split; [done|]. apply orb_true_iff.
    destruct Hl as [->|Hl]; [by left|right]. by apply Z.ltb_lt.
Qed.

(** The temp file is in the directory of the file. *)
Lemma tmp_name_dir pid path count :
  exists file, list_ascii_of_string (tmp_name pid path count)
               = dir_part (list_ascii_of_string path) ++ list_ascii_of_string "reg" ++ file.
Proof.
  unfold tmp_name. rewrite list_ascii_of_string_of_list_ascii. by eexists.
Qed.

(** ** Handlers and queries *)

Lemma name_check_chars (name : list Z) :
  (65534 <=? unicode_len name) = true <-> 32767 <= Z.of_nat (length name).
Proof. unfold unicode_len, sizeof_WCHAR. rewrite Z.leb_le. lia. Qed.

Lemma length_bytes_of_wchars str : Z.of_nat (length (bytes_of_wchars str)) = unicode_len str.
Proof.
  unfold unicode_len, sizeof_WCHAR, bytes_of_wchars.
  induction str as [|c str IH]; simpl; [done|]. lia.
Qed.

Section HandlerFacts.
Context `{cm : Casemap}.


(** A handler that went past [resolve_parent] with a handle made a call. *)
Lemma resolve_parent_calls (get_handle_obj : state -> Z -> Z -> status + ptr) (current : thread)
    s parent access attributes name s1 calls :
  resolve_parent get_handle_obj current s parent access attributes name = Some (inl (s1, calls)) ->
  calls <> [].
Proof.
  unfold resolve_parent. destruct (negb (parent =? 0)); simpl.
  - destruct (get_hkey_obj get_handle_obj s parent 0) as [[p s2]|]; simpl; [|done].
    destruct (bool_decide (is_Some p)); simpl.
    + destruct p as [a|]; [|done]. destruct (has_flag access KEY_WOW64_32KEY); simpl; [|done].
      by destruct (find_wow64_subkey _ _ _).
    + by intros [= _ <-].
  - done.
Qed.





(** The basic information of key [a]: its own name, counts and time. *)
Lemma key_information_basic s a k max_size reply :
  heap s !! a = Some k -> 0 < unicode_len (k_name k) <= max_size ->
  key_information s a KeyBasicInformation max_size reply
  = Some (mk_enum_key_reply (last_subkey k + 1) (last_value k + 1) (k_modif k)
            (unicode_len (k_name k)) (unicode_len (k_name k)) 0 0 0 0
            (bytes_of_wchars (k_name k)), s).
Proof.
  intros Hk Hlen. unfold key_information. rewrite Hk. simpl.
  rewrite Z.add_0_r. rewrite Z.min_l by lia.
  destruct (Z.eqb_spec (unicode_len (k_name k)) 0) as [?|_]; [lia|].
  rewrite Z.ltb_irrefl. simpl. unfold with_data, with_namelen, with_counts, with_maxima. simpl.
  do 3 f_equal. apply take_ge. pose proof (length_bytes_of_wchars (k_name k)). lia.
Qed.

Lemma enum_key_self s a info_class max_size reply :
  enum_key s a (-1) info_class max_size reply = key_information s a info_class max_size reply.
Proof. done. Qed.

Lemma enum_key_child s a k index info_class max_size reply :
  heap s !! a = Some k -> index <> -1 ->
  enum_key s a index info_class max_size reply
  = if (index <? 0) || (last_subkey k <? index)
    then Some (reply, set_error s STATUS_NO_MORE_ENTRIES)
    else c ← k_subkeys k !! Z.to_nat index; key_information s c info_class max_size reply.
Proof.
  intros Hk Hi. unfold enum_key. apply Z.eqb_neq in Hi. rewrite Hi. simpl. rewrite Hk. simpl.
  destruct (index <? 0) eqn:Hneg; simpl; [done|].
  destruct (last_subkey k <? index); [done|]. unfold array_get. by rewrite Hneg.
Qed.

Lemma enum_key_handler_calls (get_handle_obj : state -> Z -> Z -> status + ptr)
    (reply_max_size : Z) s req reply s' calls :
  enum_key_handler get_handle_obj reply_max_size s req = Some (reply, s', calls) ->
  calls = [call_get_handle_obj (ek_hkey req) (enum_key_access (ek_index req))].
Proof.
  unfold enum_key_handler.
  destruct (get_hkey_obj _ _ _ _) as [[key s1]|]; simpl; [|done].
  destruct key as [a|]; [|by intros [= _ _ <-]].
  destruct (enum_key _ _ _ _ _ _) as [[r s2]|]; simpl; [|done]. by intros [= _ _ <-].
Qed.

Lemma enum_key_handler_denied (get_handle_obj : state -> Z -> Z -> status + ptr)
    (reply_max_size : Z) s req e :
  get_handle_obj s (ek_hkey req) (enum_key_access (ek_index req)) = inl e ->
  enum_key_handler get_handle_obj reply_max_size s req
  = Some (empty_enum_key_reply, set_error s e,
          [call_get_handle_obj (ek_hkey req) (enum_key_access (ek_index req))]).
Proof. intros H. unfold enum_key_handler, get_hkey_obj. by rewrite H. Qed.

End HandlerFacts.

(** ** The values of a key stay sorted *)

Section SortedValues.
Context `{cm : Casemap}.

Lemma values_ok_insert h a k' :
  values_ok h -> values_sorted k' -> values_ok (<[a := k']> h).
Proof.
  intros Hok Hs x kx Hx. destruct (decide (x = a)) as [->|Hne].
  - destruct (decide (a < length h)%nat) as [Hlt|Hge].
    + rewrite list_lookup_insert_eq in Hx by done. by injection Hx as <-.
    + rewrite list_insert_ge in Hx by lia. by eapply Hok.
  - rewrite list_lookup_insert_ne in Hx by done. by eapply Hok.
Qed.

Lemma values_ok_update h a k k' :
  values_ok h -> h !! a = Some k -> k_values k' = k_values k -> values_ok (<[a := k']> h).
Proof.
  intros Hok Ha E. apply values_ok_insert; [done|]. unfold values_sorted. rewrite E.
  by apply (Hok a k).
Qed.

Lemma values_ok_snoc h k : values_ok h -> values_sorted k -> values_ok (h ++ [k]).
Proof. intros Hok Hs x kx [?|[_ ->]]%lookup_snoc; [by eapply Hok|done]. Qed.

Lemma values_ok_frame (R : key -> key -> Prop) h h' :
  (forall k k', R k k' -> k_values k' = k_values k) ->
  Forall2 R h h' -> values_ok h -> values_ok h'.
Proof.
  intros HR F Hok x kx' Hx. destruct (Forall2_lookup_r _ _ _ _ _ F Hx) as (kx&Hkx&Hrel).
  unfold values_sorted. rewrite (HR _ _ Hrel). by apply (Hok x kx).
Qed.

Lemma touched_values k k' : touched k k' -> k_values k' = k_values k.
Proof. by intros (_&_&_&_&_&?&_). Qed.

Lemma cleaned_values k k' : cleaned k k' -> k_values k' = k_values k.
Proof. by intros [->| ->]. Qed.

Lemma touch_key_values s a change s' :
  values_ok (heap s) -> touch_key s a change = Some s' -> values_ok (heap s').
Proof.
  intros Hok (F&_)%touch_key_touched. eapply values_ok_frame; [apply touched_values|done|done].
Qed.

Lemma make_clean_values fuel h a h' :
  values_ok h -> make_clean fuel h a = Some h' -> values_ok h'.
Proof.
  intros Hok (F&_)%make_clean_spec. eapply values_ok_frame; [apply cleaned_values|done|done].
Qed.

Lemma names_sorted_nil : names_sorted [].
Proof. by intros i j x y _ Hi. Qed.

Lemma names_sorted_delete names i : names_sorted names -> names_sorted (delete i names).
Proof.
  intros Hs j1 j2 x y Hlt H1 H2.
  assert (forall j z, delete i names !! j = Some z ->
            names !! (if decide (j < i)%nat then j else S j) = Some z) as Hback.
  { intros j z Hj. destruct (decide (j < i)%nat).
    - by rewrite list_lookup_delete_lt in Hj.
    - by rewrite list_lookup_delete_ge in Hj by lia. }
  apply Hback in H1, H2. eapply Hs; [|exact H1|exact H2].
  repeat destruct (decide _); lia.
Qed.

Lemma set_value_values s a name type data s' :
  values_ok (heap s) -> set_value s a name type data = Some s' -> values_ok (heap s').
Proof.
  intros Hok (k&Hk&Hrun)%set_value_inv.
  pose proof (Hok a k Hk) as Hs.
  destruct Hrun as [| | |i v s' Hf _ _ _ Ht|index k' s' Hf _ Hins Ht]; try done.
  - eapply touch_key_values; [|exact Ht]. simpl. apply values_ok_insert; [done|].
    unfold values_sorted. simpl. by rewrite map_name_alter.
  - eapply touch_key_values; [|exact Ht]. simpl. apply values_ok_insert; [done|].
    unfold values_sorted. simpl. rewrite map_name_alter.
    unfold insert_value in Hins. destruct (_ <? _); [done|]. injection Hins as <-. simpl.
    destruct (find_value_miss _ _ _ Hs Hf) as (Hidx&Hlo&Hhi).
    rewrite fmap_app, fmap_cons, fmap_take, fmap_drop. simpl.
    apply names_sorted_insert.
    + done.
    + rewrite length_map. lia.
    + intros j e Hj He. rewrite list_lookup_fmap in He.
      destruct (k_values k !! j) as [v|] eqn:Hv; [|done]. injection He as <-.
      apply (Hlo j v); [lia|done].
    + intros j e Hj He. rewrite list_lookup_fmap in He.
      destruct (k_values k !! j) as [v|] eqn:Hv; [|done]. injection He as <-.
      apply (Hhi j v); [lia|done].
Qed.

Lemma delete_value_values s a name s' :
  values_ok (heap s) -> delete_value s a name = Some s' -> values_ok (heap s').
Proof.
  intros Hok. unfold delete_value.
  destruct (heap s !! a) as [k|] eqn:Hk; simpl; [|done].
  destruct (find_value k name) as [[i|index]|]; simpl; [| |done].
  2:{ by intros [= <-]. }
  destruct (touch_key _ _ _) as [s1|] eqn:Ht; simpl; [|done].
  destruct (heap s1 !! a) as [k1|] eqn:Hk1; simpl; [|done].
  intros [= <-]. simpl.
  assert (values_ok (heap s1)) as Hok1.
  { eapply touch_key_values; [|exact Ht]. simpl. apply values_ok_insert; [done|].
    unfold values_sorted. simpl.
    replace (map kv_name (delete (Z.to_nat i) (k_values k)))
      with (delete (Z.to_nat i) (map kv_name (k_values k))).
    - apply names_sorted_delete. by apply (Hok a k).
    - symmetry. apply list_fmap_delete. }
  by eapply values_ok_update.
Qed.

Lemma free_subkey_values h c h' :
  values_ok h -> free_subkey h c = Some h' -> values_ok h'.
Proof.
  intros Hok. unfold free_subkey.
  destruct (h !! c) as [kc|] eqn:Hc; simpl; [|done].
  destruct (k_parent kc) as [p|]; [|by intros [= <-]].
  destruct (h !! p) as [kp|] eqn:Hp; simpl; [|done].
  destruct (index_of c (k_subkeys kp)) as [i|]; simpl; [|done].
  intros [= <-]. apply values_ok_insert.
  - by eapply values_ok_update.
  - by apply (Hok c kc).
Qed.

Lemma delete_key_values fuel s a recurse r s' :
  values_ok (heap s) -> delete_key fuel s a recurse = Some (r, s') -> values_ok (heap s').
Proof.
  revert s a recurse r s'. induction fuel as [|fuel IH]; intros s a recurse r s' Hok; [done|].
  simpl. destruct (heap s !! a) as [k|] eqn:Hk; simpl; [|done].
  destruct (recurse && (0 <=? last_subkey k)).
  - destruct (array_get _ _) as [c|]; simpl; [|done].
    destruct (delete_key fuel s c true) as [[r1 s1]|] eqn:H1; simpl; [|done].
    apply IH in H1; [|done]. destruct (r1 <? 0).
    + by intros [= _ <-].
    + by apply IH.
  - destruct (0 <=? last_subkey k); [by intros [= _ <-]|].
    destruct (free_subkey (heap s) a) as [h|] eqn:Hfree; simpl; [|done].
    apply free_subkey_values in Hfree; [|done].
    destruct (k_parent k) as [p|].
    + destruct (touch_key _ _ _) as [s1|] eqn:Ht; simpl; [|done].
      intros [= _ <-]. by eapply touch_key_values; [|exact Ht].
    + by intros [= _ <-].
Qed.

Lemma create_key_values s parent name class options access attributes r s' :
  values_ok (heap s) ->
  create_key s parent name class options access attributes = Some (r, s') ->
  values_ok (heap s').
Proof.
  intros Hok. unfold create_key.
  destruct (unicode_len name =? 0).
  { destruct parent; by intros [= _ <-]. }
  destruct (create_named_object _ _ _ _) as [[key s1]|] eqn:Hc; simpl; [|done].
  apply create_named_object_inv in Hc
    as [[E Hr]|(s0&p&nm&E0&Herr&Hp&->&Hlink)].
  { rewrite <- E in Hok. destruct Hr as [-> | Hr]; [by intros [= _ <-]|].
    destruct key as [c|]; [|by intros [= _ <-]].
    destruct (decide _); [by intros [= _ <-]|done]. }
  apply key_link_name_inv in Hlink as (kp&i&nb&s2&kc&Hkp&Ht&Hkc&->).
  simpl in Hkp, Ht, Hkc. rewrite E0 in Hkp, Ht, Hkc. rewrite E0.
  assert (values_ok (heap s2)) as Hok2.
  { eapply touch_key_values; [|exact Ht]. simpl.
    eapply values_ok_update; [|exact Hkp|done].
    apply values_ok_snoc; [done|]. apply names_sorted_nil. }
  simpl. destruct (decide _) as [_|_].
  { intros [= _ <-]. simpl. by eapply values_ok_update. }
  assert (length (heap s) < length (heap s2))%nat as Hlen by (by eapply lookup_lt_Some).
  rewrite list_lookup_insert_eq by done. simpl. rewrite list_insert_insert_eq.
  set (kc' := mk_key _ _ _ _ _ _ _ _ _ _).
  assert (values_ok (<[length (heap s) := kc']> (heap s2))) as Hok4.
  { apply values_ok_insert; [done|apply names_sorted_nil]. }
  match goal with |- (?m ≫= _) = _ -> _ => destruct m as [vp|]; simpl; [|done] end.
  destruct (vp && _).
  - destruct (free_subkey _ _) as [h5|] eqn:Hfree; simpl; [|done].
    intros [= _ <-]. simpl. by eapply free_subkey_values.
  - by intros [= _ <-].
Qed.

Lemma step_values s s' : values_ok (heap s) -> step s s' -> values_ok (heap s').
Proof.
  intros Hok Hstep. destruct Hstep as [| | | | |w fuel s a path ret h' calls Hsave| |]; simpl.
  - by eapply create_key_values.
  - by eapply delete_key_values.
  - by eapply set_value_values.
  - by eapply delete_value_values.
  - unfold set_registry_notification in *. destruct (heap s !! a) as [k|] eqn:Hk; [|done].
    simplify_eq/=. by eapply values_ok_update.
  - unfold save_branch in Hsave. destruct (heap s !! a) as [k|]; simpl in Hsave; [|done].
    destruct (negb _); [by injection Hsave as _ <- _|].
    revert Hsave.
    match goal with |- (?m ≫= _) = _ -> _ => destruct m as [[tmp t1]|]; simpl; [|done] end.
    destruct (if _ || _ then _ else _) as [r t2].
    destruct (r =? 0); simpl.
    + by intros [= _ <- _].
    + destruct (make_clean _ _ _) as [h1|] eqn:Hmc; simpl; [|done].
      intros [= _ <- _]. by eapply make_clean_values.
  - by eapply values_ok_update.
  - done.
Qed.

(** In every state the engine reaches, the values of every key are
    sorted by name. *)
Lemma reachable_values_ok s : reachable s -> values_ok (heap s).
Proof.
  induction 1 as [now|s s' _ IH Hstep]; [|by eapply step_values].
  intros [|a] k; [|done]. intros [= <-]. apply names_sorted_nil.
Qed.

End SortedValues.

(** ** Scripts *)

Section Scripts.
Context `{cm : Casemap}.

Lemma run_request_step s r s' : run_request s r = Some s' -> step s s'.
Proof.
  destruct r as [parent name class options access attributes|fuel a recurse|a name type data
                |a name|a event subtree filter hkey process|w fuel a path|a f|e now]; simpl.
  - destruct (create_key _ _ _ _ _ _ _) as [[r s1]|] eqn:E; simpl; [|done].
    intros [= <-]. by eapply step_create_key.
  - destruct (delete_key _ _ _ _) as [[r s1]|] eqn:E; simpl; [|done].
    intros [= <-]. by eapply step_delete_key.
  - apply step_set_value.
  - apply step_delete_value.
  - apply step_notification.
  - destruct (save_branch _ _ _ _ _) as [[[ret h'] calls]|] eqn:E; simpl; [|done].
    intros [= <-]. by eapply step_save_branch.
  - destruct (heap s !! a) as [k|] eqn:Hk; simpl; [|done].
    destruct (Z.eqb_spec f KEY_SYMLINK) as [->|?]; simpl.
    { intros [= <-]. apply step_key_option; auto. }
    destruct (Z.eqb_spec f KEY_WOW64) as [->|?]; simpl.
    { intros [= <-]. apply step_key_option; auto. }
    destruct (Z.eqb_spec f KEY_WOWSHARE) as [->|?]; simpl; [|done].
    intros [= <-]. apply step_key_option; auto.
  - intros [= <-]. apply step_next_request.
Qed.

(** A script that runs leads from a state the engine reaches to one. *)
Lemma run_reachable l : forall s s', reachable s -> run s l = Some s' -> reachable s'.
Proof.
  induction l as [|r l IH]; intros s s' Hs; simpl.
  - by intros [= <-].
  - destruct (run_request s r) as [s1|] eqn:E; simpl; [|done].
    apply IH. apply (reachable_step s s1 Hs). by apply (run_request_step s r).
Qed.

End Scripts.

(** ** What [touch_key] keeps *)

Global Instance disarmed_refl : Reflexive disarmed.
Proof. intros n. by left. Qed.

Global Instance disarmed_trans : Transitive disarmed.
Proof. intros n1 n2 n3 [->| ->] [->| ->]; unfold disarmed; simpl; auto. Qed.

Global Instance kept_refl : Reflexive kept.
Proof. intros k. split; [done|]. by apply Forall_Forall2_diag, Forall_forall. Qed.

Global Instance kept_trans : Transitive kept.
Proof.
  intros k1 k2 k3 [E1 F1] [E2 F2]. split; [congruence|].
  eapply Forall2_trans; [|exact F1|exact F2]. intros x y z ??. by transitivity y.
Qed.

Lemma fire_disarmed change ns n : disarmed n (fire change ns n).
Proof.
  unfold fire, do_notification. destruct (notify_matches _ _ _); [|by left].
  destruct n as [[e|] st f h p]; simpl; [by right|by left].
Qed.

Lemma make_dirty_kept fuel h p h' : make_dirty fuel h p = Some h' -> Forall2 kept h h'.
Proof.
  revert h p; induction fuel as [|fuel IH]; intros h [a|]; simpl; try done.
  - intros [= <-]. apply Forall2_refl_list.
  - destruct (h !! a) as [k|] eqn:Ha; [simpl|done].
    destruct (has_flag _ _).
    + intros [= <-]. apply Forall2_refl_list.
    + intros H'%IH. eapply Forall2_trans_list; [|exact H'].
      eapply Forall2_update; [done|]. split; [done|]. simpl.
      by apply Forall_Forall2_diag, Forall_forall.
  - intros [= <-]. apply Forall2_refl_list.
Qed.

Lemma check_notify_kept s a change ns s' :
  check_notify s a change ns = Some s' -> Forall2 kept (heap s) (heap s').
Proof.
  intros (k&Hk&->)%check_notify_inv. simpl. eapply Forall2_update; [done|].
  split; [done|]. simpl. apply Forall2_fmap_r, Forall_Forall2_diag, Forall_forall.
  intros n _. apply fire_disarmed.
Qed.

Lemma notify_parents_kept fuel s p change s' :
  notify_parents fuel s p change = Some s' -> Forall2 kept (heap s) (heap s').
Proof.
  revert s p; induction fuel as [|fuel IH]; intros s [a|]; simpl; try done.
  - intros [= <-]. apply Forall2_refl_list.
  - destruct (heap s !! a) as [kr|]; simpl; [|done].
    destruct (check_notify s a change 0) as [s1|] eqn:Hc; simpl; [|done].
    intros H%IH. eapply Forall2_trans_list; [|exact H]. by eapply check_notify_kept.
  - intros [= <-]. apply Forall2_refl_list.
Qed.

(** [touch_key] stamps the key it is called on and no other, and keeps
    every notification, up to its event. *)
Lemma touch_key_kept s a change s' :
  touch_key s a change = Some s' ->
  forall x kx, heap s !! x = Some kx ->
    exists kx', heap s' !! x = Some kx' /\
      k_modif kx' = (if decide (x = a) then current_time s else k_modif kx) /\
      Forall2 disarmed (k_notify_list kx) (k_notify_list kx').
Proof.
  intros (k&h2&s1&Hk&Hd&Hc&Hn)%touch_key_inv x kx Hx.
  apply make_dirty_kept in Hd. apply check_notify_kept in Hc. apply notify_parents_kept in Hn.
  simpl in Hc.
  assert (Forall2 kept (<[a := with_modif k (current_time s)]> (heap s)) (heap s')) as F.
  { eapply Forall2_trans_list; [exact Hd|]. eapply Forall2_trans_list; [exact Hc|exact Hn]. }
  destruct (decide (x = a)) as [->|Hne].
  - destruct (Forall2_lookup_l _ _ _ a (with_modif k (current_time s)) F) as (k'&Hk'&[E Fn]).
    { apply list_lookup_insert_eq. by eapply lookup_lt_Some. }
    exists k'. split; [done|]. split; [done|]. replace kx with k by congruence. done.
  - destruct (Forall2_lookup_l _ _ _ x kx F) as (k'&Hk'&[E Fn]).
    { by rewrite list_lookup_insert_ne. }
    by exists k'.
Qed.


(** ** Properties of every key that the operations keep *)

Lemma key_link_name_find `{cm : Casemap} s c name parent s' :
  key_link_name s c name parent = Some s' ->
  exists kp index s1 kc,
    heap s !! parent = Some kp /\
    find_subkey_index (heap s) kp name = Some (NotFound index) /\
    touch_key (with_heap s (<[parent := with_subkeys kp
                 (take (Z.to_nat index) (k_subkeys kp) ++ c :: drop (Z.to_nat index) (k_subkeys kp))
                 (if last_subkey kp + 1 =? k_nb_subkeys kp
                  then grow_subkeys (k_nb_subkeys kp) else k_nb_subkeys kp)]> (heap s)))
              parent REG_NOTIFY_CHANGE_NAME = Some s1 /\
    heap s1 !! c = Some kc /\
    s' = with_heap s1 (<[c := with_parent kc (Some parent)]> (heap s1)).
Proof.
  unfold key_link_name. intros H.
  destruct (heap s !! parent) as [kp|] eqn:Hkp; simpl in H; [|done].
  destruct (find_subkey_index _ _ _) as [[i|index]|] eqn:Hf; simpl in H; [done| |done].
  destruct (touch_key _ _ _) as [s1|] eqn:Ht in H; simpl in H; [|done].
  destruct (heap s1 !! c) as [kc|] eqn:Hkc; simpl in H; [|done].
  injection H as <-. by exists kp, index, s1, kc.
Qed.

Lemma find_value_index `{cm : Casemap} k name index :
  find_value k name = Some (NotFound index) -> 0 <= index <= Z.of_nat (length (k_values k)).
Proof.
  unfold find_value, last_value.
  assert (forall fuel names min max,
            0 <= min -> min <= max + 1 -> max < Z.of_nat (length names) ->
            name_search fuel names name min max = Some (NotFound index) ->
            min <= index <= max + 1) as Hgen.
  { induction fuel as [|fuel IH]; intros names mn mx H0 H1 H2; simpl.
    - destruct (Z.ltb_spec mx mn); [|done]. intros [= <-]. lia.
    - destruct (Z.ltb_spec mx mn); [intros [= <-]; lia|].
      destruct (array_get names _) as [e|]; simpl; [|done].
      destruct (_ =? 0); [done|].
      destruct (0 <? _).
      + intros Hr. apply IH in Hr; lia.
      + intros Hr. apply IH in Hr; lia. }
  intros Hr. apply Hgen in Hr; rewrite ?length_map; lia.
Qed.

Lemma find_subkey_index_bound `{cm : Casemap} h k name index :
  find_subkey_index h k name = Some (NotFound index) ->
  0 <= index <= Z.of_nat (length (k_subkeys k)).
Proof.
  unfold find_subkey_index, subkey_names, last_subkey.
  destruct (mapM _ _) as [names|] eqn:Hn; simpl; [|done].
  apply length_mapM in Hn.
  assert (forall fuel min max,
            0 <= min -> min <= max + 1 -> max < Z.of_nat (length names) ->
            name_search fuel names name min max = Some (NotFound index) ->
            min <= index <= max + 1) as Hgen.
  { induction fuel as [|fuel IH]; intros mn mx H0 H1 H2; simpl.
    - destruct (Z.ltb_spec mx mn); [|done]. intros [= <-]. lia.
    - destruct (Z.ltb_spec mx mn); [intros [= <-]; lia|].
      destruct (array_get names _) as [e|]; simpl; [|done].
      destruct (_ =? 0); [done|].
      destruct (0 <? _).
      + intros Hr. apply IH in Hr; lia.
      + intros Hr. apply IH in Hr; lia. }
  intros Hr. apply Hgen in Hr; lia.
Qed.

Lemma touched_kept_eq k k' :
  touched k k' -> Forall2 disarmed (k_notify_list k) (k_notify_list k') ->
  exists f, (f = k_flags k \/ f = Z.lor (k_flags k) KEY_DIRTY) /\
    k' = with_notify_list (with_modif (with_flags k f) (k_modif k')) (k_notify_list k').
Proof.
  intros (?&?&?&?&?&?&?&Hf) _. exists (k_flags k'). split; [done|].
  destruct k, k'. simpl in *. by subst.
Qed.

Section KeyInvariant.
Context `{cm : Casemap}.

(** A property of keys that each update the operations make keeps. *)
Variable P : key -> Prop.
Hypothesis P_new : forall name class parent flags modif,
  P (mk_key name class parent [] 0 [] 0 flags modif []).
Hypothesis P_flags : forall k f, P k -> P (with_flags k f).
Hypothesis P_modif : forall k t, P k -> P (with_modif k t).
Hypothesis P_parent : forall k p, P k -> P (with_parent k p).
Hypothesis P_disarm : forall k l,
  P k -> Forall2 disarmed (k_notify_list k) l -> P (with_notify_list k l).
Hypothesis P_watch : forall k event subtree filter hkey process, P k ->
  P (with_notify_list k
       match find_notify (k_notify_list k) process hkey with
       | Some i =>
           alter (fun n => mk_notify (Some event) (n_subtree n) (n_filter n)
                             (n_hkey n) (n_process n)) i (k_notify_list k)
       | None => mk_notify (Some event) subtree filter hkey process :: k_notify_list k
       end).
Hypothesis P_store : forall k i type data, P k ->
  P (with_values k
       (alter (fun v => store_value v type (Z.of_nat (length data))
                          (if Z.of_nat (length data) =? 0 then None else Some data))
              i (k_values k))
       (k_nb_values k)).
Hypothesis P_insert : forall k name index k',
  P k -> 0 <= index <= Z.of_nat (length (k_values k)) ->
  insert_value k name index = inr k' -> P k'.
Hypothesis P_remove : forall k i, P k -> (i < length (k_values k))%nat ->
  P (with_values k (delete i (k_values k)) (k_nb_values k)).
Hypothesis P_shrink : forall k, P k ->
  P (with_values k (k_values k) (shrink (k_nb_values k) (last_value k) MIN_VALUES)).
Hypothesis P_link : forall k i c, P k -> (i <= length (k_subkeys k))%nat ->
  P (with_subkeys k (take i (k_subkeys k) ++ c :: drop i (k_subkeys k))
       (if last_subkey k + 1 =? k_nb_subkeys k
        then grow_subkeys (k_nb_subkeys k) else k_nb_subkeys k)).
Hypothesis P_unlink : forall k i, P k -> (i < length (k_subkeys k))%nat ->
  P (with_subkeys k (delete i (k_subkeys k))
       (shrink (k_nb_subkeys k) (Z.of_nat (length (delete i (k_subkeys k))) - 1) MIN_SUBKEYS)).

Lemma P_touched k k' :
  touched k k' -> Forall2 disarmed (k_notify_list k) (k_notify_list k') -> P k -> P k'.
Proof.
  intros Ht Hn Hk. destruct (touched_kept_eq k k' Ht Hn) as (f&_&->).
  apply P_disarm; [|done]. by apply P_modif, P_flags.
Qed.

Lemma P_cleaned k k' : cleaned k k' -> P k -> P k'.
Proof. intros [->| ->] Hk; [done|by apply P_flags]. Qed.

Lemma keys_inv_insert h a k' : keys_inv P h -> P k' -> keys_inv P (<[a := k']> h).
Proof.
  intros Hok Hs x kx Hx. destruct (decide (x = a)) as [->|Hne].
  - destruct (decide (a < length h)%nat) as [Hlt|Hge].
    + rewrite list_lookup_insert_eq in Hx by done. by injection Hx as <-.
    + rewrite list_insert_ge in Hx by lia. by eapply Hok.
  - rewrite list_lookup_insert_ne in Hx by done. by eapply Hok.
Qed.

Lemma keys_inv_snoc h k : keys_inv P h -> P k -> keys_inv P (h ++ [k]).
Proof. intros Hok Hs x kx [?|[_ ->]]%lookup_snoc; [by eapply Hok|done]. Qed.

Lemma keys_inv_frame (R : key -> key -> Prop) h h' :
  (forall k k', R k k' -> P k -> P k') -> Forall2 R h h' -> keys_inv P h -> keys_inv P h'.
Proof.
  intros HR F Hok x kx' Hx. destruct (Forall2_lookup_r _ _ _ _ _ F Hx) as (kx&Hkx&Hrel).
  eapply HR; [done|]. by eapply Hok.
Qed.

Lemma touch_key_keys s a change s' :
  keys_inv P (heap s) -> touch_key s a change = Some s' -> keys_inv P (heap s').
Proof.
  intros Hok Ht x kx' Hx'.
  destruct (touch_key_touched _ _ _ _ Ht) as (F&_).
  destruct (Forall2_lookup_r _ _ _ _ _ F Hx') as (kx&Hx&Hrel).
  destruct (touch_key_kept _ _ _ _ Ht x kx Hx) as (kx2&Hx2&_&Hn).
  replace kx2 with kx' in * by congruence.
  eapply P_touched; [done|done|]. by eapply Hok.
Qed.

Lemma make_clean_keys fuel h a h' :
  keys_inv P h -> make_clean fuel h a = Some h' -> keys_inv P h'.
Proof.
  intros Hok (F&_)%make_clean_spec. eapply keys_inv_frame; [apply P_cleaned|done|done].
Qed.

Lemma set_value_keys s a name type data s' :
  keys_inv P (heap s) -> set_value s a name type data = Some s' -> keys_inv P (heap s').
Proof.
  intros Hok (k&Hk&Hrun)%set_value_inv.
  pose proof (Hok a k Hk) as Hs.
  destruct Hrun as [| | |i v s' Hf _ _ _ Ht|index k' s' Hf _ Hins Ht]; try done.
  - eapply touch_key_keys; [|exact Ht]. simpl. apply keys_inv_insert; [done|]. by apply P_store.
  - eapply touch_key_keys; [|exact Ht]. simpl. apply keys_inv_insert; [done|].
    apply P_store. eapply P_insert; [done| |done]. by eapply find_value_index.
Qed.

Lemma delete_value_keys s a name s' :
  keys_inv P (heap s) -> delete_value s a name = Some s' -> keys_inv P (heap s').
Proof.
  intros Hok. unfold delete_value.
  destruct (heap s !! a) as [k|] eqn:Hk; simpl; [|done].
  destruct (find_value k name) as [[i|index]|] eqn:Hf; simpl; [| |done].
  2:{ by intros [= <-]. }
  destruct (touch_key _ _ _) as [s1|] eqn:Ht; simpl; [|done].
  destruct (heap s1 !! a) as [k1|] eqn:Hk1; simpl; [|done].
  intros [= <-]. simpl.
  destruct (find_value_found _ _ _ Hf) as (Hi&v&Hv0&_).
  apply keys_inv_insert; [|apply P_shrink].
  - eapply touch_key_keys; [|exact Ht]. simpl. apply keys_inv_insert; [done|].
    apply P_remove; [by eapply Hok|by eapply lookup_lt_Some].
  - assert (keys_inv P (heap s1)) as Hok1.
    { eapply touch_key_keys; [|exact Ht]. simpl. apply keys_inv_insert; [done|].
      apply P_remove; [by eapply Hok|by eapply lookup_lt_Some]. }
    by eapply Hok1.
Qed.

Lemma free_subkey_keys h c h' :
  keys_inv P h -> free_subkey h c = Some h' -> keys_inv P h'.
Proof.
  intros Hok. unfold free_subkey.
  destruct (h !! c) as [kc|] eqn:Hc; simpl; [|done].
  destruct (k_parent kc) as [p|]; [|by intros [= <-]].
  destruct (h !! p) as [kp|] eqn:Hp; simpl; [|done].
  destruct (index_of c (k_subkeys kp)) as [i|] eqn:Hi; simpl; [|done].
  intros [= <-]. apply keys_inv_insert.
  - apply keys_inv_insert; [done|]. apply P_unlink; [by eapply Hok|].
    apply index_of_lookup in Hi. by eapply lookup_lt_Some.
  - apply P_parent, P_flags. by apply (Hok c kc).
Qed.

Lemma delete_key_keys fuel s a recurse r s' :
  keys_inv P (heap s) -> delete_key fuel s a recurse = Some (r, s') -> keys_inv P (heap s').
Proof.
  revert s a recurse r s'. induction fuel as [|fuel IH]; intros s a recurse r s' Hok; [done|].
  simpl. destruct (heap s !! a) as [k|] eqn:Hk; simpl; [|done].
  destruct (recurse && (0 <=? last_subkey k)).
  - destruct (array_get _ _) as [c|]; simpl; [|done].
    destruct (delete_key fuel s c true) as [[r1 s1]|] eqn:H1; simpl; [|done].
    apply IH in H1; [|done]. destruct (r1 <? 0).
    + by intros [= _ <-].
    + by apply IH.
  - destruct (0 <=? last_subkey k); [by intros [= _ <-]|].
    destruct (free_subkey (heap s) a) as [h|] eqn:Hfree; simpl; [|done].
    apply free_subkey_keys in Hfree; [|done].
    destruct (k_parent k) as [p|].
    + destruct (touch_key _ _ _) as [s1|] eqn:Ht; simpl; [|done].
      intros [= _ <-]. by eapply touch_key_keys; [|exact Ht].
    + by intros [= _ <-].
Qed.

Lemma create_key_keys s parent name class options access attributes r s' :
  keys_inv P (heap s) ->
  create_key s parent name class options access attributes = Some (r, s') ->
  keys_inv P (heap s').
Proof.
  intros Hok. unfold create_key.
  destruct (unicode_len name =? 0).
  { destruct parent; by intros [= _ <-]. }
  destruct (create_named_object _ _ _ _) as [[key s1]|] eqn:Hc; simpl; [|done].
  assert (keys_inv P (heap s1) /\
          (key = None \/ last_error s1 = STATUS_OBJECT_NAME_EXISTS \/
           exists kc, key = Some (length (heap s)) /\ heap s1 !! length (heap s) = Some kc))
    as [Hok1 Hkey].
  { unfold create_named_object in Hc.
    destruct (lookup_start s parent name) as [e|[start path]]; [injection Hc as <- <-; auto|].
    destruct (lookup_named_object _ _ _ _ _ _) as [[[obj name_left] s0]|] eqn:Hl;
      simpl in Hc; [|done].
    apply lookup_named_object_heap in Hl as [E0 Hobj]; [|apply open_link_target_stable].
    simpl in E0, Hobj.
    destruct (decide _); [|injection Hc as <- <-; rewrite E0; auto].
    destruct name_left as [|c0 nl].
    { destruct (has_flag _ _); injection Hc as <- <-; simpl; rewrite E0; auto. }
    destruct (key_link_name _ _ _ _) as [s2|] eqn:Hlink; simpl in Hc; [|done].
    injection Hc as <- <-.
    apply key_link_name_find in Hlink as (kp&index&s3&kc&Hkp&Hfind&Ht&Hkc&->).
    simpl in *. rewrite E0 in *.
    assert (obj < length (heap s))%nat as Hlt by done.
    rewrite lookup_app_l in Hkp by done.
    assert (keys_inv P (heap s3)) as Hok3.
    { eapply touch_key_keys; [|exact Ht]. simpl.
      apply keys_inv_insert; [apply keys_inv_snoc; [done|by apply P_new]|].
      apply P_link; [by eapply Hok|].
      apply find_subkey_index_bound in Hfind. lia. }
    split.
    - apply keys_inv_insert; [done|]. apply P_parent. by eapply Hok3.
    - right. right. exists (with_parent kc (Some obj)). split; [done|].
      apply list_lookup_insert_eq. by eapply lookup_lt_Some. }
  destruct key as [c|]; [|by intros [= _ <-]].
  destruct (decide _) as [|Hne]; [by intros [= _ <-]|].
  destruct Hkey as [?|[?|(kc&[= ->]&Hkc)]]; [done|done|].
  rewrite Hkc. simpl.
  set (kc' := mk_key _ _ _ _ _ _ _ _ _ _).
  assert (keys_inv P (<[length (heap s) := kc']> (heap s1))) as Hok4.
  { apply keys_inv_insert; [done|]. by apply P_new. }
  match goal with |- (?m ≫= _) = _ -> _ => destruct m as [vp|]; simpl; [|done] end.
  destruct (vp && _).
  - destruct (free_subkey _ _) as [h5|] eqn:Hfree; simpl; [|done].
    intros [= _ <-]. simpl. by eapply free_subkey_keys.
  - by intros [= _ <-].
Qed.

Lemma step_keys s s' : keys_inv P (heap s) -> step s s' -> keys_inv P (heap s').
Proof.
  intros Hok Hstep. destruct Hstep as [| | | | |w fuel s a path ret h' calls Hsave| |]; simpl.
  - by eapply create_key_keys.
  - by eapply delete_key_keys.
  - by eapply set_value_keys.
  - by eapply delete_value_keys.
  - unfold set_registry_notification in *. destruct (heap s !! a) as [k|] eqn:Hk; [|done].
    simplify_eq/=. apply keys_inv_insert; [done|]. apply P_watch. by eapply Hok.
  - unfold save_branch in Hsave. destruct (heap s !! a) as [k|]; simpl in Hsave; [|done].
    destruct (negb _); [by injection Hsave as _ <- _|].
    revert Hsave.
    match goal with |- (?m ≫= _) = _ -> _ => destruct m as [[tmp t1]|]; simpl; [|done] end.
    destruct (if _ || _ then _ else _) as [r t2].
    destruct (r =? 0); simpl.
    + by intros [= _ <- _].
    + destruct (make_clean _ _ _) as [h1|] eqn:Hmc; simpl; [|done].
      intros [= _ <- _]. by eapply make_clean_keys.
  - apply keys_inv_insert; [done|]. apply P_flags. by eapply Hok.
  - done.
Qed.

(** Such a property holds of every key in every state the engine
    reaches. *)
Lemma reachable_keys s : reachable s -> keys_inv P (heap s).
Proof.
  induction 1 as [now|s s' _ IH Hstep]; [|by eapply step_keys].
  intros [|a] k; [|done]. intros [= <-]. by apply P_new.
Qed.

End KeyInvariant.

(** ** Values: the binary search against a linear one *)

Lemma memcmp_eq d data : length d = length data -> memcmp d data (length data) = 0 -> d = data.
Proof.
  revert data. induction d as [|x d IH]; intros [|y data]; simpl; try done.
  intros [= Hl]. destruct (Z.eqb_spec (x - y) 0) as [E|E]; [|done].
  intros H. f_equal; [lia|by apply IH].
Qed.

Lemma to_int_to_uint x : - 2 ^ 31 <= x < 2 ^ 31 -> to_int (to_uint x) = x.
Proof. unfold to_int, to_uint. lia. Qed.

Lemma to_uint_range x : 0 <= to_uint x < 2 ^ 32.
Proof. unfold to_uint. lia. Qed.

Lemma find_alter {A} (p : A -> bool) (f : A -> A) i (l : list A) :
  (forall x, l !! i = Some x -> p x = false /\ p (f x) = false) ->
  find p (alter f i l) = find p l.
Proof.
  revert i. induction l as [|x l IH]; intros [|i] H; simpl; try done.
  - destruct (H x eq_refl) as [-> ->]. done.
  - destruct (p x); [done|]. by apply IH.
Qed.

Lemma find_insert_at {A} (p : A -> bool) i x (l : list A) :
  p x = false -> find p (take i l ++ x :: drop i l) = find p l.
Proof.
  intros Hx. revert i. induction l as [|y l IH]; intros [|i]; simpl; rewrite ?Hx; try done.
  destruct (p y); [done|]. apply IH.
Qed.

Lemma find_delete {A} (p : A -> bool) i (l : list A) :
  (forall x, l !! i = Some x -> p x = false) -> find p (delete i l) = find p l.
Proof.
  revert i. induction l as [|y l IH]; intros [|i] H; simpl; try done.
  - by rewrite (H y eq_refl).
  - destruct (p y); [done|]. by apply IH.
Qed.

Lemma find_lookup {A} (p : A -> bool) (l : list A) x :
  find p l = Some x -> exists i, l !! i = Some x /\ p x = true.
Proof.
  induction l as [|y l IH]; simpl; [done|]. destruct (p y) eqn:E.
  - intros [= <-]. by exists O.
  - intros (i&?&?)%IH. by exists (S i).
Qed.

Lemma find_none {A} (p : A -> bool) (l : list A) i x :
  find p l = None -> l !! i = Some x -> p x = false.
Proof.
  revert i. induction l as [|y l IH]; intros [|i]; simpl; try done.
  - destruct (p y) eqn:E; [done|]. by intros _ [= <-].
  - destruct (p y); [done|]. apply IH.
Qed.

Section LinearSearch.
Context `{cm : Casemap}.

Lemma sorted_unique names (i j : nat) x y :
  names_sorted names -> names !! i = Some x -> names !! j = Some y ->
  compare_name x y = 0 -> i = j.
Proof.
  intros Hs Hi Hj Hc.
  destruct (lt_eq_lt_dec i j) as [[Hlt|E]|Hlt]; [|done|].
  - pose proof (Hs i j x y Hlt Hi Hj). lia.
  - pose proof (Hs j i y x Hlt Hj Hi) as H.
    apply compare_name_eq_iff in Hc. symmetry in Hc. apply compare_name_eq_iff in Hc. lia.
Qed.

Lemma compare_name_eq_trans a b c :
  compare_name a c = 0 -> compare_name b c = 0 -> compare_name a b = 0.
Proof. rewrite !compare_name_eq_iff. congruence. Qed.

(** On a sorted array the binary search finds what a linear search finds. *)
Lemma find_value_linear k name :
  values_sorted k ->
  match value_named k name with
  | Some v => exists i : nat, find_value k name = Some (Found (Z.of_nat i)) /\
                              k_values k !! i = Some v
  | None => exists index, find_value k name = Some (NotFound index)
  end.
Proof.
  intros Hs. unfold value_named. destruct (find _ _) as [v|] eqn:Hf.
  - apply find_lookup in Hf as (i&Hi&Hp). exists i. split; [|done].
    apply Z.eqb_eq in Hp. by eapply find_value_present.
  - destruct (find_value_total k name) as [[i|index] Hr]; [|by exists index].
    destruct (find_value_found _ _ _ Hr) as (_&v&Hv&Hc).
    pose proof (find_none _ _ _ _ Hf Hv) as Hp. simpl in Hp. lia.
Qed.

Lemma get_value_linear s a k name max_size reply :
  heap s !! a = Some k -> values_sorted k ->
  get_value s a name max_size reply =
  Some match value_named k name with
       | Some v => (value_reply v max_size reply, s)
       | None => (mk_get_key_value_reply (-1) (gv_total reply) (gv_data reply),
                  set_error s STATUS_OBJECT_NAME_NOT_FOUND)
       end.
Proof.
  intros Hk Hs. unfold get_value. rewrite Hk. simpl.
  pose proof (find_value_linear k name Hs) as H.
  destruct (value_named k name) as [v|].
  - destruct H as (i&->&Hi). simpl. by rewrite array_get_of_nat, Hi.
  - destruct H as (index&->). done.
Qed.

End LinearSearch.


(** ** What [set_value] and [delete_value] leave under each name *)

Section StoredValues.
Context `{cm : Casemap}.

Lemma touch_key_update_values s a k kmid change s' :
  heap s !! a = Some k ->
  touch_key (with_heap s (<[a := kmid]> (heap s))) a change = Some s' ->
  last_error s' = last_error s /\
  (exists k', heap s' !! a = Some k' /\ k_values k' = k_values kmid /\
              k_nb_values k' = k_nb_values kmid /\ k_flags k' = k_flags kmid \/
              heap s' !! a = Some k' /\ k_values k' = k_values kmid /\
              k_nb_values k' = k_nb_values kmid /\
              k_flags k' = Z.lor (k_flags kmid) KEY_DIRTY) /\
  (forall b kb, b <> a -> heap s !! b = Some kb ->
     exists kb', heap s' !! b = Some kb' /\ k_values kb' = k_values kb).
Proof.
  intros Hk (F&_&He&_)%touch_key_touched. simpl in *. split; [done|].
  assert (a < length (heap s))%nat as Hlt by (by eapply lookup_lt_Some).
  split.
  - destruct (Forall2_lookup_l _ _ _ a kmid F) as (k'&Hk'&Hrel);
      [by apply list_lookup_insert_eq|].
    exists k'. destruct Hrel as (_&_&_&_&_&Hv&Hnb&[Hf|Hf]); [left|right]; done.
  - intros b kb Hne Hb.
    destruct (Forall2_lookup_l _ _ _ b kb F) as (kb'&Hkb'&Hrel);
      [by rewrite list_lookup_insert_ne|].
    exists kb'. split; [done|]. by apply touched_values.
Qed.

Lemma value_named_found k name (i : nat) v :
  values_sorted k -> k_values k !! i = Some v -> compare_name (kv_name v) name = 0 ->
  value_named k name = Some v.
Proof.
  intros Hs Hi Hc. unfold value_named.
  destruct (find _ _) as [v'|] eqn:Hf.
  - apply find_lookup in Hf as (j&Hj&Hp). apply Z.eqb_eq in Hp.
    assert (j = i) as ->; [|congruence].
    eapply (sorted_unique (map kv_name (k_values k))); [done| | |].
    + by rewrite list_lookup_fmap, Hj.
    + by rewrite list_lookup_fmap, Hi.
    + by eapply compare_name_eq_trans.
  - pose proof (find_none _ _ _ _ Hf Hi) as Hp. simpl in Hp. lia.
Qed.

Lemma value_named_name k name v :
  value_named k name = Some v -> compare_name (kv_name v) name = 0.
Proof. intros (i&_&Hp)%find_lookup. by apply Z.eqb_eq in Hp. Qed.

Lemma compare_name_other v name name' :
  compare_name v name = 0 -> fold_name name' <> fold_name name ->
  (compare_name v name' =? 0) = false.
Proof.
  intros Hc Hne. apply Z.eqb_neq. intros Hc'. apply compare_name_eq_iff in Hc, Hc'. congruence.
Qed.

Lemma insert_value_sorted k name index k' :
  values_sorted k -> find_value k name = Some (NotFound index) ->
  insert_value k name index = inr k' ->
  values_sorted k' /\
  k_values k' = take (Z.to_nat index) (k_values k)
                ++ mk_value name REG_NONE 0 None :: drop (Z.to_nat index) (k_values k) /\
  (Z.to_nat index <= length (k_values k))%nat /\
  unicode_len name <= MAX_VALUE_LEN * sizeof_WCHAR.
Proof.
  intros Hs Hf Hins. unfold insert_value in Hins.
  destruct (Z.ltb_spec (MAX_VALUE_LEN * sizeof_WCHAR) (unicode_len name)); [done|].
  injection Hins as <-. simpl.
  destruct (find_value_miss _ _ _ Hs Hf) as (Hidx&Hlo&Hhi).
  split; [|split; [done|split; [lia|done]]].
  unfold values_sorted. simpl.
  rewrite fmap_app, fmap_cons, fmap_take, fmap_drop. simpl.
  apply names_sorted_insert.
  - done.
  - rewrite length_map. lia.
  - intros j e Hj He. rewrite list_lookup_fmap in He.
    destruct (k_values k !! j) as [v|] eqn:Hv; [|done]. injection He as <-.
    apply (Hlo j v); [lia|done].
  - intros j e Hj He. rewrite list_lookup_fmap in He.
    destruct (k_values k !! j) as [v|] eqn:Hv; [|done]. injection He as <-.
    apply (Hhi j v); [lia|done].
Qed.

Lemma lookup_insert_at {A} (l : list A) i x :
  (i <= length l)%nat -> (take i l ++ x :: drop i l) !! i = Some x.
Proof.
  intros Hi. rewrite lookup_app_r by (rewrite length_take; lia).
  rewrite length_take. replace (i - i `min` length l)%nat with O by lia. done.
Qed.

(** The outcome of a [set_value] that returns: either the arena is as it
    was, or the key holds the value under the name; in both cases every
    other name and every other key hold what they held. *)
Lemma set_value_named s a k name type data s' :
  heap s !! a = Some k -> values_sorted k -> set_value s a name type data = Some s' ->
  exists k', heap s' !! a = Some k' /\ values_sorted k' /\
    (forall name', fold_name name' <> fold_name name ->
       value_named k' name' = value_named k name') /\
    (forall b kb, b <> a -> heap s !! b = Some kb ->
       exists kb', heap s' !! b = Some kb' /\ k_values kb' = k_values kb) /\
    ((s' = s /\ exists v, value_named k name = Some v /\ same_value v type data = true) \/
     (s' = set_error s STATUS_ACCESS_DENIED /\
      has_flag (k_flags k) KEY_SYMLINK && not_link_value name type = true) \/
     (s' = set_error s STATUS_NAME_TOO_LONG /\
      MAX_VALUE_LEN * sizeof_WCHAR < unicode_len name) \/
     (last_error s' = last_error s /\
      exists nm, compare_name nm name = 0 /\
        value_named k' name
        = Some (mk_value nm (to_uint type) (Z.of_nat (length data))
                  (if Z.of_nat (length data) =? 0 then None else Some data)))).
Proof.
  intros Hk Hs (k0&Hk0&Hrun)%set_value_inv.
  rewrite Hk in Hk0. injection Hk0 as <-.
  assert (forall b kb, b <> a -> heap s !! b = Some kb ->
            exists kb', heap s !! b = Some kb' /\ k_values kb' = k_values kb) as Hsame.
  { intros b kb _ Hb. by exists kb. }
  destruct Hrun as [i v Hf Hv Hsv|r Hf Hno Hl Hn|index e Hf Hl Hins
                   |i v s' Hf Hv Hsv Hl Ht|index k1 s' Hf Hl Hins Ht].
  - exists k. split; [done|]. split; [done|]. split; [done|]. split; [done|].
    left. split; [done|]. exists v. split; [|done].
    destruct (find_value_found _ _ _ Hf) as (Hi&v'&Hv'&Hc).
    apply array_get_Some in Hv as [_ Hv]. rewrite Hv in Hv'. injection Hv' as <-.
    by eapply value_named_found.
  - exists k. split; [done|]. split; [done|]. split; [done|]. split; [done|].
    right. left. by rewrite Hl, Hn.
  - exists k. split; [done|]. split; [done|]. split; [done|]. split; [done|].
    right. right. left. unfold insert_value in Hins.
    destruct (Z.ltb_spec (MAX_VALUE_LEN * sizeof_WCHAR) (unicode_len name)); [|done].
    by injection Hins as <-.
  - destruct (touch_key_update_values _ _ _ _ _ _ Hk Ht) as (He&(k'&Hk')&Hoth).
    assert (heap s' !! a = Some k' /\
            k_values k' = alter (fun v => store_value v type (Z.of_nat (length data))
                                   (if Z.of_nat (length data) =? 0 then None else Some data))
                            (Z.to_nat i) (k_values k)) as [Ha Hvs].
    { destruct Hk' as [(?&?&_)|(?&?&_)]; done. }
    clear Hk'.
    destruct (find_value_found _ _ _ Hf) as (Hi&v'&Hv'&Hc).
    apply array_get_Some in Hv as [_ Hv]. rewrite Hv in Hv'. injection Hv' as <-.
    assert (values_sorted k') as Hs'.
    { unfold values_sorted. rewrite Hvs, map_name_alter. done. }
    exists k'. split; [done|]. split; [done|]. split; [|split; [done|]].
    + intros name' Hne. unfold value_named. rewrite Hvs. apply find_alter.
      intros x Hx. rewrite Hv in Hx. injection Hx as <-. simpl.
      split; by eapply compare_name_other.
    + right. right. right. split; [done|]. exists (kv_name v). split; [done|].
      apply (value_named_found k' name (Z.to_nat i)); [done| |done].
      rewrite Hvs, list_lookup_alter_eq, Hv. reflexivity.
  - destruct (insert_value_sorted _ _ _ _ Hs Hf Hins) as (Hs1&Hv1&Hidx&Hlen).
    destruct (touch_key_update_values _ _ _ _ _ _ Hk Ht) as (He&(k'&Hk')&Hoth).
    assert (heap s' !! a = Some k' /\
            k_values k' = alter (fun v => store_value v type (Z.of_nat (length data))
                                   (if Z.of_nat (length data) =? 0 then None else Some data))
                            (Z.to_nat index) (k_values k1)) as [Ha Hvs].
    { destruct Hk' as [(?&?&_)|(?&?&_)]; done. }
    clear Hk'.
    assert (values_sorted k') as Hs'.
    { unfold values_sorted. rewrite Hvs, map_name_alter. done. }
    assert (k_values k1 !! Z.to_nat index = Some (mk_value name REG_NONE 0 None)) as Hnew.
    { rewrite Hv1. by apply lookup_insert_at. }
    exists k'. split; [done|]. split; [done|]. split; [|split; [done|]].
    + intros name' Hne. unfold value_named. rewrite Hvs.
      rewrite find_alter.
      * rewrite Hv1. apply find_insert_at. simpl.
        eapply compare_name_other; [apply compare_name_refl|done].
      * intros x Hx. rewrite Hnew in Hx. injection Hx as <-. simpl.
        split; (eapply compare_name_other; [apply compare_name_refl|done]).
    + right. right. right. split; [done|]. exists name. split; [apply compare_name_refl|].
      apply (value_named_found k' name (Z.to_nat index)); [done| |apply compare_name_refl].
      rewrite Hvs, list_lookup_alter_eq, Hnew. reflexivity.
Qed.

End StoredValues.


Section DeletedValues.
Context `{cm : Casemap}.

Lemma lookup_delete_back {A} (l : list A) i j x :
  delete i l !! j = Some x -> exists j', j' <> i /\ l !! j' = Some x.
Proof.
  intros Hj. destruct (decide (j < i)%nat).
  - rewrite list_lookup_delete_lt in Hj by done. exists j. split; [lia|done].
  - rewrite list_lookup_delete_ge in Hj by lia. exists (S j). split; [lia|done].
Qed.

(** The outcome of a [delete_value] that returns: the name was not there
    and the arena is as it was, or the value is gone and every other name
    and every other key hold what they held. *)
Lemma delete_value_named s a k name s' :
  heap s !! a = Some k -> values_sorted k -> delete_value s a name = Some s' ->
  (value_named k name = None /\ s' = set_error s STATUS_OBJECT_NAME_NOT_FOUND) \/
  (exists v k', value_named k name = Some v /\ last_error s' = last_error s /\
     heap s' !! a = Some k' /\ values_sorted k' /\ value_named k' name = None /\
     S (length (k_values k')) = length (k_values k) /\
     (forall name', fold_name name' <> fold_name name ->
        value_named k' name' = value_named k name') /\
     (forall b kb, b <> a -> heap s !! b = Some kb ->
        exists kb', heap s' !! b = Some kb' /\ k_values kb' = k_values kb)).
Proof.
  intros Hk Hs. unfold delete_value. rewrite Hk. simpl.
  pose proof (find_value_linear k name Hs) as Hlin.
  destruct (find_value k name) as [[i|index]|] eqn:Hf; simpl; [| |done].
  2:{ intros [= <-]. left. split; [|done].
      destruct (value_named k name); [|done]. by destruct Hlin as (?&?&_). }
  destruct (value_named k name) as [v|] eqn:Hnamed; [|by destruct Hlin].
  destruct Hlin as (j&[= ->]&Hj). rewrite Nat2Z.id.
  destruct (touch_key _ _ _) as [s1|] eqn:Ht; simpl; [|done].
  destruct (touch_key_update_values _ _ _ _ _ _ Hk Ht) as (He&(k1&Hk1)&Hoth).
  assert (heap s1 !! a = Some k1 /\ k_values k1 = delete j (k_values k)) as [Ha Hvs].
  { destruct Hk1 as [(?&?&_)|(?&?&_)]; done. }
  rewrite Ha. simpl. intros [= <-]. right.
  assert (a < length (heap s1))%nat as Hlt by (by eapply lookup_lt_Some).
  exists v. eexists. split; [done|]. split; [done|]. simpl.
  split; [by apply list_lookup_insert_eq|].
  pose proof (value_named_name _ _ _ Hnamed) as Hc.
  unfold values_sorted, value_named. simpl. rewrite Hvs.
  split; [|split; [|split; [|split]]].
  - rewrite list_fmap_delete. by apply names_sorted_delete.
  - destruct (find _ (delete j (k_values k))) as [v'|] eqn:Hfind; [|done].
    apply find_lookup in Hfind as (j1&Hj1&Hp). apply Z.eqb_eq in Hp.
    apply lookup_delete_back in Hj1 as (j2&Hne&Hj2). destruct Hne.
    eapply (sorted_unique (map kv_name (k_values k))); [done| | |].
    + by rewrite list_lookup_fmap, Hj2.
    + by rewrite list_lookup_fmap, Hj.
    + by eapply compare_name_eq_trans.
  - rewrite length_delete by done. apply lookup_lt_Some in Hj. lia.
  - intros name' Hne. apply find_delete. intros x Hx. rewrite Hj in Hx. injection Hx as <-.
    by eapply compare_name_other.
  - intros b kb Hne Hb. rewrite list_lookup_insert_ne by done. by apply Hoth.
Qed.

End DeletedValues.


(** ** Well-formed values and allocations in every state *)

Lemma value_ok_stored v type data :
  value_ok v ->
  value_ok (store_value v type (Z.of_nat (length data))
              (if Z.of_nat (length data) =? 0 then None else Some data)).
Proof.
  intros (Hn&_&_). unfold value_ok, store_value. simpl. split; [done|].
  split; [apply to_uint_range|].
  destruct (Z.eqb_spec (Z.of_nat (length data)) 0); lia.
Qed.

Lemma shrink_fits nb last lowest :
  0 <= lowest -> last + 1 <= nb -> (nb = 0 \/ lowest <= nb) ->
  last + 1 <= shrink nb last lowest /\
  (shrink nb last lowest = 0 \/ lowest <= shrink nb last lowest).
Proof.
  intros H0 Hfit Hnb. unfold shrink.
  destruct (Z.ltb_spec lowest nb); simpl; [|lia].
  destruct (Z.ltb_spec last (Z.quot nb 2)); [|lia].
  rewrite Z.quot_div_nonneg in * by lia.
  destruct (Z.ltb_spec (nb - nb / 3) lowest); lia.
Qed.

Lemma grow_fits nb last lowest :
  2 <= lowest -> last + 1 <= nb -> (nb = 0 \/ lowest <= nb) ->
  let nb' := if last + 1 =? nb
             then (if nb =? 0 then lowest else nb + Z.quot nb 2) else nb in
  last + 2 <= nb' /\ (nb' = 0 \/ lowest <= nb').
Proof.
  intros H0 Hfit Hnb. simpl.
  destruct (Z.eqb_spec (last + 1) nb); [|lia].
  destruct (Z.eqb_spec nb 0); [lia|].
  rewrite Z.quot_div_nonneg by lia. lia.
Qed.

Lemma length_insert_at {A} (l : list A) i x :
  length (take i l ++ x :: drop i l) = S (length l).
Proof.
  rewrite length_app. simpl. rewrite length_take, length_drop. lia.
Qed.

Section WellFormed.
Context `{cm : Casemap}.

(** In every state the engine reaches, every value is well formed. *)
Lemma reachable_value_ok s : reachable s -> keys_inv (fun k => Forall value_ok (k_values k)) (heap s).
Proof.
  apply reachable_keys.
  - intros. apply Forall_nil_2.
  - done.
  - done.
  - done.
  - done.
  - done.
  - intros k i type data Hk. simpl. apply Forall_alter; [done|].
    intros v _ Hv. by apply value_ok_stored.
  - intros k name index k' Hk _ Hins. unfold insert_value in Hins.
    destruct (Z.ltb_spec (MAX_VALUE_LEN * sizeof_WCHAR) (unicode_len name)); [done|].
    injection Hins as <-. simpl. apply Forall_app. split; [by apply Forall_take|].
    apply Forall_cons. split; [|by apply Forall_drop].
    unfold value_ok, REG_NONE. simpl. lia.
  - intros k i Hk _. simpl. by apply Forall_delete.
  - done.
  - done.
  - done.
Qed.

(** In every state the engine reaches, the arrays of every key fit their
    allocations. *)
Lemma reachable_capacity s : reachable s -> keys_inv capacity_ok (heap s).
Proof.
  apply reachable_keys.
  - intros. unfold capacity_ok, last_value, last_subkey. simpl. lia.
  - done.
  - done.
  - done.
  - done.
  - done.
  - intros k i type data. unfold capacity_ok, last_value, last_subkey. simpl.
    by rewrite length_alter.
  - intros k name index k' (Hv&Hnb&Hrest) _ Hins. unfold insert_value in Hins.
    destruct (_ <? _); [done|]. injection Hins as <-.
    unfold capacity_ok, last_value, last_subkey in *. simpl.
    rewrite length_insert_at.
    destruct (grow_fits (k_nb_values k) (Z.of_nat (length (k_values k)) - 1) MIN_VALUES)
      as [H1 H2]; [unfold MIN_VALUES; lia|lia|done|].
    unfold grow_values. split; [lia|]. split; [exact H2|exact Hrest].
  - intros k i (Hv&Hnb&Hrest) Hi.
    unfold capacity_ok, last_value, last_subkey in *. simpl.
    rewrite length_delete by (by apply lookup_lt_is_Some). split; [lia|done].
  - intros k (Hv&Hnb&Hrest).
    unfold capacity_ok, last_value, last_subkey in *. simpl.
    destruct (shrink_fits (k_nb_values k) (Z.of_nat (length (k_values k)) - 1) MIN_VALUES)
      as [H1 H2]; [unfold MIN_VALUES; lia|lia|done|].
    split; [lia|]. split; [exact H2|exact Hrest].
  - intros k i c (Hv&Hnb&Hs&Hnbs) _.
    unfold capacity_ok, last_value, last_subkey in *. simpl.
    rewrite length_insert_at.
    destruct (grow_fits (k_nb_subkeys k) (Z.of_nat (length (k_subkeys k)) - 1) MIN_SUBKEYS)
      as [H1 H2]; [unfold MIN_SUBKEYS; lia|lia|done|].
    unfold grow_subkeys. split; [done|]. split; [done|]. split; [lia|exact H2].
  - intros k i (Hv&Hnb&Hs&Hnbs) Hi.
    unfold capacity_ok, last_value, last_subkey in *. simpl.
    rewrite length_delete by (by apply lookup_lt_is_Some).
    destruct (shrink_fits (k_nb_subkeys k) (Z.of_nat (length (k_subkeys k) - 1) - 1)
                MIN_SUBKEYS) as [H1 H2]; [unfold MIN_SUBKEYS; lia|lia|done|].
    split; [done|]. split; [done|]. split; [lia|exact H2].
Qed.

End WellFormed.


Lemma delete_value_total `{cm : Casemap} s a name :
  upward_ok (heap s) -> (a < length (heap s))%nat -> is_Some (delete_value s a name).
Proof.
  intros Hok Ha. unfold delete_value.
  destruct (lookup_lt_is_Some_2 _ _ Ha) as [k Hk]. rewrite Hk. simpl.
  destruct (find_value_total k name) as [[i|index] Hr]; rewrite Hr; simpl; [|done].
  destruct (touch_key_total
              (with_heap s (<[a := with_values k (delete (Z.to_nat i) (k_values k))
                                     (k_nb_values k)]> (heap s)))
              a REG_NOTIFY_CHANGE_LAST_SET) as [s1 Ht].
  { simpl. eapply upward_ok_same_links; [|done]. eapply Forall2_update; [done|].
    by apply same_marks_links. }
  { simpl. by rewrite length_insert. }
  rewrite Ht. simpl.
  apply touch_key_touched in Ht as (F&_). simpl in F.
  apply Forall2_length in F. rewrite length_insert in F.
  destruct (lookup_lt_is_Some_2 (heap s1) a) as [k1 Hk1]; [lia|]. by rewrite Hk1.
Qed.


Lemma value_named_none `{cm : Casemap} k name :
  value_named k name = None <->
  forall v, v ∈ k_values k -> fold_name (kv_name v) <> fold_name name.
Proof.
  unfold value_named. split.
  - intros Hf v (i&Hi)%list_elem_of_lookup Hc.
    pose proof (find_none _ _ _ _ Hf Hi) as Hp. simpl in Hp.
    apply compare_name_eq_iff in Hc. lia.
  - intros Hall. destruct (find _ _) as [v|] eqn:Hf; [|done].
    apply find_lookup in Hf as (i&Hi&Hp). apply Z.eqb_eq in Hp.
    destruct (Hall v); [by eapply list_elem_of_lookup_2|by apply compare_name_eq_iff].
Qed.

Lemma value_named_some `{cm : Casemap} k name v :
  value_named k name = Some v -> v ∈ k_values k /\ fold_name (kv_name v) = fold_name name.
Proof.
  intros (i&Hi&Hp)%find_lookup. apply Z.eqb_eq in Hp.
  split; [by eapply list_elem_of_lookup_2|by apply compare_name_eq_iff].
Qed.


(** ** Cutting a reply to the size of the buffer *)

Lemma take_name_data {A} (nb d : list A) total max_size :
  0 <= max_size -> total = Z.of_nat (length nb) + Z.of_nat (length d) ->
  Z.of_nat (length nb) < Z.min total max_size ->
  take (Z.to_nat (Z.of_nat (length nb))) nb
  ++ take (Z.to_nat (Z.min total max_size - Z.of_nat (length nb))) d
  = take (Z.to_nat max_size) (nb ++ d).
Proof.
  intros H0 -> Hlt. rewrite Nat2Z.id, firstn_all, take_app.
  rewrite (take_ge nb) by lia. f_equal.
  destruct (Z.le_ge_cases max_size (Z.of_nat (length nb) + Z.of_nat (length d))).
  - f_equal. lia.
  - rewrite !take_ge by lia. done.
Qed.

Lemma take_name_only {A} (nb d : list A) total max_size :
  0 <= max_size -> total = Z.of_nat (length nb) + Z.of_nat (length d) ->
  Z.min total max_size <= Z.of_nat (length nb) ->
  take (Z.to_nat (Z.min total max_size)) nb = take (Z.to_nat max_size) (nb ++ d).
Proof.
  intros H0 -> Hle.
  destruct (Z.le_ge_cases max_size (Z.of_nat (length nb) + Z.of_nat (length d))).
  - rewrite Z.min_r by done. rewrite take_app_le by lia. done.
  - rewrite Z.min_l in * by lia. destruct d; [|simpl in *; lia].
    rewrite app_nil_r, !take_ge by (simpl; lia). done.
Qed.


(** ** Keys stay in the arena *)

Lemma arena_ext_refl h : arena_ext h h.
Proof. intros a k Hk. by exists k. Qed.

Lemma arena_ext_trans h1 h2 h3 : arena_ext h1 h2 -> arena_ext h2 h3 -> arena_ext h1 h3.
Proof.
  intros H1 H2 a k Hk. destruct (H1 a k Hk) as (k2&Hk2&E2).
  destruct (H2 a k2 Hk2) as (k3&Hk3&E3). exists k3. split; [done|congruence].
Qed.

Lemma arena_ext_insert h a k k' :
  h !! a = Some k -> k_name k' = k_name k -> arena_ext h (<[a := k']> h).
Proof.
  intros Hk E b kb Hb. destruct (decide (b = a)) as [->|Hne].
  - exists k'. split; [apply list_lookup_insert_eq; by eapply lookup_lt_Some|congruence].
  - exists kb. by rewrite list_lookup_insert_ne.
Qed.

Lemma arena_ext_app h l : arena_ext h (h ++ l).
Proof. intros a k Hk. exists k. split; [|done]. by apply lookup_app_l_Some. Qed.

Lemma arena_ext_frame (R : key -> key -> Prop) h h' :
  (forall k k', R k k' -> k_name k' = k_name k) -> Forall2 R h h' -> arena_ext h h'.
Proof.
  intros HR F a k Hk. destruct (Forall2_lookup_l _ _ _ _ _ F Hk) as (k'&Hk'&Hrel).
  exists k'. split; [done|]. by apply HR.
Qed.

Lemma touched_name k k' : touched k k' -> k_name k' = k_name k.
Proof. by intros (?&_). Qed.

Lemma cleaned_name k k' : cleaned k k' -> k_name k' = k_name k.
Proof. by intros [->| ->]. Qed.

Lemma touch_key_arena s a change s' :
  touch_key s a change = Some s' -> root_key s' = root_key s /\ arena_ext (heap s) (heap s').
Proof.
  intros (F&Hr&_)%touch_key_touched. split; [done|].
  eapply arena_ext_frame; [apply touched_name|done].
Qed.

Lemma free_subkey_arena h c h' : free_subkey h c = Some h' -> arena_ext h h'.
Proof.
  unfold free_subkey.
  destruct (h !! c) as [kc|] eqn:Hc; simpl; [|done].
  destruct (k_parent kc) as [p|]; [|intros [= <-]; apply arena_ext_refl].
  destruct (h !! p) as [kp|] eqn:Hp; simpl; [|done].
  destruct (index_of c (k_subkeys kp)) as [i|] eqn:Hi; simpl; [|done].
  intros [= <-].
  match goal with |- arena_ext h (<[c := _]> ?h1) => apply (arena_ext_trans h h1) end;
    [by eapply arena_ext_insert|].
  destruct (decide (c = p)) as [->|Hne].
  - rewrite Hp in Hc. injection Hc as <-.
    eapply arena_ext_insert; [apply list_lookup_insert_eq; by eapply lookup_lt_Some|done].
  - eapply arena_ext_insert; [by rewrite list_lookup_insert_ne|done].
Qed.

Section Arena.
Context `{cm : Casemap}.

Lemma set_value_arena s a name type data s' :
  set_value s a name type data = Some s' ->
  root_key s' = root_key s /\ arena_ext (heap s) (heap s').
Proof.
  intros (k&Hk&Hrun)%set_value_inv.
  destruct Hrun as [| | |i v s' _ _ _ _ Ht|index k' s' _ _ Hins Ht];
    try (split; [done|apply arena_ext_refl]).
  - apply touch_key_arena in Ht as [Hr He]. split; [done|].
    eapply arena_ext_trans; [|exact He]. simpl. by eapply arena_ext_insert.
  - apply touch_key_arena in Ht as [Hr He]. split; [done|].
    eapply arena_ext_trans; [|exact He]. simpl. eapply arena_ext_insert; [done|].
    unfold insert_value in Hins. destruct (_ <? _); [done|]. by injection Hins as <-.
Qed.

Lemma delete_value_arena s a name s' :
  delete_value s a name = Some s' -> root_key s' = root_key s /\ arena_ext (heap s) (heap s').
Proof.
  unfold delete_value.
  destruct (heap s !! a) as [k|] eqn:Hk; simpl; [|done].
  destruct (find_value k name) as [[i|index]|]; simpl; [| |done].
  2:{ intros [= <-]. split; [done|apply arena_ext_refl]. }
  destruct (touch_key _ _ _) as [s1|] eqn:Ht; simpl; [|done].
  destruct (heap s1 !! a) as [k1|] eqn:Hk1; simpl; [|done].
  intros [= <-]. simpl. apply touch_key_arena in Ht as [Hr He]. split; [done|].
  simpl in He. eapply arena_ext_trans; [|eapply arena_ext_trans; [exact He|]].
  - by eapply arena_ext_insert.
  - by eapply arena_ext_insert.
Qed.

Lemma delete_key_arena fuel s a recurse r s' :
  delete_key fuel s a recurse = Some (r, s') ->
  root_key s' = root_key s /\ arena_ext (heap s) (heap s').
Proof.
  revert s a recurse r s'. induction fuel as [|fuel IH]; intros s a recurse r s'; [done|].
  simpl. destruct (heap s !! a) as [k|] eqn:Hk; simpl; [|done].
  destruct (recurse && (0 <=? last_subkey k)).
  - destruct (array_get _ _) as [c|]; simpl; [|done].
    destruct (delete_key fuel s c true) as [[r1 s1]|] eqn:H1; simpl; [|done].
    apply IH in H1 as [Hr1 He1]. destruct (r1 <? 0).
    + by intros [= _ <-].
    + intros [Hr2 He2]%IH. split; [congruence|by eapply arena_ext_trans].
  - destruct (0 <=? last_subkey k); [intros [= _ <-]; split; [done|apply arena_ext_refl]|].
    destruct (free_subkey (heap s) a) as [h|] eqn:Hfree; simpl; [|done].
    apply free_subkey_arena in Hfree.
    destruct (k_parent k) as [p|].
    + destruct (touch_key _ _ _) as [s1|] eqn:Ht; simpl; [|done].
      intros [= _ <-]. apply touch_key_arena in Ht as [Hr He]. split; [done|].
      by eapply arena_ext_trans.
    + by intros [= _ <-].
Qed.

Lemma only_error_trans s1 s2 s3 : only_error s1 s2 -> only_error s2 s3 -> only_error s1 s3.
Proof. intros (?&?&?&?) (?&?&?&?). unfold only_error. repeat split; congruence. Qed.

Lemma only_error_set s e : only_error s (set_error s e).
Proof. done. Qed.

Lemma follow_symlink_error open s a attr r s' :
  error_only open -> follow_symlink open s a attr = Some (r, s') -> only_error s s'.
Proof.
  intros Hst. unfold follow_symlink.
  destruct (heap s !! a) as [k|]; simpl; [|done].
  destruct (find_value k symlink_value) as [[i|index]|]; simpl; [| |done].
  2:{ by intros [= _ <-]. }
  destruct (array_get _ _) as [v|]; simpl; [|done].
  destruct (take _ _) as [|c path]; [by apply Hst|].
  destruct (c =? backslash); by apply Hst.
Qed.

Lemma resolve_symlinks_error open fuel s found attr n r s' n' :
  error_only open ->
  resolve_symlinks open fuel s found attr n = Some (r, s', n') -> only_error s s'.
Proof.
  intros Hst. revert s found n. induction fuel as [|fuel IH]; intros s found n; [done|].
  simpl. destruct (heap s !! found) as [k|]; simpl; [|done].
  destruct (has_flag _ _); [|by intros [= _ <- _]].
  destruct (follow_symlink open s found attr) as [[t s1]|] eqn:Hf; simpl; [|done].
  apply follow_symlink_error in Hf; [|done].
  destruct t as [t|]; [|intros [= _ <- _]; done].
  destruct (16 <? n).
  { intros [= _ <- _]. eapply only_error_trans; [done|apply only_error_set]. }
  intros H%IH. by eapply only_error_trans.
Qed.

Lemma key_lookup_name_error open fuel s a name attr found rest s' :
  error_only open ->
  key_lookup_name open fuel s a name attr = Some (found, rest, s') -> only_error s s'.
Proof.
  intros Hst. unfold key_lookup_name. destruct name as [name|]; [|by intros [= _ _ <-]].
  destruct (heap s !! a) as [k|] eqn:Hk; simpl; [|done].
  destruct (_ =? 0); [by intros [= _ _ <-]|].
  destruct (_ <? _); [by intros [= _ _ <-]|].
  match goal with |- (?m ≫= _) = _ -> _ => destruct m as [[f|]|]; simpl; [| |done] end.
  2:{ destruct (_ <? _); by intros [= _ _ <-]. }
  match goal with |- (?m ≫= _) = _ -> _ => destruct m as [[[r s1] n]|] eqn:Hr; simpl; [|done] end.
  assert (only_error s s1) as Hs1.
  { destruct (negb _); [by eapply resolve_symlinks_error|by injection Hr as _ <- _]. }
  destruct r as [f1|]; [|by intros [= _ _ <-]].
  destruct (has_flag attr WINE_OBJ_WOW64); [|by intros [= _ _ <-]].
  destruct (find_wow64_subkey _ _ _) as [f2|]; simpl; [|done].
  destruct (heap s1 !! f2) as [k2|]; simpl; [|done].
  destruct (is_wow6432node _); [|by intros [= _ _ <-]].
  destruct (k_parent k2) as [p2|]; simpl; [|done].
  destruct (heap s1 !! p2) as [kp2|]; simpl; [|done].
  destruct (_ && _); by intros [= _ _ <-].
Qed.

Lemma lookup_named_object_error open fuel s a name attr obj rest s' :
  error_only open ->
  lookup_named_object open fuel s a name attr = Some (obj, rest, s') -> only_error s s'.
Proof.
  intros Hst. revert s a name. induction fuel as [|fuel IH]; intros s a name; [done|].
  cbn -[key_lookup_name].
  destruct (key_lookup_name _ _ _ _ _ _) as [[[found rest1] s1]|] eqn:Hk;
    cbn -[key_lookup_name]; [|done].
  apply key_lookup_name_error in Hk; [|done].
  destruct found as [c|].
  - intros H%IH. by eapply only_error_trans.
  - by intros [= _ _ <-].
Qed.

Lemma open_named_object_with_error open :
  error_only open -> error_only (open_named_object_with open).
Proof.
  intros Hst s root name attr r s'. unfold open_named_object_with.
  destruct (lookup_start s root name) as [e|[start path]]; [by intros [= _ <-]|].
  destruct (lookup_named_object _ _ _ _ _ _) as [[[obj left] s1]|] eqn:Hl; simpl; [|done].
  apply lookup_named_object_error in Hl; [|done].
  assert (only_error s s1) as H1.
  { eapply only_error_trans; [apply (only_error_set s STATUS_SUCCESS)|done]. }
  destruct (decide _); [|by intros [= _ <-]].
  destruct left; intros [= _ <-]; [done|].
  eapply only_error_trans; [done|apply only_error_set].
Qed.

Lemma no_resolver_error : error_only no_resolver.
Proof. by intros s root name attr r s' [= _ <-]. Qed.

Lemma open_link_target_error : error_only open_link_target.
Proof. apply open_named_object_with_error, no_resolver_error. Qed.

Lemma key_link_name_arena s c name parent s' :
  key_link_name s c name parent = Some s' ->
  root_key s' = root_key s /\ arena_ext (heap s) (heap s').
Proof.
  intros (kp&i&nb&s1&kc&Hkp&Ht&Hkc&->)%key_link_name_inv.
  apply touch_key_arena in Ht as [Hr He]. simpl in *. split; [done|].
  eapply arena_ext_trans; [|eapply arena_ext_trans; [exact He|]].
  - by eapply arena_ext_insert.
  - by eapply arena_ext_insert.
Qed.

Lemma create_key_arena s parent name class options access attributes r s' :
  create_key s parent name class options access attributes = Some (r, s') ->
  root_key s' = root_key s /\ arena_ext (heap s) (heap s').
Proof.
  unfold create_key.
  destruct (unicode_len name =? 0).
  { destruct parent; intros [= _ <-]; (split; [done|apply arena_ext_refl]). }
  destruct (create_named_object _ _ _ _) as [[key s1]|] eqn:Hc; simpl; [|done].
  assert (root_key s1 = root_key s /\ arena_ext (heap s) (heap s1)) as [Hr1 He1].
  { unfold create_named_object in Hc.
    destruct (lookup_start s parent name) as [e|[start path]].
    { injection Hc as _ <-. split; [done|apply arena_ext_refl]. }
    destruct (lookup_named_object _ _ _ _ _ _) as [[[obj name_left] s0]|] eqn:Hl;
      simpl in Hc; [|done].
    apply lookup_named_object_error in Hl as (E0&R0&_); [|apply open_link_target_error].
    simpl in E0, R0.
    destruct (decide _).
    2:{ injection Hc as _ <-. rewrite E0. split; [done|apply arena_ext_refl]. }
    destruct name_left as [|c0 nl].
    { destruct (has_flag _ _); injection Hc as _ <-; simpl; rewrite E0;
        (split; [done|apply arena_ext_refl]). }
    destruct (key_link_name _ _ _ _) as [s2|] eqn:Hlink; simpl in Hc; [|done].
    injection Hc as _ <-. apply key_link_name_arena in Hlink as [R2 E2]. simpl in *.
    split; [congruence|]. rewrite E0 in E2.
    eapply arena_ext_trans; [apply arena_ext_app|exact E2]. }
  destruct key as [c|]; [|by intros [= _ <-]].
  destruct (decide _) as [|Hne]; [by intros [= _ <-]|].
  destruct (heap s1 !! c) as [kc|] eqn:Hkc; simpl; [|done].
  set (kc' := mk_key _ _ _ _ _ _ _ _ _ _).
  assert (arena_ext (heap s) (<[c := kc']> (heap s1))) as He2.
  { eapply arena_ext_trans; [exact He1|]. by eapply arena_ext_insert. }
  match goal with |- (?m ≫= _) = _ -> _ => destruct m as [vp|]; simpl; [|done] end.
  destruct (vp && _).
  - destruct (free_subkey _ _) as [h5|] eqn:Hfree; simpl; [|done].
    intros [= _ <-]. simpl. split; [done|].
    eapply arena_ext_trans; [exact He2|]. by eapply free_subkey_arena.
  - by intros [= _ <-].
Qed.

Lemma step_arena s s' :
  step s s' -> root_key s' = root_key s /\ arena_ext (heap s) (heap s').
Proof.
  intros Hstep. destruct Hstep as [| | | | |w fuel s a path ret h' calls Hsave| |]; simpl.
  - by eapply create_key_arena.
  - by eapply delete_key_arena.
  - by eapply set_value_arena.
  - by eapply delete_value_arena.
  - unfold set_registry_notification in *. destruct (heap s !! a) as [k|] eqn:Hk; [|done].
    simplify_eq/=. split; [done|]. by eapply arena_ext_insert.
  - split; [done|].
    unfold save_branch in Hsave. destruct (heap s !! a) as [k|]; simpl in Hsave; [|done].
    destruct (negb _); [injection Hsave as _ <- _; apply arena_ext_refl|].
    revert Hsave.
    match goal with |- (?m ≫= _) = _ -> _ => destruct m as [[tmp t1]|]; simpl; [|done] end.
    destruct (if _ || _ then _ else _) as [r t2].
    destruct (r =? 0); simpl.
    + intros [= _ <- _]. apply arena_ext_refl.
    + destruct (make_clean _ _ _) as [h1|] eqn:Hmc; simpl; [|done].
      intros [= _ <- _]. apply make_clean_spec in Hmc as (F&_).
      eapply arena_ext_frame; [apply cleaned_name|done].
  - split; [done|]. by eapply arena_ext_insert.
  - split; [done|apply arena_ext_refl].
Qed.

(** In every state the engine reaches, the root key is the key at address
    0, named [REGISTRY]. *)
Lemma reachable_root s :
  reachable s -> root_key s = O /\ exists k, heap s !! O = Some k /\ k_name k = registryW.
Proof.
  induction 1 as [now|s s' _ [IH1 (k&Hk&Hn)] Hstep].
  - split; [done|]. by eexists.
  - apply step_arena in Hstep as [Hr He]. split; [congruence|].
    destruct (He O k Hk) as (k'&Hk'&Hn'). exists k'. split; [done|congruence].
Qed.

End Arena.


(** ** Deleting a key *)

Lemma free_subkey_linked h c kc p kp :
  links_ok h -> h !! c = Some kc -> k_parent kc = Some p -> h !! p = Some kp ->
  exists i, k_subkeys kp !! i = Some c /\
    free_subkey h c
    = Some (<[c := with_parent (with_flags kc (Z.lor (k_flags kc) KEY_DELETED)) None]>
              (<[p := with_subkeys kp (delete i (k_subkeys kp))
                        (shrink (k_nb_subkeys kp)
                           (Z.of_nat (length (delete i (k_subkeys kp))) - 1) MIN_SUBKEYS)]> h)).
Proof.
  intros Hln Hc Hp Hkp. pose proof (ln_listed _ Hln _ _ _ _ Hc Hp Hkp) as Hin.
  destruct (index_of_elem _ _ Hin) as [i Hi]. exists i.
  split; [by apply index_of_lookup|].
  unfold free_subkey. rewrite Hc. simpl. rewrite Hp, Hkp. simpl. by rewrite Hi.
Qed.

Lemma deleted_set f : has_flag (Z.lor f KEY_DELETED) KEY_DELETED = true.
Proof.
  change KEY_DELETED with (2 ^ 1). rewrite has_flag_bit by lia.
  rewrite Z.lor_spec. change (Z.testbit (2 ^ 1) 1) with true. by rewrite orb_true_r.
Qed.

Lemma deleted_set_dirty_set f :
  has_flag (Z.lor (Z.lor f KEY_DELETED) KEY_DIRTY) KEY_DELETED = true.
Proof.
  change KEY_DELETED with (2 ^ 1). rewrite has_flag_bit by lia.
  rewrite !Z.lor_spec. change (Z.testbit (2 ^ 1) 1) with true. by rewrite orb_true_r.
Qed.


(** ** Notifications *)

Lemma find_notify_Some l process hkey i :
  find_notify l process hkey = Some i ->
  exists n, l !! i = Some n /\ notify_id n = (process, hkey).
Proof.
  revert i. induction l as [|n l IH]; intros i; simpl; [done|].
  destruct (bool_decide (n_process n = process) && (n_hkey n =? hkey)) eqn:E.
  - intros [= <-]. exists n. split; [done|].
    apply andb_true_iff in E as [E1 E2]. apply bool_decide_eq_true in E1.
    apply Z.eqb_eq in E2. unfold notify_id. congruence.
  - destruct (find_notify l process hkey) as [j|]; simpl; [|done].
    intros [= <-]. by apply IH.
Qed.

Lemma find_notify_None l process hkey :
  find_notify l process hkey = None -> (process, hkey) ∉ map notify_id l.
Proof.
  induction l as [|n l IH]; simpl; [by intros _ ?%elem_of_nil|].
  destruct (bool_decide (n_process n = process) && (n_hkey n =? hkey)) eqn:E; [done|].
  destruct (find_notify l process hkey) as [j|]; simpl; [done|].
  intros _ [Hn|Hn]%elem_of_cons; [|by apply IH].
  unfold notify_id in Hn. injection Hn as Hp Hh. subst process hkey.
  rewrite bool_decide_eq_true_2, Z.eqb_refl in E by done. done.
Qed.

Lemma disarmed_id n n' : disarmed n n' -> notify_id n' = notify_id n.
Proof. by intros [->| ->]. Qed.

Lemma disarmed_ids l l' : Forall2 disarmed l l' -> map notify_id l' = map notify_id l.
Proof.
  induction 1 as [|n n' l l' Hn _ IH]; [done|]. simpl. by rewrite IH, (disarmed_id n n').
Qed.

Lemma alter_ids (l : list notify) i f :
  (forall n, notify_id (f n) = notify_id n) -> map notify_id (alter f i l) = map notify_id l.
Proof.
  intros Hf. revert i. induction l as [|n l IH]; intros [|i]; simpl; try done.
  - by rewrite Hf.
  - f_equal. apply IH.
Qed.

(** In every state the engine reaches, a key holds at most one
    notification for a handle of a process. *)
Lemma reachable_watch_ok `{cm : Casemap} s : reachable s -> keys_inv watch_ok (heap s).
Proof.
  apply reachable_keys.
  - intros. apply NoDup_nil_2.
  - done.
  - done.
  - done.
  - intros k l Hk Hl. unfold watch_ok in *. simpl. by rewrite (disarmed_ids _ _ Hl).
  - intros k event subtree filter hkey process Hk. unfold watch_ok in *. simpl.
    destruct (find_notify _ _ _) as [i|] eqn:Hf.
    + by rewrite alter_ids.
    + simpl. apply NoDup_cons. split; [|done]. by apply find_notify_None.
  - done.
  - intros k name index k' Hk _ Hins. unfold insert_value in Hins.
    destruct (_ <? _); [done|]. by injection Hins as <-.
  - done.
  - done.
  - done.
  - done.
Qed.


Lemma fire_matches change ns n :
  notify_matches change ns (fire change ns n) = true -> n_event (fire change ns n) = None.
Proof.
  unfold fire, do_notification. destruct (notify_matches change ns n) eqn:E.
  - destruct n as [[e|] st f h p]; done.
  - by rewrite E.
Qed.

Lemma no_elements {A} (l : list A) : (forall x, x ∉ l) -> l = [].
Proof. destruct l as [|x l]; [done|]. intros H. destruct (H x). by left. Qed.



(** ** The subkeys of a key stay sorted *)

Global Instance named_refl : Reflexive named.
Proof. by intros k. Qed.

Global Instance named_trans : Transitive named.
Proof. intros k1 k2 k3 [??] [??]. split; congruence. Qed.

Lemma touched_named k k' : touched k k' -> named k k'.
Proof. by intros (?&_&_&?&_). Qed.

Lemma cleaned_named k k' : cleaned k k' -> named k k'.
Proof. by intros [->| ->]. Qed.

Lemma subkey_names_child h k :
  (forall c, c ∈ k_subkeys k -> (c < length h)%nat) ->
  subkey_names h k = Some (child_names h k).
Proof.
  unfold subkey_names, child_names. induction (k_subkeys k) as [|c l IH]; intros Hl; [done|].
  simpl. destruct (lookup_lt_is_Some_2 h c) as [kc Hkc]; [apply Hl; by left|].
  rewrite Hkc. simpl. rewrite IH; [done|]. intros c' ?. apply Hl. by right.
Qed.

Lemma child_names_ext h h' k k' :
  k_subkeys k' = k_subkeys k ->
  (forall c, c ∈ k_subkeys k -> k_name <$> h' !! c = k_name <$> h !! c) ->
  child_names h' k' = child_names h k.
Proof.
  intros Hs Hn. unfold child_names. rewrite Hs. apply map_ext_in. intros c Hc.
  rewrite Hn; [done|]. by apply list_elem_of_In.
Qed.

Section SortedSubkeys.
Context `{cm : Casemap}.

Lemma subkeys_ok_frame h h' : Forall2 named h h' -> subkeys_ok h -> subkeys_ok h'.
Proof.
  intros F Hok a k' Hk'. destruct (Forall2_lookup_r _ _ _ _ _ F Hk') as (k&Hk&Hn&Hs).
  destruct (Hok a k Hk) as [Hlt Hsorted]. rewrite <- (Forall2_length _ _ _ F). split.
  - intros c. rewrite Hs. apply Hlt.
  - rewrite (child_names_ext h h' k k'); [done|done|].
    intros c Hc. destruct (lookup_lt_is_Some_2 h c (Hlt c Hc)) as [kc Hkc].
    destruct (Forall2_lookup_l _ _ _ _ _ F Hkc) as (kc'&Hkc'&Hn'&_).
    rewrite Hkc, Hkc'. simpl. by rewrite Hn'.
Qed.

Lemma subkeys_ok_update h a k k' :
  h !! a = Some k -> named k k' -> subkeys_ok h -> subkeys_ok (<[a := k']> h).
Proof. intros Hk Hn. apply subkeys_ok_frame. by eapply Forall2_update. Qed.

Lemma subkeys_ok_names h a k k' x kx :
  h !! a = Some k -> k_name k' = k_name k -> subkeys_ok h -> h !! x = Some kx ->
  (forall c, c ∈ k_subkeys kx -> (c < length (<[a := k']> h))%nat) /\
  child_names (<[a := k']> h) kx = child_names h kx.
Proof.
  intros Hk Hn Hok Hx. destruct (Hok x kx Hx) as [Hlt _]. rewrite length_insert.
  split; [done|]. apply child_names_ext; [done|]. intros c Hc.
  destruct (decide (c = a)) as [->|Hne].
  - rewrite list_lookup_insert_eq by (by eapply lookup_lt_Some). rewrite Hk. simpl. by rewrite Hn.
  - by rewrite list_lookup_insert_ne.
Qed.

(** Subkeys of a key are replaced by a list that is sorted. *)
Lemma subkeys_ok_relist h a k l nb :
  h !! a = Some k -> subkeys_ok h ->
  (forall c, c ∈ l -> (c < length h)%nat) ->
  names_sorted (map (fun c => default [] (k_name <$> h !! c)) l) ->
  subkeys_ok (<[a := with_subkeys k l nb]> h).
Proof.
  intros Hk Hok Hl Hs x kx Hx.
  assert (a < length h)%nat as Hlt by (by eapply lookup_lt_Some).
  destruct (decide (x = a)) as [->|Hne].
  - rewrite list_lookup_insert_eq in Hx by done. injection Hx as <-.
    rewrite length_insert. split; [done|].
    unfold child_names. simpl.
    replace (map _ l) with (map (fun c => default [] (k_name <$> h !! c)) l); [done|].
    apply map_ext_in. intros c Hc. destruct (decide (c = a)) as [->|Hca].
    + rewrite list_lookup_insert_eq by done. by rewrite Hk.
    + by rewrite list_lookup_insert_ne.
  - rewrite list_lookup_insert_ne in Hx by done.
    destruct (subkeys_ok_names h a k (with_subkeys k l nb) x kx Hk eq_refl Hok Hx) as [H1 H2].
    split; [done|]. rewrite H2. by apply (Hok x kx).
Qed.

Lemma subkeys_ok_reset h a k k' :
  h !! a = Some k -> k_name k' = k_name k -> k_subkeys k' = [] ->
  subkeys_ok h -> subkeys_ok (<[a := k']> h).
Proof.
  intros Hk Hn Hs Hok x kx Hx.
  assert (a < length h)%nat as Hlt by (by eapply lookup_lt_Some).
  destruct (decide (x = a)) as [->|Hne].
  - rewrite list_lookup_insert_eq in Hx by done. injection Hx as <-.
    unfold child_names. rewrite Hs. split; [by intros c ?%elem_of_nil|apply names_sorted_nil].
  - rewrite list_lookup_insert_ne in Hx by done.
    destruct (subkeys_ok_names h a k k' x kx Hk Hn Hok Hx) as [H1 H2].
    split; [done|]. rewrite H2. by apply (Hok x kx).
Qed.

Lemma subkeys_ok_snoc h k : k_subkeys k = [] -> subkeys_ok h -> subkeys_ok (h ++ [k]).
Proof.
  intros Hs Hok x kx [Hx|[_ ->]]%lookup_snoc.
  - destruct (Hok x kx Hx) as [Hlt Hsorted]. rewrite length_app. simpl. split.
    + intros c Hc. specialize (Hlt c Hc). lia.
    + rewrite (child_names_ext h (h ++ [k]) kx kx); [done|done|].
      intros c Hc. by rewrite lookup_app_l by (by apply Hlt).
  - unfold child_names. rewrite Hs. split; [by intros c ?%elem_of_nil|apply names_sorted_nil].
Qed.

Lemma find_subkey_index_miss h k name index :
  (forall c, c ∈ k_subkeys k -> (c < length h)%nat) -> names_sorted (child_names h k) ->
  find_subkey_index h k name = Some (NotFound index) ->
  0 <= index <= Z.of_nat (length (k_subkeys k)) /\
  (forall (j : nat) e, Z.of_nat j < index -> child_names h k !! j = Some e ->
     compare_name e name < 0) /\
  (forall (j : nat) e, index <= Z.of_nat j -> child_names h k !! j = Some e ->
     0 < compare_name e name).
Proof.
  intros Hlt Hs Hf. pose proof (find_subkey_index_bound _ _ _ _ Hf) as Hb.
  unfold find_subkey_index in Hf. rewrite (subkey_names_child h k Hlt) in Hf. simpl in Hf.
  apply name_search_not_found in Hf as (_&Hlo&Hhi); try done.
  - split; [done|]. split.
    + intros j e Hj He. apply (Hlo (Z.of_nat j)); [done|]. by rewrite array_get_of_nat.
    + intros j e Hj He. apply (Hhi (Z.of_nat j)); [done|]. by rewrite array_get_of_nat.
  - unfold last_subkey. lia.
  - intros j e Hj He. apply array_get_lt in He. lia.
  - intros j e Hj He. apply array_get_lt in He. unfold child_names in He.
    rewrite length_map in He. unfold last_subkey in Hj. lia.
Qed.

Lemma subkeys_ok_link h p kp c kc index nb :
  subkeys_ok h -> h !! p = Some kp -> h !! c = Some kc ->
  find_subkey_index h kp (k_name kc) = Some (NotFound index) ->
  subkeys_ok (<[p := with_subkeys kp
                  (take (Z.to_nat index) (k_subkeys kp) ++ c :: drop (Z.to_nat index) (k_subkeys kp))
                  nb]> h).
Proof.
  intros Hok Hp Hc Hf. destruct (Hok p kp Hp) as [Hlt Hs].
  destruct (find_subkey_index_miss _ _ _ _ Hlt Hs Hf) as (Hidx&Hlo&Hhi).
  apply subkeys_ok_relist; [done|done| |].
  - intros x [Hx|[->|Hx]%elem_of_cons]%elem_of_app.
    + apply Hlt. eapply elem_of_sublist; [exact Hx|apply sublist_take].
    + by eapply lookup_lt_Some.
    + apply Hlt. eapply elem_of_sublist; [exact Hx|apply sublist_drop].
  - rewrite fmap_app, fmap_cons, fmap_take, fmap_drop. rewrite Hc. simpl.
    apply names_sorted_insert.
    + done.
    + unfold child_names. rewrite length_map. lia.
    + intros j e Hj He. apply (Hlo j); [lia|done].
    + intros j e Hj He. apply (Hhi j); [lia|done].
Qed.

Lemma subkeys_ok_unlink h p kp i nb :
  subkeys_ok h -> h !! p = Some kp ->
  subkeys_ok (<[p := with_subkeys kp (delete i (k_subkeys kp)) nb]> h).
Proof.
  intros Hok Hp. destruct (Hok p kp Hp) as [Hlt Hs].
  apply subkeys_ok_relist; [done|done| |].
  - intros c Hc. apply Hlt. by eapply list_elem_of_delete_inv.
  - replace (map _ (delete i (k_subkeys kp))) with (delete i (child_names h kp)).
    + by apply names_sorted_delete.
    + unfold child_names. symmetry. apply list_fmap_delete.
Qed.

Lemma touch_key_subkeys s a change s' :
  subkeys_ok (heap s) -> touch_key s a change = Some s' -> subkeys_ok (heap s').
Proof.
  intros Hok (F&_)%touch_key_touched. eapply subkeys_ok_frame; [|done].
  eapply Forall2_impl; [exact F|]. apply touched_named.
Qed.

Lemma set_value_subkeys s a name type data s' :
  subkeys_ok (heap s) -> set_value s a name type data = Some s' -> subkeys_ok (heap s').
Proof.
  intros Hok (k&Hk&Hrun)%set_value_inv.
  destruct Hrun as [| | |i v s' _ _ _ _ Ht|index k' s' _ _ Hins Ht]; try done.
  - eapply touch_key_subkeys; [|exact Ht]. simpl. by eapply subkeys_ok_update.
  - eapply touch_key_subkeys; [|exact Ht]. simpl. eapply subkeys_ok_update; [done| |done].
    unfold insert_value in Hins. destruct (_ <? _); [done|]. by injection Hins as <-.
Qed.

Lemma delete_value_subkeys s a name s' :
  subkeys_ok (heap s) -> delete_value s a name = Some s' -> subkeys_ok (heap s').
Proof.
  intros Hok. unfold delete_value.
  destruct (heap s !! a) as [k|] eqn:Hk; simpl; [|done].
  destruct (find_value k name) as [[i|index]|]; simpl; [| |done].
  2:{ by intros [= <-]. }
  destruct (touch_key _ _ _) as [s1|] eqn:Ht; simpl; [|done].
  destruct (heap s1 !! a) as [k1|] eqn:Hk1; simpl; [|done].
  intros [= <-]. simpl. eapply subkeys_ok_update; [done|done|].
  eapply touch_key_subkeys; [|exact Ht]. simpl. by eapply subkeys_ok_update.
Qed.

Lemma free_subkey_subkeys h c h' :
  subkeys_ok h -> free_subkey h c = Some h' -> subkeys_ok h'.
Proof.
  intros Hok. unfold free_subkey.
  destruct (h !! c) as [kc|] eqn:Hc; simpl; [|done].
  destruct (k_parent kc) as [p|]; [|by intros [= <-]].
  destruct (h !! p) as [kp|] eqn:Hp; simpl; [|done].
  destruct (index_of c (k_subkeys kp)) as [i|] eqn:Hi; simpl; [|done].
  intros [= <-].
  assert (subkeys_ok (<[p := with_subkeys kp (delete i (k_subkeys kp))
             (shrink (k_nb_subkeys kp) (Z.of_nat (length (delete i (k_subkeys kp))) - 1)
                MIN_SUBKEYS)]> h)) as Hok1 by (by apply subkeys_ok_unlink).
  destruct (decide (c = p)) as [->|Hne].
  - rewrite list_insert_insert_eq. replace kc with kp by congruence.
    eapply subkeys_ok_update; [exact Hp|by split|exact Hok].
  - eapply subkeys_ok_update; [by rewrite list_lookup_insert_ne|by split|exact Hok1].
Qed.

Lemma delete_key_subkeys fuel s a recurse r s' :
  subkeys_ok (heap s) -> delete_key fuel s a recurse = Some (r, s') -> subkeys_ok (heap s').
Proof.
  revert s a recurse r s'. induction fuel as [|fuel IH]; intros s a recurse r s' Hok; [done|].
  simpl. destruct (heap s !! a) as [k|] eqn:Hk; simpl; [|done].
  destruct (recurse && (0 <=? last_subkey k)).
  - destruct (array_get _ _) as [c|]; simpl; [|done].
    destruct (delete_key fuel s c true) as [[r1 s1]|] eqn:H1; simpl; [|done].
    apply IH in H1; [|done]. destruct (r1 <? 0).
    + by intros [= _ <-].
    + by apply IH.
  - destruct (0 <=? last_subkey k); [by intros [= _ <-]|].
    destruct (free_subkey (heap s) a) as [h|] eqn:Hfree; simpl; [|done].
    apply free_subkey_subkeys in Hfree; [|done].
    destruct (k_parent k) as [p|].
    + destruct (touch_key _ _ _) as [s1|] eqn:Ht; simpl; [|done].
      intros [= _ <-]. by eapply touch_key_subkeys; [|exact Ht].
    + by intros [= _ <-].
Qed.

(** [key_link_name] keeps the subkeys sorted, for a key that is linked
    under its own name. *)
Lemma key_link_name_subkeys s c kc name parent s' :
  subkeys_ok (heap s) -> heap s !! c = Some kc -> k_name kc = name ->
  key_link_name s c name parent = Some s' -> subkeys_ok (heap s').
Proof.
  intros Hok Hc Hn (kp&index&s1&kc1&Hkp&Hfind&Ht&Hkc1&->)%key_link_name_find. simpl.
  eapply subkeys_ok_update; [done|done|].
  eapply touch_key_subkeys; [|exact Ht]. simpl.
  eapply subkeys_ok_link; [done|done|done|]. by rewrite Hn.
Qed.

(** [key_link_name] returns when no subkey of the parent has the name,
    which the code asserts. *)
Lemma key_link_name_total s c kc name parent kp :
  upward_ok (heap s) -> subkeys_ok (heap s) ->
  heap s !! c = Some kc -> heap s !! parent = Some kp ->
  (forall x kx, x ∈ k_subkeys kp -> heap s !! x = Some kx ->
     fold_name (k_name kx) <> fold_name name) ->
  is_Some (key_link_name s c name parent).
Proof.
  intros Hup Hok Hc Hkp Hnew. unfold key_link_name. rewrite Hkp. simpl.
  destruct (Hok parent kp Hkp) as [Hlt Hs].
  unfold find_subkey_index. rewrite (subkey_names_child _ _ Hlt). simpl.
  destruct (name_search_total (length (child_names (heap s) kp)) (child_names (heap s) kp)
              name 0 (last_subkey kp)) as [r Hr].
  { lia. }
  { unfold child_names, last_subkey. rewrite length_map. lia. }
  { unfold child_names, last_subkey. rewrite length_map. lia. }
  rewrite Hr. simpl. destruct r as [i|index].
  { exfalso. apply name_search_found in Hr as (Hi&e&He&Hcmp).
    apply array_get_Some in He as [Hi0 He].
    unfold child_names in He. rewrite list_lookup_fmap in He.
    destruct (k_subkeys kp !! Z.to_nat i) as [x|] eqn:Hx; [|done]. simpl in He.
    destruct (lookup_lt_is_Some_2 (heap s) x) as [kx Hkx].
    { apply Hlt. by eapply list_elem_of_lookup_2. }
    rewrite Hkx in He. simpl in He. injection He as <-.
    apply (Hnew x kx); [by eapply list_elem_of_lookup_2|done|].
    by apply compare_name_eq_iff. }
  match goal with |- is_Some (touch_key ?s1 _ _ ≫= _) =>
    destruct (touch_key_total s1 parent REG_NOTIFY_CHANGE_NAME) as [s2 Ht] end.
  { simpl. eapply upward_ok_same_up; [|exact Hup].
    eapply Forall2_update; [done|]. unfold same_up, volatile, dirty. simpl. tauto. }
  { simpl. rewrite length_insert. by eapply lookup_lt_Some. }
  rewrite Ht. simpl.
  destruct (touch_key_touched _ _ _ _ Ht) as (F&_). simpl in F.
  destruct (lookup_lt_is_Some_2 (heap s2) c) as [kc2 Hkc2].
  { rewrite <- (Forall2_length _ _ _ F), length_insert. by eapply lookup_lt_Some. }
  rewrite Hkc2. done.
Qed.

Lemma create_key_subkeys s parent name class options access attributes r s' :
  subkeys_ok (heap s) ->
  create_key s parent name class options access attributes = Some (r, s') ->
  subkeys_ok (heap s').
Proof.
  intros Hok. unfold create_key.
  destruct (unicode_len name =? 0).
  { destruct parent; by intros [= _ <-]. }
  destruct (create_named_object _ _ _ _) as [[key s1]|] eqn:Hc; simpl; [|done].
  assert (subkeys_ok (heap s1)) as Hok1.
  { unfold create_named_object in Hc.
    destruct (lookup_start s parent name) as [e|[start path]]; [by injection Hc as _ <-|].
    destruct (lookup_named_object _ _ _ _ _ _) as [[[obj name_left] s0]|] eqn:Hl;
      simpl in Hc; [|done].
    apply lookup_named_object_heap in Hl as [E0 Hobj]; [|apply open_link_target_stable].
    simpl in E0, Hobj.
    destruct (decide _); [|injection Hc as _ <-; by rewrite E0].
    destruct name_left as [|c0 nl].
    { destruct (has_flag _ _); injection Hc as _ <-; simpl; by rewrite E0. }
    destruct (key_link_name _ _ _ _) as [s2|] eqn:Hlink; simpl in Hc; [|done].
    injection Hc as _ <-.
    eapply (key_link_name_subkeys _ _ (blank_key (c0 :: nl))); [| | |exact Hlink].
    - simpl. rewrite E0. by apply subkeys_ok_snoc.
    - simpl. by apply list_lookup_middle.
    - done. }
  destruct key as [c|]; [|by intros [= _ <-]].
  destruct (decide _) as [|Hne]; [by intros [= _ <-]|].
  destruct (heap s1 !! c) as [kc|] eqn:Hkc; simpl; [|done].
  set (kc' := mk_key _ _ _ _ _ _ _ _ _ _).
  assert (subkeys_ok (<[c := kc']> (heap s1))) as Hok4 by (by eapply subkeys_ok_reset).
  match goal with |- (?m ≫= _) = _ -> _ => destruct m as [vp|]; simpl; [|done] end.
  destruct (vp && _).
  - destruct (free_subkey _ _) as [h5|] eqn:Hfree; simpl; [|done].
    intros [= _ <-]. simpl. by eapply free_subkey_subkeys.
  - by intros [= _ <-].
Qed.

Lemma step_subkeys s s' : subkeys_ok (heap s) -> step s s' -> subkeys_ok (heap s').
Proof.
  intros Hok Hstep. destruct Hstep as [| | | | |w fuel s a path ret h' calls Hsave| |]; simpl.
  - by eapply create_key_subkeys.
  - by eapply delete_key_subkeys.
  - by eapply set_value_subkeys.
  - by eapply delete_value_subkeys.
  - unfold set_registry_notification in *. destruct (heap s !! a) as [k|] eqn:Hk; [|done].
    simplify_eq/=. by eapply subkeys_ok_update.
  - unfold save_branch in Hsave. destruct (heap s !! a) as [k|]; simpl in Hsave; [|done].
    destruct (negb _); [by injection Hsave as _ <- _|].
    revert Hsave.
    match goal with |- (?m ≫= _) = _ -> _ => destruct m as [[tmp t1]|]; simpl; [|done] end.
    destruct (if _ || _ then _ else _) as [r t2].
    destruct (r =? 0); simpl.
    + by intros [= _ <- _].
    + destruct (make_clean _ _ _) as [h1|] eqn:Hmc; simpl; [|done].
      intros [= _ <- _]. apply make_clean_spec in Hmc as (F&_).
      eapply subkeys_ok_frame; [|done]. eapply Forall2_impl; [exact F|]. apply cleaned_named.
  - by eapply subkeys_ok_update.
  - done.
Qed.

(** In every state the engine reaches, the subkeys of every key are
    sorted by name. *)
Lemma reachable_subkeys_ok s : reachable s -> subkeys_ok (heap s).
Proof.
  induction 1 as [now|s s' _ IH Hstep]; [|by eapply step_subkeys].
  intros [|a] k; [|done]. intros [= <-]. split; [by intros c ?%elem_of_nil|].
  apply names_sorted_nil.
Qed.

End SortedSubkeys.


Section FindSubkey.
Context `{cm : Casemap}.

Lemma child_names_lookup h k (j : nat) c kc :
  k_subkeys k !! j = Some c -> h !! c = Some kc -> child_names h k !! j = Some (k_name kc).
Proof. intros Hj Hc. unfold child_names. by rewrite list_lookup_fmap, Hj; simpl; rewrite Hc. Qed.

Lemma find_subkey_found h k name (j : nat) c kc :
  (forall c, c ∈ k_subkeys k -> (c < length h)%nat) -> names_sorted (child_names h k) ->
  k_subkeys k !! j = Some c -> h !! c = Some kc -> compare_name (k_name kc) name = 0 ->
  find_subkey h k name = Some (Some c).
Proof.
  intros Hlt Hs Hj Hc Hcmp. unfold find_subkey, find_subkey_index.
  rewrite (subkey_names_child h k Hlt). simpl.
  pose proof (lookup_lt_Some _ _ _ Hj) as Hlen.
  rewrite (name_search_complete _ _ name 0 (last_subkey k) j (k_name kc)); try done.
  - simpl. by rewrite array_get_of_nat, Hj.
  - by eapply child_names_lookup.
  - unfold last_subkey. lia.
  - unfold child_names, last_subkey. rewrite length_map. lia.
  - unfold child_names, last_subkey. rewrite length_map. lia.
Qed.

Lemma find_subkey_result h k name :
  (forall c, c ∈ k_subkeys k -> (c < length h)%nat) ->
  exists r, find_subkey h k name = Some r /\
    forall c, r = Some c ->
      exists (j : nat) kc, k_subkeys k !! j = Some c /\ h !! c = Some kc /\
                           compare_name (k_name kc) name = 0.
Proof.
  intros Hlt. unfold find_subkey, find_subkey_index.
  rewrite (subkey_names_child h k Hlt). simpl.
  destruct (name_search_total (length (child_names h k)) (child_names h k) name 0
              (last_subkey k)) as [r Hr].
  - lia.
  - unfold child_names, last_subkey. rewrite length_map. lia.
  - unfold child_names, last_subkey. rewrite length_map. lia.
  - rewrite Hr. simpl. destruct r as [i|index]; [|by exists None].
    apply name_search_found in Hr as (Hi&e&He&Hcmp).
    apply array_get_Some in He as [Hi0 He].
    unfold child_names in He. rewrite list_lookup_fmap in He.
    destruct (k_subkeys k !! Z.to_nat i) as [c|] eqn:Hc; [|done]. simpl in He.
    injection He as <-.
    assert (array_get (k_subkeys k) i = Some c) as -> by (by apply array_get_Some).
    simpl. exists (Some c). split; [done|]. intros c' [= <-].
    destruct (lookup_lt_is_Some_2 h c) as [kc Hkc].
    { apply Hlt. by eapply list_elem_of_lookup_2. }
    exists (Z.to_nat i), kc. rewrite Hkc in Hcmp. done.
Qed.

Lemma sibling_unique h k (i j : nat) ci cj ki kj :
  names_sorted (child_names h k) ->
  k_subkeys k !! i = Some ci -> k_subkeys k !! j = Some cj ->
  h !! ci = Some ki -> h !! cj = Some kj ->
  compare_name (k_name ki) (k_name kj) = 0 -> i = j.
Proof.
  intros Hs Hi Hj Hki Hkj Hc.
  eapply (sorted_unique (child_names h k)); [done| | |done]; by eapply child_names_lookup.
Qed.

End FindSubkey.


(** ** Saving: what is left behind *)

Lemma create_temp_opened w fuel path count r t tmp :
  create_temp w fuel path count = Some (r, t) ->
  sys_open_excl tmp ∈ t -> os_open_excl w tmp = Opened -> r = Some tmp.
Proof.
  revert count r t. induction fuel as [|fuel IH]; intros count r t; [done|]. simpl.
  destruct (os_open_excl w (tmp_name (os_getpid w) path count)) eqn:E.
  - intros [= <- <-] [= ->]%list_elem_of_singleton _. done.
  - destruct (create_temp w fuel path (count + 1)) as [[r1 t1]|] eqn:Hc; simpl; [|done].
    intros [= <- <-] Hin Ho. apply elem_of_cons in Hin as [[= ->]|Hin]; [congruence|].
    apply elem_of_cons in Hin as [?|Hin]; [done|]. by eapply IH.
  - intros [= <- <-] [= ->]%list_elem_of_singleton Ho. congruence.
Qed.

Lemma write_branch_temp w path tmp ret t :
  write_branch w path (Some tmp) = (ret, t) ->
  (ret = 1 /\ sys_rename tmp path ∈ t) \/ (ret = 0 /\ sys_unlink tmp ∈ t).
Proof.
  unfold write_branch. destruct (os_fdopen w); simpl.
  - destruct (os_fclose w); simpl.
    + destruct (os_rename w); intros [= <- <-]; [left|right]; (split; [done|]);
        repeat (try (by left); right).
    + intros [= <- <-]. right. split; [done|]. repeat (try (by left); right).
  - intros [= <- <-]. right. split; [done|]. repeat (try (by left); right).
Qed.

Lemma write_branch_plain w path ret t tmp :
  write_branch w path None = (ret, t) -> sys_open_excl tmp ∉ t.
Proof.
  unfold write_branch. destruct (os_fdopen w); simpl; intros [= <- <-] Hin;
    repeat (apply elem_of_cons in Hin as [?|Hin]; [done|]); by apply elem_of_nil in Hin.
Qed.


Lemma save_branch_clean w fuel h a k path :
  h !! a = Some k -> has_flag (k_flags k) KEY_DIRTY = false ->
  save_branch w fuel h a path = Some (1, h, []).
Proof. intros Hk Hd. unfold save_branch. rewrite Hk. simpl. by rewrite Hd. Qed.


Lemma unicode_len_nil (l : list Z) : unicode_len l = 0 <-> l = [].
Proof.
  unfold unicode_len, sizeof_WCHAR. destruct l; simpl; [done|]. split; [lia|done].
Qed.

Lemma unicode_len_ltb (l1 l2 : list Z) :
  (unicode_len l1 <? unicode_len l2) = (length l1 <? length l2)%nat.
Proof.
  unfold unicode_len, sizeof_WCHAR.
  destruct (Nat.ltb_spec (length l1) (length l2)); [apply Z.ltb_lt|apply Z.ltb_ge]; lia.
Qed.

Lemma name_too_long (l : list Z) :
  (MAX_NAME_LEN * sizeof_WCHAR <? unicode_len l) = (MAX_NAME_LEN <? Z.of_nat (length l)).
Proof.
  unfold unicode_len, sizeof_WCHAR.
  destruct (Z.ltb_spec MAX_NAME_LEN (Z.of_nat (length l))); [apply Z.ltb_lt|apply Z.ltb_ge]; lia.
Qed.


(** ** Access masks *)

Lemma land_lor_keep x c : Z.land (Z.lor x c) c = c.
Proof.
  apply Z.bits_inj'. intros n _. rewrite Z.land_spec, Z.lor_spec.
  by destruct (Z.testbit x n), (Z.testbit c n).
Qed.

Lemma land_lor_more x c d : Z.land x c = c -> Z.land (Z.lor x d) c = c.
Proof.
  intros H. apply Z.bits_inj'. intros n _.
  apply (f_equal (fun z => Z.testbit z n)) in H. revert H.
  rewrite !Z.land_spec, Z.lor_spec.
  by destruct (Z.testbit x n), (Z.testbit c n), (Z.testbit d n).
Qed.

Lemma has_flag_lor x c m : has_flag x m = true -> has_flag (Z.lor x c) m = true.
Proof.
  unfold has_flag. rewrite !negb_true_iff, !Z.eqb_neq, Z.land_lor_distr_l.
  intros H [H1 _]%Z.lor_eq_0_iff. done.
Qed.

Lemma has_flag_part x m g :
  has_flag x m = false -> Z.land m g = g -> has_flag x g = false.
Proof.
  unfold has_flag. rewrite !negb_false_iff, !Z.eqb_eq. intros H <-.
  by rewrite Z.land_assoc, H.
Qed.

Lemma has_flag_masked x m g : Z.land m g = 0 -> has_flag (Z.land x m) g = false.
Proof.
  intros H. unfold has_flag. by rewrite <- Z.land_assoc, H, Z.land_0_r.
Qed.

Lemma land_masked x m c : Z.land m c = c -> Z.land (Z.land x m) c = Z.land x c.
Proof. intros H. by rewrite <- Z.land_assoc, H. Qed.


(** ** The data of a request *)

Lemma wchars_of_bytes_of_wchars name :
  Forall (fun c => 0 <= c < 65536) name -> wchars_of_bytes (bytes_of_wchars name) = name.
Proof.
  induction 1 as [|c name Hc _ IH]; [done|]. simpl. rewrite IH. f_equal. lia.
Qed.

Lemma request_name name pad data :
  (length pad <= 1)%nat ->
  take (Z.to_nat (Z.quot (unicode_len name + Z.of_nat (length pad)) sizeof_WCHAR
                  * sizeof_WCHAR))
       (bytes_of_wchars name ++ pad ++ data)
  = bytes_of_wchars name.
Proof.
  intros Hpad. pose proof (length_bytes_of_wchars name) as Hlen.
  unfold unicode_len, sizeof_WCHAR in *.
  rewrite Z.quot_div_nonneg by lia.
  replace (Z.to_nat ((2 * Z.of_nat (length name) + Z.of_nat (length pad)) / 2 * 2))
    with (length (bytes_of_wchars name)) by lia.
  by rewrite take_app_length.
Qed.

Lemma request_data name pad data :
  drop (Z.to_nat (unicode_len name + Z.of_nat (length pad)))
       (bytes_of_wchars name ++ pad ++ data)
  = data.
Proof.
  pose proof (length_bytes_of_wchars name) as Hlen.
  rewrite app_assoc.
  replace (Z.to_nat (unicode_len name + Z.of_nat (length pad)))
    with (length (bytes_of_wchars name ++ pad)) by (rewrite length_app; lia).
  by rewrite drop_app_length.
Qed.


(** ** The elements of a path *)

Lemma first_element_split name :
  name = first_element name ++ drop (length (first_element name)) name.
Proof.
  induction name as [|c name IH]; [done|]. simpl.
  destruct (c =? backslash); [done|]. simpl. by rewrite <- IH.
Qed.

Lemma skip_backslashes_split name :
  exists skipped, name = skipped ++ skip_backslashes name /\
    Forall (fun c => c = backslash) skipped /\
    head (skip_backslashes name) <> Some backslash.
Proof.
  induction name as [|c name (skipped&Hn&Hs&Hh)]; [by exists []|]. simpl.
  destruct (Z.eqb_spec c backslash) as [->|Hc].
  - exists (backslash :: skipped). split; [by rewrite Hn at 1|]. split; [by constructor|done].
  - exists []. split; [done|]. split; [done|]. simpl. congruence.
Qed.


(** ** The path of a key *)

Lemma bytes_of_wchars_app a b :
  bytes_of_wchars (a ++ b) = bytes_of_wchars a ++ bytes_of_wchars b.
Proof. unfold bytes_of_wchars. induction a as [|c a IH]; simpl; [done|]. by rewrite IH. Qed.

Lemma unicode_len_app a b : unicode_len (a ++ b) = unicode_len a + unicode_len b.
Proof. unfold unicode_len. rewrite length_app. lia. Qed.

Lemma path_namelen_path fuel h root a path :
  upward_ok h -> key_path h root a path -> (a < fuel)%nat ->
  path_namelen fuel h root (Some a) = Some (unicode_len path).
Proof.
  intros Hup Hpath. revert fuel.
  induction Hpath as [|a k p path Ha Hk Hp _ IH]; intros fuel Hfuel.
  - destruct fuel as [|fuel]; [lia|]. simpl. by rewrite decide_True.
  - destruct fuel as [|fuel]; [lia|]. simpl. rewrite decide_False, Hk by done. simpl.
    rewrite Hp, IH. 2:{ pose proof (up_below h Hup a k p Hk Hp). lia. }
    simpl. f_equal. rewrite unicode_len_app. unfold unicode_len, sizeof_WCHAR. simpl length.
    lia.
Qed.

(** A [memcpy] of [src] to its place in [W], cut at the end of the
    buffer, on a buffer that agrees with [W] behind that place. *)
Lemma memcpy_at_agree data pos src (len : nat) W pre post :
  W = pre ++ src ++ post -> 0 <= pos -> Z.to_nat pos = length pre ->
  length data = len -> pos <= Z.of_nat len ->
  (forall i, (length pre + length src <= i < len)%nat -> data !! i = W !! i) ->
  let data' := memcpy_at data pos src
                 (Z.min (Z.of_nat (length src)) (Z.of_nat len - pos)) in
  length data' = len /\
  forall i, (length pre <= i < len)%nat -> data' !! i = W !! i.
Proof.
  intros -> Hpos Hpre Hlen Hle Hagree data'. subst data'. unfold memcpy_at.
  set (m := Z.to_nat (Z.min (Z.of_nat (length src)) (Z.of_nat len - pos))).
  replace (Z.to_nat (pos + Z.min (Z.of_nat (length src)) (Z.of_nat len - pos)))
    with (length pre + m)%nat by lia.
  rewrite Hpre.
  assert (m <= length src)%nat as Hm1 by lia.
  assert (length pre + m <= len)%nat as Hm2 by lia.
  split.
  - rewrite !length_app, !length_take, length_drop. lia.
  - intros i Hi.
    rewrite lookup_app_r by (rewrite length_take; lia).
    rewrite length_take, Nat.min_l by lia.
    rewrite (lookup_app_r pre) by lia.
    destruct (decide (i - length pre < m)%nat) as [Hin|Hout].
    + rewrite lookup_app_l by (rewrite length_take; lia).
      rewrite lookup_take_lt by lia. by rewrite lookup_app_l by lia.
    + rewrite lookup_app_r by (rewrite length_take; lia).
      rewrite length_take, Nat.min_l by lia. rewrite lookup_drop.
      replace (length pre + m + (i - length pre - m))%nat with i by lia.
      rewrite Hagree by lia. by rewrite (lookup_app_r pre) by lia.
Qed.


Lemma copy_step data pos src n (len : nat) W pre post :
  W = pre ++ src ++ post -> 0 <= pos -> Z.to_nat pos = length pre ->
  n = Z.of_nat (length src) -> length data = len ->
  (forall i, (length pre + length src <= i < len)%nat -> data !! i = W !! i) ->
  let data' := if pos <? Z.of_nat len
               then memcpy_at data pos src (Z.min n (Z.of_nat len - pos))
               else data in
  length data' = len /\
  forall i, (length pre <= i < len)%nat -> data' !! i = W !! i.
Proof.
  intros HW Hpos Hpre -> Hlen Hagree data'. subst data'.
  destruct (Z.ltb_spec pos (Z.of_nat len)).
  - apply (memcpy_at_agree data pos src len W pre post); try done. lia.
  - split; [done|]. intros i Hi. lia.
Qed.

Lemma copy_path_agree h root W (len : nat) a path :
  upward_ok h -> key_path h root a path ->
  forall fuel data post,
    (a < fuel)%nat -> W = bytes_of_wchars (root_name ++ path) ++ post ->
    length data = len ->
    (forall i, (length (bytes_of_wchars (root_name ++ path)) <= i < len)%nat ->
       data !! i = W !! i) ->
    exists data',
      copy_path fuel h root (Some a) (unicode_len root_name + unicode_len path)
        (Z.of_nat len) data = Some data' /\
      length data' = len /\
      forall i, (length (bytes_of_wchars root_name) <= i < len)%nat -> data' !! i = W !! i.
Proof.
  intros Hup Hpath.
  induction Hpath as [|a k p path Ha Hk Hp _ IH]; intros fuel data post Hfuel HW Hlen Hagree.
  - destruct fuel as [|fuel]; [lia|]. simpl. rewrite decide_True by done.
    exists data. split; [done|]. split; [done|]. intros i Hi. apply Hagree.
    by rewrite app_nil_r.
  - destruct fuel as [|fuel]; [lia|]. simpl. rewrite decide_False, Hk by done. simpl.
    rewrite Hp.
    pose proof (length_bytes_of_wchars (root_name ++ path)) as Hl0.
    pose proof (length_bytes_of_wchars (k_name k)) as Hl1.
    pose proof (length_bytes_of_wchars [backslash]) as Hl2.
    rewrite unicode_len_app in Hl0.
    assert (W = (bytes_of_wchars (root_name ++ path) ++ bytes_of_wchars [backslash])
                ++ bytes_of_wchars (k_name k) ++ post) as HW1.
    { rewrite HW. rewrite (app_assoc root_name), !bytes_of_wchars_app.
      change (backslash :: k_name k) with ([backslash] ++ k_name k).
      by rewrite bytes_of_wchars_app, <- !app_assoc. }
    assert (W = bytes_of_wchars (root_name ++ path)
                ++ bytes_of_wchars [backslash] ++ (bytes_of_wchars (k_name k) ++ post))
      as HW2 by (by rewrite HW1, <- !app_assoc).
    assert (unicode_len (path ++ backslash :: k_name k)
            = unicode_len path + sizeof_WCHAR + unicode_len (k_name k)) as Hul.
    { rewrite unicode_len_app. unfold unicode_len, sizeof_WCHAR. simpl length. lia. }
    assert (unicode_len [backslash] = sizeof_WCHAR) as Hb by done.
    rewrite Hul.
    set (pos1 := unicode_len root_name + (unicode_len path + sizeof_WCHAR
                   + unicode_len (k_name k)) - unicode_len (k_name k)).
    assert (0 <= unicode_len root_name /\ 0 <= unicode_len path
            /\ 0 <= unicode_len (k_name k)) as (?&?&?)
      by (unfold unicode_len, sizeof_WCHAR; lia).
    destruct (copy_step data pos1 (bytes_of_wchars (k_name k)) (unicode_len (k_name k)) len W
                (bytes_of_wchars (root_name ++ path) ++ bytes_of_wchars [backslash]) post)
      as [Hlen1 Hagree1]; try done.
    { unfold pos1, sizeof_WCHAR. lia. }
    { rewrite length_app. unfold pos1, sizeof_WCHAR in *. lia. }
    { intros i Hi. apply Hagree.
      rewrite (app_assoc root_name), bytes_of_wchars_app.
      change (backslash :: k_name k) with ([backslash] ++ k_name k).
      rewrite !bytes_of_wchars_app, !length_app in *. lia. }
    match type of Hlen1 with length ?d = _ =>
      destruct (copy_step d (pos1 - sizeof_WCHAR) (bytes_of_wchars [backslash]) sizeof_WCHAR
                  len W (bytes_of_wchars (root_name ++ path))
                  (bytes_of_wchars (k_name k) ++ post))
        as [Hlen2 Hagree2]; try done
    end.
    { unfold pos1, sizeof_WCHAR. lia. }
    { unfold pos1, sizeof_WCHAR in *. lia. }
    { intros i Hi. apply Hagree1. rewrite length_app. lia. }
    assert (pos1 - sizeof_WCHAR = unicode_len root_name + unicode_len path) as E
      by (unfold pos1; lia).
    rewrite E in *.
    eapply (IH fuel _ (bytes_of_wchars [backslash] ++ bytes_of_wchars (k_name k) ++ post)).
    + pose proof (up_below h Hup a k p Hk Hp). lia.
    + done.
    + exact Hlen2.
    + exact Hagree2.
Qed.


(** ** Deleting a subtree *)

Lemma dirty_set_deleted f : has_flag (Z.lor f KEY_DIRTY) KEY_DELETED = has_flag f KEY_DELETED.
Proof.
  change KEY_DELETED with (2 ^ 1). rewrite !has_flag_bit by lia.
  rewrite Z.lor_spec. change (Z.testbit KEY_DIRTY 1) with false. apply orb_false_r.
Qed.

Lemma touched_deleted k k' :
  touched k k' -> has_flag (k_flags k') KEY_DELETED = has_flag (k_flags k) KEY_DELETED.
Proof. intros (_&_&_&_&_&_&_&[-> | ->]); [done|apply dirty_set_deleted]. Qed.

Lemma count_linked_app l1 l2 :
  count_linked (l1 ++ l2) = (count_linked l1 + count_linked l2)%nat.
Proof. induction l1 as [|k l1 IH]; simpl; [done|]. rewrite IH. lia. Qed.

Lemma count_linked_mono l l' :
  Forall2 (fun k k' => k_parent k' = k_parent k \/ k_parent k' = None) l l' ->
  (count_linked l' <= count_linked l)%nat.
Proof.
  induction 1 as [|k k' l l' [E|E] _ IH]; simpl; [done| |]; rewrite E; [lia|].
  destruct (k_parent k); lia.
Qed.

Lemma count_linked_strict l l' i k k' :
  Forall2 (fun k k' => k_parent k' = k_parent k \/ k_parent k' = None) l l' ->
  l !! i = Some k -> l' !! i = Some k' -> is_Some (k_parent k) -> k_parent k' = None ->
  (count_linked l' < count_linked l)%nat.
Proof.
  intros F. revert i. induction F as [|k0 k0' l l' R F IH]; intros i Hi Hi' [p Hp] Hn; [done|].
  destruct i as [|i]; simpl in *.
  - injection Hi as ->. injection Hi' as ->. rewrite Hp, Hn.
    pose proof (count_linked_mono _ _ F). lia.
  - pose proof (IH i Hi Hi' (ex_intro _ p Hp) Hn).
    destruct R as [E|E]; rewrite E; [lia|]. destruct (k_parent k0); lia.
Qed.

Lemma count_linked_below h a c kc :
  (a < c)%nat -> h !! c = Some kc -> is_Some (k_parent kc) ->
  (count_linked (drop (S c) h) < count_linked (drop (S a) h))%nat.
Proof.
  intros Hac Hc [p Hp].
  rewrite <- (take_drop (c - S a) (drop (S a) h)), count_linked_app, drop_drop.
  replace (S a + (c - S a))%nat with c by lia.
  rewrite (drop_S _ _ _ Hc). simpl. rewrite Hp. lia.
Qed.

Lemma ancestor_trans h a c x : ancestor h c x -> ancestor h a c -> ancestor h a x.
Proof.
  induction 1 as [x kx p Hx Hp|x kx p c Hx Hp _ IH]; intros Hac.
  - by eapply ancestor_further.
  - eapply ancestor_further; [done|done|]. by apply IH.
Qed.

(** The first step of a way up. *)
Lemma ancestor_first h a x kx p :
  ancestor h a x -> h !! x = Some kx -> k_parent kx = Some p -> a = p \/ ancestor h a p.
Proof.
  intros H Hx Hp. inversion H as [? kx' p' Hx' Hp'|? kx' p' ? Hx' Hp' Hup]; subst.
  - left. congruence.
  - right. congruence.
Qed.

Lemma ancestor_linked h a x : ancestor h a x -> exists kx p, h !! x = Some kx /\ k_parent kx = Some p.
Proof. intros H. inversion H; eauto. Qed.

Lemma leaf_no_descendant h a k x :
  links_ok h -> h !! a = Some k -> k_subkeys k = [] -> ~ ancestor h a x.
Proof.
  intros Hln Ha Hleaf. induction 1 as [x kx p Hx Hp|x kx p a Hx Hp _ IH]; [|by apply IH].
  pose proof (ln_listed _ Hln _ _ _ _ Hx Hp Ha) as Hin. rewrite Hleaf in Hin.
  by apply elem_of_nil in Hin.
Qed.

(** A way up that uses links that another arena has is a way up there. *)
Lemma ancestor_links h h' a x :
  (forall y ky p, h !! y = Some ky -> k_parent ky = Some p ->
     exists ky', h' !! y = Some ky' /\ k_parent ky' = Some p) ->
  ancestor h a x -> ancestor h' a x.
Proof.
  intros Hlinks. induction 1 as [x kx p Hx Hp|x kx p a Hx Hp _ IH];
    destruct (Hlinks _ _ _ Hx Hp) as (kx'&Hx'&Hp').
  - by eapply ancestor_parent.
  - by eapply ancestor_further.
Qed.


Lemma ancestor_up h a (Q : ptr -> Prop) :
  (forall x kx, h !! x = Some kx -> k_parent kx = Some a -> Q x) ->
  (forall x kx p, h !! x = Some kx -> k_parent kx = Some p -> ancestor h a p -> Q p -> Q x) ->
  forall x, ancestor h a x -> Q x.
Proof.
  intros H1 H2 x H. revert H1 H2.
  induction H as [x kx p Hx Hp|x kx p a Hx Hp Hup IH]; intros H1 H2.
  - by eapply H1.
  - eapply H2; [done|done|done|]. by apply IH.
Qed.

Section DeleteSubtree.
Context `{cm : Casemap}.

Lemma delete_key_leaf_deleted fuel s a k p recurse :
  heap_ok (heap s) -> heap s !! a = Some k -> k_parent k = Some p -> k_subkeys k = [] ->
  exists s', delete_key (S fuel) s a recurse = Some (0, s') /\
    last_error s' = last_error s /\ subtree_deleted (heap s) a (heap s').
Proof.
  intros Hok Hk Hp Hsub. pose proof Hok as [[Hup Hln] Hds].
  assert (p < a)%nat as Hpa by (by eapply up_below).
  assert (a < length (heap s))%nat as Hla by (by eapply lookup_lt_Some).
  destruct (lookup_lt_is_Some_2 (heap s) p) as [kp Hkp]; [lia|].
  simpl. rewrite Hk. simpl. unfold last_subkey. rewrite Hsub. simpl. rewrite andb_false_r.
  destruct (free_subkey_linked _ _ _ _ _ Hln Hk Hp Hkp) as (i&Hi&Hfree).
  rewrite Hfree. simpl. rewrite Hp.
  set (h1 := <[a := _]> (<[p := _]> (heap s))) in *.
  assert (heap_ok h1) as Hok1.
  { eapply free_subkey_ok; [exact Hok| |exact Hfree]. intros kc. rewrite Hk. by intros [= <-]. }
  destruct (touch_key_total (with_heap s h1) p REG_NOTIFY_CHANGE_NAME) as [s1 Ht].
  { apply Hok1. }
  { simpl. unfold h1. rewrite !length_insert. lia. }
  rewrite Ht. simpl. exists s1. split; [done|].
  destruct (touch_key_touched _ _ _ _ Ht) as (F&_&He&_). simpl in F, He.
  split; [done|]. split.
  { rewrite <- (Forall2_length _ _ _ F). unfold h1. by rewrite !length_insert. }
  assert (h1 !! a = Some (with_parent (with_flags k (Z.lor (k_flags k) KEY_DELETED)) None))
    as Ha1.
  { unfold h1. apply list_lookup_insert_eq. rewrite length_insert. lia. }
  assert (h1 !! p = Some (with_subkeys kp (delete i (k_subkeys kp))
                       (shrink (k_nb_subkeys kp)
                          (Z.of_nat (length (delete i (k_subkeys kp))) - 1) MIN_SUBKEYS)))
    as Hp1.
  { unfold h1. rewrite list_lookup_insert_ne by lia. apply list_lookup_insert_eq. lia. }
  intros x kx Hx. destruct (decide (x = a)) as [->|Hxa]; [|destruct (decide (x = p)) as [->|Hxp]].
  - rewrite Hk in Hx. injection Hx as <-.
    destruct (Forall2_lookup_l _ _ _ _ _ F Ha1) as (ka'&Hka'&Hra).
    pose proof (touched_deleted _ _ Hra) as Hdel.
    destruct Hra as (Hn&_&Hpa'&_). simpl in *.
    exists ka'. split; [done|]. split; [done|]. split; [by right|]. split.
    + intros _. split; [|done]. rewrite Hdel. apply deleted_set.
    + intros Hnot. destruct Hnot. by left.
  - rewrite Hkp in Hx. injection Hx as <-.
    destruct (Forall2_lookup_l _ _ _ _ _ F Hp1) as (kp'&Hkp'&Hrp).
    pose proof (touched_deleted _ _ Hrp) as Hdel.
    destruct Hrp as (Hn&_&Hpp&Hsp&_&Hvp&_). simpl in *.
    exists kp'. split; [done|]. split; [done|]. split; [by left|]. split.
    + intros [?|Hanc]; [done|]. pose proof (ancestor_below _ _ _ Hup Hanc). lia.
    + intros _. split; [done|]. split; [done|]. split; [done|].
      intros c. rewrite Hsp. apply elem_of_delete_nodup; [by eapply ln_nodup|done].
  - assert (h1 !! x = Some kx) as Hx1 by (unfold h1; by rewrite !list_lookup_insert_ne).
    destruct (Forall2_lookup_l _ _ _ _ _ F Hx1) as (kx'&Hkx'&Hrx).
    pose proof (touched_deleted _ _ Hrx) as Hdel.
    destruct Hrx as (Hn&_&Hpx&Hsx&_&Hvx&_).
    exists kx'. split; [done|]. split; [done|]. split; [by left|]. split.
    + intros [?|Hanc]; [done|]. by destruct (leaf_no_descendant _ _ _ x Hln Hk Hsub).
    + intros _. split; [done|]. split; [done|]. split; [done|].
      intros c. rewrite Hsx. split; [|by intros [? _]]. intros Hc. split; [done|].
      intros ->. destruct (ln_child _ Hln _ _ _ Hx Hc) as (ka&Hka&Hpar). congruence.
Qed.

Lemma subtree_deleted_step h a k c h1 h2 :
  upward_ok h -> links_ok h -> h !! a = Some k -> c ∈ k_subkeys k ->
  subtree_deleted h c h1 -> subtree_deleted h1 a h2 -> subtree_deleted h a h2.
Proof.
  intros Hup Hln Ha Hc [Hl1 P1] [Hl2 P2].
  destruct (ln_child _ Hln _ _ _ Ha Hc) as (kc&Hkc&Hpc).
  assert (a < c)%nat as Hlt by (by eapply up_below).
  assert (ancestor h a c) as Hac by (by eapply ancestor_parent).
  assert (~ within h c a) as Hnota.
  { intros [?|H']; [lia|]. pose proof (ancestor_below _ _ _ Hup H'). lia. }
  assert (forall x, within h c x -> ancestor h a x) as Hsub.
  { intros x [->|H]; [done|by eapply ancestor_trans]. }
  assert (forall x kx p', h !! x = Some kx -> k_parent kx = Some p' -> x <> c ->
            ~ within h c p' -> ~ within h c x) as Hnotc.
  { intros x kx p' Hx Hp' Hne Hnot [?|Hanc]; [done|].
    destruct (ancestor_first _ _ _ _ _ Hanc Hx Hp') as [->|H']; apply Hnot; [by left|by right]. }
  assert (forall x, ancestor h a x ->
            exists kx1, h1 !! x = Some kx1 /\
              ((within h c x /\ has_flag (k_flags kx1) KEY_DELETED = true /\
                k_parent kx1 = None) \/
               (~ within h c x /\ ancestor h1 a x))) as Hcase.
  { apply ancestor_up.
    - intros x kx Hx Hpx. destruct (P1 x kx Hx) as (kx1&Hx1&_&_&Hin1&Hout1).
      exists kx1. split; [done|]. destruct (decide (x = c)) as [->|Hne].
      + left. split; [by left|]. apply Hin1. by left.
      + right. assert (~ within h c x) as Hnot by (by eapply Hnotc).
        split; [done|]. destruct (Hout1 Hnot) as (Hp1&_).
        eapply ancestor_parent; [done|congruence].
    - intros x kx p' Hx Hpx Hanc (kp1&Hkp1&Hq).
      destruct (P1 x kx Hx) as (kx1&Hx1&_&_&Hin1&Hout1).
      exists kx1. split; [done|]. destruct Hq as [(Hw&_)|(Hnw&Hanc1)].
      + assert (within h c x) as Hwx.
        { right. destruct Hw as [->|Hw]; [by eapply ancestor_parent|by eapply ancestor_further]. }
        left. split; [done|]. by apply Hin1.
      + destruct (decide (x = c)) as [->|Hne].
        * left. split; [by left|]. apply Hin1. by left.
        * right. assert (~ within h c x) as Hnot by (by eapply Hnotc).
          split; [done|]. destruct (Hout1 Hnot) as (Hp1&_).
          eapply ancestor_further; [done| |done]. congruence. }
  split; [congruence|]. intros x kx Hx.
  destruct (P1 x kx Hx) as (kx1&Hx1&Hn1&Hd1&Hin1&Hout1).
  destruct (P2 x kx1 Hx1) as (kx2&Hx2&Hn2&Hd2&Hin2&Hout2).
  exists kx2. split; [done|]. split; [congruence|]. split.
  { destruct Hd2 as [E|E]; rewrite E; [done|by right]. }
  split.
  - intros [->|Hanc]; [apply Hin2; by left|].
    destruct (Hcase x Hanc) as (kx1'&Hx1'&[(_&Hdel&Hnone)|(_&Hanc1)]).
    + rewrite Hx1 in Hx1'. injection Hx1' as <-.
      assert (~ within h1 a x) as Hnot.
      { intros [->|H']; [pose proof (ancestor_below _ _ _ Hup Hanc); lia|].
        destruct (ancestor_linked _ _ _ H') as (?&?&?&?). congruence. }
      destruct (Hout2 Hnot) as (Hp2&_&Hf2&_). split; congruence.
    + apply Hin2. by right.
  - intros Hnot.
    assert (~ within h c x) as Hnc by (intros Hw; apply Hnot; right; by apply Hsub).
    destruct (Hout1 Hnc) as (Hp1&Hv1&Hf1&Hs1).
    assert (~ within h1 a x) as Hn1'.
    { intros [->|H']; [apply Hnot; by left|]. apply Hnot. right.
      eapply ancestor_links; [|exact H']. intros y ky1 p' Hy1 Hpy1.
      destruct (lookup_lt_is_Some_2 h y) as [ky Hy];
        [rewrite <- Hl1; by eapply lookup_lt_Some|].
      destruct (P1 y ky Hy) as (ky1'&Hy1'&_&Hd&_).
      exists ky. split; [done|]. destruct Hd; congruence. }
    destruct (Hout2 Hn1') as (Hp2&Hv2&Hf2&Hs2).
    split; [congruence|]. split; [congruence|]. split; [congruence|].
    intros c'. rewrite Hs2, Hs1. split; [tauto|]. intros [Hin Hne].
    split; [|done]. split; [done|]. intros ->.
    destruct (ln_child _ Hln _ _ _ Hx Hin) as (kc'&Hkc'&Hpc').
    apply Hnot. left. congruence.
Qed.

Lemma delete_key_subtree_deleted fuel :
  forall s a k p,
    heap_ok (heap s) -> heap s !! a = Some k -> k_parent k = Some p ->
    (2 * count_linked (drop (S a) (heap s)) + 1 <= fuel)%nat ->
    exists s', delete_key fuel s a true = Some (0, s') /\
      last_error s' = last_error s /\ subtree_deleted (heap s) a (heap s').
Proof.
  induction fuel as [|fuel IH]; intros s a k p Hok Hk Hp Hfuel; [lia|].
  destruct (k_subkeys k) as [|c0 l] eqn:Hsub; [by eapply delete_key_leaf_deleted|].
  assert (exists c, array_get (k_subkeys k) (last_subkey k) = Some c /\ c ∈ k_subkeys k)
    as (c&Hget&Hc).
  { unfold array_get, last_subkey. rewrite Hsub. simpl length.
    destruct (Z.ltb_spec (Z.of_nat (S (length l)) - 1) 0); [lia|].
    replace (Z.to_nat (Z.of_nat (S (length l)) - 1)) with (length l) by lia.
    destruct (lookup_lt_is_Some_2 (c0 :: l) (length l)) as [c Hc]; [simpl; lia|].
    exists c. split; [done|]. by eapply list_elem_of_lookup_2. }
  pose proof Hok as [[Hup Hln] Hds].
  destruct (ln_child _ Hln _ _ _ Hk Hc) as (kc&Hkc&Hpc).
  assert (a < c)%nat as Hlt by (by eapply up_below).
  pose proof (count_linked_below (heap s) a c kc Hlt Hkc (ex_intro _ a Hpc)) as Hless.
  destruct (IH s c kc a Hok Hkc Hpc) as (s1&Hd1&He1&P1); [lia|].
  assert (heap_ok (heap s1)) as Hok1 by (eapply delete_key_ok; [exact Hok|exact Hd1]).
  pose proof P1 as [Hl1 P1'].
  destruct (P1' a k Hk) as (k1&Hk1&_&_&_&Hout).
  destruct Hout as (Hp1&_).
  { intros [?|H']; [lia|]. pose proof (ancestor_below _ _ _ Hup H'). lia. }
  destruct (P1' c kc Hkc) as (kc1&Hkc1&_&_&Hin&_).
  destruct Hin as (_&Hnone); [by left|].
  assert (count_linked (drop (S a) (heap s1)) < count_linked (drop (S a) (heap s)))%nat
    as Hmeasure.
  { eapply (count_linked_strict _ _ (c - S a) kc kc1).
    - apply Forall2_drop. apply Forall2_same_length_lookup_2; [done|].
      intros i x y Hx Hy. destruct (P1' i x Hx) as (y'&Hy'&_&Hd&_). congruence.
    - rewrite lookup_drop. by replace (S a + (c - S a))%nat with c by lia.
    - rewrite lookup_drop. by replace (S a + (c - S a))%nat with c by lia.
    - eauto.
    - done. }
  destruct (IH s1 a k1 p Hok1 Hk1) as (s2&Hd2&He2&P2); [congruence|lia|].
  exists s2. split.
  { simpl. rewrite Hk. simpl.
    assert ((0 <=? last_subkey k) = true) as ->.
    { apply Z.leb_le. unfold last_subkey. rewrite Hsub. simpl length. lia. }
    rewrite Hget. simpl. rewrite Hd1. simpl. exact Hd2. }
  split; [congruence|]. by eapply subtree_deleted_step.
Qed.

End DeleteSubtree.


Lemma count_linked_length l : (count_linked l <= length l)%nat.
Proof. induction l as [|k l IH]; simpl; [done|]. destruct (k_parent k); lia. Qed.


(** ** The tokens of a path *)

Lemma first_element_app e rest :
  Forall (fun c => c <> backslash) e -> rest = [] \/ head rest = Some backslash ->
  first_element (e ++ rest) = e.
Proof.
  intros He Hrest. induction He as [|c e Hc _ IH]; simpl.
  - destruct Hrest as [->|Hh]; [done|]. destruct rest as [|c rest]; [done|].
    injection Hh as ->. reflexivity.
  - destruct (Z.eqb_spec c backslash); [done|]. by rewrite IH.
Qed.

Lemma skip_backslashes_replicate k l :
  head l <> Some backslash -> skip_backslashes (replicate k backslash ++ l) = l.
Proof.
  intros Hl. induction k as [|k IH]; simpl.
  - destruct l as [|c l]; [done|]. simpl. destruct (Z.eqb_spec c backslash) as [->|]; [|done].
    by destruct Hl.
  - exact IH.
Qed.

(** ** A value of length 0 *)

Section EmptyValues.
Context `{cm : Casemap}.

(** A value of length 0 holds a null pointer and fails the test for an
    identical value: [set_value] with its name, its type and no bytes is
    refused on a link key that does not take the value, and else stores
    what is stored already and touches the key. *)
Lemma set_value_empty_again s a k name type (j : nat) v :
  heap s !! a = Some k -> values_sorted k -> k_values k !! j = Some v ->
  compare_name (kv_name v) name = 0 ->
  kv_type v = to_uint type -> kv_len v = 0 -> kv_data v = None ->
  set_value s a name type []
  = if has_flag (k_flags k) KEY_SYMLINK && not_link_value name type
    then Some (set_error s STATUS_ACCESS_DENIED)
    else touch_key s a REG_NOTIFY_CHANGE_LAST_SET.
Proof.
  intros Hk Hs Hj Hc Ht Hl Hd. unfold set_value. rewrite Hk. simpl.
  rewrite (find_value_present k name j v Hs Hj Hc). simpl.
  rewrite array_get_of_nat, Hj. simpl.
  assert (same_value v type [] = false) as ->.
  { unfold same_value. rewrite Hd. apply andb_false_r. }
  destruct (has_flag (k_flags k) KEY_SYMLINK && not_link_value name type); [done|].
  rewrite Nat2Z.id. change (Z.of_nat 0) with 0.
  assert (alter (fun v0 => store_value v0 type 0 None) j (k_values k) = k_values k) as ->.
  { apply list_eq. intros i. destruct (decide (i = j)) as [->|Hne].
    - rewrite list_lookup_alter_eq, Hj. simpl. f_equal.
      destruct v as [n t l d]. simpl in *. unfold store_value. simpl. congruence.
    - by rewrite list_lookup_alter_ne. }
  assert (with_values k (k_values k) (k_nb_values k) = k) as -> by (by destruct k).
  rewrite list_insert_id by done. by destruct s.
Qed.

(** What the touch of such a call does: it stamps the key, marks it
    dirty unless it is volatile, and signals the events armed on the key
    for a change of a value, and no other. *)
Lemma touch_key_last_set s a k :
  upward_ok (heap s) -> heap s !! a = Some k ->
  exists s' ka' evs, touch_key s a REG_NOTIFY_CHANGE_LAST_SET = Some s' /\
    last_error s' = last_error s /\
    heap s' !! a = Some ka' /\ k_values ka' = k_values k /\
    k_modif ka' = current_time s /\ (dirty ka' \/ volatile ka') /\
    signaled s' = signaled s ++ evs /\
    forall e, e ∈ evs <->
      armed_on (heap s) a
        (fun n => Z.land REG_NOTIFY_CHANGE_LAST_SET (n_filter n) <> 0) e.
Proof.
  intros Hup Hk.
  destruct (touch_key_total s a REG_NOTIFY_CHANGE_LAST_SET Hup) as [s' Ht];
    [by eapply lookup_lt_Some|].
  destruct (touch_key_touched _ _ _ _ Ht) as (F&_&He&_).
  destruct (touch_key_kept _ _ _ _ Ht a k Hk) as (ka'&Hka'&Hm&_).
  destruct (touch_key_marks _ _ _ _ Ht) as (ka2&Hka2&Hmark).
  destruct (touch_key_events _ _ _ _ Hup Ht) as (_&evs&Hsig&Hevs).
  destruct (Forall2_lookup_l _ _ _ _ _ F Hk) as (ka3&Hka3&Hrel).
  replace ka2 with ka' in * by congruence. replace ka3 with ka' in * by congruence.
  exists s', ka', evs. split; [done|]. split; [done|]. split; [done|].
  split; [by destruct Hrel as (_&_&_&_&_&?&_)|].
  split; [by rewrite Hm, decide_True|]. split; [done|]. split; [done|].
  intros e. rewrite Hevs, fired_at_here. split; [|by left].
  intros [?|(x&_&kx&n&_&_&Hz&_)]; [done|].
  unfold notify_matches in Hz. change (Z.land REG_NOTIFY_CHANGE_LAST_SET
    (Z.lnot REG_NOTIFY_CHANGE_LAST_SET)) with 0 in Hz. simpl in Hz.
  by rewrite andb_false_r in Hz.
Qed.

End EmptyValues.

(** ** The loop over symbolic links *)

Section LinkChains.
Context `{cm : Casemap}.

(** From 18 units on the fuel of the loop makes no difference: the loop
    never takes more than 18 turns, whatever the links form. *)
Lemma resolve_symlinks_fuel open fuel fuel' s found attr n :
  0 <= n <= 17 -> 18 - n <= Z.of_nat fuel -> (fuel <= fuel')%nat ->
  resolve_symlinks open fuel' s found attr n = resolve_symlinks open fuel s found attr n.
Proof.
  revert fuel' s found n. induction fuel as [|fuel IH]; intros fuel' s found n Hn Hf Hle; [lia|].
  destruct fuel' as [|fuel']; [lia|]. simpl.
  destruct (heap s !! found) as [k|]; simpl; [|done].
  destruct (has_flag _ _); [|done].
  destruct (follow_symlink open s found attr) as [[t s1]|]; simpl; [|done].
  destruct t as [t|]; [|done]. destruct (Z.ltb_spec 16 n); [done|]. apply IH; lia.
Qed.

Lemma key_lookup_name_fuel open fuel s a name attr :
  (18 <= fuel)%nat ->
  key_lookup_name open fuel s a name attr = key_lookup_name open link_fuel s a name attr.
Proof.
  intros Hf. unfold key_lookup_name. destruct name as [name|]; [|done].
  destruct (heap s !! a) as [k|]; simpl; [|done].
  destruct (_ =? 0); [done|]. destruct (_ <? _); [done|].
  match goal with |- (?m ≫= _) = _ => destruct m as [[f|]|]; simpl; [|done|done] end.
  destruct (negb _); [|done].
  by rewrite (resolve_symlinks_fuel open link_fuel fuel) by (unfold link_fuel; lia).
Qed.

(** A chain that ends within 17 links is followed to its end. *)
Lemma resolve_symlinks_ends open attr (m : nat) :
  forall fuel s a n t sm s',
    follow_links open attr m s a = Some (t, sm) -> link_ends open attr sm t s' ->
    0 <= n -> n + Z.of_nat m <= 17 -> (m < fuel)%nat ->
    resolve_symlinks open fuel s a attr n = Some (Some t, s', n + Z.of_nat m).
Proof.
  induction m as [|m IH]; intros fuel s a n t sm s' Hfl Hend Hn Hm Hfuel;
    (destruct fuel as [|fuel]; [lia|]); simpl in Hfl |- *.
  - injection Hfl as <- <-. destruct Hend as (k&Hk&Hend). rewrite Hk. simpl.
    rewrite Z.add_0_r. destruct (has_flag _ _); [by rewrite Hend|by subst].
  - destruct (heap s !! a) as [k|]; simpl in Hfl |- *; [|done].
    destruct (has_flag _ _); [|done].
    destruct (follow_symlink open s a attr) as [[[t1|] s1]|]; simpl in Hfl |- *; [|done|done].
    destruct (Z.ltb_spec 16 n); [lia|].
    rewrite (IH fuel s1 t1 (n + 1) t sm s' Hfl Hend) by lia. do 2 f_equal. lia.
Qed.

(** A chain of more links is given up when its 18th link resolved. *)
Lemma resolve_symlinks_aborts open attr (j : nat) :
  forall fuel s a n t s18,
    follow_links open attr (S j) s a = Some (t, s18) ->
    0 <= n -> n + Z.of_nat j = 17 -> (j < fuel)%nat ->
    resolve_symlinks open fuel s a attr n
    = Some (None, set_error s18 STATUS_NAME_TOO_LONG, 17).
Proof.
  induction j as [|j IH]; intros fuel s a n t s18 Hfl Hn Hj Hfuel;
    (destruct fuel as [|fuel]; [lia|]); simpl in Hfl |- *.
  - destruct (heap s !! a) as [k|]; simpl in Hfl |- *; [|done].
    destruct (has_flag _ _); [|done].
    destruct (follow_symlink open s a attr) as [[[t1|] s1]|]; simpl in Hfl |- *; [|done|done].
    injection Hfl as <- <-. destruct (Z.ltb_spec 16 n); [|lia]. do 3 f_equal. lia.
  - destruct (heap s !! a) as [k|]; simpl in Hfl |- *; [|done].
    destruct (has_flag _ _); [|done].
    destruct (follow_symlink open s a attr) as [[[t1|] s1]|]; simpl in Hfl |- *; [|done|done].
    destruct (Z.ltb_spec 16 n); [lia|].
    apply (IH fuel s1 t1 (n + 1) t s18); [exact Hfl|lia|lia|lia].
Qed.

(** What a result of the loop means. *)
Lemma resolve_symlinks_follows open attr fuel :
  forall s a n r s' n',
    resolve_symlinks open fuel s a attr n = Some (r, s', n') -> 0 <= n <= 17 ->
    match r with
    | Some t => exists (m : nat) sm, n' = n + Z.of_nat m /\ n' <= 17 /\
                  follow_links open attr m s a = Some (t, sm) /\ link_ends open attr sm t s'
    | None => exists t s18, follow_links open attr (Z.to_nat (18 - n)) s a = Some (t, s18) /\
                s' = set_error s18 STATUS_NAME_TOO_LONG /\ n' = 17
    end.
Proof.
  induction fuel as [|fuel IH]; intros s a n r s' n'; [done|]. simpl.
  destruct (heap s !! a) as [k|] eqn:Hk; simpl; [|done].
  destruct (has_flag (k_flags k) KEY_SYMLINK) eqn:Hl.
  2:{ intros [= <- <- <-] Hn. exists O, s. split; [lia|]. split; [lia|]. split; [done|].
      exists k. by rewrite Hl. }
  destruct (follow_symlink open s a attr) as [[[t1|] s1]|] eqn:Hf; simpl; [| |done].
  2:{ intros [= <- <- <-] Hn. exists O, s. split; [lia|]. split; [lia|]. split; [done|].
      exists k. by rewrite Hl. }
  destruct (Z.ltb_spec 16 n).
  - intros [= <- <- <-] Hn. exists t1, s1. split; [|split; [done|lia]].
    replace (Z.to_nat (18 - n)) with 1%nat by lia. simpl. rewrite Hk. simpl.
    by rewrite Hl, Hf.
  - intros Hr Hn. apply IH in Hr; [|lia]. destruct r as [t|].
    + destruct Hr as (m&sm&->&Hle&Hfl&Hend). exists (S m), sm.
      split; [lia|]. split; [done|]. split; [|done]. simpl. rewrite Hk. simpl.
      by rewrite Hl, Hf.
    + destruct Hr as (t&s18&Hfl&->&->). exists t, s18. split; [|done].
      replace (Z.to_nat (18 - n)) with (S (Z.to_nat (18 - (n + 1)))) by lia.
      simpl. rewrite Hk. simpl. by rewrite Hl, Hf.
Qed.

(** Following links in two stretches. *)
Lemma follow_links_add open attr (n m : nat) s a :
  follow_links open attr (n + m) s a
  = '(t, s1) ← follow_links open attr n s a; follow_links open attr m s1 t.
Proof.
  revert s a. induction n as [|n IH]; intros s a; simpl; [done|].
  destruct (heap s !! a) as [k|]; simpl; [|done].
  destruct (has_flag _ _); [|done].
  destruct (follow_symlink open s a attr) as [[[t1|] s1]|]; simpl; [|done|done].
  apply IH.
Qed.

Lemma follow_links_shorter open attr (n m : nat) s a :
  (n <= m)%nat -> is_Some (follow_links open attr m s a) ->
  is_Some (follow_links open attr n s a).
Proof.
  intros Hle. replace m with (n + (m - n))%nat by lia. rewrite follow_links_add.
  destruct (follow_links open attr n s a); [done|]. by intros [? [=]].
Qed.

End LinkChains.

Section LinkTargets.
Context `{cm : Casemap}.

Lemma set_error_only_error s1 s2 e : only_error s1 s2 -> set_error s2 e = set_error s1 e.
Proof. destruct s1, s2. unfold only_error. simpl. by intros (->&->&->&->). Qed.

(** [open_named_object] starts by clearing the error: what the error was
    makes no difference. *)
Lemma open_named_object_with_only_error open s1 s2 root name attr :
  only_error s1 s2 ->
  open_named_object_with open s2 root name attr = open_named_object_with open s1 root name attr.
Proof.
  intros H. unfold open_named_object_with.
  assert (lookup_start s2 root name = lookup_start s1 root name) as ->.
  { unfold lookup_start. destruct H as (_&->&_). done. }
  destruct (lookup_start s1 root name) as [e|[start path]];
    by rewrite (set_error_only_error s1 s2).
Qed.

Lemma follow_symlink_only_error open s1 s2 a attr r s1' :
  only_error s1 s2 ->
  follow_symlink (open_named_object_with open) s1 a attr = Some (r, s1') ->
  exists s2', follow_symlink (open_named_object_with open) s2 a attr = Some (r, s2') /\
    only_error s1' s2'.
Proof.
  intros H. unfold follow_symlink. destruct H as (Hh&Hrest). rewrite Hh.
  assert (only_error s1 s2) as H by done.
  destruct (heap s1 !! a) as [k|]; simpl; [|done].
  destruct (find_value k symlink_value) as [[i|index]|]; simpl; [| |done].
  2:{ intros [= <- <-]. by exists s2. }
  destruct (array_get _ _) as [v|]; simpl; [|done].
  rewrite !(open_named_object_with_only_error open s1 s2) by done.
  intros Hf. exists s1'. split; [|done].
  destruct (take _ _) as [|c path]; [done|]. by destruct (c =? backslash).
Qed.

Lemma follow_links_only_error open attr (n : nat) :
  forall s1 s2 a t s1',
    only_error s1 s2 ->
    follow_links (open_named_object_with open) attr n s1 a = Some (t, s1') ->
    exists s2', follow_links (open_named_object_with open) attr n s2 a = Some (t, s2') /\
      only_error s1' s2'.
Proof.
  induction n as [|n IH]; intros s1 s2 a t s1' H; simpl.
  { intros [= <- <-]. by exists s2. }
  pose proof H as (Hh&_). rewrite Hh.
  destruct (heap s1 !! a) as [k|]; simpl; [|done].
  destruct (has_flag _ _); [|done].
  destruct (follow_symlink _ s1 a attr) as [[r s3]|] eqn:Hf; simpl; [|done].
  destruct (follow_symlink_only_error _ _ _ _ _ _ _ H Hf) as (s4&->&H34). simpl.
  destruct r as [t1|]; simpl; [|done]. by apply IH.
Qed.

Lemma follow_links_error open attr (n : nat) :
  error_only open ->
  forall s a t s', follow_links open attr n s a = Some (t, s') -> only_error s s'.
Proof.
  intros Hopen. induction n as [|n IH]; intros s a t s'; simpl.
  { by intros [= _ <-]. }
  destruct (heap s !! a) as [k|]; simpl; [|done].
  destruct (has_flag _ _); [|done].
  destruct (follow_symlink open s a attr) as [[r s1]|] eqn:Hf; simpl; [|done].
  apply follow_symlink_error in Hf; [|done].
  destruct r as [t1|]; simpl; [|done]. intros H%IH. by eapply only_error_trans.
Qed.

(** Links that lead back to where they started can be followed for ever. *)
Lemma follow_links_cycle open attr (n : nat) s a sn :
  error_only open -> (0 < n)%nat ->
  follow_links (open_named_object_with open) attr n s a = Some (a, sn) ->
  forall m : nat, is_Some (follow_links (open_named_object_with open) attr m s a).
Proof.
  intros Hopen Hn Hcycle.
  assert (forall j : nat, exists sj,
            follow_links (open_named_object_with open) attr (j * n) s a = Some (a, sj)) as Hj.
  { induction j as [|j (sj&IH)]; [by exists s|].
    pose proof (follow_links_error _ attr n (open_named_object_with_error open Hopen)
                  _ _ _ _ Hcycle) as Hs.
    destruct (follow_links_only_error open attr (j * n) s sn a a sj Hs IH) as (sj'&Hfl&_).
    exists sj'. simpl. rewrite follow_links_add, Hcycle. done. }
  intros m. destruct (Hj m) as (sm&Hm).
  apply (follow_links_shorter _ attr m (m * n)); [nia|by rewrite Hm].
Qed.

(** The attributes a link is opened with. *)
Lemma link_attributes attr :
  let attr' := Z.land (Z.lor attr OBJ_OPENLINK) (Z.lnot WINE_OBJ_WOW64) in
  has_flag attr' OBJ_OPENLINK = true /\ has_flag attr' WINE_OBJ_WOW64 = false.
Proof.
  intros attr'. unfold attr'.
  change OBJ_OPENLINK with (2 ^ 8). change WINE_OBJ_WOW64 with (2 ^ 31).
  rewrite !has_flag_bit by lia. rewrite !Z.land_spec, !Z.lor_spec, !Z.lnot_spec by lia.
  rewrite !Z.pow2_bits_eqb by lia.
  change (8 =? 8) with true. change (31 =? 8) with false. change (31 =? 31) with true.
  change (8 =? 31) with false. simpl negb.
  split; [by rewrite orb_true_r|by rewrite andb_false_r].
Qed.

Lemma lookup_ok_only_error s s' : only_error s s' -> lookup_ok s -> lookup_ok s'.
Proof. intros (Hh&Hr&_) H. unfold lookup_ok. rewrite Hh, Hr. exact H. Qed.

(** Without the WoW64 attribute a step of a lookup returns on a
    well-formed engine when the loop over the links does; the key it finds
    is a key of the arena, and the name that is left is shorter. *)
Lemma key_lookup_name_returns open fuel s a name attr :
  lookup_ok s -> (a < length (heap s))%nat -> has_flag attr WINE_OBJ_WOW64 = false ->
  (has_flag attr OBJ_OPENLINK = false ->
   forall f, (f < length (heap s))%nat ->
     loop_returns s (resolve_symlinks open fuel s f attr 0)) ->
  step_returns s name (key_lookup_name open fuel s a (Some name) attr).
Proof.
  intros (Hup&Hsub&Hroot&Hwow) Ha Hattr Hloop. unfold step_returns, key_lookup_name.
  destruct (lookup_lt_is_Some_2 _ _ Ha) as [k Hk]. rewrite Hk. simpl.
  destruct (Z.eqb_spec (unicode_len (first_element name)) 0) as [E|E].
  { eexists _, _, _. split; [done|]. split; [done|]. done. }
  destruct (_ <? _).
  { eexists _, _, _. split; [done|]. split; [done|]. done. }
  destruct (Hsub a k Hk) as [Hlt Hs].
  assert ((if is_wow6432node (k_name k)
           then p ← k_parent k; kp ← heap s !! p;
                if has_flag (k_flags kp) KEY_WOWSHARE && has_flag attr WINE_OBJ_WOW64
                then find_subkey (heap s) kp (first_element name)
                else find_subkey (heap s) k (first_element name)
           else find_subkey (heap s) k (first_element name))
          = find_subkey (heap s) k (first_element name)) as ->.
  { destruct (is_wow6432node (k_name k)) eqn:Hw; [|done].
    destruct (Hwow a k Hk Hw) as [p Hp]. rewrite Hp. simpl.
    destruct (lookup_lt_is_Some_2 (heap s) p) as [kp Hkp].
    { pose proof (up_below _ Hup _ _ _ Hk Hp). lia. }
    rewrite Hkp. simpl. by rewrite Hattr, andb_false_r. }
  destruct (find_subkey_result (heap s) k (first_element name) Hlt) as (r&->&Hfound). simpl.
  destruct r as [c|].
  2:{ destruct (_ <? _); eexists _, _, _; (split; [done|]); (split; [done|]); done. }
  destruct (Hfound c eq_refl) as (j&kc&Hj&Hkc&_).
  assert (c < length (heap s))%nat as Hc by (by eapply lookup_lt_Some).
  assert (length (skip_backslashes (drop (length (first_element name)) name)) < length name)%nat
    as Hshort.
  { destruct (skip_backslashes_split (drop (length (first_element name)) name))
      as (skipped&Hd&_).
    pose proof (first_element_split name) as Hn.
    apply (f_equal length) in Hd, Hn. rewrite !length_app in *.
    assert (first_element name <> []) as Hne by (by intros ?%unicode_len_nil).
    destruct (first_element name); [done|]. simpl in *. lia. }
  destruct (has_flag attr OBJ_OPENLINK) eqn:Hopen; simpl.
  { rewrite Hattr. eexists _, _, _. split; [done|]. split; [done|]. by intros c' [= <-]. }
  destruct (Hloop eq_refl c Hc) as (r&s1&n&->&H1&Hr). simpl.
  destruct r as [f1|].
  2:{ eexists _, _, _. split; [done|]. split; [done|]. done. }
  rewrite Hattr. eexists _, _, _. split; [done|]. split; [done|].
  intros c' [= <-]. split; [by apply Hr|done].
Qed.

(** A lookup whose steps return, and the open built on it, return. *)
Lemma lookup_named_object_returns open attr fuel :
  (forall s a name, lookup_ok s -> (a < length (heap s))%nat ->
     step_returns s name (key_lookup_name open link_fuel s a (Some name) attr)) ->
  forall s a name,
    lookup_ok s -> (a < length (heap s))%nat -> (length name < fuel)%nat ->
    exists obj rest s', lookup_named_object open fuel s a name attr = Some (obj, rest, s') /\
      only_error s s' /\ (obj < length (heap s))%nat.
Proof.
  intros Hstep. induction fuel as [|fuel IH]; intros s a name Hok Ha Hfuel; [lia|].
  cbn -[key_lookup_name].
  destruct (Hstep s a name Hok Ha) as (found&rest&s1&->&H1&Hfound). cbn -[key_lookup_name].
  destruct found as [c|].
  - destruct (Hfound c eq_refl) as [Hc Hrest].
    destruct (IH s1 c rest) as (obj&rest'&s'&->&H2&Hobj).
    + by eapply lookup_ok_only_error.
    + destruct H1 as (->&_). done.
    + lia.
    + eexists _, _, _. split; [done|]. split; [by eapply only_error_trans|].
      destruct H1 as (E&_). by rewrite <- E.
  - eexists _, _, _. split; [done|]. split; [done|]. done.
Qed.

Lemma open_named_object_with_returns open s root name attr :
  (forall s a name, lookup_ok s -> (a < length (heap s))%nat ->
     step_returns s name (key_lookup_name open link_fuel s a (Some name) attr)) ->
  lookup_ok s -> (forall r, root = Some r -> (r < length (heap s))%nat) ->
  open_returns s (open_named_object_with open s root name attr).
Proof.
  intros Hstep Hok Hr. unfold open_returns, open_named_object_with.
  destruct (lookup_start s root name) as [e|[start path]] eqn:Hstart.
  { eexists _, _. split; [done|]. split; [done|]. done. }
  assert (start < length (heap s))%nat as Hs.
  { unfold lookup_start in Hstart. destruct Hok as (_&_&Hroot&_).
    destruct root as [r|].
    - specialize (Hr r eq_refl). destruct name as [|c name]; [by injection Hstart as <- _|].
      destruct (c =? backslash); [done|]. by injection Hstart as <- _.
    - destruct name as [|c name]; [done|]. destruct (negb _); [done|].
      destruct (_ =? 0); [|done]. by injection Hstart as <- _. }
  destruct (lookup_named_object_returns open attr (S (length path)) Hstep
              (set_error s STATUS_SUCCESS) start path) as (obj&rest&s1&->&H1&Hobj);
    try done; [lia|].
  simpl. simpl in Hobj.
  assert (only_error s s1) as Hs1.
  { eapply only_error_trans; [apply (only_error_set s STATUS_SUCCESS)|done]. }
  destruct (decide _).
  - destruct rest; eexists _, _; (split; [done|]); (split; [|by try intros t [= <-]]); [done|].
    eapply only_error_trans; [done|apply only_error_set].
  - eexists _, _. split; [done|]. split; [done|]. done.
Qed.

(** [follow_symlink] returns on a well-formed engine: the target is
    opened with [OBJ_OPENLINK], under which no link is followed. *)
Lemma follow_symlink_total s a attr :
  lookup_ok s -> (a < length (heap s))%nat ->
  open_returns s (follow_symlink open_link_target s a attr).
Proof.
  intros Hok Ha. unfold follow_symlink.
  destruct (lookup_lt_is_Some_2 _ _ Ha) as [k Hk]. rewrite Hk. simpl.
  destruct (find_value_total k symlink_value) as [r Hr]. rewrite Hr. simpl.
  destruct r as [i|index]; [|by eexists _, _].
  unfold find_value in Hr. apply name_search_found in Hr as (Hi&e&He&_).
  apply array_get_lt in He. rewrite length_map in He.
  destruct (array_get_is_Some (k_values k) i) as [v Hv]; [lia|]. rewrite Hv. simpl.
  destruct (link_attributes attr) as [Hopen Hattr].
  assert (forall r, k_parent k = Some r -> (r < length (heap s))%nat) as Hpar.
  { intros r Hp. destruct Hok as (Hup&_). pose proof (up_below _ Hup _ _ _ Hk Hp). lia. }
  assert (forall root name, (forall r, root = Some r -> (r < length (heap s))%nat) ->
            open_returns s (open_link_target s root name
              (Z.land (Z.lor attr OBJ_OPENLINK) (Z.lnot WINE_OBJ_WOW64)))) as Hret.
  { intros root name Hroot. apply open_named_object_with_returns; [|done|done].
    intros s0 a0 name0 Hok0 Ha0. apply key_lookup_name_returns; try done.
    intros Hno. by rewrite Hopen in Hno. }
  destruct (take _ _) as [|c path]; [by apply Hret|].
  destruct (c =? backslash); by apply Hret.
Qed.

(** The loop over the links returns on a well-formed engine, whatever the
    links form. *)
Lemma resolve_symlinks_total attr fuel :
  forall s found n,
    lookup_ok s -> (found < length (heap s))%nat -> 0 <= n <= 17 ->
    18 - n <= Z.of_nat fuel ->
    loop_returns s (resolve_symlinks open_link_target fuel s found attr n).
Proof.
  unfold loop_returns.
  induction fuel as [|fuel IH]; intros s found n Hok Hf Hn Hfuel; [lia|]. simpl.
  destruct (lookup_lt_is_Some_2 _ _ Hf) as [k Hk]. rewrite Hk. simpl.
  destruct (has_flag _ _).
  2:{ eexists _, _, _. split; [done|]. split; [done|]. by intros t [= <-]. }
  destruct (follow_symlink_total s found attr Hok Hf) as (r&s1&->&H1&Hvalid). simpl.
  destruct r as [t|].
  2:{ eexists _, _, _. split; [done|]. split; [done|]. by intros t [= <-]. }
  destruct (Z.ltb_spec 16 n).
  { eexists _, _, _. split; [done|]. split; [|done].
    eapply only_error_trans; [done|apply only_error_set]. }
  pose proof H1 as (E&_).
  destruct (IH s1 t (n + 1)) as (r&s'&n'&->&H2&Hv2).
  - by eapply lookup_ok_only_error.
  - rewrite E. by apply Hvalid.
  - lia.
  - lia.
  - eexists _, _, _. split; [done|]. split; [by eapply only_error_trans|].
    intros t' Ht'. rewrite <- E. by apply Hv2.
Qed.

(** So does the whole lookup, with the links resolved on the way. *)
Lemma open_named_object_total s root name attr :
  lookup_ok s -> (forall r, root = Some r -> (r < length (heap s))%nat) ->
  has_flag attr WINE_OBJ_WOW64 = false ->
  open_returns s (open_named_object s root name attr).
Proof.
  intros Hok Hroot Hattr. apply open_named_object_with_returns; [|done|done].
  intros s0 a0 name0 Hok0 Ha0. apply key_lookup_name_returns; try done.
  intros _ f Hf. apply resolve_symlinks_total; [done|done|lia|unfold link_fuel; lia].
Qed.

(** The loop fails to return only where a key on the way is no key of the
    arena or [follow_symlink] does not return: never for want of turns. *)
Lemma resolve_symlinks_none open attr fuel :
  forall s a n,
    0 <= n <= 17 -> 18 - n <= Z.of_nat fuel ->
    resolve_symlinks open fuel s a attr n = None ->
    exists (j : nat) t sj, n + Z.of_nat j <= 17 /\
      follow_links open attr j s a = Some (t, sj) /\
      (heap sj !! t = None \/ follow_symlink open sj t attr = None).
Proof.
  induction fuel as [|fuel IH]; intros s a n Hn Hfuel; [lia|]. simpl.
  destruct (heap s !! a) as [k|] eqn:Hk; simpl.
  2:{ intros _. exists O, a, s. split; [lia|]. split; [done|]. by left. }
  destruct (has_flag (k_flags k) KEY_SYMLINK) eqn:Hlink; [|done].
  destruct (follow_symlink open s a attr) as [[r s1]|] eqn:Hf; simpl.
  2:{ intros _. exists O, a, s. split; [lia|]. split; [done|]. by right. }
  destruct r as [t|]; [|done].
  destruct (Z.ltb_spec 16 n); [done|].
  intros (j&t'&sj&Hj&Hfl&Hnone)%IH; [|lia|lia].
  exists (S j), t', sj. split; [lia|]. split; [|done].
  simpl. rewrite Hk. simpl. rewrite Hlink, Hf. done.
Qed.

(** A step of a lookup that finds a subkey hands it to the loop over the
    links, unless the attributes carry [OBJ_OPENLINK]; when the loop gives
    up, so does the step. *)
Lemma key_lookup_name_gives_up open fuel s a k name attr c kc s' n :
  subkeys_ok (heap s) -> heap s !! a = Some k -> is_wow6432node (k_name k) = false ->
  has_flag attr OBJ_OPENLINK = false ->
  first_element name <> [] -> Z.of_nat (length (first_element name)) <= MAX_NAME_LEN ->
  c ∈ k_subkeys k -> heap s !! c = Some kc ->
  fold_name (k_name kc) = fold_name (first_element name) ->
  resolve_symlinks open fuel s c attr 0 = Some (None, s', n) ->
  key_lookup_name open fuel s a (Some name) attr = Some (None, name, s').
Proof.
  intros Hok Hk Hwow Hopen Hne Hl Hc Hkc Hn Hloop.
  unfold key_lookup_name. rewrite Hk. simpl. rewrite Hwow, name_too_long.
  destruct (Z.eqb_spec (unicode_len (first_element name)) 0) as [E|E];
    [by apply unicode_len_nil in E|].
  destruct (Z.ltb_spec MAX_NAME_LEN (Z.of_nat (length (first_element name)))); [lia|].
  destruct (Hok a k Hk) as [Hlt Hs].
  apply list_elem_of_lookup in Hc as (j&Hj).
  rewrite (find_subkey_found (heap s) k (first_element name) j c kc Hlt Hs Hj Hkc).
  2:{ by apply compare_name_eq_iff. }
  simpl. rewrite Hopen. simpl. rewrite Hloop. done.
Qed.

End LinkTargets.

(** * Theorems *)

Section ClaimTheorems.
Context `{cm : Casemap}.

(** C1 (amended): [save_branch] on a dirty key writes into the file itself
    exactly when the file could be opened, [lstat] succeeded, and the file
    is not a regular file or has more than one link: the file is truncated
    and written, no temp file is made.  In every other case, a regular
    file with one link included, the branch goes to the first temp file
    [reg<pid><count>.tmp] of the same directory that does not exist yet,
    which is renamed over the file when [fclose] succeeded and unlinked
    when [fdopen], [fclose] or [rename] failed.  The branch is cleaned
    exactly when the save returns non-zero.  (The tree is well formed in
    every state the engine reaches, lemma [reachable_ok].) *)
Theorem save_branch_write_path w fuel h a k path :
  tree_ok h -> h !! a = Some k -> dirty k ->
  (write_in_place w = true <->
     os_open w = true /\
     exists st, os_lstat w = Some st /\ (S_ISREG st = false \/ 1 < st_nlink st)) /\
  (write_in_place w = true ->
     exists h', save_branch w fuel h a path
                = Some (Z.b2z (os_fdopen w && os_fclose w), h', in_place_calls w path) /\
                saved (Z.b2z (os_fdopen w && os_fclose w)) h a h') /\
  (write_in_place w = false ->
     forall count : nat, (count < fuel)%nat ->
       (forall c, (c < count)%nat ->
          os_open_excl w (tmp_name (os_getpid w) path (Z.of_nat c)) = Eexist) ->
       os_open_excl w (tmp_name (os_getpid w) path (Z.of_nat count)) = Opened ->
       exists h', save_branch w fuel h a path
                  = Some (Z.b2z (os_fdopen w && os_fclose w && os_rename w), h',
                          temp_file_calls w path count) /\
                  saved (Z.b2z (os_fdopen w && os_fclose w && os_rename w)) h a h').
Proof.
  intros Hok Ha Hd. split; [apply write_in_place_iff|]. split.
  - intros Hw. by eapply save_branch_in_place.
  - intros Hw count Hfuel Hbusy Hfree. by eapply save_branch_temp_file.
Qed.

(** C2 (amended): for every lookup whose attributes do not carry
    [OBJ_OPENLINK], the resolution of symbolic links follows at most 17
    hops and aborts with [STATUS_NAME_TOO_LONG] after more than 17 hops,
    so the lookup terminates for every input, cyclic chains of links
    included.  In detail, for the loop of [key_lookup_name] over the links,
    started at key [found], with the links opened by [open_named_object]:
    the loop and the step of the lookup never take more than 18 turns,
    whatever the engine holds; a result of the loop is the key that ends a
    chain of at most 17 links, or none after an 18th link resolved, with
    [STATUS_NAME_TOO_LONG] and the engine otherwise unchanged; a chain
    that ends within 17 links is followed to its end; a chain whose 18th
    link resolves is given up with [STATUS_NAME_TOO_LONG], by the loop and
    by the step of a lookup without [OBJ_OPENLINK] that finds [found];
    every chain that runs into a cycle is such a chain; the loop fails to
    return only at a key that is not in the arena or at a link whose
    target lookup does not return; and on a well-formed engine the loop
    returns, and so does, without the WoW64 attribute, the whole lookup
    from every root for every path. *)
Theorem resolve_symlinks_hops s found attr :
  let resolve fuel := resolve_symlinks open_link_target fuel s found attr 0 in
  let follow n := follow_links open_link_target attr n s found in
  (forall fuel, (18 <= fuel)%nat -> resolve fuel = resolve link_fuel) /\
  (forall fuel a name, (18 <= fuel)%nat ->
     key_lookup_name open_link_target fuel s a name attr
     = key_lookup_name open_link_target link_fuel s a name attr) /\
  (forall r s' n, resolve link_fuel = Some (r, s', n) ->
     0 <= n <= 17 /\
     match r with
     | Some t => exists sn, follow (Z.to_nat n) = Some (t, sn) /\
                   link_ends open_link_target attr sn t s'
     | None => n = 17 /\ is_Some (follow 18%nat) /\ s' = set_error s STATUS_NAME_TOO_LONG
     end) /\
  (forall (m : nat) t sm s',
     (m <= 17)%nat -> follow m = Some (t, sm) -> link_ends open_link_target attr sm t s' ->
     resolve link_fuel = Some (Some t, s', Z.of_nat m)) /\
  (is_Some (follow 18%nat) ->
     resolve link_fuel = Some (None, set_error s STATUS_NAME_TOO_LONG, 17) /\
     forall a k name kf,
       subkeys_ok (heap s) -> heap s !! a = Some k -> is_wow6432node (k_name k) = false ->
       has_flag attr OBJ_OPENLINK = false ->
       first_element name <> [] -> Z.of_nat (length (first_element name)) <= MAX_NAME_LEN ->
       found ∈ k_subkeys k -> heap s !! found = Some kf ->
       fold_name (k_name kf) = fold_name (first_element name) ->
       key_lookup_name open_link_target link_fuel s a (Some name) attr
       = Some (None, name, set_error s STATUS_NAME_TOO_LONG)) /\
  (forall (j n : nat) t sj sn,
     follow j = Some (t, sj) -> (0 < n)%nat ->
     follow_links open_link_target attr n sj t = Some (t, sn) ->
     is_Some (follow 18%nat)) /\
  (resolve link_fuel = None ->
     exists (j : nat) t sj, (j <= 17)%nat /\ follow j = Some (t, sj) /\
       (heap sj !! t = None \/ follow_symlink open_link_target sj t attr = None)) /\
  (lookup_ok s ->
     ((found < length (heap s))%nat ->
      exists r s' n, resolve link_fuel = Some (r, s', n) /\ only_error s s' /\
        forall t, r = Some t -> (t < length (heap s))%nat) /\
     (has_flag attr WINE_OBJ_WOW64 = false ->
      forall root name, (forall r, root = Some r -> (r < length (heap s))%nat) ->
        exists r s', open_named_object s root name attr = Some (r, s') /\ only_error s s' /\
          forall t, r = Some t -> (t < length (heap s))%nat)).
Proof.
  intros resolve follow. unfold resolve, follow, link_fuel.
  assert (is_Some (follow_links open_link_target attr 18 s found) ->
            resolve_symlinks open_link_target 18 s found attr 0
            = Some (None, set_error s STATUS_NAME_TOO_LONG, 17)) as Habort.
  { intros [[t s18] Hfl].
    rewrite <- (set_error_only_error s s18).
    2:{ exact (follow_links_error _ attr 18 open_link_target_error _ _ _ _ Hfl). }
    apply (resolve_symlinks_aborts _ attr 17 18 s found 0 t s18); [done|lia..]. }
  split; [|split; [|split; [|split; [|split; [|split; [|split]]]]]].
  - intros fuel Hfuel. apply resolve_symlinks_fuel; lia.
  - intros fuel a name Hfuel. by apply key_lookup_name_fuel.
  - intros r s' n Hrun.
    pose proof (resolve_symlinks_follows _ attr _ _ _ _ _ _ _ Hrun ltac:(lia)) as H.
    destruct r as [t|].
    + destruct H as (m&sm&->&Hle&Hfl&Hend). split; [lia|]. exists sm.
      by rewrite Z.add_0_l, Nat2Z.id.
    + destruct H as (t&s18&Hfl&->&->). split; [lia|]. split; [done|].
      change (Z.to_nat (18 - 0)) with 18%nat in Hfl. split; [by eexists|].
      apply set_error_only_error.
      exact (follow_links_error _ attr 18 open_link_target_error _ _ _ _ Hfl).
  - intros m t sm s' Hm Hfl Hend.
    apply (resolve_symlinks_ends _ attr m 18 s found 0 t sm s'); [done|done|lia..].
  - intros Hfl. pose proof (Habort Hfl) as Hrun. split; [done|].
    intros a k name kf Hsub Hk Hwow Hopen Hne Hl Hin Hkf Hname.
    by apply (key_lookup_name_gives_up _ _ s a k name attr found kf _ 17).
  - intros j n t sj sn Hj Hn Hcycle.
    pose proof (follow_links_cycle no_resolver attr n sj t sn no_resolver_error Hn Hcycle
                  18%nat) as [x Hx].
    apply (follow_links_shorter _ attr 18 (j + 18)); [lia|].
    rewrite follow_links_add. fold open_link_target. rewrite Hj. simpl. by eexists.
  - intros Hnone.
    destruct (resolve_symlinks_none _ attr 18 s found 0 ltac:(lia) ltac:(lia) Hnone)
      as (j&t&sj&Hj&Hfl&Hwhy).
    exists j, t, sj. split; [lia|]. done.
  - intros Hok. split.
    + intros Hfound. apply resolve_symlinks_total; [done|done|lia|lia].
    + intros Hattr root name Hroot. by apply open_named_object_total.
Qed.

(** C3: in every state the engine reaches, the ancestors of a dirty key
    that is not volatile are dirty.  In such a state [touch_key],
    [make_dirty] and [make_clean] return and keep this; after [touch_key]
    the key is dirty unless it is volatile, and after [make_clean] no key
    of the branch that is not volatile is dirty. *)
Theorem dirty_propagation s :
  reachable s ->
  dirty_invariant (heap s) /\
  (forall a change, (a < length (heap s))%nat ->
     exists s' ka', touch_key s a change = Some s' /\ dirty_invariant (heap s') /\
       heap s' !! a = Some ka' /\ (dirty ka' \/ volatile ka')) /\
  (forall a, (a < length (heap s))%nat ->
     exists h', make_dirty (length (heap s)) (heap s) (Some a) = Some h' /\
       dirty_invariant h') /\
  (forall a, (a < length (heap s))%nat ->
     exists h', make_clean (length (heap s)) (heap s) a = Some h' /\ dirty_invariant h' /\
       forall d kd', d = a \/ ancestor (heap s) a d -> h' !! d = Some kd' ->
         ~ volatile kd' -> ~ dirty kd').
Proof.
  intros [[Hu Hl] Hd]%reachable_ok. split; [by apply dirty_step_invariant|]. split; [|split].
  - intros a change Ha.
    destruct (touch_key_total s a change Hu Ha) as [s' Ht].
    destruct (touch_key_marks _ _ _ _ Ht) as (ka'&Hka'&Hm).
    exists s', ka'. split; [done|]. split; [|done].
    apply dirty_step_invariant; [by eapply touch_key_upward_ok|by eapply touch_key_preserves].
  - intros a Ha. destruct (make_dirty_total (length (heap s)) (heap s) a) as [h' Hh']; try done.
    exists h'. split; [done|]. apply dirty_step_invariant.
    + eapply upward_ok_same_links; [|done]. by eapply make_dirty_links.
    + by eapply make_dirty_preserves.
  - intros a Ha. destruct (make_clean_total (length (heap s)) (heap s) a) as [h' Hh'];
      [done|done|lia|].
    exists h'. split; [done|]. split.
    + apply dirty_step_invariant.
      * eapply upward_ok_same_links; [|done]. by eapply make_clean_links.
      * by eapply make_clean_preserves.
    + by eapply make_clean_subtree.
Qed.

(** C4 (amended): for a byte string that is not empty, [set_value] with
    the type, length and bytes of a value the key holds under that name
    returns the engine as it was: nothing is stored, marked or signalled.
    And after any [set_value] with such a byte string, which returns on a
    well-formed arena, the same call again changes neither the arena nor
    the events signalled.  For an empty byte string the call is not a
    no-op: the value of length 0 it meets holds no data and fails the
    test for an identical value, so the call is refused with
    [STATUS_ACCESS_DENIED] on a link key that does not take the value,
    and else does what [touch_key] does for a change of a value: the
    values stay as they are, the key is stamped with the current time and
    marked dirty unless it is volatile, and exactly the events armed on
    the key for a change of a value are signalled.  (The values of a key
    are sorted, a value of length 0 holds no data and parents come before
    their subkeys in every state the engine reaches, lemmas
    [reachable_values_ok], [reachable_value_ok] and [reachable_ok].) *)
Theorem set_value_identical s a k name type data :
  heap s !! a = Some k -> values_sorted k ->
  (data <> [] ->
     (forall (j : nat) v, k_values k !! j = Some v -> compare_name (kv_name v) name = 0 ->
        kv_type v = to_uint type -> kv_len v = Z.of_nat (length data) ->
        value_bytes v = data ->
        set_value s a name type data = Some s) /\
     (upward_ok (heap s) -> is_Some (set_value s a name type data)) /\
     (forall s1 s1', set_value s a name type data = Some s1 -> heap s1' = heap s1 ->
        exists s2, set_value s1' a name type data = Some s2 /\
                   heap s2 = heap s1' /\ signaled s2 = signaled s1')) /\
  (forall (j : nat) v, k_values k !! j = Some v -> compare_name (kv_name v) name = 0 ->
     kv_type v = to_uint type -> kv_len v = 0 -> kv_data v = None ->
     (has_flag (k_flags k) KEY_SYMLINK && not_link_value name type = true ->
        set_value s a name type [] = Some (set_error s STATUS_ACCESS_DENIED)) /\
     (has_flag (k_flags k) KEY_SYMLINK && not_link_value name type = false ->
        upward_ok (heap s) ->
        exists s' ka' evs,
          set_value s a name type [] = Some s' /\
          touch_key s a REG_NOTIFY_CHANGE_LAST_SET = Some s' /\
          last_error s' = last_error s /\
          heap s' !! a = Some ka' /\ k_values ka' = k_values k /\
          k_modif ka' = current_time s /\ (dirty ka' \/ volatile ka') /\
          signaled s' = signaled s ++ evs /\
          forall e, e ∈ evs <->
            armed_on (heap s) a
              (fun n => Z.land REG_NOTIFY_CHANGE_LAST_SET (n_filter n) <> 0) e)).
Proof.
  intros Hk Hs. split.
  - intros Hne. split; [|split].
    + intros j v Hj Hc Ht Hl Hb. by eapply set_value_present.
    + intros Hup. apply set_value_total; [done|by eapply lookup_lt_Some].
    + intros s1 s1' H1 Hh. by eapply second_set_value.
  - intros j v Hj Hc Ht Hl Hd.
    rewrite (set_value_empty_again s a k name type j v) by done. split.
    + by intros ->.
    + intros -> Hup.
      destruct (touch_key_last_set s a k Hup Hk) as (s'&ka'&evs&Ht'&Hrest).
      exists s', ka', evs. by rewrite Ht'.
Qed.

(** C5 (amended): on a key that carries [KEY_SYMLINK], a [set_value] that
    is not for the value [SymbolicLinkValue] (up to case) of type
    [REG_LINK] leaves the arena and the events alone; it fails with
    [STATUS_ACCESS_DENIED] unless the key holds a value under that name
    that passes the test for an identical value, in which case it returns
    with no error set. *)
Theorem symlink_key_write s a k name type data :
  heap s !! a = Some k -> has_flag (k_flags k) KEY_SYMLINK = true ->
  ~ (type = REG_LINK /\ fold_name name = fold_name symlink_value) ->
  exists s', set_value s a name type data = Some s' /\
    heap s' = heap s /\ signaled s' = signaled s /\
    ((s' = set_error s STATUS_ACCESS_DENIED /\
      forall i v, find_value k name = Some (Found i) -> array_get (k_values k) i = Some v ->
        same_value v type data = false) \/
     (s' = s /\ exists i v, find_value k name = Some (Found i) /\
        array_get (k_values k) i = Some v /\ same_value v type data = true)).
Proof.
  intros Hk Hsl Hnot.
  assert (not_link_value name type = true) as Hnl.
  { destruct (not_link_value name type) eqn:E; [done|]. by apply not_link_value_false in E. }
  destruct (find_value_total k name) as [r Hr].
  destruct r as [i|index].
  - destruct (find_value_found _ _ _ Hr) as (Hi&v&Hv&_).
    assert (array_get (k_values k) i = Some v) as Hget.
    { unfold array_get. destruct (Z.ltb_spec i 0); [lia|done]. }
    destruct (same_value v type data) eqn:Hsame.
    + exists s. split; [by eapply set_value_skip|]. split; [done|]. split; [done|].
      right. split; [done|]. by exists i, v.
    + exists (set_error s STATUS_ACCESS_DENIED). split.
      { eapply set_value_denied; eauto.
        - intros i' v' [= <-] Hv'. congruence.
        - intros i' [= <-]. by rewrite Hget. }
      split; [done|]. split; [done|]. left. split; [done|].
      intros i' v' Hf Hv'. rewrite Hr in Hf. injection Hf as <-. congruence.
  - exists (set_error s STATUS_ACCESS_DENIED). split.
    { eapply set_value_denied; eauto; done. }
    split; [done|]. split; [done|]. left. split; [done|].
    intros i' v' Hf. rewrite Hr in Hf. done.
Qed.

(** C6: [touch_key] at key [m] with change [change] returns, and the
    events it signals are exactly: the events armed on the notifications
    of [m] whose filter meets [change], whatever their subtree flag, and
    the events armed on the notifications of the proper ancestors of [m]
    that have the subtree flag and whose filter meets [change] without
    [REG_NOTIFY_CHANGE_LAST_SET].  For a change of a value alone, nothing
    is signalled on an ancestor.  (Parents come before their subkeys in
    every state the engine reaches, lemma [reachable_ok].) *)
Theorem touch_key_notifies s m change :
  upward_ok (heap s) -> (m < length (heap s))%nat ->
  exists s' evs, touch_key s m change = Some s' /\ signaled s' = signaled s ++ evs /\
    (forall e, e ∈ evs <->
       armed_on (heap s) m (fun n => Z.land change (n_filter n) <> 0) e \/
       exists x, ancestor (heap s) x m /\
         armed_on (heap s) x
           (fun n => n_subtree n <> 0 /\
              Z.land (Z.land change (Z.lnot REG_NOTIFY_CHANGE_LAST_SET)) (n_filter n) <> 0) e) /\
    (change = REG_NOTIFY_CHANGE_LAST_SET ->
       forall e, e ∈ evs <->
         armed_on (heap s) m (fun n => Z.land change (n_filter n) <> 0) e).
Proof.
  intros Hu Hm. destruct (touch_key_total s m change Hu Hm) as [s' Ht].
  destruct (touch_key_events s m change s' Hu Ht) as (_&evs&Hsig&Hevs).
  exists s', evs. split; [done|]. split; [done|].
  assert (forall e, e ∈ evs <->
       armed_on (heap s) m (fun n => Z.land change (n_filter n) <> 0) e \/
       exists x, ancestor (heap s) x m /\
         armed_on (heap s) x
           (fun n => n_subtree n <> 0 /\
              Z.land (Z.land change (Z.lnot REG_NOTIFY_CHANGE_LAST_SET)) (n_filter n) <> 0) e)
    as Hall.
  { intros e. rewrite Hevs, fired_at_here. apply or_iff_compat_l.
    split; intros (x&Hx&Hf); exists x; (split; [done|]); by apply fired_at_above. }
  split; [done|]. intros -> e. rewrite Hall. split; [|by left].
  intros [?|(x&_&kx&n&_&_&_&_&Hz)]; [done|]. by destruct Hz.
Qed.

(** C9 (amended): on a key that carries [KEY_SYMLINK], [set_value] with the
    name, type, length and bytes of a value the key holds returns the
    engine as it was, with no error, when the bytes are not empty, also
    for a value that is not the link value: the test for an identical
    value comes first.  A stored value of length 0 holds no data and
    fails that test: the call is then refused with
    [STATUS_ACCESS_DENIED] unless it is for the link value, for which the
    value is stored again and the key is touched, as by [touch_key] for
    a change of a value.  (The values of a key are sorted and parents
    come before their subkeys in every state the engine reaches, lemmas
    [reachable_values_ok] and [reachable_ok].) *)
Theorem symlink_identical_value s a k name type data (j : nat) v :
  heap s !! a = Some k -> has_flag (k_flags k) KEY_SYMLINK = true -> values_sorted k ->
  k_values k !! j = Some v -> compare_name (kv_name v) name = 0 ->
  kv_type v = to_uint type -> kv_len v = Z.of_nat (length data) -> value_bytes v = data ->
  (data <> [] -> set_value s a name type data = Some s) /\
  (kv_data v = None -> not_link_value name type = true ->
     set_value s a name type data = Some (set_error s STATUS_ACCESS_DENIED)) /\
  (kv_data v = None -> not_link_value name type = false -> upward_ok (heap s) ->
     exists s' ka' evs,
       set_value s a name type data = Some s' /\
       touch_key s a REG_NOTIFY_CHANGE_LAST_SET = Some s' /\
       last_error s' = last_error s /\
       heap s' !! a = Some ka' /\ k_values ka' = k_values k /\
       k_modif ka' = current_time s /\ (dirty ka' \/ volatile ka') /\
       signaled s' = signaled s ++ evs /\
       forall e, e ∈ evs <->
         armed_on (heap s) a
           (fun n => Z.land REG_NOTIFY_CHANGE_LAST_SET (n_filter n) <> 0) e).
Proof.
  intros Hk Hsl Hs Hj Hc Ht Hl Hb.
  assert (kv_data v = None -> data = [] /\ kv_len v = 0) as Hempty.
  { intros Hnull. unfold value_bytes in Hb. rewrite Hnull in Hb. subst data. done. }
  split; [|split].
  - intros Hne. by eapply set_value_present.
  - intros Hnull Hnl. destruct (Hempty Hnull) as [-> Hl0].
    rewrite (set_value_empty_again s a k name type j v) by done. by rewrite Hsl, Hnl.
  - intros Hnull Hnl Hup. destruct (Hempty Hnull) as [-> Hl0].
    rewrite (set_value_empty_again s a k name type j v) by done. rewrite Hsl, Hnl. simpl.
    destruct (touch_key_last_set s a k Hup Hk) as (s'&ka'&evs&Ht'&Hrest).
    exists s', ka', evs. by rewrite Ht'.
Qed.

End ClaimTheorems.

Section HandlerClaims.
Context `{cm : Casemap}.

(** C7 (amended): the handler of [open_key] returns at once with
    [STATUS_OBJECT_NAME_INVALID], before the handle table or the lookup is
    called, exactly when the name has 65534 bytes or more, that is 32767
    [WCHAR]s or more. *)
Theorem open_key_name_check (get_handle_obj : state -> Z -> Z -> status + ptr)
    (alloc_handle : state -> ptr -> Z -> Z -> Z * state) (open : resolver) (current : thread)
    s req :
  open_key_handler get_handle_obj alloc_handle open current s req
    = Some (0, set_error s STATUS_OBJECT_NAME_INVALID, [])
  <-> 32767 <= Z.of_nat (length (ok_name req)).
Proof.
  rewrite <- name_check_chars. unfold open_key_handler.
  destruct (65534 <=? unicode_len (ok_name req)); [done|]. split; [|done].
  destruct (resolve_parent _ _ _ _ _ _ _) as [[[s1 calls]|[[[parent attributes] s1] calls]]|]
    eqn:Hr; simpl; [| |done].
  - intros [= _ ->]. by apply resolve_parent_calls in Hr.
  - destruct (open s1 parent (ok_name req) attributes) as [[key s2]|]; simpl; [|done].
    destruct key as [a|].
    + destruct (alloc_handle _ _ _ _). intros [= _ _ E]. by apply app_eq_nil in E as [_ ?].
    + intros [= _ E]. by apply app_eq_nil in E as [_ ?].
Qed.

(** C8 (divergence of the code): a [create_key] request with an empty
    path below an open key that was not deleted, the error slot clear,
    replies [created = 1] with a handle to that key itself: the only calls
    are the lookup of the handle and the allocation of the new handle for
    the same key, and no key is created. *)
Theorem create_key_empty_path_created (get_handle_obj : state -> Z -> Z -> status + ptr)
    (alloc_handle : state -> ptr -> Z -> Z -> Z * state) (current : thread) s req a k :
  ck_name req = [] -> ck_rootdir req <> 0 ->
  get_handle_obj s (ck_rootdir req) 0 = inr a -> heap s !! a = Some k ->
  has_flag (k_flags k) KEY_DELETED = false ->
  has_flag (ck_access req) KEY_WOW64_32KEY = false ->
  last_error s = STATUS_SUCCESS ->
  create_key_handler get_handle_obj alloc_handle current s req
  = Some (mk_create_key_reply
            (fst (alloc_handle s a (ck_access req) (ck_attributes req))) 1,
          snd (alloc_handle s a (ck_access req) (ck_attributes req)),
          [call_get_handle_obj (ck_rootdir req) 0;
           call_alloc_handle a (ck_access req) (ck_attributes req)]).
Proof.
  intros Hname Hroot Hh Hk Hdel Hwow Herr.
  unfold create_key_handler, resolve_parent, get_hkey_obj.
  apply Z.eqb_neq in Hroot. rewrite Hroot. simpl. rewrite Hh. simpl. rewrite Hk. simpl.
  rewrite Hdel. simpl. rewrite Hwow. simpl.
  unfold create_key. rewrite Hname. simpl.
  destruct (decide (last_error s = STATUS_SUCCESS)); [|done].
  by destruct (alloc_handle _ _ _ _).
Qed.

(** C10: [enum_key] with index -1 is the query of the key itself: with
    [KeyBasicInformation] it returns the name, the counts and the time of
    that key.  With another index it checks the index against the subkeys
    and queries the subkey at that index.  The handler asks the handle for
    [KEY_QUERY_VALUE] when the index is -1 and for [KEY_ENUMERATE_SUB_KEYS]
    otherwise, and replies nothing when the handle does not grant it. *)
Theorem enum_key_own_index (get_handle_obj : state -> Z -> Z -> status + ptr)
    (reply_max_size : Z) s a k req max_size :
  heap s !! a = Some k ->
  (forall info_class reply,
     enum_key s a (-1) info_class max_size reply
     = key_information s a info_class max_size reply) /\
  (0 < unicode_len (k_name k) <= max_size -> forall reply,
     enum_key s a (-1) KeyBasicInformation max_size reply
     = Some (mk_enum_key_reply (last_subkey k + 1) (last_value k + 1) (k_modif k)
               (unicode_len (k_name k)) (unicode_len (k_name k)) 0 0 0 0
               (bytes_of_wchars (k_name k)), s)) /\
  (forall index info_class reply, index <> -1 ->
     enum_key s a index info_class max_size reply
     = if (index <? 0) || (last_subkey k <? index)
       then Some (reply, set_error s STATUS_NO_MORE_ENTRIES)
       else c ← k_subkeys k !! Z.to_nat index;
            key_information s c info_class max_size reply) /\
  enum_key_access (-1) = KEY_QUERY_VALUE /\
  (forall index, index <> -1 -> enum_key_access index = KEY_ENUMERATE_SUB_KEYS) /\
  (forall reply s' calls,
     enum_key_handler get_handle_obj reply_max_size s req = Some (reply, s', calls) ->
     calls = [call_get_handle_obj (ek_hkey req) (enum_key_access (ek_index req))]) /\
  (forall e, get_handle_obj s (ek_hkey req) (enum_key_access (ek_index req)) = inl e ->
     enum_key_handler get_handle_obj reply_max_size s req
     = Some (empty_enum_key_reply, set_error s e,
             [call_get_handle_obj (ek_hkey req) (enum_key_access (ek_index req))])).
Proof.
  intros Hk. split; [done|]. split.
  { intros Hlen reply. rewrite enum_key_self. by apply key_information_basic. }
  split.
  { intros index info_class reply Hi. by apply enum_key_child. }
  split; [done|]. split.
  { intros index Hi. unfold enum_key_access. apply Z.eqb_neq in Hi. by rewrite Hi. }
  split.
  { intros reply s' calls. apply enum_key_handler_calls. }
  apply enum_key_handler_denied.
Qed.

End HandlerClaims.

(** * Further properties of the engine *)

Section ValueTheorems.
Context `{cm : Casemap}.

(** X1: the comparison that [find_subkey] and [find_value] search with
    orders names by their case-folded units, lexicographically, a proper
    prefix first.  It is 0 exactly for two names that are equal up to
    case, it is antisymmetric and transitive. *)
Theorem compare_name_order (a b c : list Z) :
  (compare_name a b = 0 <-> fold_name a = fold_name b) /\
  (compare_name a b < 0 <-> lex (fold_name a) (fold_name b) = Lt) /\
  (compare_name a b < 0 <-> 0 < compare_name b a) /\
  (compare_name a b < 0 /\ compare_name b c < 0 -> compare_name a c < 0).
Proof.
  split; [apply compare_name_eq_iff|]. split; [apply compare_name_lt_iff|]. split.
  - by rewrite compare_name_lt_iff, compare_name_gt_iff.
  - rewrite !compare_name_lt_iff. intros [H1 H2]. by eapply lex_trans.
Qed.

(** X2: on a key whose values are sorted by name, [find_value] returns,
    and it finds a value exactly when the key holds one under that name up
    to case, at its index; otherwise the index it gives is the place where
    the name belongs: every value before it is smaller and every value
    from it on is greater.  (The values are sorted in every state the
    engine reaches, lemma [reachable_values_ok].) *)
Theorem find_value_sorted k name :
  values_sorted k ->
  (exists r, find_value k name = Some r) /\
  (forall (j : nat) v, k_values k !! j = Some v -> fold_name (kv_name v) = fold_name name ->
     find_value k name = Some (Found (Z.of_nat j))) /\
  (forall i, find_value k name = Some (Found i) ->
     exists v, array_get (k_values k) i = Some v /\ fold_name (kv_name v) = fold_name name) /\
  (forall index, find_value k name = Some (NotFound index) ->
     0 <= index <= Z.of_nat (length (k_values k)) /\
     forall (j : nat) v, k_values k !! j = Some v ->
       if Z.of_nat j <? index then compare_name (kv_name v) name < 0
       else 0 < compare_name (kv_name v) name).
Proof.
  intros Hs. split; [apply find_value_total|]. split; [|split].
  - intros j v Hj Hc. eapply find_value_present; [done|done|]. by apply compare_name_eq_iff.
  - intros i Hf. destruct (find_value_found _ _ _ Hf) as (Hi&v&Hv&Hc).
    exists v. split; [by apply array_get_Some|]. by apply compare_name_eq_iff.
  - intros index Hf. destruct (find_value_miss _ _ _ Hs Hf) as (Hidx&Hlo&Hhi).
    split; [done|]. intros j v Hj. destruct (Z.ltb_spec (Z.of_nat j) index).
    + by eapply Hlo.
    + by eapply Hhi.
Qed.

(** X3: in every state the engine reaches, the values of every key are
    sorted by name, no two of them have the same name up to case, and
    every value is well formed: its name has at most [MAX_VALUE_LEN]
    characters, its type is an [unsigned int], and its data is a null
    pointer when its length is 0 and a buffer of that length otherwise. *)
Theorem reachable_values s a k :
  reachable s -> heap s !! a = Some k ->
  values_sorted k /\
  (forall (i j : nat) vi vj, k_values k !! i = Some vi -> k_values k !! j = Some vj ->
     fold_name (kv_name vi) = fold_name (kv_name vj) -> i = j) /\
  Forall value_ok (k_values k).
Proof.
  intros Hr Hk. pose proof (reachable_values_ok s Hr a k Hk) as Hs.
  split; [done|]. split; [|by apply (reachable_value_ok s Hr a k)].
  intros i j vi vj Hi Hj Hc.
  eapply (sorted_unique (map kv_name (k_values k))); [done| | |].
  - by rewrite list_lookup_fmap, Hi.
  - by rewrite list_lookup_fmap, Hj.
  - by apply compare_name_eq_iff.
Qed.

(** X4: a [set_value] that the key accepts (the key is not a symbolic
    link, or the value is its link value; the name has at most
    [MAX_VALUE_LEN] characters) returns without an error, and [get_value]
    under the same name then replies the type, the length and the bytes
    that were set, the bytes cut to the size of the reply buffer; for an
    empty byte string no reply data is set.  (The hypotheses on the arena
    hold in every state the engine reaches, lemmas [reachable_ok],
    [reachable_values_ok] and [reachable_value_ok].) *)
Theorem set_value_get_value s a k name type data max_size reply :
  heap s !! a = Some k -> upward_ok (heap s) ->
  values_sorted k -> Forall value_ok (k_values k) ->
  has_flag (k_flags k) KEY_SYMLINK && not_link_value name type = false ->
  unicode_len name <= MAX_VALUE_LEN * sizeof_WCHAR ->
  - 2 ^ 31 <= type < 2 ^ 31 ->
  exists s', set_value s a name type data = Some s' /\ last_error s' = last_error s /\
    get_value s' a name max_size reply
    = Some (mk_get_key_value_reply type (Z.of_nat (length data))
              match data with
              | [] => gv_data reply
              | _ => take (Z.to_nat (Z.min (Z.of_nat (length data)) max_size)) data
              end, s').
Proof.
  intros Hk Hup Hs Hwf Hlink Hname Htype.
  destruct (set_value_total s a name type data Hup) as [s' Hset]; [by eapply lookup_lt_Some|].
  exists s'. split; [done|].
  destruct (set_value_named _ _ _ _ _ _ _ Hk Hs Hset) as (k'&Hk'&Hs'&_&_&Hcase).
  rewrite (get_value_linear s' a k' name max_size reply Hk' Hs').
  destruct Hcase as [(->&v&Hv&Hsame)|[(_&Hden)|[(_&Hlong)|(He&nm&Hnm&Hv)]]].
  - split; [done|]. rewrite Hk in Hk'. injection Hk' as <-. rewrite Hv.
    apply find_lookup in Hv as (i&Hi&_).
    pose proof (proj1 (Forall_lookup _ _) Hwf i v Hi) as (_&_&Hdata).
    unfold same_value in Hsame. apply andb_true_iff in Hsame as [Htl Hd].
    apply andb_true_iff in Htl as [Ht Hl]. apply Z.eqb_eq in Ht, Hl.
    destruct (kv_data v) as [d|] eqn:Hkd; [|done]. apply Z.eqb_eq in Hd.
    destruct Hdata as [Hlen Hpos]. rewrite Nat2Z.id in Hd.
    apply memcmp_eq in Hd; [|lia]. subst d.
    unfold value_reply. rewrite Hkd, Ht, Hl, to_int_to_uint by done.
    destruct data; [simpl in *; lia|done].
  - by rewrite Hlink in Hden.
  - lia.
  - split; [done|]. rewrite Hv. unfold value_reply. simpl.
    rewrite to_int_to_uint by done.
    destruct data; [done|]. simpl length.
    destruct (Z.eqb_spec (Z.of_nat (S (length data))) 0); [lia|done].
Qed.

(** X5: a [set_value] changes nothing under another name or on another
    key: [get_value] under a name that differs from the one set, up to
    case, replies what it replied before, and the values of every other
    key are the same. *)
Theorem set_value_other_values s a k name type data s' :
  heap s !! a = Some k -> values_sorted k -> set_value s a name type data = Some s' ->
  (forall name' max_size reply, fold_name name' <> fold_name name ->
     fst <$> get_value s' a name' max_size reply
     = fst <$> get_value s a name' max_size reply) /\
  (forall b kb, b <> a -> heap s !! b = Some kb ->
     exists kb', heap s' !! b = Some kb' /\ k_values kb' = k_values kb).
Proof.
  intros Hk Hs Hset.
  destruct (set_value_named _ _ _ _ _ _ _ Hk Hs Hset) as (k'&Hk'&Hs'&Hoth&Hkeys&_).
  split; [|done]. intros name' max_size reply Hne.
  rewrite (get_value_linear s' a k' name' max_size reply Hk' Hs').
  rewrite (get_value_linear s a k name' max_size reply Hk Hs).
  rewrite (Hoth name' Hne). by destruct (value_named k name').
Qed.

(** X6: [delete_value] returns.  For a name the key does not hold it
    fails with [STATUS_OBJECT_NAME_NOT_FOUND] and changes nothing else;
    otherwise it sets no error and the key holds one value less.  In both
    cases [get_value] under that name then fails with
    [STATUS_OBJECT_NAME_NOT_FOUND], [get_value] under a name that differs
    up to case replies what it replied before, and the values of every
    other key are the same. *)
Theorem delete_value_get_value s a k name :
  heap s !! a = Some k -> upward_ok (heap s) -> values_sorted k ->
  exists s' k', delete_value s a name = Some s' /\ heap s' !! a = Some k' /\
    (((forall v, v ∈ k_values k -> fold_name (kv_name v) <> fold_name name) /\
      s' = set_error s STATUS_OBJECT_NAME_NOT_FOUND) \/
     ((exists v, v ∈ k_values k /\ fold_name (kv_name v) = fold_name name) /\
      last_error s' = last_error s /\ S (length (k_values k')) = length (k_values k))) /\
    (forall max_size reply,
       get_value s' a name max_size reply
       = Some (mk_get_key_value_reply (-1) (gv_total reply) (gv_data reply),
               set_error s' STATUS_OBJECT_NAME_NOT_FOUND)) /\
    (forall name' max_size reply, fold_name name' <> fold_name name ->
       fst <$> get_value s' a name' max_size reply
       = fst <$> get_value s a name' max_size reply) /\
    (forall b kb, b <> a -> heap s !! b = Some kb ->
       exists kb', heap s' !! b = Some kb' /\ k_values kb' = k_values kb).
Proof.
  intros Hk Hup Hs.
  destruct (delete_value_total s a name Hup) as [s' Hdel]; [by eapply lookup_lt_Some|].
  destruct (delete_value_named _ _ _ _ _ Hk Hs Hdel)
    as [[Hnone ->]|(v&k'&Hv&He&Hk'&Hs'&Hgone&Hlen&Hoth&Hkeys)].
  - exists (set_error s STATUS_OBJECT_NAME_NOT_FOUND), k. split; [done|]. split; [done|].
    split; [left; split; [by apply value_named_none|done]|].
    split; [|split].
    + intros max_size reply.
      rewrite (get_value_linear (set_error s STATUS_OBJECT_NAME_NOT_FOUND) a k name
                 max_size reply Hk Hs).
      by rewrite Hnone.
    + intros name' max_size reply Hne.
      rewrite (get_value_linear (set_error s STATUS_OBJECT_NAME_NOT_FOUND) a k name'
                 max_size reply Hk Hs).
      rewrite (get_value_linear s a k name' max_size reply Hk Hs).
      by destruct (value_named k name').
    + intros b kb _ Hb. by exists kb.
  - exists s', k'. split; [done|]. split; [done|].
    split; [right; split; [exists v; by apply value_named_some|done]|].
    split; [|split; [|done]].
    + intros max_size reply. rewrite (get_value_linear _ a k' name max_size reply Hk' Hs').
      by rewrite Hgone.
    + intros name' max_size reply Hne.
      rewrite (get_value_linear _ a k' name' max_size reply Hk' Hs').
      rewrite (get_value_linear s a k name' max_size reply Hk Hs).
      rewrite (Hoth name' Hne). by destruct (value_named k name').
Qed.

(** X7: [enum_value] fails with [STATUS_NO_MORE_ENTRIES] for an index
    below 0 or above the last value, and with [STATUS_INVALID_PARAMETER]
    for an unknown class of information, the type of the value already in
    the reply.  Otherwise it replies the type of the value at that index,
    as [total] the full size of what the class asks for (the name, the
    name and the data, or the data), and as data the first bytes of that,
    as many as the reply buffer holds; [namelen] is the part of the data
    that is name.  (Every value is well formed in every state the engine
    reaches, lemma [reachable_value_ok].) *)
Theorem enum_value_reply s a k max_size :
  heap s !! a = Some k -> 0 <= max_size ->
  (forall i info_class reply, i < 0 \/ last_value k < i ->
     enum_value s a i info_class max_size reply
     = Some (reply, set_error s STATUS_NO_MORE_ENTRIES)) /\
  (forall (i : nat) v info_class reply, k_values k !! i = Some v ->
     info_class <> KeyValueBasicInformation -> info_class <> KeyValueFullInformation ->
     info_class <> KeyValuePartialInformation ->
     enum_value s a (Z.of_nat i) info_class max_size reply
     = Some (mk_enum_key_value_reply (ev_total reply) (ev_namelen reply)
               (to_int (kv_type v)) (ev_data reply),
             set_error s STATUS_INVALID_PARAMETER)) /\
  (forall (i : nat) v info_class, k_values k !! i = Some v -> value_ok v ->
     info_class = KeyValueBasicInformation \/ info_class = KeyValueFullInformation \/
     info_class = KeyValuePartialInformation ->
     let total := Z.of_nat (length (value_payload v info_class)) in
     let namelen := if info_class =? KeyValuePartialInformation
                    then 0 else unicode_len (kv_name v) in
     enum_value s a (Z.of_nat i) info_class max_size empty_enum_key_value_reply
     = Some (mk_enum_key_value_reply total (Z.min namelen (Z.min total max_size))
               (to_int (kv_type v))
               (take (Z.to_nat max_size) (value_payload v info_class)), s)).
Proof.
  intros Hk Hmax. split; [|split].
  - intros i info_class reply Hi. unfold enum_value. rewrite Hk. simpl.
    destruct (Z.ltb_spec i 0); [done|]. destruct (Z.ltb_spec (last_value k) i); [done|lia].
  - intros i v info_class reply Hv H0 H1 H2. unfold enum_value. rewrite Hk. simpl.
    pose proof (lookup_lt_Some _ _ _ Hv) as Hlt. unfold last_value.
    destruct (Z.ltb_spec (Z.of_nat i) 0); [lia|].
    destruct (Z.ltb_spec (Z.of_nat (length (k_values k)) - 1) (Z.of_nat i)); [lia|]. simpl.
    rewrite array_get_of_nat, Hv. simpl. unfold value_lengths.
    apply Z.eqb_neq in H0, H1, H2. by rewrite H0, H1, H2.
  - intros i v info_class Hv (Hname&_&Hdata) Hclass total namelen.
    unfold enum_value. rewrite Hk. simpl.
    pose proof (lookup_lt_Some _ _ _ Hv) as Hlt. unfold last_value.
    destruct (Z.ltb_spec (Z.of_nat i) 0); [lia|].
    destruct (Z.ltb_spec (Z.of_nat (length (k_values k)) - 1) (Z.of_nat i)); [lia|]. simpl.
    rewrite array_get_of_nat, Hv. simpl.
    pose proof (length_bytes_of_wchars (kv_name v)) as Hbytes.
    assert (Z.of_nat (length (default [] (kv_data v))) = kv_len v) as Hlen.
    { destruct (kv_data v); simpl; lia. }
    assert (0 <= unicode_len (kv_name v)) as Hn0 by (unfold unicode_len, sizeof_WCHAR; lia).
    subst total namelen. unfold value_lengths, value_payload.
    destruct Hclass as [->|[->| ->]]; simpl; rewrite ?length_app, ?app_nil_r, ?Nat2Z.inj_add;
      simpl length; rewrite ?Hbytes, ?Hlen.
    + rewrite Z.add_0_r.
      destruct (Z.eqb_spec (Z.min (unicode_len (kv_name v)) max_size) 0) as [E|E].
      { do 3 f_equal; [lia|]. destruct (bytes_of_wchars (kv_name v)); [by rewrite take_nil|].
        replace max_size with 0 by (simpl in *; lia). done. }
      destruct (Z.ltb_spec (unicode_len (kv_name v))
                  (Z.min (unicode_len (kv_name v)) max_size)); [lia|].
      do 3 f_equal; [lia|].
      rewrite <- (app_nil_r (bytes_of_wchars (kv_name v))) at 2.
      apply take_name_only; simpl; lia.
    + destruct (Z.eqb_spec (Z.min (unicode_len (kv_name v) + kv_len v) max_size) 0) as [E|E].
      { do 3 f_equal; [lia|].
        rewrite <- (take_name_only _ _ (unicode_len (kv_name v) + kv_len v)) by lia.
        by rewrite E. }
      destruct (Z.ltb_spec (unicode_len (kv_name v))
                  (Z.min (unicode_len (kv_name v) + kv_len v) max_size)).
      * do 3 f_equal; [lia|]. rewrite <- Hbytes at 1 3. apply take_name_data; lia.
      * do 3 f_equal; [lia|]. apply take_name_only; lia.
    + destruct (Z.eqb_spec (Z.min (kv_len v) max_size) 0) as [E|E].
      { do 3 f_equal; [lia|]. destruct (default [] (kv_data v)); [by rewrite take_nil|].
        replace max_size with 0 by (simpl in *; lia). done. }
      destruct (Z.ltb_spec 0 (Z.min (kv_len v) max_size)); [|lia].
      do 3 f_equal; [lia|]. rewrite Z.sub_0_r.
      rewrite <- (app_nil_r (default [] (kv_data v))) at 2.
      apply take_name_only; simpl; lia.
Qed.

(** X8: the value that [enum_value] lists at an index is the value that
    [get_value] finds under the listed name.  With a reply buffer that
    holds the name and the data, [enum_value] with
    [KeyValueFullInformation] replies the name followed by the data, and
    [get_value] under that name replies the same type, and the length and
    the bytes of the part behind the name.  (The values are sorted and
    well formed in every state the engine reaches.) *)
Theorem enum_value_get_value s a k (i : nat) v max_size :
  heap s !! a = Some k -> values_sorted k -> k_values k !! i = Some v -> value_ok v ->
  unicode_len (kv_name v) + kv_len v <= max_size ->
  exists r, enum_value s a (Z.of_nat i) KeyValueFullInformation max_size
              empty_enum_key_value_reply = Some (r, s) /\
    ev_namelen r = unicode_len (kv_name v) /\
    take (Z.to_nat (ev_namelen r)) (ev_data r) = bytes_of_wchars (kv_name v) /\
    get_value s a (kv_name v) max_size empty_get_key_value_reply
    = Some (mk_get_key_value_reply (ev_type r) (ev_total r - ev_namelen r)
              (drop (Z.to_nat (ev_namelen r)) (ev_data r)), s).
Proof.
  intros Hk Hs Hv Hok Hfit.
  assert (0 <= unicode_len (kv_name v)) as Hn0 by (unfold unicode_len, sizeof_WCHAR; lia).
  pose proof (length_bytes_of_wchars (kv_name v)) as Hbytes.
  assert (Z.of_nat (length (default [] (kv_data v))) = kv_len v /\ 0 <= kv_len v)
    as [Hlen Hl0].
  { destruct Hok as (_&_&Hd). destruct (kv_data v); simpl; lia. }
  unfold enum_value. rewrite Hk. simpl.
  pose proof (lookup_lt_Some _ _ _ Hv) as Hlt. unfold last_value.
  destruct (Z.ltb_spec (Z.of_nat i) 0); [lia|].
  destruct (Z.ltb_spec (Z.of_nat (length (k_values k)) - 1) (Z.of_nat i)); [lia|]. simpl.
  rewrite array_get_of_nat, Hv. simpl.
  rewrite (get_value_linear s a k (kv_name v) max_size _ Hk Hs).
  rewrite (value_named_found k (kv_name v) i v Hs Hv (compare_name_refl _)).
  rewrite Z.min_l by done.
  assert (value_reply v max_size empty_get_key_value_reply
          = mk_get_key_value_reply (to_int (kv_type v)) (kv_len v) (default [] (kv_data v)))
    as ->.
  { unfold value_reply. f_equal. destruct (kv_data v) as [d|]; [|done]. simpl in *.
    apply take_ge. lia. }
  destruct (Z.eqb_spec (unicode_len (kv_name v) + kv_len v) 0) as [E|E].
  { eexists. split; [done|]. simpl.
    assert (unicode_len (kv_name v) = 0) as E1 by lia. assert (kv_len v = 0) as E2 by lia.
    rewrite E1, E2 in *.
    destruct (bytes_of_wchars (kv_name v)); [|simpl in *; lia].
    destruct (default [] (kv_data v)); [|simpl in *; lia]. done. }
  destruct (Z.ltb_spec (unicode_len (kv_name v)) (unicode_len (kv_name v) + kv_len v)).
  - eexists. split; [done|]. simpl. split; [done|].
    rewrite <- Hbytes, !Nat2Z.id, firstn_all, take_app_length, drop_app_length.
    split; [done|]. do 3 f_equal; [lia|]. symmetry. apply take_ge. lia.
  - eexists. split; [done|]. simpl.
    assert (kv_len v = 0) as E2 by lia. rewrite E2 in *. rewrite Z.add_0_r.
    split; [done|]. rewrite <- Hbytes, !Nat2Z.id, !firstn_all, drop_all.
    split; [done|]. rewrite Z.sub_diag. do 3 f_equal.
    by destruct (default [] (kv_data v)).
Qed.

(** X9: in every state the engine reaches, the values and the subkeys of
    every key fit the arrays allocated for them: [last_value + 1] is at
    most [nb_values] and [last_subkey + 1] at most [nb_subkeys], and each
    allocation is empty or holds at least [MIN_VALUES] and [MIN_SUBKEYS]
    entries. *)
Theorem reachable_arrays_fit s a k :
  reachable s -> heap s !! a = Some k ->
  last_value k + 1 <= k_nb_values k /\
  (k_nb_values k = 0 \/ MIN_VALUES <= k_nb_values k) /\
  last_subkey k + 1 <= k_nb_subkeys k /\
  (k_nb_subkeys k = 0 \/ MIN_SUBKEYS <= k_nb_subkeys k).
Proof. intros Hr Hk. by apply (reachable_capacity s Hr a k). Qed.

(** X10: in every state the engine reaches, the keys form a tree below
    the root key: the subkeys of a key are exactly the keys whose parent
    it is, each listed once; a parent was allocated before its subkeys, so
    that no key is its own ancestor; the subkeys of a volatile key are
    volatile; and the root key is the first key of the arena, named
    [REGISTRY], without a parent. *)
Theorem reachable_tree s :
  reachable s ->
  tree_ok (heap s) /\
  (forall a, ~ ancestor (heap s) a a) /\
  (forall a c, ancestor (heap s) a c -> (a < c)%nat) /\
  root_key s = O /\
  exists k, heap s !! root_key s = Some k /\ k_name k = registryW /\ k_parent k = None.
Proof.
  intros Hr. destruct (reachable_ok s Hr) as [[Hup Hln] _].
  split; [done|]. split; [|split].
  - intros a Ha. apply ancestor_below in Ha; [lia|done].
  - intros a c. by apply ancestor_below.
  - destruct (reachable_root s Hr) as (->&k&Hk&Hn). split; [done|].
    exists k. split; [done|]. split; [done|].
    destruct (k_parent k) as [p|] eqn:Hp; [|done].
    pose proof (up_below _ Hup _ _ _ Hk Hp). lia.
Qed.

(** X11: what [touch_key] leaves alone.  It changes neither the root,
    the error nor the clock; of every key it keeps the name, the class,
    the parent, the subkeys, the values and the allocations; the only
    flag it may set is [KEY_DIRTY]; it stamps the key it is called on with
    the current time and no other key; and it neither adds nor removes a
    notification: each is kept, or kept with its event set and
    forgotten. *)
Theorem touch_key_frame s a change s' :
  touch_key s a change = Some s' ->
  root_key s' = root_key s /\ last_error s' = last_error s /\
  current_time s' = current_time s /\ length (heap s') = length (heap s) /\
  forall x kx, heap s !! x = Some kx ->
    exists kx', heap s' !! x = Some kx' /\ touched kx kx' /\
      k_modif kx' = (if decide (x = a) then current_time s else k_modif kx) /\
      Forall2 disarmed (k_notify_list kx) (k_notify_list kx').
Proof.
  intros Ht. destruct (touch_key_touched _ _ _ _ Ht) as (F&Hr&He&Hc).
  split; [done|]. split; [done|]. split; [done|].
  split; [symmetry; by eapply Forall2_length|].
  intros x kx Hx. destruct (touch_key_kept _ _ _ _ Ht x kx Hx) as (kx'&Hx'&Hm&Hn).
  exists kx'. split; [done|]. split; [|done].
  destruct (Forall2_lookup_l _ _ _ _ _ F Hx) as (kx2&Hx2&Hrel). congruence.
Qed.

End ValueTheorems.

Section KeyTheorems.
Context `{cm : Casemap}.

(** X12: [delete_key] on a key below a parent.  Without [recurse], a key
    that has subkeys is refused with [STATUS_ACCESS_DENIED] and nothing
    changes.  A key without subkeys is deleted: the call returns 0 with no
    error, the key is marked [KEY_DELETED] and has no parent any more, the
    parent lists its other subkeys and not this one, and the parent is
    stamped with the current time and dirty unless volatile.  A handle to
    the key then resolves to nothing, with [STATUS_KEY_DELETED].  (The
    hypothesis on the arena holds in every state the engine reaches,
    lemma [reachable_ok].) *)
Theorem delete_key_leaf (get_handle_obj : state -> Z -> Z -> status + ptr)
    fuel s a k p kp :
  heap_ok (heap s) -> heap s !! a = Some k -> k_parent k = Some p -> heap s !! p = Some kp ->
  (k_subkeys k <> [] ->
     delete_key (S fuel) s a false = Some (-1, set_error s STATUS_ACCESS_DENIED)) /\
  (k_subkeys k = [] -> forall recurse,
     exists s' ka' kp', delete_key (S fuel) s a recurse = Some (0, s') /\
       last_error s' = last_error s /\
       heap s' !! a = Some ka' /\ has_flag (k_flags ka') KEY_DELETED = true /\
       k_parent ka' = None /\
       heap s' !! p = Some kp' /\
       (forall c, c ∈ k_subkeys kp' <-> c ∈ k_subkeys kp /\ c <> a) /\
       k_modif kp' = current_time s /\ (dirty kp' \/ volatile kp') /\
       forall hkey access, get_handle_obj s' hkey access = inr a ->
         get_hkey_obj get_handle_obj s' hkey access
         = Some (None, set_error s' STATUS_KEY_DELETED)).
Proof.
  intros Hok Hk Hp Hkp. split.
  - intros Hsub. simpl. rewrite Hk. simpl. unfold last_subkey.
    destruct (k_subkeys k); [done|]. simpl length.
    destruct (Z.leb_spec 0 (Z.of_nat (S (length l)) - 1)); [done|lia].
  - intros Hsub recurse. simpl. rewrite Hk. simpl. unfold last_subkey. rewrite Hsub. simpl.
    rewrite andb_false_r.
    pose proof Hok as [[Hup Hln] Hds].
    destruct (free_subkey_linked _ _ _ _ _ Hln Hk Hp Hkp) as (i&Hi&Hfree).
    rewrite Hfree. simpl. rewrite Hp.
    set (h1 := <[a := _]> (<[p := _]> (heap s))) in *.
    assert (heap_ok h1) as Hok1.
    { eapply free_subkey_ok; [exact Hok| |exact Hfree]. intros kc. rewrite Hk. by intros [= <-]. }
    assert (p < a)%nat as Hpa by (by eapply up_below).
    assert (a < length (heap s))%nat as Hla by (by eapply lookup_lt_Some).
    destruct (touch_key_total (with_heap s h1) p REG_NOTIFY_CHANGE_NAME) as [s1 Ht].
    { apply Hok1. }
    { simpl. unfold h1. rewrite !length_insert. lia. }
    rewrite Ht. simpl.
    destruct (touch_key_touched _ _ _ _ Ht) as (F&_&He&_). simpl in F, He.
    assert (h1 !! a = Some (with_parent (with_flags k (Z.lor (k_flags k) KEY_DELETED)) None))
      as Ha1.
    { unfold h1. apply list_lookup_insert_eq. rewrite length_insert. lia. }
    assert (h1 !! p = Some (with_subkeys kp (delete i (k_subkeys kp))
                         (shrink (k_nb_subkeys kp)
                            (Z.of_nat (length (delete i (k_subkeys kp))) - 1) MIN_SUBKEYS)))
      as Hp1.
    { unfold h1. rewrite list_lookup_insert_ne by lia. apply list_lookup_insert_eq. lia. }
    destruct (Forall2_lookup_l _ _ _ _ _ F Ha1) as (ka'&Hka'&Hra).
    destruct (Forall2_lookup_l _ _ _ _ _ F Hp1) as (kp'&Hkp'&Hrp).
    exists s1, ka', kp'. split; [done|]. split; [done|]. split; [done|].
    destruct Hra as (_&_&Hpa'&_&_&_&_&Hfa). simpl in Hpa', Hfa.
    split; [destruct Hfa as [-> | ->]; [apply deleted_set|apply deleted_set_dirty_set]|].
    split; [done|]. split; [done|].
    destruct Hrp as (_&_&_&Hsp&_). simpl in Hsp.
    split; [|split; [|split]].
    + intros c. rewrite Hsp. apply elem_of_delete_nodup; [by eapply ln_nodup|done].
    + destruct (touch_key_kept _ _ _ _ Ht p _ Hp1) as (kp2&Hkp2&Hm&_).
      rewrite Hkp' in Hkp2. injection Hkp2 as <-. rewrite Hm.
      by destruct (decide (p = p)).
    + destruct (touch_key_marks _ _ _ _ Ht) as (kp2&Hkp2&Hmark). congruence.
    + intros hkey access Hh. unfold get_hkey_obj. rewrite Hh, Hka'. simpl.
      destruct Hfa as [E|E]; rewrite E, ?deleted_set, ?deleted_set_dirty_set; done.
Qed.

End KeyTheorems.
Section NotifyTheorems.
Context `{cm : Casemap}.

(** X13: a notification fires once.  After a [touch_key], the same
    [touch_key] again signals no event: every notification that matched
    has had its event set and forgotten, on the key and on its ancestors,
    until it is armed again.  (Parents come before their subkeys in every
    state the engine reaches, lemma [reachable_ok].) *)
Theorem touch_key_once s m change s' :
  upward_ok (heap s) -> touch_key s m change = Some s' ->
  exists s'', touch_key s' m change = Some s'' /\ signaled s'' = signaled s'.
Proof.
  intros Hup Ht.
  pose proof (touch_key_upward_ok _ _ _ _ Hup Ht) as Hup'.
  destruct (touch_key_touched _ _ _ _ Ht) as (F&_).
  destruct (touch_key_inv _ _ _ _ Ht) as (km&_&_&Hkm&_).
  destruct (touch_key_total s' m change Hup') as [s'' Ht'].
  { rewrite <- (Forall2_length _ _ _ F). by eapply lookup_lt_Some. }
  exists s''. split; [done|].
  destruct (touch_key_events _ _ _ _ Hup Ht) as (Hlists&_).
  destruct (touch_key_events _ _ _ _ Hup' Ht') as (_&evs&Hsig&Hevs).
  rewrite Hsig. replace evs with (@nil nat); [by rewrite app_nil_r|].
  symmetry. apply no_elements. intros e He. apply Hevs in He.
  assert (Forall2 same_links (heap s) (heap s')) as Fl.
  { eapply Forall2_impl; [exact F|]. apply touched_links. }
  destruct He as [(kx&n&Hx&Hn&Hm&He)|(x&Hanc&kx&n&Hx&Hn&Hm&He)].
  - destruct (Hlists m km Hkm) as (kx'&Hx'&Hhere&_).
    rewrite Hx in Hx'. injection Hx' as <-. rewrite (Hhere eq_refl) in Hn.
    apply list_elem_of_fmap in Hn as (n0&->&_). apply fire_matches in Hm. congruence.
  - apply (ancestor_same_links _ _ _ _ (same_links_sym_list _ _ Fl)) in Hanc.
    destruct (Forall2_lookup_r _ _ _ _ _ F Hx) as (kx0&Hx0&_).
    destruct (Hlists x kx0 Hx0) as (kx'&Hx'&_&Habove&_).
    rewrite Hx in Hx'. injection Hx' as <-. rewrite (Habove Hanc) in Hn.
    apply list_elem_of_fmap in Hn as (n0&->&_). apply fire_matches in Hm. congruence.
Qed.

(** X14: [set_registry_notification] arms one notification for the
    handle of the process and sets [STATUS_PENDING].  When the key holds
    one already, that one gets the new event and keeps its own filter and
    subtree flag, those of the request being ignored; otherwise a new one
    with the filter and subtree flag of the request is added at the head.
    Every other notification is as it was, and the key still holds at
    most one notification for each handle of a process. *)
Theorem set_registry_notification_arms s a k event subtree filter hkey process :
  heap s !! a = Some k -> watch_ok k ->
  exists s' k' n',
    set_registry_notification s a event subtree filter hkey process = Some s' /\
    last_error s' = STATUS_PENDING /\ heap s' !! a = Some k' /\ watch_ok k' /\
    n' ∈ k_notify_list k' /\ notify_id n' = (process, hkey) /\ n_event n' = Some event /\
    (forall n, n ∈ k_notify_list k -> notify_id n = (process, hkey) ->
       n_subtree n' = n_subtree n /\ n_filter n' = n_filter n /\
       length (k_notify_list k') = length (k_notify_list k)) /\
    ((process, hkey) ∉ map notify_id (k_notify_list k) ->
       k_notify_list k' = mk_notify (Some event) subtree filter hkey process :: k_notify_list k) /\
    (forall n, notify_id n <> (process, hkey) ->
       (n ∈ k_notify_list k' <-> n ∈ k_notify_list k)).
Proof.
  intros Hk Hw. unfold set_registry_notification. rewrite Hk. simpl.
  assert (a < length (heap s))%nat as Hlt by (by eapply lookup_lt_Some).
  destruct (find_notify (k_notify_list k) process hkey) as [i|] eqn:Hf.
  - destruct (find_notify_Some _ _ _ _ Hf) as (n0&Hi&Hid).
    set (f := fun n => mk_notify (Some event) (n_subtree n) (n_filter n) (n_hkey n) (n_process n)).
    eexists _, _, (f n0). split; [done|]. split; [done|]. simpl.
    split; [by apply list_lookup_insert_eq|]. simpl.
    split; [unfold watch_ok; simpl; by rewrite alter_ids|].
    split; [|split; [done|split; [done|split; [|split]]]].
    + apply (list_elem_of_lookup_2 _ i). by rewrite list_lookup_alter_eq, Hi.
    + intros n Hn Hidn. rewrite length_alter.
      apply list_elem_of_lookup in Hn as (j&Hj).
      assert (j = i) as ->; [|by replace n with n0 by congruence].
      eapply NoDup_lookup; [exact Hw| |].
      * by rewrite list_lookup_fmap, Hj.
      * rewrite list_lookup_fmap, Hi. simpl. congruence.
    + intros Hnot. destruct Hnot. rewrite <- Hid.
      apply list_elem_of_fmap. exists n0. split; [done|by eapply list_elem_of_lookup_2].
    + intros n Hne. rewrite !list_elem_of_lookup. split; intros (j&Hj).
      * destruct (decide (j = i)) as [->|Hji].
        -- rewrite list_lookup_alter_eq, Hi in Hj. injection Hj as <-. by destruct Hne.
        -- rewrite list_lookup_alter_ne in Hj by done. by exists j.
      * exists j. destruct (decide (j = i)) as [->|Hji].
        -- rewrite Hi in Hj. injection Hj as <-. by destruct Hne.
        -- by rewrite list_lookup_alter_ne.
  - pose proof (find_notify_None _ _ _ Hf) as Hnone.
    eexists _, _, (mk_notify (Some event) subtree filter hkey process).
    split; [done|]. split; [done|]. simpl.
    split; [by apply list_lookup_insert_eq|]. simpl.
    split; [unfold watch_ok; simpl; by apply NoDup_cons|].
    split; [by left|]. split; [done|]. split; [done|]. split; [|split; [done|]].
    + intros n Hn Hidn. destruct Hnone. rewrite <- Hidn.
      apply list_elem_of_fmap. by exists n.
    + intros n Hne. rewrite elem_of_cons. split; [|by right].
      intros [->|?]; [by destruct Hne|done].
Qed.

(** X15: in every state the engine reaches, a key holds at most one
    notification for each handle of a process. *)
Theorem reachable_notifications s a k (i j : nat) n n' :
  reachable s -> heap s !! a = Some k ->
  k_notify_list k !! i = Some n -> k_notify_list k !! j = Some n' ->
  n_process n = n_process n' -> n_hkey n = n_hkey n' -> i = j.
Proof.
  intros Hr Hk Hi Hj Hp Hh. pose proof (reachable_watch_ok s Hr a k Hk) as Hw.
  eapply NoDup_lookup; [exact Hw| |].
  - by rewrite list_lookup_fmap, Hi.
  - rewrite list_lookup_fmap, Hj. simpl. unfold notify_id. by rewrite Hp, Hh.
Qed.

(** X16: [key_close_handle] lets the handle be closed, and removes the
    notification of that handle: its event, if it is still armed, is
    signalled, and on a key that holds at most one notification for each
    handle none is left for this one; every other notification is as it
    was, and nothing else changes. *)
Theorem key_close_handle_removes s a k process handle :
  heap s !! a = Some k -> watch_ok k ->
  exists s' k', key_close_handle s a process handle = Some (1, s') /\
    heap s' !! a = Some k' /\ watch_ok k' /\
    ((process, handle) ∉ map notify_id (k_notify_list k')) /\
    (forall n, notify_id n <> (process, handle) ->
       (n ∈ k_notify_list k' <-> n ∈ k_notify_list k)) /\
    (forall e, e ∈ signaled s' <->
       e ∈ signaled s \/
       exists n, n ∈ k_notify_list k /\ notify_id n = (process, handle) /\
                 n_event n = Some e) /\
    last_error s' = last_error s /\
    forall b kb, b <> a -> heap s !! b = Some kb -> heap s' !! b = Some kb.
Proof.
  intros Hk Hw. unfold key_close_handle. rewrite Hk. simpl.
  assert (a < length (heap s))%nat as Hlt by (by eapply lookup_lt_Some).
  destruct (find_notify (k_notify_list k) process handle) as [i|] eqn:Hf.
  - destruct (find_notify_Some _ _ _ _ Hf) as (n0&Hi&Hid). rewrite Hi. simpl.
    eexists _, _. split; [done|]. simpl. split; [by apply list_lookup_insert_eq|]. simpl.
    assert (forall n, n ∈ delete i (k_notify_list k) <->
                      n ∈ k_notify_list k /\ notify_id n <> (process, handle)) as Hdel.
    { intros n. rewrite !list_elem_of_lookup. split.
      - intros (j&Hj). apply lookup_delete_back in Hj as (j'&Hne&Hj').
        split; [by exists j'|]. intros Hidn. destruct Hne.
        eapply NoDup_lookup; [exact Hw| |].
        + by rewrite list_lookup_fmap, Hj'.
        + rewrite list_lookup_fmap, Hi. simpl. congruence.
      - intros [(j&Hj) Hne]. destruct (decide (j < i)%nat).
        + exists j. by rewrite list_lookup_delete_lt.
        + assert (j <> i) by (intros ->; congruence).
          exists (pred j). rewrite list_lookup_delete_ge by lia.
          by replace (S (pred j)) with j by lia. }
    split; [|split; [|split; [|split; [|split; [done|]]]]].
    + unfold watch_ok in *. simpl. rewrite list_fmap_delete. eapply sublist_NoDup; [exact Hw|apply sublist_delete].
    + intros (n&Hidn&Hn)%list_elem_of_fmap. apply Hdel in Hn as [_ Hne]. by destruct Hne.
    + intros n Hne. rewrite Hdel. tauto.
    + intros e. rewrite elem_of_app. apply or_iff_compat_l.
      unfold do_notification. split.
      * destruct (n_event n0) as [e0|] eqn:He0; simpl; [|by intros ?%elem_of_nil].
        intros ->%list_elem_of_singleton. exists n0.
        split; [by eapply list_elem_of_lookup_2|done].
      * intros (n&Hn&Hidn&He). apply list_elem_of_lookup in Hn as (j&Hj).
        assert (j = i) as ->.
        { eapply NoDup_lookup; [exact Hw| |].
          - by rewrite list_lookup_fmap, Hj.
          - rewrite list_lookup_fmap, Hi. simpl. congruence. }
        replace n0 with n by congruence. rewrite He. simpl. by left.
    + intros b kb Hne Hb. by rewrite list_lookup_insert_ne.
  - pose proof (find_notify_None _ _ _ Hf) as Hnone.
    exists s, k. split; [done|]. split; [done|]. split; [done|]. split; [done|].
    split; [done|]. split; [|done].
    intros e. split; [by left|]. intros [?|(n&Hn&Hidn&_)]; [done|].
    destruct Hnone. rewrite <- Hidn. apply list_elem_of_fmap. by exists n.
Qed.

End NotifyTheorems.
Section SubkeyTheorems.
Context `{cm : Casemap}.

(** X17: on a key whose subkeys are sorted by name, [find_subkey]
    returns, and it finds a subkey exactly when the key has one of that
    name up to case: it returns that subkey, and it returns a subkey only
    if it is listed and has that name.  (The subkeys are sorted in every
    state the engine reaches, lemma [reachable_subkeys_ok].) *)
Theorem find_subkey_sorted h a k name :
  subkeys_ok h -> h !! a = Some k ->
  (exists r, find_subkey h k name = Some r) /\
  (forall c kc, c ∈ k_subkeys k -> h !! c = Some kc ->
     fold_name (k_name kc) = fold_name name -> find_subkey h k name = Some (Some c)) /\
  (forall c, find_subkey h k name = Some (Some c) ->
     c ∈ k_subkeys k /\
     exists kc, h !! c = Some kc /\ fold_name (k_name kc) = fold_name name).
Proof.
  intros Hok Hk. destruct (Hok a k Hk) as [Hlt Hs].
  destruct (find_subkey_result h k name Hlt) as (r&Hr&Hfound).
  split; [by exists r|]. split.
  - intros c kc (j&Hj)%list_elem_of_lookup Hc Hn.
    eapply find_subkey_found; try done. by apply compare_name_eq_iff.
  - intros c Hc. rewrite Hr in Hc. injection Hc as ->.
    destruct (Hfound c eq_refl) as (j&kc&Hj&Hkc&Hcmp).
    split; [by eapply list_elem_of_lookup_2|].
    exists kc. split; [done|]. by apply compare_name_eq_iff.
Qed.

(** X18: in every state the engine reaches, the subkeys of every key are
    keys of the arena, listed in the order of their names, and no two
    subkeys of a key have the same name up to case. *)
Theorem reachable_subkeys s a k (i j : nat) ci cj :
  reachable s -> heap s !! a = Some k ->
  k_subkeys k !! i = Some ci -> k_subkeys k !! j = Some cj ->
  exists ki kj, heap s !! ci = Some ki /\ heap s !! cj = Some kj /\
    ((i < j)%nat -> compare_name (k_name ki) (k_name kj) < 0) /\
    (fold_name (k_name ki) = fold_name (k_name kj) -> i = j).
Proof.
  intros Hr Hk Hi Hj. destruct (reachable_subkeys_ok s Hr a k Hk) as [Hlt Hs].
  destruct (lookup_lt_is_Some_2 (heap s) ci) as [ki Hki].
  { apply Hlt. by eapply list_elem_of_lookup_2. }
  destruct (lookup_lt_is_Some_2 (heap s) cj) as [kj Hkj].
  { apply Hlt. by eapply list_elem_of_lookup_2. }
  exists ki, kj. split; [done|]. split; [done|]. split.
  - intros Hij. apply (Hs i j); [done| |]; by eapply child_names_lookup.
  - intros Hn. eapply sibling_unique; try done. by apply compare_name_eq_iff.
Qed.

(** X19: [key_link_name] links a key under its parent at the place its
    name belongs.  When no subkey of the parent has the name up to case,
    which the code asserts, the call returns: the subkeys stay sorted,
    the parent lists the key besides the subkeys it had, the key has the
    parent as its parent, and [find_subkey] on the parent then finds the
    key under its name.  (The hypotheses on the arena hold in every state
    the engine reaches, lemmas [reachable_ok] and [reachable_subkeys_ok],
    and after a key was allocated, lemmas [alloc_ok] and
    [subkeys_ok_snoc].) *)
Theorem key_link_name_find_subkey s c kc name parent kp :
  upward_ok (heap s) -> subkeys_ok (heap s) -> heap s !! c = Some kc -> k_name kc = name ->
  heap s !! parent = Some kp ->
  (forall x kx, x ∈ k_subkeys kp -> heap s !! x = Some kx ->
     fold_name (k_name kx) <> fold_name name) ->
  exists s', key_link_name s c name parent = Some s' /\
    subkeys_ok (heap s') /\
    exists kp' kc', heap s' !! parent = Some kp' /\ heap s' !! c = Some kc' /\
      k_parent kc' = Some parent /\ k_name kc' = name /\
      (forall x, x ∈ k_subkeys kp' <-> x = c \/ x ∈ k_subkeys kp) /\
      find_subkey (heap s') kp' name = Some (Some c).
Proof.
  intros Hup Hok Hc Hn Hkp Hnew.
  destruct (key_link_name_total s c kc name parent kp Hup Hok Hc Hkp Hnew) as [s' Hlink].
  exists s'. split; [done|].
  pose proof (key_link_name_subkeys _ _ _ _ _ _ Hok Hc Hn Hlink) as Hok'.
  split; [done|].
  apply key_link_name_find in Hlink as (kp0&index&s1&kc1&Hkp0&Hfind&Ht&Hkc1&->).
  rewrite Hkp in Hkp0. injection Hkp0 as <-.
  destruct (Hok parent kp Hkp) as [Hlt Hs].
  destruct (find_subkey_index_miss _ _ _ _ Hlt Hs Hfind) as (Hidx&_).
  destruct (touch_key_touched _ _ _ _ Ht) as (F&_). simpl in F, Hok'.
  assert (c < length (heap s))%nat as Hcl by (by eapply lookup_lt_Some).
  assert (parent < length (heap s))%nat as Hpl by (by eapply lookup_lt_Some).
  assert (length (heap s1) = length (heap s)) as Hlen.
  { rewrite <- (Forall2_length _ _ _ F). by rewrite length_insert. }
  set (subs := take (Z.to_nat index) (k_subkeys kp) ++ c :: drop (Z.to_nat index) (k_subkeys kp))
    in *.
  assert (exists kp', (<[c := with_parent kc1 (Some parent)]> (heap s1)) !! parent = Some kp' /\
                      k_subkeys kp' = subs) as (kp'&Hkp'&Hsubs).
  { destruct (Forall2_lookup_l _ _ _ parent _ F (list_lookup_insert_eq _ _ _ Hpl))
      as (kp1&Hkp1&Hrel).
    destruct Hrel as (_&_&_&Hs1&_). simpl in Hs1.
    destruct (decide (parent = c)) as [->|Hne].
    - eexists. split; [apply list_lookup_insert_eq; lia|]. simpl. congruence.
    - exists kp1. split; [by rewrite list_lookup_insert_ne|done]. }
  assert (k_name kc1 = name) as Hn1.
  { destruct (Forall2_lookup_r _ _ _ _ _ F Hkc1) as (k0&Hk0&Hrel).
    destruct Hrel as (Hname&_). rewrite Hname.
    destruct (decide (c = parent)) as [->|Hne].
    - rewrite list_lookup_insert_eq in Hk0 by done. injection Hk0 as <-. simpl. congruence.
    - rewrite list_lookup_insert_ne in Hk0 by done. congruence. }
  exists kp', (with_parent kc1 (Some parent)). simpl.
  split; [done|]. split; [apply list_lookup_insert_eq; lia|]. split; [done|]. split; [done|].
  split.
  - intros x. rewrite Hsubs. unfold subs. rewrite elem_of_app, elem_of_cons.
    rewrite <- (take_drop (Z.to_nat index) (k_subkeys kp)) at 3. rewrite elem_of_app. tauto.
  - destruct (Hok' parent kp' Hkp') as [Hlt' Hs'].
    apply (find_subkey_found _ _ _ (Z.to_nat index) c (with_parent kc1 (Some parent)));
      try done.
    + rewrite Hsubs. apply lookup_insert_at. lia.
    + apply list_lookup_insert_eq. lia.
    + simpl. rewrite Hn1. apply compare_name_refl.
Qed.

End SubkeyTheorems.
Section SaveTheorems.

(** X20: what [save_branch] leaves behind.  Of the arena it changes
    nothing but [KEY_DIRTY] flags, which it clears, and nothing at all
    when it returns 0.  On a key that is not dirty it returns 1 without a
    system call.  A temp file that it created is renamed to the file, or
    it is unlinked and the save returns 0.  After a save that returned
    non-zero, of a key that is not volatile, the same save again finds the
    key clean: it returns 1 without a system call. *)
Theorem save_branch_frame w fuel h a path ret h' calls :
  save_branch w fuel h a path = Some (ret, h', calls) ->
  Forall2 cleaned h h' /\
  (ret = 0 -> h' = h) /\
  (forall k, h !! a = Some k -> ~ dirty k -> ret = 1 /\ h' = h /\ calls = []) /\
  (forall tmp, sys_open_excl tmp ∈ calls -> os_open_excl w tmp = Opened ->
     (ret = 1 /\ sys_rename tmp path ∈ calls) \/ (ret = 0 /\ sys_unlink tmp ∈ calls)) /\
  (forall k, h !! a = Some k -> ~ volatile k -> ret <> 0 ->
     save_branch w fuel h' a path = Some (1, h', [])).
Proof.
  intros Hsave. unfold save_branch in Hsave.
  destruct (h !! a) as [k|] eqn:Hk; simpl in Hsave; [|done].
  destruct (has_flag (k_flags k) KEY_DIRTY) eqn:Hd; simpl in Hsave.
  2:{ injection Hsave as <- <- <-. split; [apply Forall2_refl_list|]. split; [done|].
      split; [done|]. split; [by intros tmp ?%elem_of_nil|].
      intros k0 [= <-] _ _. by eapply save_branch_clean. }
  revert Hsave.
  match goal with |- (?m ≫= _) = _ -> _ => destruct m as [[tmp t1]|] eqn:Htmp; simpl; [|done] end.
  destruct (if write_in_place w || bool_decide (is_Some tmp) then write_branch w path tmp
            else (0, [])) as [r t2] eqn:Hw.
  match goal with |- (?m ≫= _) = _ -> _ => destruct m as [h1|] eqn:Hclean; simpl; [|done] end.
  intros [= <- <- <-].
  assert (Forall2 cleaned h h1 /\ (r = 0 -> h1 = h) /\
          (r <> 0 -> make_clean (length h) h a = Some h1)) as (F&Hzero&Hmc).
  { destruct (Z.eqb_spec r 0).
    - injection Hclean as <-. split; [apply Forall2_refl_list|done].
    - apply make_clean_spec in Hclean as Hspec. destruct Hspec as (F&_). done. }
  split; [done|]. split; [done|].
  split; [intros k0 [= <-] Hnd; by destruct Hnd|]. split.
  - intros tmp0 Hin Hopened.
    assert (sys_open_excl tmp0 ∉
              (if os_open w
               then [sys_open path; sys_lstat path]
                    ++ (if write_in_place w then [sys_ftruncate] else [sys_close])
               else [sys_open path])) as Hprobe.
    { destruct (os_open w), (write_in_place w); simpl; intros H;
        repeat (apply elem_of_cons in H as [?|H]; [done|]); by apply elem_of_nil in H. }
    apply elem_of_app in Hin as [Hin|Hin]; [done|].
    destruct (write_in_place w) eqn:Hplace; simpl in *.
    + injection Htmp as <- <-. simpl in Hin.
      by apply (write_branch_plain _ _ _ _ tmp0) in Hw.
    + destruct (create_temp w fuel path 0) as [[r0 t0]|] eqn:Hc; simpl in Htmp; [|done].
      assert (tmp = r0 /\ t1 = t0) as [-> ->] by (destruct r0; by injection Htmp as <- <-).
      destruct r0 as [tmp1|]; simpl in Hw.
      * apply write_branch_temp in Hw as Hout.
        apply elem_of_app in Hin as [Hin|Hin].
        -- pose proof (create_temp_opened _ _ _ _ _ _ _ Hc Hin Hopened) as [= ->].
           destruct Hout as [[-> ?]|[-> ?]]; [left|right]; (split; [done|]);
             apply elem_of_app; right; apply elem_of_app; by right.
        -- exfalso. unfold write_branch in Hw. destruct (os_fdopen w); simpl in Hw.
           ++ injection Hw as _ <-. destruct (os_fclose w), (os_rename w); simpl in Hin;
                repeat (apply elem_of_cons in Hin as [?|Hin]; [done|]);
                by apply elem_of_nil in Hin.
           ++ injection Hw as _ <-.
              repeat (apply elem_of_cons in Hin as [?|Hin]; [done|]);
                by apply elem_of_nil in Hin.
      * injection Hw as <- <-. rewrite app_nil_r in Hin.
        by pose proof (create_temp_opened _ _ _ _ _ _ _ Hc Hin Hopened).
  - intros k0 [= <-] Hv Hr. specialize (Hmc Hr).
    apply make_clean_spec in Hmc as (_&Hat&_).
    destruct (Forall2_lookup_l _ _ _ _ _ F Hk) as (k1&Hk1&Hrel).
    eapply save_branch_clean; [done|].
    destruct (has_flag (k_flags k1) KEY_DIRTY) eqn:E; [|done].
    destruct (Hat k1 Hk1); [|done]. by rewrite (cleaned_volatile _ _ Hrel).
Qed.

End SaveTheorems.
Section LookupTheorems.
Context `{cm : Casemap}.

(** X21: one step of a lookup, [key_lookup_name], on a key that is not
    named [Wow6432Node], without the WoW64 attribute.  The element looked
    up is the path up to its first backslash.  An empty element gives
    nothing, without an error; an element of more than [MAX_NAME_LEN]
    characters fails with [STATUS_INVALID_PARAMETER]; when no subkey has
    the name of the element up to case, nothing is found, with
    [STATUS_OBJECT_NAME_NOT_FOUND] only if the path goes on behind the
    element; and a subkey of that name that is not a symbolic link, or
    any subkey of that name under [OBJ_OPENLINK], is returned with the
    path behind the element and its backslashes, the engine unchanged and
    the resolver of links not consulted.  (The subkeys are sorted in
    every state the engine reaches, lemma [reachable_subkeys_ok].) *)
Theorem key_lookup_name_step open fuel s a k name attr :
  subkeys_ok (heap s) -> heap s !! a = Some k -> is_wow6432node (k_name k) = false ->
  has_flag attr WINE_OBJ_WOW64 = false ->
  (first_element name = [] ->
     key_lookup_name open fuel s a (Some name) attr = Some (None, name, s)) /\
  (MAX_NAME_LEN < Z.of_nat (length (first_element name)) ->
     key_lookup_name open fuel s a (Some name) attr
     = Some (None, name, set_error s STATUS_INVALID_PARAMETER)) /\
  (first_element name <> [] -> Z.of_nat (length (first_element name)) <= MAX_NAME_LEN ->
     (forall c kc, c ∈ k_subkeys k -> heap s !! c = Some kc ->
        fold_name (k_name kc) <> fold_name (first_element name)) ->
     key_lookup_name open fuel s a (Some name) attr
     = Some (None, name,
             if (length (first_element name) <? length name)%nat
             then set_error s STATUS_OBJECT_NAME_NOT_FOUND else s)) /\
  (forall c kc,
     first_element name <> [] -> Z.of_nat (length (first_element name)) <= MAX_NAME_LEN ->
     c ∈ k_subkeys k -> heap s !! c = Some kc ->
     fold_name (k_name kc) = fold_name (first_element name) ->
     has_flag attr OBJ_OPENLINK = true \/ has_flag (k_flags kc) KEY_SYMLINK = false ->
     key_lookup_name open (S fuel) s a (Some name) attr
     = Some (Some c, skip_backslashes (drop (length (first_element name)) name), s)).
Proof.
  intros Hok Hk Hwow Hattr. unfold key_lookup_name. rewrite Hk. simpl. rewrite Hwow.
  destruct (Hok a k Hk) as [Hlt Hs]. rewrite name_too_long, unicode_len_ltb.
  split; [|split; [|split]].
  - intros He. by rewrite (proj2 (Z.eqb_eq _ _) (proj2 (unicode_len_nil _) He)).
  - intros Hl. destruct (Z.eqb_spec (unicode_len (first_element name)) 0) as [E|E].
    { apply unicode_len_nil in E. rewrite E in Hl. unfold MAX_NAME_LEN in Hl. simpl in Hl. lia. }
    by rewrite (proj2 (Z.ltb_lt _ _) Hl).
  - intros Hne Hl Hnone.
    destruct (Z.eqb_spec (unicode_len (first_element name)) 0) as [E|E];
      [by apply unicode_len_nil in E|].
    destruct (Z.ltb_spec MAX_NAME_LEN (Z.of_nat (length (first_element name)))); [lia|].
    destruct (find_subkey_result (heap s) k (first_element name) Hlt) as (r&Hr&Hfound).
    rewrite Hr. simpl. destruct r as [c|]; [|by destruct (_ <? _)%nat].
    destruct (Hfound c eq_refl) as (j&kc&Hj&Hkc&Hcmp).
    destruct (Hnone c kc); [by eapply list_elem_of_lookup_2|done|].
    by apply compare_name_eq_iff.
  - intros c kc Hne Hl Hc Hkc Hn Hplain.
    destruct (Z.eqb_spec (unicode_len (first_element name)) 0) as [E|E];
      [by apply unicode_len_nil in E|].
    destruct (Z.ltb_spec MAX_NAME_LEN (Z.of_nat (length (first_element name)))); [lia|].
    apply list_elem_of_lookup in Hc as (j&Hj).
    rewrite (find_subkey_found (heap s) k (first_element name) j c kc Hlt Hs Hj Hkc).
    2:{ by apply compare_name_eq_iff. }
    simpl. rewrite Hattr.
    destruct (has_flag attr OBJ_OPENLINK) eqn:Hopen; simpl; [done|].
    destruct Hplain as [?|Hplain]; [done|]. by rewrite Hkc; simpl; rewrite Hplain.
Qed.

(** X22: a lookup that meets a symbolic link, without [OBJ_OPENLINK].
    [follow_symlink] opens the path that the value [SymbolicLinkValue] of
    the link holds, its length rounded down to whole characters: from the
    root for a path that starts with a backslash, from the parent of the
    link otherwise, with [OBJ_OPENLINK] added to the attributes and the
    WoW64 attribute removed.  A link that has no such value, or whose
    target cannot be opened, is returned itself, in the second case with
    the engine as the failed open left it; a target that is not a link
    is returned instead of the link.  (The subkeys and the values are
    sorted in every state the engine reaches.) *)
Theorem key_lookup_name_link open fuel s a k name attr c kc :
  subkeys_ok (heap s) -> heap s !! a = Some k -> is_wow6432node (k_name k) = false ->
  has_flag attr WINE_OBJ_WOW64 = false -> has_flag attr OBJ_OPENLINK = false ->
  first_element name <> [] -> Z.of_nat (length (first_element name)) <= MAX_NAME_LEN ->
  c ∈ k_subkeys k -> heap s !! c = Some kc ->
  fold_name (k_name kc) = fold_name (first_element name) ->
  has_flag (k_flags kc) KEY_SYMLINK = true -> values_sorted kc ->
  let rest := skip_backslashes (drop (length (first_element name)) name) in
  ((forall v, v ∈ k_values kc -> fold_name (kv_name v) <> fold_name symlink_value) ->
     follow_symlink open s c attr = Some (None, s)) /\
  (forall v, v ∈ k_values kc -> fold_name (kv_name v) = fold_name symlink_value ->
     let path := take (Z.to_nat (Z.quot (kv_len v) sizeof_WCHAR))
                      (wchars_of_bytes (default [] (kv_data v))) in
     follow_symlink open s c attr
     = open s (match path with
               | c0 :: _ => if c0 =? backslash then None else k_parent kc
               | [] => k_parent kc
               end)
         path (Z.land (Z.lor attr OBJ_OPENLINK) (Z.lnot WINE_OBJ_WOW64))) /\
  (forall s1, follow_symlink open s c attr = Some (None, s1) ->
     key_lookup_name open (S fuel) s a (Some name) attr = Some (Some c, rest, s1)) /\
  (forall t kt s1, follow_symlink open s c attr = Some (Some t, s1) ->
     heap s1 !! t = Some kt -> has_flag (k_flags kt) KEY_SYMLINK = false ->
     key_lookup_name open (S (S fuel)) s a (Some name) attr = Some (Some t, rest, s1)).
Proof.
  intros Hok Hk Hwow Hattr Hopen Hne Hl Hc Hkc Hn Hlink Hsorted rest.
  split; [|split].
  - intros Hnone. unfold follow_symlink. rewrite Hkc. simpl.
    pose proof (find_value_linear kc symlink_value Hsorted) as Hlin.
    rewrite (proj2 (value_named_none kc symlink_value) Hnone) in Hlin.
    destruct Hlin as (index&->). done.
  - intros v Hv Hname path. unfold follow_symlink. rewrite Hkc. simpl.
    apply list_elem_of_lookup in Hv as (i&Hi).
    rewrite (find_value_present kc symlink_value i v Hsorted Hi).
    2:{ by apply compare_name_eq_iff. }
    simpl. rewrite array_get_of_nat, Hi. simpl. fold path.
    destruct path as [|c0 path0]; [done|]. by destruct (c0 =? backslash).
  - assert (forall fuel', key_lookup_name open fuel' s a (Some name) attr
              = '(r, s1, _) ← resolve_symlinks open fuel' s c attr 0;
                match r with
                | Some f1 => Some (Some f1, rest, s1)
                | None => Some (None, name, s1)
                end) as Hstep.
    { intros fuel'. unfold key_lookup_name. rewrite Hk. simpl. rewrite Hwow.
      rewrite name_too_long.
      destruct (Z.eqb_spec (unicode_len (first_element name)) 0) as [E|E];
        [by apply unicode_len_nil in E|].
      destruct (Z.ltb_spec MAX_NAME_LEN (Z.of_nat (length (first_element name)))); [lia|].
      destruct (Hok a k Hk) as [Hlt Hs].
      apply list_elem_of_lookup in Hc as (j&Hj).
      rewrite (find_subkey_found (heap s) k (first_element name) j c kc Hlt Hs Hj Hkc).
      2:{ by apply compare_name_eq_iff. }
      simpl. rewrite Hopen. simpl.
      destruct (resolve_symlinks open fuel' s c attr 0) as [[[r s1] n]|]; simpl; [|done].
      destruct r; [|done]. by rewrite Hattr. }
    split.
    + intros s1 Hf. rewrite Hstep. simpl. rewrite Hkc. simpl. rewrite Hlink, Hf. done.
    + intros t kt s1 Hf Hkt Hplain. rewrite Hstep. simpl. rewrite Hkc. simpl.
      rewrite Hlink, Hf. simpl. rewrite Hkt. simpl. by rewrite Hplain.
Qed.

End LookupTheorems.
Section AccessTheorems.

(** X23: [key_map_access] replaces the generic rights of an access mask
    by the rights of keys.  The result holds none of the four generic
    bits and neither of the two WoW64 bits, so mapping it again changes
    nothing; it holds [KEY_READ] for [GENERIC_READ], [KEY_WRITE] for
    [GENERIC_WRITE], [KEY_EXECUTE] (the same bits as [KEY_READ]) for
    [GENERIC_EXECUTE] and [KEY_ALL_ACCESS] for [GENERIC_ALL]; and a mask
    without generic bits is returned without its WoW64 bits. *)
Theorem key_map_access_rights access :
  let generic :=
    Z.lor GENERIC_READ (Z.lor GENERIC_WRITE (Z.lor GENERIC_EXECUTE GENERIC_ALL)) in
  let wow64 := Z.lor KEY_WOW64_64KEY KEY_WOW64_32KEY in
  Z.land (key_map_access access) (Z.lor generic wow64) = 0 /\
  key_map_access (key_map_access access) = key_map_access access /\
  (has_flag access GENERIC_READ = true ->
     Z.land (key_map_access access) KEY_READ = KEY_READ) /\
  (has_flag access GENERIC_WRITE = true ->
     Z.land (key_map_access access) KEY_WRITE = KEY_WRITE) /\
  (has_flag access GENERIC_EXECUTE = true ->
     Z.land (key_map_access access) KEY_EXECUTE = KEY_EXECUTE) /\
  (has_flag access GENERIC_ALL = true ->
     Z.land (key_map_access access) KEY_ALL_ACCESS = KEY_ALL_ACCESS) /\
  (has_flag access generic = false ->
     key_map_access access = Z.land access (to_uint (Z.lnot wow64))).
Proof.
  intros generic wow64. split; [|split; [|split; [|split; [|split; [|split]]]]].
  - unfold key_map_access; cbv zeta. by rewrite <- Z.land_assoc, Z.land_0_r.
  - unfold key_map_access at 1; cbv zeta.
    assert (forall g, g ∈ [GENERIC_READ; GENERIC_WRITE; GENERIC_EXECUTE; GENERIC_ALL] ->
              has_flag (key_map_access access) g = false) as Hno.
    { intros g Hg. apply has_flag_masked.
      repeat (apply elem_of_cons in Hg as [->|Hg]; [done|]). by apply elem_of_nil in Hg. }
    rewrite !Hno by (repeat constructor).
    unfold key_map_access; cbv zeta. by rewrite <- Z.land_assoc.
  - intros H. unfold key_map_access; cbv zeta. rewrite H, land_masked by done.
    repeat match goal with |- context [has_flag ?a ?b] => destruct (has_flag a b) end; solve [repeat first [apply land_lor_keep | apply land_lor_more]].
  - intros H. unfold key_map_access; cbv zeta. rewrite land_masked by done.
    destruct (has_flag access GENERIC_READ);
      [apply (has_flag_lor _ KEY_READ) in H|]; rewrite H;
      repeat match goal with |- context [has_flag ?a ?b] => destruct (has_flag a b) end; solve [repeat first [apply land_lor_keep | apply land_lor_more]].
  - intros H. unfold key_map_access; cbv zeta. rewrite land_masked by done.
    destruct (has_flag access GENERIC_READ);
      [apply (has_flag_lor _ KEY_READ) in H|];
      (destruct (has_flag _ GENERIC_WRITE); [apply (has_flag_lor _ KEY_WRITE) in H|]);
      rewrite H; repeat match goal with |- context [has_flag ?a ?b] => destruct (has_flag a b) end; solve [repeat first [apply land_lor_keep | apply land_lor_more]].
  - intros H. unfold key_map_access; cbv zeta. rewrite land_masked by done.
    destruct (has_flag access GENERIC_READ);
      [apply (has_flag_lor _ KEY_READ) in H|];
      (destruct (has_flag _ GENERIC_WRITE); [apply (has_flag_lor _ KEY_WRITE) in H|]);
      (destruct (has_flag _ GENERIC_EXECUTE); [apply (has_flag_lor _ KEY_EXECUTE) in H|]);
      rewrite H; apply land_lor_keep.
  - intros H. unfold key_map_access; cbv zeta.
    rewrite !(has_flag_part access generic) by done.
    change (to_uint (Z.lnot wow64))
      with (Z.lor (to_uint (Z.lnot (Z.lor GENERIC_READ (Z.lor GENERIC_WRITE
              (Z.lor GENERIC_EXECUTE (Z.lor GENERIC_ALL
                 (Z.lor KEY_WOW64_64KEY KEY_WOW64_32KEY))))))) generic).
    rewrite Z.land_lor_distr_r.
    unfold has_flag in H. apply negb_false_iff, Z.eqb_eq in H. by rewrite H, Z.lor_0_r.
Qed.

End AccessTheorems.

Section RequestTheorems.
Context `{cm : Casemap}.

(** X24: the handler of [set_key_value].  The data of the request is
    split at [namelen]: the name is the bytes before it, cut to whole
    characters, the value is the bytes behind it, so that a byte at an
    odd [namelen] belongs to neither.  A [namelen] beyond the data fails
    with [STATUS_INVALID_PARAMETER] before the handle is looked at;
    otherwise the handle is resolved once, for [KEY_SET_VALUE]: an error
    of the handle table is the error of the request, a deleted key fails
    with [STATUS_KEY_DELETED], in both cases without a change of a key,
    and on a live key the request is [set_value] of the name, the type
    and the value. *)
Theorem set_key_value_handler_request (get_handle_obj : state -> Z -> Z -> status + ptr)
    s hkey type name pad data :
  Forall (fun c => 0 <= c < 65536) name -> (length pad <= 1)%nat ->
  let req := mk_set_key_value_request hkey type
               (unicode_len name + Z.of_nat (length pad))
               (bytes_of_wchars name ++ pad ++ data) in
  let calls := [call_get_handle_obj hkey KEY_SET_VALUE] in
  (forall namelen, Z.of_nat (length data) < namelen ->
     set_key_value_handler get_handle_obj s (mk_set_key_value_request hkey type namelen data)
     = Some (set_error s STATUS_INVALID_PARAMETER, [])) /\
  (forall e, get_handle_obj s hkey KEY_SET_VALUE = inl e ->
     set_key_value_handler get_handle_obj s req = Some (set_error s e, calls)) /\
  (forall a k, get_handle_obj s hkey KEY_SET_VALUE = inr a -> heap s !! a = Some k ->
     set_key_value_handler get_handle_obj s req
     = if has_flag (k_flags k) KEY_DELETED
       then Some (set_error s STATUS_KEY_DELETED, calls)
       else (s' ← set_value s a name type data; Some (s', calls))).
Proof.
  intros Hname Hpad req calls.
  assert ((Z.of_nat (length (sv_data req)) <? sv_namelen req) = false) as Hfits.
  { apply Z.ltb_ge. simpl. rewrite !length_app.
    pose proof (length_bytes_of_wchars name). lia. }
  split; [|split].
  - intros namelen Hlong. unfold set_key_value_handler. simpl.
    by rewrite (proj2 (Z.ltb_lt _ _) Hlong).
  - intros e He. unfold set_key_value_handler. rewrite Hfits.
    unfold get_hkey_obj. simpl. by rewrite He.
  - intros a k Ha Hk. unfold set_key_value_handler. rewrite Hfits.
    unfold get_hkey_obj. simpl. rewrite Ha, Hk. simpl.
    destruct (has_flag (k_flags k) KEY_DELETED); [done|].
    by rewrite request_name, request_data, wchars_of_bytes_of_wchars.
Qed.

End RequestTheorems.

Section ReadTheorems.
Context `{cm : Casemap}.

(** X25: what a step of a lookup, [key_lookup_name], leaves.  With a
    resolver of links that changes the error at most, the step changes
    the error at most: no key, not the root, the time or the events.  A
    step that finds nothing leaves the name as it was; a step that finds
    a key has taken the first element of the name, which is not empty,
    and the backslashes behind it, so that what is left is shorter and
    does not start with a backslash. *)
Theorem key_lookup_name_reads open fuel s a name attr found rest s' :
  error_only open ->
  key_lookup_name open fuel s a (Some name) attr = Some (found, rest, s') ->
  only_error s s' /\
  (found = None -> rest = name) /\
  (is_Some found ->
     exists skipped, name = first_element name ++ skipped ++ rest /\
       first_element name <> [] /\ Forall (fun c => c = backslash) skipped /\
       head rest <> Some backslash).
Proof.
  intros Hopen Hlook. split; [by eapply key_lookup_name_error|].
  assert (first_element name <> [] ->
          exists skipped,
            name = first_element name ++ skipped
                   ++ skip_backslashes (drop (length (first_element name)) name) /\
            first_element name <> [] /\ Forall (fun c => c = backslash) skipped /\
            head (skip_backslashes (drop (length (first_element name)) name))
            <> Some backslash) as Htaken.
  { intros Hne.
    destruct (skip_backslashes_split (drop (length (first_element name)) name))
      as (skipped&Hd&Hs&Hh).
    exists skipped. split; [|done]. rewrite <- Hd. apply first_element_split. }
  revert Hlook. unfold key_lookup_name.
  destruct (heap s !! a) as [k|]; simpl; [|done].
  destruct (Z.eqb_spec (unicode_len (first_element name)) 0) as [E|E].
  { intros [= <- <- <-]. split; [done|]. by intros [? [=]]. }
  assert (first_element name <> []) as Hne by (by intros ?%unicode_len_nil).
  destruct (_ <? _). { intros [= <- <- <-]. split; [done|]. by intros [? [=]]. }
  match goal with |- (?m ≫= _) = _ -> _ => destruct m as [[f|]|]; simpl; [| |done] end.
  2:{ destruct (_ <? _); intros [= <- <- <-]; (split; [done|]); by intros [? [=]]. }
  match goal with |- (?m ≫= _) = _ -> _ => destruct m as [[[r s1] n]|]; simpl; [|done] end.
  destruct r as [f1|]. 2:{ intros [= <- <- <-]. split; [done|]. by intros [? [=]]. }
  destruct (has_flag attr WINE_OBJ_WOW64).
  2:{ intros [= <- <- <-]. split; [done|]. intros _. by apply Htaken. }
  destruct (find_wow64_subkey _ _ _) as [f2|]; simpl; [|done].
  destruct (heap s1 !! f2) as [k2|]; simpl; [|done].
  destruct (is_wow6432node _).
  2:{ intros [= <- <- <-]. split; [done|]. intros _. by apply Htaken. }
  destruct (k_parent k2) as [p2|]; simpl; [|done].
  destruct (heap s1 !! p2) as [kp2|]; simpl; [|done].
  destruct (_ && _); intros [= <- <- <-]; (split; [done|]); intros _; by apply Htaken.
Qed.

End ReadTheorems.

Section PathTheorems.

(** X26: the name of a key, [enum_key] with [KeyNameInformation] and the
    index -1.  For the root key nothing is replied.  For a key below the
    root the name is [root_name] followed, for each key on the way down
    from the root, by a backslash and the name of that key; the reply
    holds the length of this name in bytes as [total], and, when the
    reply buffer is not empty, the same length as [namelen] and the
    bytes of the name, cut to the size of the buffer.  (In every state
    the engine reaches a parent was allocated before its children,
    lemma [reachable_ok].) *)
Theorem enum_key_name_information s a k path max_size reply :
  upward_ok (heap s) -> heap s !! a = Some k ->
  key_path (heap s) (root_key s) a path -> 0 <= max_size ->
  let full := root_name ++ path in
  (a = root_key s ->
     enum_key s a (-1) KeyNameInformation max_size reply = Some (reply, s)) /\
  (a <> root_key s ->
     exists reply',
       enum_key s a (-1) KeyNameInformation max_size reply = Some (reply', s) /\
       r_total reply' = unicode_len full /\
       (0 < max_size ->
          r_namelen reply' = unicode_len full /\
          r_data reply'
          = take (Z.to_nat (Z.min (unicode_len full) max_size)) (bytes_of_wchars full)) /\
       (max_size = 0 ->
          r_namelen reply' = r_namelen reply /\ r_data reply' = r_data reply)).
Proof.
  intros Hup Hk Hpath Hmax full.
  pose proof (lookup_lt_Some _ _ _ Hk) as Ha.
  unfold enum_key. change (negb (-1 =? -1)) with false. cbv iota.
  unfold key_information. rewrite Hk.
  change (KeyNameInformation =? KeyNameInformation) with true.
  cbn -[path_namelen copy_path unicode_len root_name Z.min].
  rewrite (path_namelen_path _ _ _ _ path Hup Hpath) by lia.
  cbn -[path_namelen copy_path unicode_len root_name Z.min].
  split.
  - intros ->. inversion Hpath as [|? ? ? ? Hne]; [done|]. by destruct Hne.
  - intros Hne. inversion Hpath as [E|a0 k0 p path0 _ Hk0 Hp Hpath0 Ea Epath]; [done|].
    rewrite Epath.
    assert (0 < unicode_len path) as Hpos.
    { rewrite <- Epath, unicode_len_app. unfold unicode_len, sizeof_WCHAR. simpl length. lia. }
    destruct (Z.eqb_spec (unicode_len path) 0) as [?|_]; [lia|].
    cbn -[path_namelen copy_path unicode_len root_name Z.min].
    assert (unicode_len path + unicode_len root_name + 0 = unicode_len full) as ->
      by (unfold full; rewrite unicode_len_app; lia).
    assert (unicode_len path + unicode_len root_name = unicode_len full) as ->
      by (unfold full; rewrite unicode_len_app; lia).
    destruct (Z.eqb_spec (Z.min (unicode_len full) max_size) 0) as [Hz|Hnz].
    { eexists. split; [done|]. split; [done|]. split; [|done].
      intros ?. unfold full in Hz. rewrite unicode_len_app in Hz.
      change (unicode_len root_name) with 18 in Hz. lia. }
    destruct (Z.ltb_spec (unicode_len full) (Z.min (unicode_len full) max_size)); [lia|].
    set (len := Z.to_nat (Z.min (unicode_len full) max_size)).
    assert (0 <= unicode_len full) as Hfull0 by (unfold unicode_len, sizeof_WCHAR; lia).
    assert (Z.min (unicode_len full) max_size = Z.of_nat len) as Hlen by (unfold len; lia).
    rewrite Hlen.
    pose proof (length_bytes_of_wchars full) as Hfull.
    pose proof (length_bytes_of_wchars root_name) as Hroot.
    destruct (copy_path_agree (heap s) (root_key s) (bytes_of_wchars full) len a path
                Hup Hpath (S (length (heap s))) (replicate len 0) [])
      as (data&Hcopy&Hdata&Hagree).
    { lia. }
    { by rewrite app_nil_r. }
    { by rewrite length_replicate. }
    { intros i Hi. fold full in Hi. lia. }
    assert (unicode_len full = unicode_len root_name + unicode_len path) as Hsum
      by (unfold full; by rewrite unicode_len_app).
    rewrite <- Hsum in Hcopy. rewrite Hcopy.
    cbn -[memcpy_at bytes_of_wchars unicode_len root_name Z.min take full].
    eexists. split; [done|]. split; [done|]. split; [|lia].
    intros _. split; [done|].
    cbn -[memcpy_at bytes_of_wchars unicode_len root_name Z.min take full].
    destruct (memcpy_at_agree data 0 (bytes_of_wchars root_name) len (bytes_of_wchars full)
                [] (bytes_of_wchars path)) as [Hlen' Hagree']; try done.
    { lia. }
    rewrite Hroot, Z.sub_0_r in Hlen', Hagree'.
    apply list_eq. intros i. destruct (decide (i < len)%nat) as [Hi|Hi].
    + rewrite lookup_take_lt by done. apply Hagree'. simpl. lia.
    + rewrite !lookup_ge_None_2; [done| |]; [rewrite length_take; lia|lia].
Qed.

End PathTheorems.

Section DeleteTheorems.
Context `{cm : Casemap}.

(** X27: [delete_key] with [recurse] on a key below a parent deletes the
    subtree of the key.  With fuel for twice the keys of the arena the
    call returns 0 and sets no error.  Afterwards the key and every key
    that was below it are marked [KEY_DELETED] and have no parent; every
    other key has the parent, the values and the [KEY_DELETED] flag it
    had, and the subkeys it had apart from the deleted key; and no key
    changed its name.  (The hypothesis on the arena holds in every state
    the engine reaches, lemma [reachable_ok].) *)
Theorem delete_key_recurse fuel s a k p :
  heap_ok (heap s) -> heap s !! a = Some k -> k_parent k = Some p ->
  (2 * length (heap s) <= fuel)%nat ->
  exists s', delete_key fuel s a true = Some (0, s') /\
    last_error s' = last_error s /\
    forall x kx, heap s !! x = Some kx ->
      exists kx', heap s' !! x = Some kx' /\ k_name kx' = k_name kx /\
        (within (heap s) a x ->
           has_flag (k_flags kx') KEY_DELETED = true /\ k_parent kx' = None) /\
        (~ within (heap s) a x ->
           k_parent kx' = k_parent kx /\ k_values kx' = k_values kx /\
           has_flag (k_flags kx') KEY_DELETED = has_flag (k_flags kx) KEY_DELETED /\
           forall c, c ∈ k_subkeys kx' <-> c ∈ k_subkeys kx /\ c <> a).
Proof.
  intros Hok Hk Hp Hfuel.
  pose proof (lookup_lt_Some _ _ _ Hk) as Ha.
  pose proof (count_linked_length (drop (S a) (heap s))) as Hcount.
  rewrite length_drop in Hcount.
  destruct (delete_key_subtree_deleted fuel s a k p Hok Hk Hp) as (s'&Hdel&He&_&Hpost); [lia|].
  exists s'. split; [done|]. split; [done|]. intros x kx Hx.
  destruct (Hpost x kx Hx) as (kx'&Hx'&Hn&_&Hin&Hout). by exists kx'.
Qed.

End DeleteTheorems.

Section TokenTheorems.

(** X28: [get_path_token] walks over the elements of a path.  The first
    call fails with [STATUS_OBJECT_PATH_INVALID] on a path that starts
    with a backslash, and else returns the first element, which is empty
    for the empty path only.  A further call, on the token of an
    element, skips the backslashes behind the element and returns the
    element that follows them, without a backslash in it; the token is
    empty when, and only when, the path ends there. *)
Theorem get_path_token_elements pre e k e' rest :
  Forall (fun c => c <> backslash) e' ->
  rest = [] \/ head rest = Some backslash -> (e' = [] -> rest = []) ->
  let path := pre ++ e ++ replicate k backslash ++ e' ++ rest in
  let next := ((length pre + length e + k)%nat, length e') in
  get_path_token path (Some (length pre, length e)) = inr next /\
  token_str path next = e' /\
  get_path_token (e' ++ rest) None = inr (O, length e') /\
  token_str (e' ++ rest) (O, length e') = e' /\
  get_path_token (backslash :: rest) None = inl STATUS_OBJECT_PATH_INVALID.
Proof.
  intros He Hrest Hend path next.
  assert (head (e' ++ rest) <> Some backslash) as Hhead.
  { destruct He as [|c e' Hc _]; simpl; [|congruence]. by rewrite Hend. }
  assert (forall l : list Z, take (length e') (e' ++ l) = e') as Htake.
  { intros l. by rewrite take_app_length. }
  split; [|split; [|split; [|split]]].
  - unfold get_path_token, next.
    replace path with ((pre ++ e) ++ replicate k backslash ++ e' ++ rest)
      by (unfold path; by rewrite <- !app_assoc).
    rewrite <- length_app, drop_app_length.
    rewrite skip_backslashes_replicate, first_element_app by done.
    do 2 f_equal. rewrite !length_app, length_replicate. lia.
  - unfold token_str, next. simpl.
    replace path with ((pre ++ e ++ replicate k backslash) ++ e' ++ rest)
      by (unfold path; by rewrite <- !app_assoc).
    replace (length pre + length e + k)%nat
      with (length (pre ++ e ++ replicate k backslash))
      by (rewrite !length_app, length_replicate; lia).
    by rewrite drop_app_length.
  - unfold get_path_token. destruct (e' ++ rest) as [|c l] eqn:E.
    + apply app_eq_nil in E as [-> _]. done.
    + destruct (Z.eqb_spec c backslash) as [->|_]; [by destruct Hhead|].
      rewrite <- E. by rewrite first_element_app.
  - unfold token_str. simpl. apply Htake.
  - reflexivity.
Qed.

End TokenTheorems.

(** * The theorems on concrete inputs *)

Section Examples.
Local Existing Instance ascii_casemap.

(** The example states are states the engine reaches: each is what its
    script leaves. *)
Lemma chain_state_reachable : reachable chain_state.
Proof.
  apply (run_reachable (link_script 17) (init_state 0)); [apply reachable_init|].
  vm_compute. reflexivity.
Qed.

Lemma cycle_state_reachable : reachable cycle_state.
Proof.
  apply (run_reachable cycle_script (init_state 0)); [apply reachable_init|].
  vm_compute. reflexivity.
Qed.

Lemma value_state_reachable :
  reachable (value_state 0 two_bytes []) /\
  reachable (value_state 0 no_bytes [value_watch]) /\
  reachable (value_state KEY_SYMLINK two_bytes []) /\
  reachable (value_state KEY_SYMLINK no_bytes []).
Proof.
  repeat split.
  - apply (run_reachable (value_script [1; 2]) (init_state 0)); [apply reachable_init|].
    vm_compute. reflexivity.
  - apply (run_reachable (value_script [] ++ watch_script) (init_state 0));
      [apply reachable_init|]. vm_compute. reflexivity.
  - apply (run_reachable (value_script [1; 2] ++ link_option) (init_state 0));
      [apply reachable_init|]. vm_compute. reflexivity.
  - apply (run_reachable (value_script [] ++ link_option) (init_state 0));
      [apply reachable_init|]. vm_compute. reflexivity.
Qed.

Lemma watched_state_reachable : reachable watched_state.
Proof.
  apply (run_reachable watched_script (init_state 0)); [apply reachable_init|].
  vm_compute. reflexivity.
Qed.

Lemma written_state_reachable : reachable written_state.
Proof.
  apply (run_reachable written_script (init_state 0)); [apply reachable_init|].
  vm_compute. reflexivity.
Qed.

(** *** C1 *)

Lemma save_branch_write_path_witness :
  (exists h', save_branch regular_file_os 1 (heap (init_state 0)) O "/w/system.reg"
     = Some (1, h', temp_file_calls regular_file_os "/w/system.reg" 0)) /\
  (exists h', save_branch linked_file_os 1 (heap (init_state 0)) O "/w/system.reg"
     = Some (1, h', in_place_calls linked_file_os "/w/system.reg")).
Proof.
  split.
  - destruct (save_branch_write_path regular_file_os 1 (heap (init_state 0)) O
                (mk_key registryW None None [] 0 [] 0 KEY_DIRTY 0 []) "/w/system.reg")
      as (_&_&Htemp); [apply (init_state_ok 0)|reflexivity|reflexivity|].
    destruct (Htemp eq_refl O) as (h'&E&_); [lia|intros c Hc; lia|reflexivity|].
    exists h'. exact E.
  - destruct (save_branch_write_path linked_file_os 1 (heap (init_state 0)) O
                (mk_key registryW None None [] 0 [] 0 KEY_DIRTY 0 []) "/w/system.reg")
      as (_&Hplace&_); [apply (init_state_ok 0)|reflexivity|reflexivity|].
    destruct (Hplace eq_refl) as (h'&E&_). exists h'. exact E.
Defined.

(** A regular file with one link is written through a temp file, a
    regular file with two links in place: the reverse of what the
    specification's test selects. *)
Lemma save_branch_regular_file_counterexample :
  spec_in_place regular_file_os = true /\
  save_branch regular_file_os 1 (heap (init_state 0)) O "/w/system.reg"
  = Some (1, [mk_key registryW None None [] 0 [] 0 0 0 []],
          [sys_open "/w/system.reg"; sys_lstat "/w/system.reg"; sys_close;
           sys_open_excl "/w/reg2a0000.tmp"; sys_fdopen; sys_save_all_subkeys; sys_fclose;
           sys_rename "/w/reg2a0000.tmp" "/w/system.reg"]) /\
  spec_in_place linked_file_os = false /\
  save_branch linked_file_os 1 (heap (init_state 0)) O "/w/system.reg"
  = Some (1, [mk_key registryW None None [] 0 [] 0 0 0 []],
          [sys_open "/w/system.reg"; sys_lstat "/w/system.reg"; sys_ftruncate;
           sys_fdopen; sys_save_all_subkeys; sys_fclose]).
Proof. repeat split; vm_compute; reflexivity. Qed.

(** *** C2 *)

Lemma loop_state_reachable : reachable loop_state.
Proof.
  apply (run_reachable loop_script (init_state 0)); [apply reachable_init|].
  vm_compute. reflexivity.
Qed.

Lemma loop_state_ok : lookup_ok loop_state.
Proof.
  split; [apply (reachable_ok _ loop_state_reachable)|].
  split; [apply (reachable_subkeys_ok _ loop_state_reachable)|].
  split; [simpl; lia|].
  intros [|[|a]] k; simpl; [| |done]; by intros [= <-].
Qed.

(** A link that names itself, by a path from its parent or by its full
    path: the loop gives up after 17 hops, and so does the lookup of the
    link; the engine is well formed, and the lookup of the full path
    returns. *)
Lemma resolve_symlinks_hops_witness :
  resolve_symlinks open_link_target link_fuel cycle_state 1 0 0
  = Some (None, set_error cycle_state STATUS_NAME_TOO_LONG, 17) /\
  resolve_symlinks open_link_target link_fuel loop_state 1 0 0
  = Some (None, set_error loop_state STATUS_NAME_TOO_LONG, 17) /\
  key_lookup_name open_link_target link_fuel loop_state O (Some [97]) 0
  = Some (None, [97], set_error loop_state STATUS_NAME_TOO_LONG) /\
  lookup_ok loop_state /\
  exists r s', open_named_object loop_state None root_link 0 = Some (r, s') /\
    only_error loop_state s'.
Proof.
  split; [|split; [|split; [|split; [exact loop_state_ok|]]]].
  - destruct (resolve_symlinks_hops cycle_state 1 0) as (_&_&_&_&Habort&Hcycle&_).
    apply Habort. apply (Hcycle O 1%nat 1%nat cycle_state cycle_state); [reflexivity|lia|].
    reflexivity.
  - destruct (resolve_symlinks_hops loop_state 1 0) as (_&_&_&_&Habort&Hcycle&_).
    apply Habort. apply (Hcycle O 1%nat 1%nat loop_state loop_state); [reflexivity|lia|].
    reflexivity.
  - destruct (resolve_symlinks_hops loop_state 1 0) as (_&_&_&_&Habort&Hcycle&_).
    destruct Habort as [_ Hstep].
    { apply (Hcycle O 1%nat 1%nat loop_state loop_state); [reflexivity|lia|reflexivity]. }
    apply (Hstep O (plain_key registryW None [1%nat] 8) [97] (link_key [97] root_link));
      try reflexivity; try done.
    + apply (reachable_subkeys_ok _ loop_state_reachable).
    + apply list_elem_of_here.
  - destruct (resolve_symlinks_hops loop_state 1 0) as (_&_&_&_&_&_&_&Htotal).
    destruct (Htotal loop_state_ok) as [_ Hopen].
    destruct (Hopen eq_refl None root_link) as (r&s'&Hrun&Herr&_); [done|].
    by exists r, s'.
Defined.

(** Seventeen links in a row are followed, and the lookup of the first
    one succeeds at the key the last one names. *)
Lemma seventeen_links_counterexample :
  reachable chain_state /\
  resolve_symlinks open_link_target link_fuel chain_state 1 0 0
  = Some (Some 18%nat, chain_state, 17) /\
  key_lookup_name open_link_target link_fuel chain_state O (Some [97]) 0
  = Some (Some 18%nat, [], chain_state) /\
  last_error chain_state = STATUS_SUCCESS.
Proof.
  split; [apply chain_state_reachable|]. repeat split; vm_compute; reflexivity.
Qed.

(** *** C3 *)

Lemma dirty_propagation_witness :
  reachable written_state /\ dirty_invariant (heap written_state).
Proof.
  split; [apply written_state_reachable|].
  apply (dirty_propagation written_state written_state_reachable).
Defined.

(** *** C4 *)

Lemma set_value_identical_witness :
  set_value (value_state 0 two_bytes []) O [110] 1 [1; 2]
  = Some (value_state 0 two_bytes []).
Proof.
  destruct (set_value_identical (value_state 0 two_bytes []) O
              (value_key 0 two_bytes []) [110] 1 [1; 2]) as [Hfull _].
  - reflexivity.
  - apply (reachable_values_ok _ (proj1 value_state_reachable) O). reflexivity.
  - destruct Hfull as [Hsame _]; [discriminate|].
    apply (Hsame O two_bytes); reflexivity.
Defined.

(** A value of length 0 is stored again: the key is marked and the watch
    is signalled. *)
Lemma set_value_empty_counterexample :
  reachable (value_state 0 no_bytes [value_watch]) /\
  k_values (value_key 0 no_bytes [value_watch]) = [no_bytes] /\
  kv_type no_bytes = 1 /\ kv_len no_bytes = 0 /\ value_bytes no_bytes = [] /\
  set_value (value_state 0 no_bytes [value_watch]) O [110] 1 []
  = Some (mk_state [mk_key registryW None None [] 0 [no_bytes] 8 KEY_DIRTY 0
                      [mk_notify None 0 REG_NOTIFY_CHANGE_LAST_SET 16 O]]
                   O STATUS_SUCCESS 0 [7%nat]).
Proof.
  split; [apply value_state_reachable|]. repeat split; vm_compute; reflexivity.
Qed.

(** *** C5 *)

Lemma symlink_key_write_witness :
  set_value (value_state KEY_SYMLINK two_bytes []) O [120] 1 [1; 2]
  = Some (set_error (value_state KEY_SYMLINK two_bytes []) STATUS_ACCESS_DENIED).
Proof.
  destruct (symlink_key_write (value_state KEY_SYMLINK two_bytes []) O
              (value_key KEY_SYMLINK two_bytes []) [120] 1 [1; 2])
    as (s'&Hrun&_&_&[[-> _]|[_ (i&v&Hf&_)]]).
  - reflexivity.
  - reflexivity.
  - intros [Ht _]. discriminate.
  - exact Hrun.
  - vm_compute in Hf. discriminate.
Defined.

(** A write that is not the link value goes through without an error
    when the key holds the same value. *)
Lemma symlink_key_same_value_counterexample :
  reachable (value_state KEY_SYMLINK two_bytes []) /\
  has_flag (k_flags (value_key KEY_SYMLINK two_bytes [])) KEY_SYMLINK = true /\
  not_link_value [110] 1 = true /\
  set_value (value_state KEY_SYMLINK two_bytes []) O [110] 1 [1; 2]
  = Some (value_state KEY_SYMLINK two_bytes []) /\
  last_error (value_state KEY_SYMLINK two_bytes []) = STATUS_SUCCESS.
Proof.
  split; [apply value_state_reachable|]. repeat split; vm_compute; reflexivity.
Qed.

(** *** C6 *)

(** A change of name at the subkey signals its own watch and the subtree
    watch of the root, not the plain watch of the root. *)
Lemma touch_key_notifies_witness :
  exists s', touch_key watched_state 1 REG_NOTIFY_CHANGE_NAME = Some s' /\
             signaled s' = [3%nat; 1%nat].
Proof.
  destruct (touch_key_notifies watched_state 1 REG_NOTIFY_CHANGE_NAME)
    as (s'&evs&Hrun&Hsig&_).
  - apply (reachable_ok _ watched_state_reachable).
  - simpl. lia.
  - exists s'. split; [exact Hrun|]. vm_compute in Hrun. by injection Hrun as <-.
Defined.

(** *** C7 *)

(** A name of 32767 [WCHAR]s is refused. *)
Lemma open_key_name_counterexample :
  Z.of_nat (length (replicate (Z.to_nat 32767) 97)) <= 65533 /\
  open_key_handler one_handle next_handle open_named_object (mk_thread true true)
    (init_state 0) (mk_open_key_request 4 0 0 (replicate (Z.to_nat 32767) 97))
  = Some (0, set_error (init_state 0) STATUS_OBJECT_NAME_INVALID, []).
Proof. split; vm_compute; [discriminate|reflexivity]. Qed.

(** *** C8 *)

Lemma create_key_empty_path_created_witness :
  create_key_handler one_handle next_handle (mk_thread true true) (init_state 0)
    (mk_create_key_request 4 0 [] [] 0 0)
  = Some (mk_create_key_reply 8 1, init_state 0,
          [call_get_handle_obj 4 0; call_alloc_handle O 0 0]).
Proof.
  apply (create_key_empty_path_created one_handle next_handle (mk_thread true true)
           (init_state 0) (mk_create_key_request 4 0 [] [] 0 0) O
           (mk_key registryW None None [] 0 [] 0 KEY_DIRTY 0 []));
    (reflexivity || discriminate).
Defined.

(** *** C9 *)

Lemma symlink_identical_value_witness :
  set_value (value_state KEY_SYMLINK two_bytes []) O [110] 1 [1; 2]
  = Some (value_state KEY_SYMLINK two_bytes []).
Proof.
  destruct (symlink_identical_value (value_state KEY_SYMLINK two_bytes []) O
              (value_key KEY_SYMLINK two_bytes []) [110] 1 [1; 2] O two_bytes)
    as [Hsame _];
    [reflexivity|reflexivity
    |apply (reachable_values_ok _ (proj1 (proj2 (proj2 value_state_reachable))) O); reflexivity
    |reflexivity|reflexivity|reflexivity|reflexivity|reflexivity|].
  apply Hsame. discriminate.
Defined.

(** The same call for a value of length 0 is refused. *)
Lemma symlink_empty_value_counterexample :
  reachable (value_state KEY_SYMLINK no_bytes []) /\
  k_values (value_key KEY_SYMLINK no_bytes []) = [no_bytes] /\
  kv_type no_bytes = 1 /\ kv_len no_bytes = 0 /\ value_bytes no_bytes = [] /\
  set_value (value_state KEY_SYMLINK no_bytes []) O [110] 1 []
  = Some (set_error (value_state KEY_SYMLINK no_bytes []) STATUS_ACCESS_DENIED).
Proof.
  split; [apply value_state_reachable|]. repeat split; vm_compute; reflexivity.
Qed.

(** *** C10 *)

Lemma enum_key_own_index_witness :
  enum_key written_state O (-1) KeyBasicInformation 64 empty_enum_key_reply
  = Some (mk_enum_key_reply 1 0 0 16 16 0 0 0 0 (bytes_of_wchars registryW), written_state) /\
  enum_key written_state O 0 KeyBasicInformation 64 empty_enum_key_reply
  = Some (mk_enum_key_reply 0 1 0 2 2 0 0 0 0 (bytes_of_wchars [97]), written_state).
Proof.
  destruct (enum_key_own_index one_handle 64 written_state O
              (mk_key registryW None None [1%nat] 8 [] 0 KEY_DIRTY 0 [])
              (mk_enum_key_request 4 (-1) KeyBasicInformation) 64)
    as (_&Hself&Hchild&_).
  - reflexivity.
  - split.
    + apply Hself. vm_compute. split; [reflexivity|discriminate].
    + rewrite Hchild by discriminate. vm_compute. reflexivity.
Defined.

(** *** X2 *)

(** The value [n] is found under the name [N]. *)
Lemma find_value_sorted_witness :
  find_value (value_key 0 two_bytes []) [78] = Some (Found 0).
Proof.
  destruct (find_value_sorted (value_key 0 two_bytes []) [78]) as (_&Hfind&_).
  - apply (reachable_values_ok _ (proj1 value_state_reachable) O). reflexivity.
  - apply (Hfind O two_bytes); reflexivity.
Defined.

(** *** X3 *)

Lemma reachable_values_witness :
  values_sorted (value_key 0 two_bytes []) /\ Forall value_ok [two_bytes].
Proof.
  destruct (reachable_values (value_state 0 two_bytes []) O (value_key 0 two_bytes []))
    as (Hs&_&Hok); [apply value_state_reachable|reflexivity|].
  split; [exact Hs|exact Hok].
Defined.

(** *** X4 *)

(** Two bytes are set and read back through a buffer of one byte. *)
Lemma set_value_get_value_witness :
  exists s', set_value (init_state 0) O [110] 1 [1; 2] = Some s' /\
    get_value s' O [110] 1 empty_get_key_value_reply
    = Some (mk_get_key_value_reply 1 2 [1], s').
Proof.
  destruct (set_value_get_value (init_state 0) O
              (mk_key registryW None None [] 0 [] 0 KEY_DIRTY 0 []) [110] 1 [1; 2] 1
              empty_get_key_value_reply) as (s'&Hset&_&Hget).
  - reflexivity.
  - apply (init_state_ok 0).
  - apply names_sorted_nil.
  - apply Forall_nil_2.
  - reflexivity.
  - vm_compute. discriminate.
  - lia.
  - exists s'. split; [exact Hset|exact Hget].
Defined.

(** *** X5 *)

(** Setting the value [x] leaves the value [n] as it was. *)
Lemma set_value_other_values_witness :
  exists s', set_value (value_state 0 two_bytes []) O [120] 1 [3] = Some s' /\
    fst <$> get_value s' O [110] 8 empty_get_key_value_reply
    = fst <$> get_value (value_state 0 two_bytes []) O [110] 8 empty_get_key_value_reply.
Proof.
  assert (exists s', set_value (value_state 0 two_bytes []) O [120] 1 [3] = Some s')
    as [s' Hset] by (eexists; vm_compute; reflexivity).
  exists s'. split; [exact Hset|].
  apply (set_value_other_values (value_state 0 two_bytes []) O (value_key 0 two_bytes [])
           [120] 1 [3] s').
  - reflexivity.
  - apply (reachable_values_ok _ (proj1 value_state_reachable) O). reflexivity.
  - exact Hset.
  - intros H. vm_compute in H. discriminate.
Defined.

(** *** X6 *)

Lemma delete_value_get_value_witness :
  exists s', delete_value (value_state 0 two_bytes []) O [110] = Some s' /\
    get_value s' O [110] 8 empty_get_key_value_reply
    = Some (mk_get_key_value_reply (-1) 0 [], set_error s' STATUS_OBJECT_NAME_NOT_FOUND).
Proof.
  destruct (delete_value_get_value (value_state 0 two_bytes []) O (value_key 0 two_bytes [])
              [110]) as (s'&k'&Hdel&_&_&Hget&_).
  - reflexivity.
  - apply (reachable_ok _ (proj1 value_state_reachable)).
  - apply (reachable_values_ok _ (proj1 value_state_reachable) O). reflexivity.
  - exists s'. split; [exact Hdel|apply Hget].
Defined.

(** *** X7 *)

(** The name and the data of the value [n] take four bytes; a buffer of
    three holds the name and the first byte of the data. *)
Lemma enum_value_reply_witness :
  enum_value (value_state 0 two_bytes []) O 0 KeyValueFullInformation 3
    empty_enum_key_value_reply
  = Some (mk_enum_key_value_reply 4 2 1 [110; 0; 1], value_state 0 two_bytes []).
Proof.
  destruct (enum_value_reply (value_state 0 two_bytes []) O (value_key 0 two_bytes []) 3)
    as (_&_&Hreply); [reflexivity|lia|].
  apply (Hreply O two_bytes KeyValueFullInformation).
  - reflexivity.
  - vm_compute. repeat split; discriminate.
  - auto.
Defined.

(** *** X8 *)

Lemma enum_value_get_value_witness :
  exists r, enum_value (value_state 0 two_bytes []) O 0 KeyValueFullInformation 8
              empty_enum_key_value_reply = Some (r, value_state 0 two_bytes []) /\
    get_value (value_state 0 two_bytes []) O [110] 8 empty_get_key_value_reply
    = Some (mk_get_key_value_reply (ev_type r) (ev_total r - ev_namelen r)
              (drop (Z.to_nat (ev_namelen r)) (ev_data r)), value_state 0 two_bytes []).
Proof.
  destruct (enum_value_get_value (value_state 0 two_bytes []) O (value_key 0 two_bytes [])
              O two_bytes 8) as (r&Henum&_&_&Hget).
  - reflexivity.
  - apply (reachable_values_ok _ (proj1 value_state_reachable) O). reflexivity.
  - reflexivity.
  - vm_compute. repeat split; discriminate.
  - vm_compute. discriminate.
  - exists r. split; [exact Henum|exact Hget].
Defined.

(** *** X9 *)

Lemma reachable_arrays_fit_witness :
  reachable written_state /\
  capacity_ok (mk_key [97] None (Some O) [] 0 [two_bytes] 8 KEY_DIRTY 0 []).
Proof.
  split; [apply written_state_reachable|].
  apply (reachable_arrays_fit written_state 1); [apply written_state_reachable|reflexivity].
Defined.

(** *** X10 *)

Lemma reachable_tree_witness :
  reachable written_state /\ tree_ok (heap written_state).
Proof.
  split; [apply written_state_reachable|].
  apply (reachable_tree written_state written_state_reachable).
Defined.
(** *** X11 *)

Lemma touch_key_frame_witness :
  exists s', touch_key watched_state 1 REG_NOTIFY_CHANGE_NAME = Some s' /\
             current_time s' = 0 /\ length (heap s') = 2%nat.
Proof.
  assert (exists s', touch_key watched_state 1 REG_NOTIFY_CHANGE_NAME = Some s')
    as [s' Ht] by (eexists; vm_compute; reflexivity).
  exists s'. split; [exact Ht|].
  destruct (touch_key_frame watched_state 1 REG_NOTIFY_CHANGE_NAME s' Ht) as (_&_&Hc&Hl&_).
  split; [exact Hc|exact Hl].
Defined.

(** *** X12 *)

(** The key [a] is deleted; a handle to it then resolves to nothing. *)
Lemma delete_key_leaf_witness :
  exists s', delete_key 1 written_state 1 false = Some (0, s') /\
    get_hkey_obj (fun _ _ _ => inr 1%nat) s' 4 DELETE
    = Some (None, set_error s' STATUS_KEY_DELETED).
Proof.
  destruct (delete_key_leaf (fun _ _ _ => inr 1%nat) O written_state 1
              (mk_key [97] None (Some O) [] 0 [two_bytes] 8 KEY_DIRTY 0 []) O
              (mk_key registryW None None [1%nat] 8 [] 0 KEY_DIRTY 0 []))
    as [_ Hleaf].
  - apply (reachable_ok _ written_state_reachable).
  - reflexivity.
  - reflexivity.
  - reflexivity.
  - destruct (Hleaf eq_refl false) as (s'&ka'&kp'&Hdel&_&_&_&_&_&_&_&_&Hh).
    exists s'. split; [exact Hdel|]. by apply Hh.
Defined.

(** *** X13 *)

(** The change of name that signalled the events 3 and 1 signals nothing
    when it is repeated. *)
Lemma touch_key_once_witness :
  exists s' s'', touch_key watched_state 1 REG_NOTIFY_CHANGE_NAME = Some s' /\
    signaled s' = [3%nat; 1%nat] /\
    touch_key s' 1 REG_NOTIFY_CHANGE_NAME = Some s'' /\ signaled s'' = signaled s'.
Proof.
  assert (exists s', touch_key watched_state 1 REG_NOTIFY_CHANGE_NAME = Some s' /\
                     signaled s' = [3%nat; 1%nat])
    as (s'&Ht&Hsig) by (eexists; vm_compute; split; reflexivity).
  destruct (touch_key_once watched_state 1 REG_NOTIFY_CHANGE_NAME s') as (s''&Ht'&Hsame).
  - apply (reachable_ok _ watched_state_reachable).
  - exact Ht.
  - exists s', s''. split; [exact Ht|]. split; [exact Hsig|]. split; [exact Ht'|exact Hsame].
Defined.

(** *** X14 *)

(** The subtree watch of the root is armed again with event 9 and a
    request for changes of values: it keeps watching names. *)
Lemma set_registry_notification_arms_witness :
  exists s' k' n',
    set_registry_notification watched_state O 9 0 REG_NOTIFY_CHANGE_LAST_SET 16 O = Some s' /\
    heap s' !! O = Some k' /\ n' ∈ k_notify_list k' /\ n_event n' = Some 9%nat /\
    n_subtree n' = 1 /\ n_filter n' = REG_NOTIFY_CHANGE_NAME.
Proof.
  destruct (set_registry_notification_arms watched_state O
              (mk_key registryW None None [1%nat] 8 [] 0 0 0
                 [mk_notify (Some 1%nat) 1 REG_NOTIFY_CHANGE_NAME 16 O;
                  mk_notify (Some 2%nat) 0 REG_NOTIFY_CHANGE_NAME 20 O])
              9%nat 0 REG_NOTIFY_CHANGE_LAST_SET 16 O)
    as (s'&k'&n'&Hset&_&Hk'&_&Hin&_&Hev&Hold&_).
  - reflexivity.
  - apply (reachable_watch_ok _ watched_state_reachable O). reflexivity.
  - exists s', k', n'. split; [exact Hset|]. split; [exact Hk'|]. split; [exact Hin|].
    split; [exact Hev|].
    destruct (Hold (mk_notify (Some 1%nat) 1 REG_NOTIFY_CHANGE_NAME 16 O)) as (Hs&Hf&_);
      [by left|reflexivity|]. split; [exact Hs|exact Hf].
Defined.

(** *** X15 *)

Lemma reachable_notifications_witness : reachable watched_state /\ O = O.
Proof.
  split; [apply watched_state_reachable|].
  apply (reachable_notifications watched_state O
           (mk_key registryW None None [1%nat] 8 [] 0 0 0
              [mk_notify (Some 1%nat) 1 REG_NOTIFY_CHANGE_NAME 16 O;
               mk_notify (Some 2%nat) 0 REG_NOTIFY_CHANGE_NAME 20 O])
           O O (mk_notify (Some 1%nat) 1 REG_NOTIFY_CHANGE_NAME 16 O)
           (mk_notify (Some 1%nat) 1 REG_NOTIFY_CHANGE_NAME 16 O));
    (apply watched_state_reachable || reflexivity).
Defined.

(** *** X16 *)

(** Closing the handle 16 signals the event of its notification. *)
Lemma key_close_handle_removes_witness :
  exists s', key_close_handle watched_state O O 16 = Some (1, s') /\ 1%nat ∈ signaled s'.
Proof.
  destruct (key_close_handle_removes watched_state O
              (mk_key registryW None None [1%nat] 8 [] 0 0 0
                 [mk_notify (Some 1%nat) 1 REG_NOTIFY_CHANGE_NAME 16 O;
                  mk_notify (Some 2%nat) 0 REG_NOTIFY_CHANGE_NAME 20 O]) O 16)
    as (s'&k'&Hclose&_&_&_&_&Hsig&_).
  - reflexivity.
  - apply (reachable_watch_ok _ watched_state_reachable O). reflexivity.
  - exists s'. split; [exact Hclose|]. apply Hsig. right.
    exists (mk_notify (Some 1%nat) 1 REG_NOTIFY_CHANGE_NAME 16 O).
    split; [by left|]. split; reflexivity.
Defined.
(** *** X17 *)

(** The subkey [a] of the root is found under the name [A]. *)
Lemma find_subkey_sorted_witness :
  find_subkey (heap written_state) (mk_key registryW None None [1%nat] 8 [] 0 KEY_DIRTY 0 [])
    [65] = Some (Some 1%nat).
Proof.
  destruct (find_subkey_sorted (heap written_state) O
              (mk_key registryW None None [1%nat] 8 [] 0 KEY_DIRTY 0 []) [65])
    as (_&Hfind&_).
  - apply (reachable_subkeys_ok _ written_state_reachable).
  - reflexivity.
  - apply (Hfind 1%nat (mk_key [97] None (Some O) [] 0 [two_bytes] 8 KEY_DIRTY 0 []));
      [by left|reflexivity|reflexivity].
Defined.

(** *** X18 *)

(** The first two subkeys of the root of the chain, [a] and [b]. *)
Lemma reachable_subkeys_witness :
  exists ki kj, heap chain_state !! 1%nat = Some ki /\ heap chain_state !! 2%nat = Some kj /\
    compare_name (k_name ki) (k_name kj) < 0.
Proof.
  destruct (reachable_subkeys chain_state O (plain_key registryW None (seq 1 18) 18)
              0 1 1 2) as (ki&kj&Hi&Hj&Hlt&_).
  - apply chain_state_reachable.
  - reflexivity.
  - reflexivity.
  - reflexivity.
  - exists ki, kj. split; [exact Hi|]. split; [exact Hj|]. apply Hlt. lia.
Defined.

(** *** X19 *)

(** A key [a] is allocated and linked under the root. *)
Lemma key_link_name_find_subkey_witness :
  exists s' kp',
    key_link_name (with_heap (init_state 0) (heap (init_state 0) ++ [blank_key [97]]))
      1 [97] O = Some s' /\
    heap s' !! O = Some kp' /\ find_subkey (heap s') kp' [97] = Some (Some 1%nat).
Proof.
  destruct (key_link_name_find_subkey
              (with_heap (init_state 0) (heap (init_state 0) ++ [blank_key [97]]))
              1 (blank_key [97]) [97] O
              (mk_key registryW None None [] 0 [] 0 KEY_DIRTY 0 []))
    as (s'&Hlink&_&kp'&kc'&Hkp'&_&_&_&_&Hfind).
  - apply (alloc_ok (heap (init_state 0)) (blank_key [97])); [reflexivity|reflexivity|].
    apply (reachable_ok _ (reachable_init 0)).
  - apply subkeys_ok_snoc; [reflexivity|].
    apply (reachable_subkeys_ok _ (reachable_init 0)).
  - reflexivity.
  - reflexivity.
  - reflexivity.
  - intros x kx Hx. by apply elem_of_nil in Hx.
  - exists s', kp'. split; [exact Hlink|]. split; [exact Hkp'|exact Hfind].
Defined.
(** *** X20 *)

(** The root of the initial engine is dirty: the save writes it, and a
    second save has nothing to write. *)
Lemma save_branch_frame_witness :
  exists h' calls,
    save_branch regular_file_os 1 (heap (init_state 0)) O "/w/system.reg"
    = Some (1, h', calls) /\
    Forall2 cleaned (heap (init_state 0)) h' /\
    save_branch regular_file_os 1 h' O "/w/system.reg" = Some (1, h', []).
Proof.
  assert (exists h' calls,
            save_branch regular_file_os 1 (heap (init_state 0)) O "/w/system.reg"
            = Some (1, h', calls)) as (h'&calls&Hsave)
    by (eexists; eexists; vm_compute; reflexivity).
  destruct (save_branch_frame regular_file_os 1 (heap (init_state 0)) O "/w/system.reg"
              1 h' calls Hsave) as (F&_&_&_&Hagain).
  exists h', calls. split; [exact Hsave|]. split; [exact F|].
  apply (Hagain (mk_key registryW None None [] 0 [] 0 KEY_DIRTY 0 [])).
  - reflexivity.
  - unfold volatile. vm_compute. discriminate.
  - lia.
Defined.

(** *** X21 *)

(** The subkey [a] of the root is found under the name [A]. *)
Lemma key_lookup_name_step_witness :
  key_lookup_name no_resolver 1 written_state O (Some [65]) 0
  = Some (Some 1%nat, [], written_state).
Proof.
  destruct (key_lookup_name_step no_resolver 0 written_state O
              (mk_key registryW None None [1%nat] 8 [] 0 KEY_DIRTY 0 []) [65] 0)
    as (_&_&_&Hfound).
  - apply (reachable_subkeys_ok _ written_state_reachable).
  - reflexivity.
  - reflexivity.
  - reflexivity.
  - apply (Hfound 1%nat (mk_key [97] None (Some O) [] 0 [two_bytes] 8 KEY_DIRTY 0 [])).
    + discriminate.
    + vm_compute. discriminate.
    + by left.
    + reflexivity.
    + reflexivity.
    + by right.
Defined.

(** *** X22 *)

(** The last link of the chain, [q], names the key [z]: a lookup of [q]
    under the root returns [z]. *)
Lemma key_lookup_name_link_witness :
  key_lookup_name open_link_target 2 chain_state O (Some [113]) 0
  = Some (Some 18%nat, [], chain_state).
Proof.
  destruct (key_lookup_name_link open_link_target 0 chain_state O
              (plain_key registryW None (seq 1 18) 18) [113] 0
              17%nat (link_key [113] [122]))
    as (_&_&_&Htarget).
  - apply (reachable_subkeys_ok _ chain_state_reachable).
  - reflexivity.
  - reflexivity.
  - reflexivity.
  - reflexivity.
  - discriminate.
  - vm_compute. discriminate.
  - apply (list_elem_of_lookup_2 _ 16%nat). reflexivity.
  - reflexivity.
  - reflexivity.
  - reflexivity.
  - apply (reachable_values_ok _ chain_state_reachable 17%nat). reflexivity.
  - apply (Htarget 18%nat (plain_key [122] (Some O) [] 0) chain_state).
    + vm_compute. reflexivity.
    + reflexivity.
    + reflexivity.
Defined.

(** *** X23 *)

(** A generic read with a WoW64 bit maps to the rights of [KEY_READ]. *)
Lemma key_map_access_rights_witness :
  Z.land (key_map_access (Z.lor GENERIC_READ KEY_WOW64_64KEY)) KEY_READ = KEY_READ.
Proof.
  pose proof (key_map_access_rights (Z.lor GENERIC_READ KEY_WOW64_64KEY)) as H.
  cbv zeta in H. destruct H as (_&_&H&_). apply H. reflexivity.
Defined.

(** *** X24 *)

(** A request with the name [n] in three bytes of name and the data
    [1; 2]: the third byte is dropped. *)
Lemma set_key_value_handler_request_witness :
  set_key_value_handler one_handle (init_state 0)
    (mk_set_key_value_request 4 1 3 [110; 0; 9; 1; 2])
  = (s' ← set_value (init_state 0) O [110] 1 [1; 2];
     Some (s', [call_get_handle_obj 4 KEY_SET_VALUE])).
Proof.
  pose proof (set_key_value_handler_request one_handle (init_state 0) 4 1 [110] [9] [1; 2])
    as H.
  cbv zeta in H. destruct H as (_&_&H).
  - repeat constructor; lia.
  - simpl. lia.
  - exact (H O (mk_key registryW None None [] 0 [] 0 KEY_DIRTY 0 []) eq_refl eq_refl).
Defined.

(** *** X25 *)

(** The lookup of [A\b] under the root finds [a] and leaves [b]. *)
Lemma key_lookup_name_reads_witness :
  exists skipped,
    [65; 92; 98] = first_element [65; 92; 98] ++ skipped ++ [98] /\
    Forall (fun c => c = backslash) skipped.
Proof.
  assert (key_lookup_name no_resolver 1 written_state O (Some [65; 92; 98]) 0
          = Some (Some 1%nat, [98], written_state)) as Hlook by (vm_compute; reflexivity).
  destruct (key_lookup_name_reads no_resolver 1 written_state O [65; 92; 98] 0
              (Some 1%nat) [98] written_state no_resolver_error Hlook) as (_&_&Hfound).
  destruct (Hfound (ex_intro _ 1%nat eq_refl)) as (skipped&E&_&Hs&_).
  exists skipped. split; [exact E|exact Hs].
Defined.

(** *** X26 *)

Lemma nested_state_reachable : reachable nested_state.
Proof.
  apply (run_reachable nested_script (init_state 0)); [apply reachable_init|].
  vm_compute. reflexivity.
Qed.

(** The name of the key [b] under [a]. *)
Lemma enum_key_name_information_witness :
  exists reply',
    enum_key nested_state 2 (-1) KeyNameInformation 64 empty_enum_key_reply
    = Some (reply', nested_state) /\
    r_total reply' = 26 /\
    r_data reply' = bytes_of_wchars (root_name ++ [92; 97; 92; 98]).
Proof.
  pose proof (enum_key_name_information nested_state 2
                (mk_key [98] None (Some 1%nat) [] 0 [] 0 KEY_DIRTY 0 [])
                [92; 97; 92; 98] 64 empty_enum_key_reply) as H.
  cbv zeta in H. destruct H as (_&H).
  - apply (reachable_ok _ nested_state_reachable).
  - reflexivity.
  - apply (key_path_child _ _ 2 (mk_key [98] None (Some 1%nat) [] 0 [] 0 KEY_DIRTY 0 [])
             1 [92; 97]); [discriminate|reflexivity|reflexivity|].
    apply (key_path_child _ _ 1 (mk_key [97] None (Some O) [2%nat] 8 [] 0 KEY_DIRTY 0 [])
             O []); [discriminate|reflexivity|reflexivity|].
    apply key_path_root.
  - lia.
  - destruct H as (reply'&Henum&Htotal&Hdata&_); [discriminate|].
    exists reply'. split; [exact Henum|]. split; [exact Htotal|].
    destruct Hdata as [_ Hdata]; [lia|]. exact Hdata.
Defined.

(** *** X27 *)

(** Deleting the subtree of [a] deletes [b]. *)
Lemma delete_key_recurse_witness :
  exists s' kb',
    delete_key 8 nested_state 1 true = Some (0, s') /\
    heap s' !! 2%nat = Some kb' /\
    has_flag (k_flags kb') KEY_DELETED = true /\ k_parent kb' = None.
Proof.
  destruct (delete_key_recurse 8 nested_state 1
              (mk_key [97] None (Some O) [2%nat] 8 [] 0 KEY_DIRTY 0 []) O)
    as (s'&Hdel&_&Hpost).
  - apply (reachable_ok _ nested_state_reachable).
  - reflexivity.
  - reflexivity.
  - simpl. lia.
  - destruct (Hpost 2%nat (mk_key [98] None (Some 1%nat) [] 0 [] 0 KEY_DIRTY 0 []) eq_refl)
      as (kb'&Hkb'&_&Hin&_).
    destruct Hin as [Hflag Hpar].
    { right. by apply (ancestor_parent _ 2%nat
                         (mk_key [98] None (Some 1%nat) [] 0 [] 0 KEY_DIRTY 0 [])). }
    exists s', kb'. split; [exact Hdel|]. split; [exact Hkb'|]. split; [exact Hflag|exact Hpar].
Defined.

(** *** X28 *)

(** In the path [a\\b\c] the token behind [a] is [b]. *)
Lemma get_path_token_elements_witness :
  get_path_token [97; 92; 92; 98; 92; 99] (Some (O, 1%nat)) = inr (3%nat, 1%nat) /\
  token_str [97; 92; 92; 98; 92; 99] (3%nat, 1%nat) = [98].
Proof.
  pose proof (get_path_token_elements [] [97] 2 [98] [92; 99]) as H.
  cbv zeta in H. destruct H as (Hnext&Hstr&_).
  - repeat constructor; discriminate.
  - by right.
  - discriminate.
  - split; [exact Hnext|exact Hstr].
Defined.

End Examples.
